(** * Combo: combined constant propagation and congruence partitioning

    A shallow embedding of [ir/opt/combo.c] (Click's combined analysis as
    implemented in libFirm) and the properties of its transfer functions,
    monotonicity check, splitter, propagation queue and apply phase.

    Pointers to IR nodes, to their analysis records ([node_t]) and to
    partitions are natural numbers.  During the analysis every IR node has
    exactly one [node_t] (the link slot, [get_irn_node]), so an IR node and
    its [node_t] share their index.  Intrusive lists (Leader, Follower,
    cprop, cprop_X, the work list, the race lists) are the lists of the
    indices they link, in list order. *)

From Stdlib Require Import ZArith Lia Bool.
From stdpp Require Import base option list sorting gmap.

(** ** Host IR: modes, tarvals, opcodes, nodes *)

(** Modelled from the spec: the mode of a value, the type tag "integer width
    + signedness, float, boolean, memory, control, tuple" (irmode.h is not
    part of the sources). *)
Inductive ir_mode : Type :=
  | mode_T                                   (* tuple *)
  | mode_X                                   (* control flow *)
  | mode_M                                   (* memory *)
  | mode_BB                                  (* basic block *)
  | mode_b                                   (* boolean *)
  | mode_P                                   (* reference *)
  | mode_int (bits : N) (signed : bool)
  | mode_float (bits : N).

Global Instance ir_mode_eq_dec : EqDecision ir_mode.
Proof. solve_decision. Defined.

(** Modelled from the spec: [mode_is_float] is the test for the float tag. *)
Definition mode_is_float (m : ir_mode) : bool :=
  match m with mode_float _ => true | _ => false end.

(** Modelled from the spec: tarvals are the compile-time values of the host
    (tv.h is not part of the sources).  The reserved tarvals are those the
    pass names; every other tarval is a value of some mode. *)
Inductive ir_tarval : Type :=
  | tarval_bad
  | tarval_undefined
  | tarval_b_false
  | tarval_b_true
  | tarval_reachable
  | tarval_value (m : ir_mode) (v : Z).

Global Instance ir_tarval_eq_dec : EqDecision ir_tarval.
Proof. solve_decision. Defined.

(** Modelled from the spec: Top and Bottom of the lattice are the host's
    "undefined" and "bad" tarvals (the macros of tv.h). *)
Definition tarval_top : ir_tarval := tarval_undefined.
Definition tarval_bottom : ir_tarval := tarval_bad.

(** [#define tarval_unreachable tarval_top]: the pass uses Top for
    Unreachable. *)
Definition tarval_unreachable : ir_tarval := tarval_top.

(** Modelled from the spec: a constant is "a concrete value of some mode;
    includes boolean true/false"; the other reserved tarvals are not
    constants. *)
Definition tarval_is_constant (tv : ir_tarval) : bool :=
  match tv with
  | tarval_b_false | tarval_b_true | tarval_value _ _ => true
  | _ => false
  end.

(** Modelled from the spec: "null ... of a mode". *)
Definition get_mode_null (m : ir_mode) : ir_tarval := tarval_value m 0.

Definition tarval_is_null (tv : ir_tarval) : bool :=
  match tv with tarval_value _ v => Z.eqb v 0 | _ => false end.

Definition get_tarval_mode (tv : ir_tarval) : ir_mode :=
  match tv with
  | tarval_value m _ => m
  | tarval_b_false | tarval_b_true => mode_b
  | tarval_reachable => mode_X
  | _ => mode_BB
  end.

Definition get_tarval_long (tv : ir_tarval) : Z :=
  match tv with
  | tarval_value _ v => v
  | tarval_b_true => 1
  | _ => 0
  end.

(** Entities (addresses of static objects) are opaque handles. *)
Definition ir_entity : Type := nat.

(** [lattice_elem_t] is a C union of a tarval pointer and a symconst
    symbol; [is_tarval] / [is_entity] read the kind tag of the pointee.
    Comparing the [tv] member compares the pointer, so a symbol is never
    equal to a tarval. *)
Inductive lattice_elem_t : Type :=
  | L_tv (tv : ir_tarval)
  | L_sym (sym : ir_entity).

Global Instance lattice_elem_eq_dec : EqDecision lattice_elem_t.
Proof. solve_decision. Defined.

Definition is_tarval (t : lattice_elem_t) : bool :=
  match t with L_tv _ => true | L_sym _ => false end.

Definition is_entity (t : lattice_elem_t) : bool :=
  match t with L_sym _ => true | L_tv _ => false end.

(** [t.tv == tv] *)
Definition tv_is (t : lattice_elem_t) (tv : ir_tarval) : bool :=
  bool_decide (t = L_tv tv).

(** [a.tv == b.tv] *)
Definition type_eqb (a b : lattice_elem_t) : bool := bool_decide (a = b).

Abbreviation ty_Top := (L_tv tarval_top).
Abbreviation ty_Bottom := (L_tv tarval_bottom).
Abbreviation ty_Reachable := (L_tv tarval_reachable).
Abbreviation ty_Unreachable := (L_tv tarval_unreachable).

Inductive ir_opcode : Type :=
  | iro_Block | iro_Start | iro_End | iro_Jmp | iro_Cond | iro_Switch
  | iro_Return | iro_Raise | iro_Const | iro_SymConst | iro_Call
  | iro_Add | iro_Sub | iro_Mul | iro_And | iro_Or | iro_Eor
  | iro_Shl | iro_Shr | iro_Shrs | iro_Rotl
  | iro_Cmp | iro_Mux | iro_Phi | iro_Proj | iro_Confirm
  | iro_Unknown | iro_Bad
  | iro_Load | iro_Store | iro_Conv
  | iro_other (code : nat).

Global Instance ir_opcode_eq_dec : EqDecision ir_opcode.
Proof. solve_decision. Defined.

Inductive op_pin_state : Type :=
  | op_pin_state_floats
  | op_pin_state_pinned
  | op_pin_state_exc_pinned
  | op_pin_state_mem_pinned.

Global Instance op_pin_state_eq_dec : EqDecision op_pin_state.
Proof. solve_decision. Defined.

(** A Def-Use edge: the user and the input position at which it uses the
    node ([-1] is the block input). *)
Record ir_def_use_edge : Type := mk_edge { use : nat; pos : Z }.

Global Instance ir_def_use_edge_eq_dec : EqDecision ir_def_use_edge.
Proof. solve_decision. Defined.

Inductive symconst_kind : Type :=
  | symconst_addr_ent
  | symconst_other.

(** One entry of a Switch table: the case range and the Proj number taken. *)
Record ir_switch_table_entry : Type :=
  mk_switch_entry { sw_min : ir_tarval; sw_max : ir_tarval; sw_pn : Z }.

(** The opcode specific attributes the pass reads. *)
Record ir_attr : Type := mk_attr {
  attr_proj : Z;                               (* get_Proj_proj *)
  attr_relation : Z;                           (* get_Cmp_relation / get_Confirm_relation *)
  attr_tarval : ir_tarval;                     (* get_Const_tarval *)
  attr_symkind : symconst_kind;                (* get_SymConst_kind *)
  attr_symbol : ir_entity;                     (* get_SymConst_symbol *)
  attr_entity : option ir_entity;              (* get_Block_entity *)
  attr_phis : list nat;                        (* get_Block_phis / get_Phi_next *)
  attr_table : list ir_switch_table_entry;     (* get_Switch_table *)
}.

Definition no_attr : ir_attr :=
  mk_attr 0 0 tarval_bad symconst_other 0 None [] [].

Record ir_node : Type := mk_irn {
  irn_op : ir_opcode;
  irn_mode : ir_mode;
  irn_block : nat;                  (* get_nodes_block: input -1 *)
  irn_in : list nat;                (* inputs 0 .. arity-1 *)
  irn_pinned : op_pin_state;        (* get_irn_pinned *)
  irn_out : list ir_def_use_edge;   (* o.out->edges *)
  irn_attr : ir_attr;
}.

Definition get_irn_arity (n : ir_node) : nat := length (irn_in n).
Definition get_irn_n_outs (n : ir_node) : nat := length (irn_out n).

(** Modelled from the spec: Proj numbers and the relation bit set come from
    generated headers that are not part of the sources; only their being
    distinct (and equality being one bit of a relation) matters here. *)
Definition pn_Cond_false : Z := 0.
Definition pn_Cond_true : Z := 1.
Definition pn_Switch_default : Z := 0.
Definition ir_relation_equal : Z := 1.

(** ** Analysis records *)

Record node_t : Type := mk_node {
  node_irn : nat;                   (* [node->node]: the IR node of the record *)
  part : nat;
  type : lattice_elem_t;
  max_user_input : Z;
  next_edge : nat;
  n_followers : nat;
  on_touched : bool;
  on_cprop : bool;
  on_fallen : bool;
  is_follower : bool;
  flagged : N;
}.

Record partition_t : Type := mk_part {
  Leader : list nat;
  Follower : list nat;
  cprop : list nat;
  cprop_X : list nat;
  touched : list nat;
  n_leader : nat;
  n_touched : nat;
  max_user_inputs : Z;
  on_worklist : bool;
  p_on_touched : bool;
  p_on_cprop : bool;
  type_is_T_or_C : bool;
}.

Record environment_t : Type := mk_env {
  worklist : list nat;
  env_cprop : list nat;
  env_touched : list nat;
  env_initial : option nat;
  end_idx : Z;
  lambda_input : Z;
  modified : bool;
  unopt_cf : bool;
  commutative : bool;
  opt_unknown : bool;
  opcode2id_map : list nat;         (* the opcode representatives, in insertion order *)
}.

(** The state of a run: the graph with its start block, its floating point
    model and its next free node index; the link slots; the partitions on
    the obstack and the next free slot there; the environment; and the
    static [tarval_UNKNOWN]. *)
Record state : Type := mk_state {
  irg : gmap nat ir_node;
  link : gmap nat node_t;
  obst : gmap nat partition_t;
  env : environment_t;
  tarval_UNKNOWN : ir_tarval;
  start_block : nat;                (* get_irg_start_block *)
  fp_strict_algebraic : bool;       (* get_irg_fp_model(irg) & fp_strict_algebraic *)
  next_part : nat;
  next_irn : nat;
}.

(** ** A state and error monad

    [Abort] is a failed assertion, a [panic] or a dangling pointer;
    [OutOfFuel] is an exhausted iteration budget of the model. *)
Inductive res (A : Type) : Type :=
  | Ok (a : A)
  | Abort
  | OutOfFuel.
Arguments Ok {A} a.
Arguments Abort {A}.
Arguments OutOfFuel {A}.

Definition M (A : Type) : Type := state -> res (A * state).

Global Instance M_ret : MRet M := fun A a s => Ok (a, s).
Global Instance M_bind : MBind M := fun A B f m s =>
  match m s with
  | Ok (a, s') => f a s'
  | Abort => Abort
  | OutOfFuel => OutOfFuel
  end.

Definition abort {A} : M A := fun _ => Abort.
Definition out_of_fuel {A} : M A := fun _ => OutOfFuel.
Definition gets {A} (f : state -> A) : M A := fun s => Ok (f s, s).
Definition modify (f : state -> state) : M unit := fun s => Ok (tt, f s).
Definition assert (b : bool) : M unit := if b then mret tt else abort.
Definition deref {A} (o : option A) : M A :=
  match o with Some a => mret a | None => abort end.

Definition get_irn (irn : nat) : M ir_node :=
  fun s => deref (irg s !! irn) s.
Definition get_irn_node (irn : nat) : M node_t :=
  fun s => deref (link s !! irn) s.
Definition get_part (p : nat) : M partition_t :=
  fun s => deref (obst s !! p) s.

Definition get_irn_n (n : ir_node) (i : nat) : M nat := deref (irn_in n !! i).

Definition set_link (f : gmap nat node_t -> gmap nat node_t) (s : state) : state :=
  mk_state (irg s) (f (link s)) (obst s) (env s) (tarval_UNKNOWN s) (start_block s)
           (fp_strict_algebraic s) (next_part s) (next_irn s).
Definition set_irg (f : gmap nat ir_node -> gmap nat ir_node) (s : state) : state :=
  mk_state (f (irg s)) (link s) (obst s) (env s) (tarval_UNKNOWN s) (start_block s)
           (fp_strict_algebraic s) (next_part s) (next_irn s).
Definition set_obst (f : gmap nat partition_t -> gmap nat partition_t) (s : state) : state :=
  mk_state (irg s) (link s) (f (obst s)) (env s) (tarval_UNKNOWN s) (start_block s)
           (fp_strict_algebraic s) (next_part s) (next_irn s).
Definition set_env (f : environment_t -> environment_t) (s : state) : state :=
  mk_state (irg s) (link s) (obst s) (f (env s)) (tarval_UNKNOWN s) (start_block s)
           (fp_strict_algebraic s) (next_part s) (next_irn s).
Definition set_next_part (n : nat) (s : state) : state :=
  mk_state (irg s) (link s) (obst s) (env s) (tarval_UNKNOWN s) (start_block s)
           (fp_strict_algebraic s) n (next_irn s).
Definition set_next_irn (n : nat) (s : state) : state :=
  mk_state (irg s) (link s) (obst s) (env s) (tarval_UNKNOWN s) (start_block s)
           (fp_strict_algebraic s) (next_part s) n.

Definition with_type (t : lattice_elem_t) (n : node_t) : node_t :=
  mk_node (node_irn n) (part n) t (max_user_input n) (next_edge n) (n_followers n)
          (on_touched n) (on_cprop n) (on_fallen n) (is_follower n) (flagged n).

(** [node->type = t] *)
Definition set_type (node : nat) (t : lattice_elem_t) : M unit :=
  nd ← get_irn_node node;
  modify (set_link (<[node := with_type t nd]>)).

(** Modelled from the spec: [skip_Proj] steps from a Proj to the node it
    projects from (irnode.c is not part of the sources); input 0 of a Proj
    is its predecessor. *)
Definition skip_Proj (irn : nat) : M nat :=
  n ← get_irn irn;
  if bool_decide (irn_op n = iro_Proj) then get_irn_n n 0 else mret irn.

Definition is_op (o : ir_opcode) (n : ir_node) : bool := bool_decide (irn_op n = o).

(** ** Updating records in place *)

Definition upd_node (n : nat) (f : node_t -> node_t) : M unit :=
  nd ← get_irn_node n;
  modify (set_link (<[n := f nd]>)).

Definition upd_part (p : nat) (f : partition_t -> partition_t) : M unit :=
  P ← get_part p;
  modify (set_obst (<[p := f P]>)).

Definition upd_irn (i : nat) (f : ir_node -> ir_node) : M unit :=
  n ← get_irn i;
  modify (set_irg (<[i := f n]>)).

Definition with_node_irn (i : nat) (n : node_t) : node_t :=
  mk_node i (part n) (type n) (max_user_input n) (next_edge n) (n_followers n)
          (on_touched n) (on_cprop n) (on_fallen n) (is_follower n) (flagged n).
Definition with_part (p : nat) (n : node_t) : node_t :=
  mk_node (node_irn n) p (type n) (max_user_input n) (next_edge n) (n_followers n)
          (on_touched n) (on_cprop n) (on_fallen n) (is_follower n) (flagged n).
Definition with_n_followers (k : nat) (n : node_t) : node_t :=
  mk_node (node_irn n) (part n) (type n) (max_user_input n) (next_edge n) k
          (on_touched n) (on_cprop n) (on_fallen n) (is_follower n) (flagged n).
Definition with_on_cprop (b : bool) (n : node_t) : node_t :=
  mk_node (node_irn n) (part n) (type n) (max_user_input n) (next_edge n) (n_followers n)
          (on_touched n) b (on_fallen n) (is_follower n) (flagged n).
Definition with_on_fallen (b : bool) (n : node_t) : node_t :=
  mk_node (node_irn n) (part n) (type n) (max_user_input n) (next_edge n) (n_followers n)
          (on_touched n) (on_cprop n) b (is_follower n) (flagged n).
Definition with_is_follower (b : bool) (n : node_t) : node_t :=
  mk_node (node_irn n) (part n) (type n) (max_user_input n) (next_edge n) (n_followers n)
          (on_touched n) (on_cprop n) (on_fallen n) b (flagged n).
Definition with_flagged (f : N) (n : node_t) : node_t :=
  mk_node (node_irn n) (part n) (type n) (max_user_input n) (next_edge n) (n_followers n)
          (on_touched n) (on_cprop n) (on_fallen n) (is_follower n) f.

Definition with_node_list (l f : list nat) (P : partition_t) : partition_t :=
  mk_part l f (cprop P) (cprop_X P) (touched P) (n_leader P) (n_touched P)
          (max_user_inputs P) (on_worklist P) (p_on_touched P) (p_on_cprop P)
          (type_is_T_or_C P).
Definition with_cprop_lists (c cx : list nat) (P : partition_t) : partition_t :=
  mk_part (Leader P) (Follower P) c cx (touched P) (n_leader P) (n_touched P)
          (max_user_inputs P) (on_worklist P) (p_on_touched P) (p_on_cprop P)
          (type_is_T_or_C P).
Definition with_n_leader (n : nat) (P : partition_t) : partition_t :=
  mk_part (Leader P) (Follower P) (cprop P) (cprop_X P) (touched P) n (n_touched P)
          (max_user_inputs P) (on_worklist P) (p_on_touched P) (p_on_cprop P)
          (type_is_T_or_C P).
Definition with_max_user_inputs (m : Z) (P : partition_t) : partition_t :=
  mk_part (Leader P) (Follower P) (cprop P) (cprop_X P) (touched P) (n_leader P)
          (n_touched P) m (on_worklist P) (p_on_touched P) (p_on_cprop P)
          (type_is_T_or_C P).
Definition with_on_worklist (b : bool) (P : partition_t) : partition_t :=
  mk_part (Leader P) (Follower P) (cprop P) (cprop_X P) (touched P) (n_leader P)
          (n_touched P) (max_user_inputs P) b (p_on_touched P) (p_on_cprop P)
          (type_is_T_or_C P).
Definition with_p_on_cprop (b : bool) (P : partition_t) : partition_t :=
  mk_part (Leader P) (Follower P) (cprop P) (cprop_X P) (touched P) (n_leader P)
          (n_touched P) (max_user_inputs P) (on_worklist P) (p_on_touched P) b
          (type_is_T_or_C P).
Definition with_type_is_T_or_C (b : bool) (P : partition_t) : partition_t :=
  mk_part (Leader P) (Follower P) (cprop P) (cprop_X P) (touched P) (n_leader P)
          (n_touched P) (max_user_inputs P) (on_worklist P) (p_on_touched P)
          (p_on_cprop P) b.

Definition with_worklist (w : list nat) (e : environment_t) : environment_t :=
  mk_env w (env_cprop e) (env_touched e) (env_initial e) (end_idx e) (lambda_input e)
         (modified e) (unopt_cf e) (commutative e) (opt_unknown e) (opcode2id_map e).
Definition with_env_cprop (c : list nat) (e : environment_t) : environment_t :=
  mk_env (worklist e) c (env_touched e) (env_initial e) (end_idx e) (lambda_input e)
         (modified e) (unopt_cf e) (commutative e) (opt_unknown e) (opcode2id_map e).
Definition with_modified (b : bool) (e : environment_t) : environment_t :=
  mk_env (worklist e) (env_cprop e) (env_touched e) (env_initial e) (end_idx e)
         (lambda_input e) b (unopt_cf e) (commutative e) (opt_unknown e)
         (opcode2id_map e).
Definition with_unopt_cf (b : bool) (e : environment_t) : environment_t :=
  mk_env (worklist e) (env_cprop e) (env_touched e) (env_initial e) (end_idx e)
         (lambda_input e) (modified e) b (commutative e) (opt_unknown e)
         (opcode2id_map e).
Definition with_opcode2id_map (m : list nat) (e : environment_t) : environment_t :=
  mk_env (worklist e) (env_cprop e) (env_touched e) (env_initial e) (end_idx e)
         (lambda_input e) (modified e) (unopt_cf e) (commutative e) (opt_unknown e) m.

Definition with_irn_out (o : list ir_def_use_edge) (n : ir_node) : ir_node :=
  mk_irn (irn_op n) (irn_mode n) (irn_block n) (irn_in n) (irn_pinned n) o (irn_attr n).

(** [for each x in l: f x] *)
Fixpoint for_each {A} (l : list A) (f : A -> M unit) : M unit :=
  match l with
  | [] => mret tt
  | x :: rest => f x ;; for_each rest f
  end.

(** ** Transfer functions *)

Section Transfer.

(** The host's folding oracle and tarval arithmetic (iropt.c and tv.c are
    not part of the sources).  [computed_value] reads the operands' types
    through [get_node_tarval], hence the state argument. *)
Variable computed_value : state -> nat -> ir_tarval.
Variable tarval_add : ir_tarval -> ir_tarval -> ir_tarval.
Variable tarval_sub : ir_tarval -> ir_tarval -> ir_mode -> ir_tarval.
Variable tarval_eor : ir_tarval -> ir_tarval -> ir_tarval.

(** [n-1, ..., 0]: the order of [for (i = n - 1; i >= 0; --i)]. *)
Definition down_from (n : nat) : list nat := reverse (seq 0 n).

Definition is_constant_type (t : lattice_elem_t) : bool :=
  negb (tv_is t tarval_bottom) && negb (tv_is t tarval_top).

Definition is_con (t : lattice_elem_t) : bool :=
  match t with
  | L_tv tv => tarval_is_constant tv
  | L_sym _ => true
  end.

Fixpoint default_compute_loop (node : nat) (preds : list nat) : M bool :=
  match preds with
  | [] => mret false
  | pred :: rest =>
      p ← get_irn_node pred;
      if tv_is (type p) tarval_top
      then (set_type node ty_Top ;; mret true)
      else default_compute_loop node rest
  end.

Definition default_compute (node : nat) : M unit :=
  irn ← get_irn node;
  (* if any of the data inputs have type top, the result is type top *)
  done ← default_compute_loop node (reverse (irn_in irn));
  if done : bool then mret tt
  else if bool_decide (irn_mode irn = mode_X)
  then set_type node ty_Reachable
  else (tv ← gets (fun s => computed_value s node); set_type node (L_tv tv)).

Fixpoint compute_Block_loop (node : nat) (preds : list nat) : M unit :=
  match preds with
  | [] => set_type node ty_Top
  | p :: rest =>
      pred ← get_irn_node p;
      if tv_is (type pred) tarval_reachable
      then set_type node ty_Reachable
      else compute_Block_loop node rest
  end.

Definition compute_Block (node : nat) : M unit :=
  block ← get_irn node;
  start ← gets start_block;
  if bool_decide (node = start) || bool_decide (attr_entity (irn_attr block) <> None)
  then set_type node ty_Reachable
  else compute_Block_loop node (reverse (irn_in block)).

Definition compute_Bad (node : nat) : M unit := set_type node ty_Top.

Definition compute_Unknown (node : nat) : M unit :=
  unk ← gets tarval_UNKNOWN;
  set_type node (L_tv unk).

Definition compute_Jmp (node : nat) : M unit :=
  irn ← get_irn node;
  block ← get_irn_node (irn_block irn);
  set_type node (type block).

Definition compute_Return (node : nat) : M unit := set_type node ty_Reachable.
Definition compute_End (node : nat) : M unit := set_type node ty_Reachable.
Definition compute_Call (node : nat) : M unit := set_type node ty_Bottom.

Definition compute_SymConst (node : nat) : M unit :=
  irn ← get_irn node;
  block ← get_irn_node (irn_block irn);
  if tv_is (type block) tarval_unreachable then set_type node ty_Top
  else match attr_symkind (irn_attr irn) with
       | symconst_addr_ent => set_type node (L_sym (attr_symbol (irn_attr irn)))
       | _ => tv ← gets (fun s => computed_value s node); set_type node (L_tv tv)
       end.

Fixpoint compute_Phi_loop (node : nat) (phi block : ir_node) (idx : list nat)
    (ty : lattice_elem_t) : M unit :=
  match idx with
  | [] => set_type node ty
  | i :: rest =>
      p ← get_irn_n phi i;
      pred ← get_irn_node p;
      px ← get_irn_n block i;
      pred_X ← get_irn_node px;
      if tv_is (type pred_X) tarval_unreachable || tv_is (type pred) tarval_top
      then compute_Phi_loop node phi block rest ty
      else if tv_is (type pred) tarval_bottom
      then set_type node ty_Bottom
      else if tv_is ty tarval_top
      then compute_Phi_loop node phi block rest (type pred)
      else if negb (type_eqb ty (type pred))
      then set_type node ty_Bottom
      else compute_Phi_loop node phi block rest ty
  end.

Definition compute_Phi (node : nat) : M unit :=
  phi ← get_irn node;
  block ← get_irn_node (irn_block phi);
  if tv_is (type block) tarval_unreachable then set_type node ty_Top
  else
    blk ← get_irn (irn_block phi);
    compute_Phi_loop node phi blk (down_from (get_irn_arity phi)) ty_Top.

(** Operands of a binary node: inputs 0 and 1. *)
Definition get_binop_left (n : ir_node) : M nat := get_irn_n n 0.
Definition get_binop_right (n : ir_node) : M nat := get_irn_n n 1.

Definition compute_Add (node : nat) : M unit :=
  sub ← get_irn node;
  li ← get_binop_left sub; l ← get_irn_node li;
  ri ← get_binop_right sub; r ← get_irn_node ri;
  let a := type l in
  let b := type r in
  if tv_is a tarval_top || tv_is b tarval_top then set_type node ty_Top
  else if tv_is a tarval_bottom || tv_is b tarval_bottom then set_type node ty_Bottom
  else
    match a, b with
    | L_tv atv, L_tv btv => set_type node (L_tv (tarval_add atv btv))
    | L_tv atv, L_sym _ =>
        if bool_decide (atv = get_mode_null (get_tarval_mode atv))
        then set_type node b else set_type node ty_Bottom
    | L_sym _, L_tv btv =>
        if bool_decide (btv = get_mode_null (get_tarval_mode btv))
        then set_type node a else set_type node ty_Bottom
    | L_sym _, L_sym _ => set_type node ty_Bottom
    end.

(** [is_tarval(t.tv) && tarval_is_null(t.tv)] *)
Definition is_null_tarval (t : lattice_elem_t) : bool :=
  match t with L_tv tv => tarval_is_null tv | L_sym _ => false end.

Definition compute_Sub (node : nat) : M unit :=
  sub ← get_irn node;
  li ← get_binop_left sub; l ← get_irn_node li;
  ri ← get_binop_right sub; r ← get_irn_node ri;
  l_irn ← get_irn li;
  nd ← get_irn_node node;
  let a := type l in
  let b := type r in
  if tv_is a tarval_top || tv_is b tarval_top then set_type node ty_Top
  else if is_con a && is_con b then
    match a, b with
    | L_tv atv, L_tv btv => set_type node (L_tv (tarval_sub atv btv (irn_mode sub)))
    | _, _ =>
        if is_null_tarval a then set_type node b
        else if is_null_tarval b then set_type node a
        else set_type node ty_Bottom
    end
  else if bool_decide (part r = part l) && negb (mode_is_float (irn_mode l_irn)) then
    (* a - a is NOT always 0 for floating point values *)
    let tv := get_mode_null (irn_mode sub) in
    let tv := if negb (tv_is (type nd) tv) then tarval_bottom else tv in
    set_type node (L_tv tv)
  else set_type node ty_Bottom.

Definition compute_Eor (node : nat) : M unit :=
  eor ← get_irn node;
  li ← get_binop_left eor; l ← get_irn_node li;
  ri ← get_binop_right eor; r ← get_irn_node ri;
  nd ← get_irn_node node;
  let a := type l in
  let b := type r in
  if tv_is a tarval_top || tv_is b tarval_top then set_type node ty_Top
  else if is_con a && is_con b then
    match a, b with
    | L_tv atv, L_tv btv => set_type node (L_tv (tarval_eor atv btv))
    | _, _ =>
        if is_null_tarval a then set_type node b
        else if is_null_tarval b then set_type node a
        else set_type node ty_Bottom
    end
  else if bool_decide (part r = part l) then
    let tv := get_mode_null (irn_mode eor) in
    let tv := if negb (tv_is (type nd) tv) then tarval_bottom else tv in
    set_type node (L_tv tv)
  else set_type node ty_Bottom.

Definition compute_Cmp (node : nat) : M unit :=
  cmp ← get_irn node;
  li ← get_binop_left cmp; l ← get_irn_node li;
  ri ← get_binop_right cmp; r ← get_irn_node ri;
  l_irn ← get_irn li;
  nd ← get_irn_node node;
  let a := type l in
  let b := type r in
  let relation := attr_relation (irn_attr cmp) in
  if tv_is a tarval_top || tv_is b tarval_top then set_type node (L_tv tarval_undefined)
  else if is_con a && is_con b then default_compute node
  else if bool_decide (part r = part l) && negb (mode_is_float (irn_mode l_irn)) then
    let tv := if negb (Z.land relation ir_relation_equal =? 0)%Z
              then tarval_b_true else tarval_b_false in
    let tv := if tv_is (type nd) tarval_bottom then tarval_bottom
              else if negb (tv_is (type nd) tv) && is_constant_type (type nd)
              then tarval_bottom else tv in
    set_type node (L_tv tv)
  else set_type node ty_Bottom.

(** Selector of a Cond or Switch: input 0. *)
Definition get_Cond_selector (n : ir_node) : M nat := get_irn_n n 0.
Definition get_Switch_selector (n : ir_node) : M nat := get_irn_n n 0.
Definition get_Proj_pred (n : ir_node) : M nat := get_irn_n n 0.
Definition get_Proj_proj (n : ir_node) : Z := attr_proj (irn_attr n).

Definition compute_Proj_Cond (node cond : nat) : M unit :=
  proj ← get_irn node;
  let pnc := get_Proj_proj proj in
  c ← get_irn cond;
  sel ← get_Cond_selector c;
  selector ← get_irn_node sel;
  nd ← get_irn_node node;
  unk ← gets tarval_UNKNOWN;
  if tv_is (type nd) tarval_reachable then mret tt
  else if (pnc =? pn_Cond_true)%Z then
    if tv_is (type selector) tarval_b_false then set_type node ty_Unreachable
    else if tv_is (type selector) tarval_b_true then set_type node ty_Reachable
    else if tv_is (type selector) tarval_bottom then set_type node ty_Reachable
    else
      assert (tv_is (type selector) tarval_top) ;;
      if bool_decide (unk = tarval_top)
      then (* any condition based on Top is "!=" *) set_type node ty_Unreachable
      else set_type node ty_Unreachable
  else
    assert (pnc =? pn_Cond_false)%Z ;;
    if tv_is (type selector) tarval_b_false then set_type node ty_Reachable
    else if tv_is (type selector) tarval_b_true then set_type node ty_Unreachable
    else if tv_is (type selector) tarval_bottom then set_type node ty_Reachable
    else
      assert (tv_is (type selector) tarval_top) ;;
      if bool_decide (unk = tarval_top)
      then (* any condition based on Top is "!=" *) set_type node ty_Reachable
      else set_type node ty_Unreachable.

Fixpoint compute_Proj_Switch_loop (node : nat) (pnc : Z) (sel : lattice_elem_t)
    (value : Z) (table : list ir_switch_table_entry) : M unit :=
  match table with
  | [] =>
      (* no entry matched: default *)
      set_type node (if (pnc =? pn_Switch_default)%Z then ty_Reachable else ty_Unreachable)
  | entry :: rest =>
      let hit := if (sw_pn entry =? pnc)%Z then ty_Reachable else ty_Unreachable in
      if bool_decide (sw_min entry = sw_max entry) then
        if tv_is sel (sw_min entry) then set_type node hit
        else compute_Proj_Switch_loop node pnc sel value rest
      else
        let minval := get_tarval_long (sw_min entry) in
        let maxval := get_tarval_long (sw_max entry) in
        if (minval <=? value)%Z && (value <=? maxval)%Z then set_type node hit
        else compute_Proj_Switch_loop node pnc sel value rest
  end.

Definition compute_Proj_Switch (node switchn : nat) : M unit :=
  proj ← get_irn node;
  let pnc := get_Proj_proj proj in
  sw ← get_irn switchn;
  sel ← get_Switch_selector sw;
  selector ← get_irn_node sel;
  nd ← get_irn_node node;
  unk ← gets tarval_UNKNOWN;
  if tv_is (type nd) tarval_reachable then mret tt
  else if tv_is (type selector) tarval_bottom then set_type node ty_Reachable
  else if tv_is (type selector) tarval_top then
    if bool_decide (unk = tarval_top) && (pnc =? pn_Switch_default)%Z
    then set_type node ty_Reachable
    else set_type node ty_Unreachable
  else
    match type selector with
    | L_tv tv =>
        compute_Proj_Switch_loop node pnc (type selector) (get_tarval_long tv)
          (attr_table (irn_attr sw))
    | L_sym _ => abort
    end.

Definition compute_Proj (node : nat) : M unit :=
  proj ← get_irn node;
  let mode := irn_mode proj in
  skipped ← skip_Proj node;
  sk ← get_irn skipped;
  block ← get_irn_node (irn_block sk);
  pred ← get_Proj_pred proj;
  pred_irn ← get_irn pred;
  pred_node ← get_irn_node pred;
  if tv_is (type block) tarval_unreachable then set_type node ty_Top
  else if tv_is (type pred_node) tarval_top
          && negb (is_op iro_Cond pred_irn) && negb (is_op iro_Switch pred_irn)
  then set_type node ty_Top
  else if bool_decide (mode = mode_M) then set_type node ty_Bottom
  else if bool_decide (mode = mode_X) then
    match irn_op pred_irn with
    | iro_Start => set_type node ty_Reachable
    | iro_Cond => compute_Proj_Cond node pred
    | iro_Switch => compute_Proj_Switch node pred
    | _ => default_compute node
    end
  else default_compute node.

Definition compute_Confirm (node : nat) : M unit :=
  confirm ← get_irn node;
  v ← get_irn_n confirm 0;
  pred ← get_irn_node v;
  if (attr_relation (irn_attr confirm) =? ir_relation_equal)%Z then
    bi ← get_irn_n confirm 1;
    bound ← get_irn_node bi;
    if is_con (type bound) then set_type node (type bound)
    else set_type node (type pred)
  else set_type node (type pred).

(** [set_compute_functions]: the [ops.generic] slot of every opcode. *)
Definition set_compute_functions (op : ir_opcode) : option (nat -> M unit) :=
  Some match op with
       | iro_Block => compute_Block
       | iro_Unknown => compute_Unknown
       | iro_Bad => compute_Bad
       | iro_Jmp => compute_Jmp
       | iro_Phi => compute_Phi
       | iro_Add => compute_Add
       | iro_Sub => compute_Sub
       | iro_Eor => compute_Eor
       | iro_SymConst => compute_SymConst
       | iro_Cmp => compute_Cmp
       | iro_Proj => compute_Proj
       | iro_Confirm => compute_Confirm
       | iro_Return => compute_Return
       | iro_End => compute_End
       | iro_Call => compute_Call
       | _ => default_compute
       end.

(** [compute] with the table of [ops.generic] slots made explicit.
    [VERIFY_MONOTONE] is defined, so there is no early exit at Bottom. *)
Definition compute_with (generic : ir_opcode -> option (nat -> M unit))
    (node : nat) : M unit :=
  irn ← get_irn node;
  dead ← (if is_op iro_Block irn then mret false
          else
            (* for pinned nodes, check its control input *)
            skipped ← skip_Proj node;
            sk ← get_irn skipped;
            if bool_decide (irn_pinned sk = op_pin_state_pinned) then
              block ← get_irn_node (irn_block irn);
              mret (tv_is (type block) tarval_unreachable)
            else mret false);
  if dead : bool then set_type node ty_Top
  else match generic (irn_op irn) with
       | Some func => func node
       | None => mret tt
       end.

Definition compute : nat -> M unit := compute_with set_compute_functions.

End Transfer.

(** ** The monotonicity check

    [verify_type] as compiled with [VERIFY_MONOTONE] and [DEBUG_libfirm];
    [panic] is [Abort]. *)
Definition verify_type (old_type : lattice_elem_t) (node : nat) : M unit :=
  nd ← get_irn_node node;
  if type_eqb old_type (type nd) then mret tt            (* no change *)
  else if tv_is old_type tarval_top then mret tt          (* from Top down-to is always allowed *)
  else if tv_is (type nd) tarval_bottom || tv_is (type nd) tarval_reachable
  then mret tt                                            (* bottom reached *)
  else abort.

(** ** The configuration set up by [combo] *)

(** The environment as [combo] initialises it, before the initial partition
    is created; [global_cse] is [get_opt_global_cse()]. *)
Definition combo_env (global_cse : bool) : environment_t :=
  {| worklist := []; env_cprop := []; env_touched := []; env_initial := None;
     end_idx := if global_cse then 0 else (-1);
     lambda_input := 0; modified := false; unopt_cf := false;
     (* options driving the optimization *)
     commutative := true; opt_unknown := true;
     opcode2id_map := [] |}.

(** [if (env.opt_unknown) tarval_UNKNOWN = tarval_top; else tarval_UNKNOWN = tarval_bad;] *)
Definition select_tarval_UNKNOWN (e : environment_t) : ir_tarval :=
  if opt_unknown e then tarval_top else tarval_bad.

(** The state [combo] starts the analysis from: the graph [g] with its
    start block and its floating point model, no records and no partitions
    yet, the environment and [tarval_UNKNOWN] as above. *)
Definition combo_setup (g : gmap nat ir_node) (start : nat) (strict global_cse : bool)
    : state :=
  {| irg := g; link := ∅; obst := ∅; env := combo_env global_cse;
     tarval_UNKNOWN := select_tarval_UNKNOWN (combo_env global_cse);
     start_block := start; fp_strict_algebraic := strict;
     next_part := 0; next_irn := S (foldr max 0 (elements (dom g))) |}.

(** ** Partitions and the work list *)

Definition add_to_worklist (X : nat) : M unit :=
  P ← get_part X;
  assert (negb (on_worklist P)) ;;
  upd_part X (with_on_worklist true) ;;
  modify (set_env (fun e => with_worklist (X :: worklist e) e)).

Definition empty_partition : partition_t :=
  mk_part [] [] [] [] [] 0 0 0 false false false false.

(** [new_partition]: a fresh, empty partition on the obstack. *)
Definition new_partition : M nat :=
  p ← gets next_part;
  modify (fun s => set_next_part (S p) (set_obst (<[p := empty_partition]>) s)) ;;
  mret p.

(** [list_del(&node->node_list)]: unlink the node from the Leader or
    Follower list of its partition. *)
Definition list_del_node_list (n : nat) : M unit :=
  nd ← get_irn_node n;
  upd_part (part nd)
    (fun P => with_node_list (filter (fun x => x <> n) (Leader P))
                             (filter (fun x => x <> n) (Follower P)) P).

(** [list_add_tail(&node->node_list, &part->Leader)] *)
Definition add_tail_Leader (n p : nat) : M unit :=
  upd_part p (fun P => with_node_list (Leader P ++ [n]) (Follower P) P).
Definition add_tail_Follower (n p : nat) : M unit :=
  upd_part p (fun P => with_node_list (Leader P) (Follower P ++ [n]) P).

(** [check_partition], compiled in by [CHECK_PARTITIONS]. *)
Definition check_partition (T : nat) : M unit :=
  P ← get_part T;
  for_each (Leader P) (fun n =>
    nd ← get_irn_node n;
    assert (negb (is_follower nd)) ;;
    assert (flagged nd =? 0)%N ;;
    assert (bool_decide (part nd = T))) ;;
  assert (length (Leader P) =? n_leader P) ;;
  for_each (Follower P) (fun n =>
    nd ← get_irn_node n;
    assert (is_follower nd) ;;
    assert (flagged nd =? 0)%N ;;
    assert (bool_decide (part nd = T))).

(** If Z is on the work list then add Z' to it, else add the smaller of Z
    and Z'. *)
Definition update_worklist (Z Z_prime : nat) : M unit :=
  z ← get_part Z;
  z' ← get_part Z_prime;
  if on_worklist z || (n_leader z' <? n_leader z)
  then add_to_worklist Z_prime
  else add_to_worklist Z.

(** The largest [max_user_input] over the nodes of a list, from [0]. *)
Fixpoint max_input_of (g : list nat) (max_input : Z) : M Z :=
  match g with
  | [] => mret max_input
  | n :: rest =>
      nd ← get_irn_node n;
      max_input_of rest
        (if (max_input <? max_user_input nd)%Z then max_user_input nd else max_input)
  end.

(** Split a partition that has no followers by the local list [g]. *)
Definition split_no_followers (Z : nat) (g : list nat) : M nat :=
  assert (negb (bool_decide (g = []))) ;;
  (* Remove g from Z. *)
  for_each g (fun n =>
    nd ← get_irn_node n;
    assert (bool_decide (part nd = Z)) ;;
    list_del_node_list n) ;;
  let n := length g in
  z ← get_part Z;
  assert (n <? n_leader z) ;;
  upd_part Z (with_n_leader (n_leader z - n)) ;;
  (* Move g to a new partition, Z'. *)
  Z_prime ← new_partition;
  for_each g (fun n =>
    add_tail_Leader n Z_prime ;;
    upd_node n (with_part Z_prime)) ;;
  max_input ← max_input_of g 0;
  upd_part Z_prime (with_max_user_inputs max_input) ;;
  upd_part Z_prime (with_n_leader n) ;;
  check_partition Z ;;
  check_partition Z_prime ;;
  (* for now, copy the type info tag, it will be adjusted in split_by(). *)
  z ← get_part Z;
  upd_part Z_prime (with_type_is_T_or_C (type_is_T_or_C z)) ;;
  update_worklist Z Z_prime ;;
  mret Z_prime.

(** ** Identity: the node a node is a copy of *)

(** Modelled from the spec: "null/one/all-ones of a mode". *)
Definition get_mode_one (m : ir_mode) : ir_tarval := tarval_value m 1.
Definition get_mode_all_one (m : ir_mode) : ir_tarval := tarval_value m (-1).

(** [get_irn_n(n, i)] for [i >= -1]: input [-1] is the block. *)
Definition get_irn_n_Z (n : ir_node) (i : Z) : M nat :=
  if (i =? -1)%Z then mret (irn_block n)
  else if (i <? 0)%Z then abort
  else get_irn_n n (Z.to_nat i).

Fixpoint identity_Phi_loop (node : nat) (phi block : ir_node) (idx : list nat)
    (n_part : option nat) : M nat :=
  match idx with
  | [] => match n_part with
          | Some p => mret p
          | None => abort                (* assert(n_part != NULL) *)
          end
  | i :: rest =>
      px ← get_irn_n block i;
      pred_X ← get_irn_node px;
      if tv_is (type pred_X) tarval_reachable then
        p ← get_irn_n phi i;
        pred ← get_irn_node p;
        match n_part with
        | None => identity_Phi_loop node phi block rest (Some p)
        | Some q =>
            np ← get_irn_node q;
            if negb (bool_decide (part np = part pred))
            then mret node                 (* incongruent inputs, not a follower *)
            else identity_Phi_loop node phi block rest n_part
        end
      else identity_Phi_loop node phi block rest n_part
  end.

Definition identity_Phi (node : nat) : M nat :=
  phi ← get_irn node;
  block ← get_irn (irn_block phi);
  identity_Phi_loop node phi block (down_from (get_irn_arity phi)) None.

(** The shared shape of the neutral-element identities: [a] when the type
    of [b] is [neutral], [b] when the type of [a] is. *)
Definition identity_neutral (node : nat) (neutral : ir_tarval) : M nat :=
  op ← get_irn node;
  ai ← get_binop_left op; a ← get_irn_node ai;
  bi ← get_binop_right op; b ← get_irn_node bi;
  if tv_is (type a) neutral then mret bi
  else if tv_is (type b) neutral then mret ai
  else mret node.

Definition identity_comm_zero_binop (node : nat) : M nat :=
  op ← get_irn node;
  strict ← gets fp_strict_algebraic;
  if mode_is_float (irn_mode op) && strict then mret node
  else identity_neutral node (get_mode_null (irn_mode op)).

Definition identity_shift (node : nat) : M nat :=
  op ← get_irn node;
  bi ← get_binop_right op; b ← get_irn_node bi;
  b_irn ← get_irn bi;
  if tv_is (type b) (get_mode_null (irn_mode b_irn)) then get_binop_left op
  else mret node.

Definition identity_Mul (node : nat) : M nat :=
  op ← get_irn node;
  strict ← gets fp_strict_algebraic;
  if mode_is_float (irn_mode op) && strict then mret node
  else identity_neutral node (get_mode_one (irn_mode op)).

Definition identity_Sub (node : nat) : M nat :=
  sub ← get_irn node;
  bi ← get_binop_right sub; b ← get_irn_node bi;
  strict ← gets fp_strict_algebraic;
  if mode_is_float (irn_mode sub) && strict then mret node
  else if tv_is (type b) (get_mode_null (irn_mode sub)) then get_binop_left sub
  else mret node.

Definition identity_And (node : nat) : M nat :=
  andnode ← get_irn node;
  identity_neutral node (get_mode_all_one (irn_mode andnode)).

(** A Confirm is always a copy of its value, input 0. *)
Definition identity_Confirm (node : nat) : M nat :=
  confirm ← get_irn node;
  get_irn_n confirm 0.

(** Mux: selector at input 0, false value at 1, true value at 2. *)
Definition identity_Mux (node : nat) : M nat :=
  mux ← get_irn node;
  ti ← get_irn_n mux 2; t ← get_irn_node ti;
  fi ← get_irn_n mux 1; f ← get_irn_node fi;
  if bool_decide (part t = part f) then mret ti else mret node.

Definition identity (node : nat) : M nat :=
  irn ← get_irn node;
  match irn_op irn with
  | iro_Phi => identity_Phi node
  | iro_Mul => identity_Mul node
  | iro_Add | iro_Or | iro_Eor => identity_comm_zero_binop node
  | iro_Shr | iro_Shl | iro_Shrs | iro_Rotl => identity_shift node
  | iro_And => identity_And node
  | iro_Sub => identity_Sub node
  | iro_Confirm => identity_Confirm node
  | iro_Mux => identity_Mux node
  | _ => mret node
  end.

(** ** Follower to leader *)

(** [for (k = from; k < n; ++k) { if (edges[k].pos >= edge.pos) break;
    edges[k-1] = edges[k]; }  edges[k-1] = edge;] over the indices [ks]. *)
Fixpoint sort_into_leader (edges : list ir_def_use_edge) (edge : ir_def_use_edge)
    (ks : list nat) (k : nat) : list ir_def_use_edge :=
  match ks with
  | [] => <[k - 1 := edge]> edges
  | k' :: rest =>
      match edges !! k' with
      | Some ek =>
          if (pos edge <=? pos ek)%Z then <[k' - 1 := edge]> edges
          else sort_into_leader (<[k' - 1 := ek]> edges) edge rest (S k')
      | None => <[k' - 1 := edge]> edges
      end
  end.

(** The search of [move_edges_to_leader] for the follower edge of input [i]
    of [irn] among the edges [js] of [pred]; on a hit the edge is moved to
    the leader region. *)
Fixpoint move_edge_search (irn : nat) (i : Z) (pred : nat) (js : list nat) : M unit :=
  match js with
  | [] => mret tt
  | j :: rest =>
      p ← get_irn pred;
      pn ← get_irn_node pred;
      edge ← deref (irn_out p !! j);
      if (pos edge =? i)%Z && bool_decide (use edge = irn) then
        (* found a follower edge to x, move it to the Leader *)
        let nf := n_followers pn - 1 in
        upd_node pred (with_n_followers nf) ;;
        let n := get_irn_n_outs p in
        last ← deref (irn_out p !! nf);
        let edges := <[j := last]> (irn_out p) in
        upd_irn pred (with_irn_out
          (sort_into_leader edges edge (seq (nf + 1) (n - (nf + 1))) (nf + 1)))
      else move_edge_search irn i pred rest
  end.

Definition move_edges_to_leader (x : nat) : M unit :=
  irn ← get_irn x;
  for_each (down_from (get_irn_arity irn)) (fun i =>
    pred ← get_irn_n irn i;
    pn ← get_irn_node pred;
    move_edge_search x (Z.of_nat i) pred (seq 0 (n_followers pn))).

Definition follower_to_leader (n : nat) : M unit :=
  nd ← get_irn_node n;
  assert (is_follower nd) ;;
  upd_node n (with_is_follower false) ;;
  move_edges_to_leader n ;;
  list_del_node_list n ;;
  add_tail_Leader n (part nd) ;;
  P ← get_part (part nd);
  upd_part (part nd) (with_n_leader (S (n_leader P))).

(** ** The race *)

(** Non-zero if input [input] of [irn] is a real follower edge. *)
Definition is_real_follower (irn : nat) (input : Z) : M bool :=
  n ← get_irn irn;
  match irn_op n with
  | iro_Confirm => mret (negb (input =? 1)%Z)      (* ignore the Confirm bound input *)
  | iro_Mux => mret (negb (input =? 0)%Z)          (* ignore the Mux sel input *)
  | iro_Phi =>
      (* dead inputs are not follower edges *)
      block ← get_irn (irn_block n);
      px ← get_irn_n_Z block input;
      pred ← get_irn_node px;
      mret (negb (tv_is (type pred) tarval_unreachable))
  | iro_Sub | iro_Shr | iro_Shl | iro_Shrs | iro_Rotl =>
      (* only a Sub x,0 / Shift x,0 might be a follower *)
      mret (negb (input =? 1)%Z)
  | iro_Add | iro_Or | iro_Eor =>
      p ← get_irn_n_Z n input;
      pred ← get_irn_node p;
      mret (negb (is_null_tarval (type pred)))
  | iro_Mul =>
      p ← get_irn_n_Z n input;
      pred ← get_irn_node p;
      mret (negb (match type pred with
                  | L_tv tv => bool_decide (tv = get_mode_one (get_tarval_mode tv))
                  | L_sym _ => false
                  end))
  | iro_And =>
      p ← get_irn_n_Z n input;
      pred ← get_irn_node p;
      mret (negb (match type pred with
                  | L_tv tv => bool_decide (tv = get_mode_all_one (get_tarval_mode tv))
                  | L_sym _ => false
                  end))
  | _ => abort                                     (* assert(!"opcode not implemented yet") *)
  end.

(** The environment for one race step. *)
Record step_env : Type := mk_step_env {
  initial : list nat;       (* the initial node list *)
  unwalked : list nat;      (* the unwalked node list *)
  walked : list nat;        (* the walked node list *)
  index : nat;              (* next index of Follower use_def edge *)
  side : N;                 (* side number *)
}.

(** The inner loop of [step] over the follower edges of the first unwalked
    node, from [index] on: the follower visited for the first time, if any,
    and the index reached. *)
Fixpoint step_edges (n_part : nat) (side : N) (edges : list ir_def_use_edge)
    (index : nat) : M (option nat * nat) :=
  match edges with
  | [] => mret (None, index)
  | edge :: rest =>
      (* let m be n.F.def_use[index] *)
      let m := use edge in
      mn ← get_irn_node m;
      assert (is_follower mn) ;;
      real ← is_real_follower m (pos edge);
      if negb real then step_edges n_part side rest (S index)
      else if negb (bool_decide (part mn = n_part))
      then step_edges n_part side rest (S index)    (* only followers from our partition *)
      else if (N.land (flagged mn) side =? 0)%N then
        let fl := N.lor (flagged mn) side in
        upd_node m (with_flagged fl) ;;
        if negb (fl =? 3)%N
        then mret (Some m, S index)                 (* visited the first time *)
        else step_edges n_part side rest (S index)  (* already on the other list *)
      else step_edges n_part side rest (S index)
  end.

Fixpoint step_unwalked (env : step_env) (unw : list nat) : M (bool * step_env) :=
  match unw with
  | [] => mret (true, mk_step_env (initial env) [] (walked env) (index env) (side env))
  | n :: rest =>
      nd ← get_irn_node n;
      irn ← get_irn n;
      r ← step_edges (part nd) (side env)
            (drop (index env) (take (n_followers nd) (irn_out irn))) (index env);
      match r with
      | (Some m, idx) =>
          (* add m to unwalked not as first node *)
          mret (false, mk_step_env (initial env) (n :: m :: rest) (walked env) idx (side env))
      | (None, _) =>
          (* move n to walked *)
          step_unwalked (mk_step_env (initial env) rest (n :: walked env) 0 (side env)) rest
      end
  end.

(** Do one step in the race. *)
Definition step (env : step_env) : M (bool * step_env) :=
  match initial env with
  | n :: rest =>
      (* Move node from initial to unwalked *)
      mret (false, mk_step_env rest (n :: unwalked env) (walked env) (index env) (side env))
  | [] => step_unwalked env (unwalked env)
  end.

(** [for (;;) { if (step(&senv[0])) ... if (step(&senv[1])) ... }] *)
Fixpoint race (fuel : nat) (senv0 senv1 : step_env) : M (nat * step_env * step_env) :=
  match fuel with
  | 0 => out_of_fuel
  | S fuel =>
      '(done0, e0) ← step senv0;
      if done0 : bool then mret (0, e0, senv1)
      else
        '(done1, e1) ← step senv1;
        if done1 : bool then mret (1, e0, e1)
        else race fuel e0 e1
  end.

(** Clear the flags from a list and check for nodes that were touched from
    both sides. *)
Fixpoint clear_flags (l : list nat) (res : bool) : M bool :=
  match l with
  | [] => mret res
  | n :: rest =>
      nd ← get_irn_node n;
      (if (flagged nd =? 3)%N then follower_to_leader n else mret tt) ;;
      upd_node n (with_flagged 0) ;;
      clear_flags rest (res || (flagged nd =? 3)%N)
  end.

(** Subtraction of [unsigned] counters. *)
Definition unsigned_sub (a b : nat) : nat :=
  if b <=? a then a - b else a + 2 ^ 32 - b.

(** Place a partition on the cprop list, if it is not there. *)
Definition place_on_cprop (X : nat) : M unit :=
  P ← get_part X;
  if negb (p_on_cprop P) then
    modify (set_env (fun e => with_env_cprop (X :: env_cprop e) e)) ;;
    upd_part X (with_p_on_cprop true)
  else mret tt.

(** Move the winner's walked list to the new partition; the number of
    leaders moved. *)
Fixpoint move_walked (X_prime : nat) (l : list nat) (n : nat) : M nat :=
  match l with
  | [] => mret n
  | x :: rest =>
      list_del_node_list x ;;
      upd_node x (with_part X_prime) ;;
      nd ← get_irn_node x;
      if is_follower nd
      then (add_tail_Follower x X_prime ;; move_walked X_prime rest n)
      else (add_tail_Leader x X_prime ;; move_walked X_prime rest (S n))
  end.

(** [if (identity(node) == node) { follower_to_leader(node); transitions |= 1; }]
    over the followers of the new partition. *)
Fixpoint promote_lost_followers (l : list nat) (res : bool) : M bool :=
  match l with
  | [] => mret res
  | f :: rest =>
      id ← identity f;
      if bool_decide (id = f)
      then (follower_to_leader f ;; promote_lost_followers rest true)
      else promote_lost_followers rest res
  end.

(** Split a partition by a local list using the race.  The result is the
    partition holding [gg] and the partition [*pX] is left pointing to. *)
Definition split (fuel : nat) (X : nat) (gg : list nat) : M (nat * nat) :=
  x ← get_part X;
  if bool_decide (Follower x = []) then
    (* if the partition has NO follower, we can use the fast splitting algorithm. *)
    Z_prime ← split_no_followers X gg;
    mret (Z_prime, X)
  else
    (* else do the race *)
    (* Remove gg from X.Leader and put into g *)
    for_each gg (fun n =>
      nd ← get_irn_node n;
      assert (bool_decide (part nd = X)) ;;
      assert (negb (is_follower nd)) ;;
      list_del_node_list n) ;;
    let g := reverse gg in
    (* produce h *)
    x ← get_part X;
    let h := reverse (Leader x) in
    (* restore X.Leader *)
    upd_part X (fun P => with_node_list (gg ++ Leader P) (Follower P) P) ;;
    r ← race fuel (mk_step_env g [] [] 0 1) (mk_step_env h [] [] 0 2);
    let '(winner, senv0, senv1) := r in
    let senv_winner := if winner =? 0 then senv0 else senv1 in
    assert (bool_decide (initial senv_winner = [])) ;;
    assert (bool_decide (unwalked senv_winner = [])) ;;
    (* clear flags from walked/unwalked *)
    t0u ← clear_flags (unwalked senv0) false;
    t0w ← clear_flags (walked senv0) false;
    t1u ← clear_flags (unwalked senv1) false;
    t1w ← clear_flags (walked senv1) false;
    let t0 := t0u || t0w in
    let t1 := t1u || t1w in
    let transitions_winner := if winner =? 0 then t0 else t1 in
    let transitions_other := if winner =? 0 then t1 else t0 in
    (* Move walked_{winner} to a new partition, X'. *)
    X_prime ← new_partition;
    n ← move_walked X_prime (walked senv_winner) 0;
    max_input ← max_input_of (walked senv_winner) 0;
    upd_part X_prime (with_n_leader n) ;;
    upd_part X_prime (with_max_user_inputs max_input) ;;
    x ← get_part X;
    upd_part X (with_n_leader (unsigned_sub (n_leader x) n)) ;;
    (* for now, copy the type info tag, it will be adjusted in split_by(). *)
    upd_part X_prime (with_type_is_T_or_C (type_is_T_or_C x)) ;;
    (* a follower might have lost its congruence even if it was not
       checked by both sides *)
    x' ← get_part X_prime;
    lost ← promote_lost_followers (Follower x') false;
    let transitions_winner := transitions_winner || lost in
    check_partition X ;;
    check_partition X_prime ;;
    (* X' is the smaller part *)
    add_to_worklist X_prime ;;
    (* If there where follower to leader transitions, ensure that the nodes
       can be split out if necessary. *)
    (if transitions_winner then place_on_cprop X_prime else mret tt) ;;
    (if transitions_other then place_on_cprop X else mret tt) ;;
    (* we have to ensure that the partition containing g is returned *)
    if negb (winner =? 0) then mret (X, X_prime) else mret (X_prime, X).

(** ** The cprop queue *)

(** A Cond, a Switch, or a Proj of one: [is_Cond(skip_Proj(irn)) ||
    is_Switch(skip_Proj(irn))]. *)
Definition is_Cond_or_Switch (y : nat) : M bool :=
  skipped ← skip_Proj y;
  sk ← get_irn skipped;
  mret (is_op iro_Cond sk || is_op iro_Switch sk).

(** Place a node on the cprop list.  [fuel] bounds the depth of the
    recursion into the Projs of tuples. *)
Fixpoint add_to_cprop (fuel : nat) (y : nat) : M unit :=
  match fuel with
  | 0 => out_of_fuel
  | S fuel =>
      nd ← get_irn_node y;
      (* Add y to y.partition.cprop. *)
      (if negb (on_cprop nd) then
         let Y := part nd in
         cx ← is_Cond_or_Switch y;
         (* place Conds and all its Projs on the cprop_X list *)
         (if cx : bool
          then upd_part Y (fun P => with_cprop_lists (cprop P) (cprop_X P ++ [y]) P)
          else upd_part Y (fun P => with_cprop_lists (cprop P ++ [y]) (cprop_X P) P)) ;;
         upd_node y (with_on_cprop true) ;;
         (* place its partition on the cprop list *)
         place_on_cprop Y
       else mret tt) ;;
      irn ← get_irn y;
      if bool_decide (irn_mode irn = mode_T) then
        (* mode_T nodes always produce tarval_bottom, so we must explicitly
           add its Projs to get constant evaluation to work *)
        for_each (reverse (irn_out irn)) (fun edge => add_to_cprop fuel (use edge))
      else if is_op iro_Block irn then
        (* we must place all Phis of a block on the list if someone placed
           the block *)
        for_each (attr_phis (irn_attr irn)) (fun phi => add_to_cprop fuel phi)
      else mret tt
  end.

Section Propagate.

Variable computed_value : state -> nat -> ir_tarval.
Variable tarval_add : ir_tarval -> ir_tarval -> ir_tarval.
Variable tarval_sub : ir_tarval -> ir_tarval -> ir_mode -> ir_tarval.
Variable tarval_eor : ir_tarval -> ir_tarval -> ir_tarval.

(** The attribute comparison hook of an opcode ([ops.node_cmp_attr]), which
    may be absent; non-zero ([true]) means different. *)
Variable node_cmp_attr : ir_opcode -> option (ir_node -> ir_node -> bool).

(** Compare two opcode representatives; [true] is non-zero (different). *)
Definition cmp_irn_opcode (a b : ir_node) : bool :=
  if negb (bool_decide (irn_op a = irn_op b))
     || negb (bool_decide (irn_mode a = irn_mode b)) then true
  else if negb (get_irn_arity a =? get_irn_arity b) then true
  else if is_op iro_Block a then true     (* never let blocks be congruent *)
  else match node_cmp_attr (irn_op a) with
       | Some cmp => cmp a b
       | None => false
       end.

(** The entry of [opcode2id_map] for the key, if there is one.  (The hash
    only selects the bucket that is searched.) *)
Fixpoint find_opcode (map : list nat) (key : ir_node) : M (option nat) :=
  match map with
  | [] => mret None
  | e :: rest =>
      elt ← get_irn e;
      if negb (cmp_irn_opcode elt key) then mret (Some e)
      else find_opcode rest key
  end.

(** lambda n.(n.opcode): the entry of the node's opcode, inserted if new.
    An entry is named by the node it was inserted for. *)
Definition lambda_opcode (node : nat) : M nat :=
  key ← get_irn node;
  map ← gets (fun s => opcode2id_map (env s));
  found ← find_opcode map key;
  match found with
  | Some e => mret e
  | None =>
      modify (set_env (fun e => with_opcode2id_map (opcode2id_map e ++ [node]) e)) ;;
      mret node
  end.

(** [get_first_node]: the first entry of the Leader list. *)
Definition get_first_node (X : nat) : M nat :=
  P ← get_part X;
  deref (head (Leader P)).

(** The locals of [propagate] that live across the iterations of its inner
    loop. *)
Record propagate_locals : Type := mk_locals {
  oldopcode : option nat;
  fallen : list nat;
  n_fallen : nat;
}.

(** [if (x->on_fallen == 0) { x->next = fallen; x->on_fallen = 1; fallen = x;
    ++n_fallen; }] *)
Definition add_to_fallen (x : nat) (l : propagate_locals) : M propagate_locals :=
  nd ← get_irn_node x;
  if negb (on_fallen nd) then
    upd_node x (with_on_fallen true) ;;
    mret (mk_locals (oldopcode l) (x :: fallen l) (S (n_fallen l)))
  else mret l.

(** The node the inner loop of [propagate] takes next from partition [X]:
    from [cprop_X] only if [cprop] is empty; [None] when both are empty. *)
Definition propagate_pick (P : partition_t) : option nat :=
  let cprop_empty := bool_decide (cprop P = []) in
  let cprop_X_empty := bool_decide (cprop_X P = []) in
  if cprop_empty && cprop_X_empty then None
  else if cprop_empty then head (cprop_X P)
  else head (cprop P).

(** The body of the inner [for (;;)] of [propagate] behind the removal of
    [x] from its cprop list: the follower check, and the type of [x]
    computed anew; the locals after the iteration. *)
Definition propagate_visit (fuel : nat) (X : nat) (x : nat) (l : propagate_locals)
    : M (option propagate_locals) :=
  nd ← get_irn_node x;
  id ← (if is_follower nd then identity x else mret x);
  l ← (if is_follower nd && bool_decide (id = x) then
         (* check the opcode first *)
         old ← match oldopcode l with
               | Some o => mret o
               | None => first ← get_first_node X; lambda_opcode first
               end;
         let l := mk_locals (Some old) (fallen l) (n_fallen l) in
         xop ← lambda_opcode x;
         (* different opcode -> x falls out of this partition *)
         l ← (if negb (bool_decide (old = xop)) then add_to_fallen x l else mret l);
         (* x will make the follower -> leader transition *)
         follower_to_leader x ;;
         irn ← get_irn x;
         nd ← get_irn_node x;
         xp ← get_part (part nd);
         (if is_op iro_Phi irn && negb (on_worklist xp)
          then add_to_worklist (part nd) else mret tt) ;;
         mret l
       else mret l);
  (* compute a new type for x *)
  nd ← get_irn_node x;
  let old_type := type nd in
  compute computed_value tarval_add tarval_sub tarval_eor x ;;
  nd ← get_irn_node x;
  l ← (if negb (type_eqb (type nd) old_type) then
         verify_type old_type x ;;
         l ← add_to_fallen x l;
         irn ← get_irn x;
         for_each (reverse (irn_out irn)) (fun edge => add_to_cprop fuel (use edge)) ;;
         mret l
       else mret l);
  mret (Some l).

(** One iteration of the inner [for (;;)] of [propagate] on partition [X]:
    [None] when both cprop lists are empty (the loop is left), else the
    locals after the iteration. *)
Definition propagate_step (fuel : nat) (X : nat) (l : propagate_locals)
    : M (option propagate_locals) :=
  P ← get_part X;
  match propagate_pick P with
  | None => mret None                      (* both cprop lists are empty *)
  | Some x =>
      (* remove the first Node x from X.cprop *)
      upd_part X (fun P =>
        if bool_decide (cprop P = [])
        then with_cprop_lists (cprop P) (tail (cprop_X P)) P
        else with_cprop_lists (tail (cprop P)) (cprop_X P) P) ;;
      upd_node x (with_on_cprop false) ;;
      propagate_visit fuel X x l
  end.

(** The inner loop of [propagate], at most [iters] iterations. *)
Fixpoint propagate_drain (iters fuel : nat) (X : nat) (l : propagate_locals)
    : M propagate_locals :=
  match iters with
  | 0 => out_of_fuel
  | S iters =>
      r ← propagate_step fuel X l;
      match r with
      | None => mret l
      | Some l' => propagate_drain iters fuel X l'
      end
  end.

End Propagate.

(** ** The apply phase *)

(** Modelled from the spec: the host's "ability to replace a node with
    another" and its node constructors (irgmod.c, [new_ir_node] and the
    constructors for Bad, Unknown, Const, Jmp and Conv are not part of the
    sources; [new_rd_SymConst] of ircons.c is, and builds its node in the
    start block with no inputs, as modelled here).  A constructor allocates
    a fresh node, in the start block unless it is given a block; [exchange]
    redirects every use of the old node. *)
Definition new_ir_node (n : ir_node) : M nat :=
  i ← gets next_irn;
  modify (fun s => set_next_irn (S i) (set_irg (<[i := n]>) s)) ;;
  mret i.

Definition new_r_node (op : ir_opcode) (m : ir_mode) (block : option nat)
    (ins : list nat) (a : ir_attr) : M nat :=
  start ← gets start_block;
  new_ir_node (mk_irn op m (default start block) ins op_pin_state_floats [] a).

Definition reroute (old nw : nat) (n : ir_node) : ir_node :=
  mk_irn (irn_op n) (irn_mode n)
         (if bool_decide (irn_block n = old) then nw else irn_block n)
         ((fun i => if bool_decide (i = old) then nw else i) <$> irn_in n)
         (irn_pinned n) (irn_out n) (irn_attr n).

Definition exchange (old nw : nat) : M unit :=
  modify (set_irg (fmap (reroute old nw))).

(** [set_irn_node(irn, node)]: the new node shares the record, which is not
    written again afterwards. *)
Definition set_irn_node (irn : nat) (nd : option node_t) : M unit :=
  modify (set_link (fun l => match nd with
                             | Some nd => <[irn := nd]> l
                             | None => delete irn l
                             end)).

(** What [apply_result] exchanged the node for. *)
Inductive replacement : Type :=
  | by_Bad (bad : nat)
  | by_mem (mem : nat)
  | by_Unknown (unk : nat)
  | by_Jmp (jmp : nat)
  | by_Const (c : nat)
  | by_SymConst (symc : nat)
  | by_leader (leader : nat).

(** Get the leader for a given node from its congruence class. *)
Definition get_leader (nd : node_t) : M nat :=
  P ← get_part (part nd);
  if (1 <? n_leader P) || is_follower nd then
    first ← get_first_node (part nd);
    fnd ← get_irn_node first;
    mret (node_irn fnd)
  else mret (node_irn nd).

(** Non-zero if a mode_T node has only one reachable output. *)
Fixpoint only_one_reachable_proj_loop (outs : list ir_def_use_edge) (k : nat) : M bool :=
  match outs with
  | [] => mret true
  | edge :: rest =>
      proj ← get_irn (use edge);
      (* skip non-control flow Proj's *)
      if negb (bool_decide (irn_mode proj = mode_X))
      then only_one_reachable_proj_loop rest k
      else
        nd ← get_irn_node (use edge);
        if tv_is (type nd) tarval_reachable then
          if 1 <? S k then mret false
          else only_one_reachable_proj_loop rest (S k)
        else only_one_reachable_proj_loop rest k
  end.

Definition only_one_reachable_proj (n : nat) : M bool :=
  irn ← get_irn n;
  only_one_reachable_proj_loop (reverse (irn_out irn)) 0.

(** Exchange a node by its leader, through a Conv when the modes differ;
    the node it was exchanged for. *)
Definition exchange_leader (irn leader : nat) : M nat :=
  n ← get_irn irn;
  l ← get_irn leader;
  leader ← (if negb (bool_decide (irn_mode n = irn_mode l)) then
              nlead ← new_r_node iro_Conv (irn_mode n) (Some (irn_block l)) [leader] no_attr;
              set_irn_node nlead None ;;
              mret nlead
            else mret leader);
  exchange irn leader ;;
  mret leader.

Definition set_modified : M unit := modify (set_env (with_modified true)).

(** [set_irn_node(nw, node); node->node = nw;] for the record of [irn]. *)
Definition retarget (irn nw : nat) (share : bool) : M unit :=
  upd_node irn (with_node_irn nw) ;;
  nd ← get_irn_node irn;
  if share then set_irn_node nw (Some nd) else mret tt.

(** Does a Phi have an Unknown operand? *)
Fixpoint has_Unknown_pred (preds : list nat) : M bool :=
  match preds with
  | [] => mret false
  | p :: rest =>
      pred ← get_irn p;
      if is_op iro_Unknown pred then mret true else has_Unknown_pred rest
  end.

(** The memory input of a memory operation: input 0. *)
Definition get_memop_mem (n : ir_node) : M nat := get_irn_n n 0.

(** [is_tarval(t.tv) && tarval_is_constant(t.tv)] *)
Definition is_tarval_constant (t : lattice_elem_t) : bool :=
  match t with L_tv tv => tarval_is_constant tv | L_sym _ => false end.

(** Post-Walker, apply the analysis results to [irn]; what the node was
    exchanged for, if it was. *)
Definition apply_result (irn : nat) : M (option replacement) :=
  n ← get_irn irn;
  node ← get_irn_node irn;
  if is_op iro_Block n || is_op iro_End n || is_op iro_Bad n then
    (* blocks already handled, do not touch the End node *)
    mret None
  else
    block ← get_irn_node (irn_block n);
    if tv_is (type block) tarval_unreachable then
      cur ← get_irn (node_irn node);
      bad ← new_r_node iro_Bad (irn_mode cur) None [] no_attr;
      retarget irn bad true ;;
      exchange irn bad ;;
      set_modified ;;
      mret (Some (by_Bad bad))
    else if tv_is (type node) tarval_top then
      let mode := irn_mode n in
      if bool_decide (mode = mode_M) then
        (* never kill a mode_M node *)
        if is_op iro_Proj n then
          pred ← get_Proj_pred n;
          pnode ← get_irn_node pred;
          if tv_is (type pnode) tarval_top then
            (* skip the predecessor *)
            p ← get_irn pred;
            mem ← get_memop_mem p;
            retarget irn mem false ;;
            exchange irn mem ;;
            set_modified ;;
            mret (Some (by_mem mem))
          else mret None
        else mret None                  (* leave other nodes, especially PhiM *)
      else if bool_decide (mode = mode_T) then
        (* Do not kill mode_T nodes, kill their Projs *)
        mret None
      else if negb (is_op iro_Unknown n) then
        (* don't kick away Unknown's, they might be still needed *)
        unk ← new_r_node iro_Unknown mode None [] no_attr;
        (* control flow should already be handled at apply_cf() *)
        assert (negb (bool_decide (mode = mode_X))) ;;
        retarget irn unk true ;;
        exchange irn unk ;;
        set_modified ;;
        mret (Some (by_Unknown unk))
      else mret None
    else if bool_decide (irn_mode n = mode_X) then
      if is_op iro_Proj n then
        (* leave or Jmp *)
        cond ← get_Proj_pred n;
        c ← get_irn cond;
        if is_op iro_Cond c || is_op iro_Switch c then
          one ← only_one_reachable_proj cond;
          if one : bool then
            jmp ← new_r_node iro_Jmp mode_X (Some (node_irn block)) [] no_attr;
            retarget irn jmp true ;;
            exchange irn jmp ;;
            set_modified ;;
            mret (Some (by_Jmp jmp))
          else if is_op iro_Switch c then
            sel ← get_Switch_selector c;
            selector ← get_irn_node sel;
            (* The selector is a constant, but more than one output is
               active: An unoptimized case found. *)
            (if is_tarval_constant (type selector)
             then modify (set_env (with_unopt_cf true)) else mret tt) ;;
            mret None
          else mret None
        else mret None
      else mret None
    else
      (* normal data node *)
      match type node with
      | L_tv tv =>
          if tarval_is_constant tv then
            (* never replace mode_T nodes by constants *)
            if negb (is_op iro_Const n) && negb (bool_decide (irn_mode n = mode_T)) then
              c ← new_r_node iro_Const (get_tarval_mode tv) None []
                     (mk_attr 0 0 tv symconst_other 0 None [] []);
              retarget irn c true ;;
              r ← exchange_leader irn c;
              set_modified ;;
              mret (Some (by_Const r))
            else mret None
          else if is_op iro_Confirm n then
            (* Confirms are always follower, but do not kill them here *)
            mret None
          else
            leader ← get_leader node;
            if negb (bool_decide (leader = irn)) then
              l ← get_irn leader;
              (* Do not remove Phi(Unknown, ..., x, ..., Unknown) as this
                 might create non-strict programs. *)
              non_strict_phi ←
                (if is_follower node && is_op iro_Phi n && negb (is_op iro_Unknown l)
                 then has_Unknown_pred (reverse (irn_in n)) else mret false);
              if negb non_strict_phi then
                r ← exchange_leader irn leader;
                set_modified ;;
                mret (Some (by_leader r))
              else mret None
            else mret None
      | L_sym sym =>
          if negb (is_op iro_SymConst n) then
            symc ← new_r_node iro_SymConst (irn_mode n) None []
                      (mk_attr 0 0 tarval_bad symconst_addr_ent sym None [] []);
            retarget irn symc true ;;
            r ← exchange_leader irn symc;
            set_modified ;;
            mret (Some (by_SymConst r))
          else mret None
      end.

(** ** Leader to follower: segregating the Def-Use edges *)

(** [for (j = i; j-- > leader->n_followers; ) edges[j+1] = edges[j];] over
    the indices [js] = [i-1, ..., n_followers]. *)
Fixpoint segregate_shift (leader : nat) (js : list nat) : M unit :=
  match js with
  | [] => mret tt
  | j :: rest =>
      l ← get_irn leader;
      e ← deref (irn_out l !! j);
      upd_irn leader (fun n => with_irn_out (<[S j := e]> (irn_out n)) n) ;;
      segregate_shift leader rest
  end.

(** The search of [segregate_def_use_chain_1] among the leader edges [idx]
    of [leader] for an edge used by [follower]; on a hit the edge is moved
    behind the follower edges. *)
Fixpoint segregate_search (follower leader : nat) (idx : list nat) : M unit :=
  match idx with
  | [] => mret tt
  | i :: rest =>
      l ← get_irn leader;
      ln ← get_irn_node leader;
      t ← deref (irn_out l !! i);
      if bool_decide (use t = follower) then
        segregate_shift leader (reverse (seq (n_followers ln) (i - n_followers ln))) ;;
        upd_irn leader (fun n => with_irn_out (<[n_followers ln := t]> (irn_out n)) n) ;;
        upd_node leader (with_n_followers (S (n_followers ln)))
      else segregate_search follower leader rest
  end.

(** Node [follower] is a (new) follower of [leader], segregate the leader's
    out edges.  The leader edges must remain sorted, but follower edges can
    be unsorted. *)
Definition segregate_def_use_chain_1 (follower leader : nat) : M unit :=
  l ← get_irn leader;
  ln ← get_irn_node leader;
  segregate_search follower leader
    (seq (n_followers ln) (get_irn_n_outs l - n_followers ln)).

Definition segregate_def_use_chain (follower : nat) : M unit :=
  f ← get_irn follower;
  for_each (down_from (get_irn_arity f)) (fun i =>
    pred ← get_irn_n f i;
    segregate_def_use_chain_1 follower pred).

(** ** The apply phase: keep-alives and kept memory *)

Definition with_irn_in (ins : list nat) (n : ir_node) : ir_node :=
  mk_irn (irn_op n) (irn_mode n) (irn_block n) ins (irn_pinned n) (irn_out n) (irn_attr n).

(** Modelled from the spec: the host's ability to "add a keep-alive to End,
    set a node's input vector" (irnode.c is not part of the sources).  The
    keep-alives of the End node are its inputs. *)
Definition set_irn_in (irn : nat) (ins : list nat) : M unit :=
  upd_irn irn (with_irn_in ins).
Definition add_End_keepalive (end_node ka : nat) : M unit :=
  upd_irn end_node (fun e => with_irn_in (irn_in e ++ [ka]) e).

(** Check, if all users of a mode_M node are dead. *)
Fixpoint all_users_are_dead_loop (outs : list ir_def_use_edge) : M bool :=
  match outs with
  | [] => mret true                       (* all users are unreachable *)
  | e :: rest =>
      succ ← get_irn (use e);
      block ← get_irn_node (irn_block succ);
      if tv_is (type block) tarval_unreachable
      then all_users_are_dead_loop rest   (* block is unreachable *)
      else
        node ← get_irn_node (use e);
        if negb (tv_is (type node) tarval_top)
        then mret false                   (* found a reachable user *)
        else all_users_are_dead_loop rest
  end.

Definition all_users_are_dead (irn : nat) : M bool :=
  n ← get_irn irn;
  all_users_are_dead_loop (irn_out n).

(** Walker: find reachable mode_M nodes that have only unreachable users.
    The array [env->kept_memory] is threaded through. *)
Definition find_kept_memory (irn : nat) (kept_memory : list nat) : M (list nat) :=
  n ← get_irn irn;
  if negb (bool_decide (irn_mode n = mode_M)) then mret kept_memory
  else
    block ← get_irn_node (irn_block n);
    if tv_is (type block) tarval_unreachable then mret kept_memory
    else
      node ← get_irn_node irn;
      if tv_is (type node) tarval_top then mret kept_memory
      else
        (* ok, we found a live memory node. *)
        dead ← all_users_are_dead irn;
        if dead : bool then mret (kept_memory ++ [irn]) else mret kept_memory.

(** The loop of [apply_end] over the keep-alives [kas]; [in_] are the
    keep-alives kept so far ([in[j++] = ka]). *)
Fixpoint apply_end_loop (kas : list nat) (in_ : list nat) : M (list nat) :=
  match kas with
  | [] => mret in_
  | ka :: rest =>
      k ← get_irn ka;
      if is_op iro_Bad k then apply_end_loop rest in_
      else
        block ← (if negb (is_op iro_Block k) then
                   b ← get_irn (irn_block k);
                   mret (if is_op iro_Bad b then None else Some (irn_block k))
                 else mret (Some ka));
        match block with
        | None => apply_end_loop rest in_
        | Some block =>
            node ← get_irn_node block;
            if negb (tv_is (type node) tarval_unreachable)
            then apply_end_loop rest (in_ ++ [ka])
            else apply_end_loop rest in_
        end
  end.

(** Fix the keep-alives by deleting unreachable ones. *)
Definition apply_end (end_node : nat) : M unit :=
  e ← get_irn end_node;
  let n := get_irn_arity e in
  in_ ← apply_end_loop (irn_in e) [];
  if negb (length in_ =? n) then
    set_irn_in end_node in_ ;;
    set_modified
  else mret tt.

(** Add memory keeps: the kept memory nodes that are not keep-alives of
    the End node [end_node] of the graph yet. *)
Definition add_memory_keeps (end_node : nat) (kept_memory : list nat) : M unit :=
  e ← get_irn end_node;
  (* check, if those nodes are already kept *)
  let set : gset nat := list_to_set (irn_in e) in
  for_each kept_memory (fun ka =>
    if negb (bool_decide (ka ∈ set)) then add_End_keepalive end_node ka else mret tt).

(** Return non-zero if the control flow predecessor node [pred] is the only
    reachable control flow exit of its block. *)
Definition can_exchange (pred block : nat) : M bool :=
  p ← get_irn pred;
  b ← get_irn block;
  if is_op iro_Start p || bool_decide (attr_entity (irn_attr b) <> None) then mret false
  else if is_op iro_Jmp p then mret true
  else if is_op iro_Raise p then
    (* Raise is a tuple and usually has only one reachable ProjX, but it
       must not be eliminated like a Jmp *)
    mret false
  else if bool_decide (irn_mode p = mode_T) then
    (* if the predecessor block has more than one reachable outputs we
       cannot remove the block *)
    only_one_reachable_proj pred
  else mret false.


(** ** The touched sets *)

Definition with_on_touched (b : bool) (n : node_t) : node_t :=
  mk_node (node_irn n) (part n) (type n) (max_user_input n) (next_edge n) (n_followers n)
          b (on_cprop n) (on_fallen n) (is_follower n) (flagged n).
Definition with_next_edge (k : nat) (n : node_t) : node_t :=
  mk_node (node_irn n) (part n) (type n) (max_user_input n) k (n_followers n)
          (on_touched n) (on_cprop n) (on_fallen n) (is_follower n) (flagged n).
Definition with_touched (t : list nat) (P : partition_t) : partition_t :=
  mk_part (Leader P) (Follower P) (cprop P) (cprop_X P) t (n_leader P) (n_touched P)
          (max_user_inputs P) (on_worklist P) (p_on_touched P) (p_on_cprop P)
          (type_is_T_or_C P).
Definition with_n_touched (k : nat) (P : partition_t) : partition_t :=
  mk_part (Leader P) (Follower P) (cprop P) (cprop_X P) (touched P) (n_leader P) k
          (max_user_inputs P) (on_worklist P) (p_on_touched P) (p_on_cprop P)
          (type_is_T_or_C P).
Definition with_p_on_touched (b : bool) (P : partition_t) : partition_t :=
  mk_part (Leader P) (Follower P) (cprop P) (cprop_X P) (touched P) (n_leader P)
          (n_touched P) (max_user_inputs P) (on_worklist P) b (p_on_cprop P)
          (type_is_T_or_C P).
Definition with_env_touched (t : list nat) (e : environment_t) : environment_t :=
  mk_env (worklist e) (env_cprop e) t (env_initial e) (end_idx e) (lambda_input e)
         (modified e) (unopt_cf e) (commutative e) (opt_unknown e) (opcode2id_map e).

(** [check_list], compiled in by [CHECK_PARTITIONS]: every node of a local
    list belongs to the partition. *)
Definition check_list (l : list nat) (Z : nat) : M unit :=
  for_each l (fun e =>
    nd ← get_irn_node e;
    assert (bool_decide (part nd = Z))).

(** Add a node to the touched list of its partition, and the partition to
    the touched set, if they are not already there. *)
Definition add_to_touched (y : nat) : M unit :=
  nd ← get_irn_node y;
  if negb (on_touched nd) then
    let p := part nd in
    P ← get_part p;
    upd_part p (with_touched (y :: touched P)) ;;
    upd_node y (with_on_touched true) ;;
    upd_part p (with_n_touched (S (n_touched P))) ;;
    P ← get_part p;
    (if negb (p_on_touched P) then
       modify (set_env (fun e => with_env_touched (p :: env_touched e) e)) ;;
       upd_part p (with_p_on_touched true)
     else mret tt) ;;
    P ← get_part p;
    check_list (touched P) p
  else mret tt.

(** Non-zero if the i'th input of a Phi node is live; the control input
    is always live. *)
Definition is_live_input (phi : nat) (i : Z) : M bool :=
  if (0 <=? i)%Z then
    n ← get_irn phi;
    block ← get_irn (irn_block n);
    pred ← get_irn_n_Z block i;
    pn ← get_irn_node pred;
    mret (negb (tv_is (type pn) tarval_unreachable))
  else mret true.

(** Whether a type is neither Top nor a constant: Unknown is handled like
    Top, Reachable and symbols are constants. *)
Definition type_is_neither_top_nor_const (t : lattice_elem_t) : bool :=
  match t with
  | L_tv tv =>
      if bool_decide (tv = tarval_top) then false
      else if tarval_is_constant tv then false
      else true
  | L_sym _ => false
  end.

Section Touched.

(** Modelled from the spec: [is_op_commutative] reads a flag of the opcode
    (irop.h is not part of the sources); nothing is assumed of it. *)
Variable is_op_commutative : ir_opcode -> bool.

(** The walk of [collect_touched] over the edges of [x] for input [idx],
    from the cursor [x->next_edge] on.  [cfuel] bounds the recursion of
    [add_to_cprop], [fuel] the iterations of the walk. *)
Fixpoint collect_touched_edges (cfuel fuel : nat) (x : nat) (idx end_idx : Z)
    (num_edges : nat) : M unit :=
  match fuel with
  | 0 => out_of_fuel
  | S fuel =>
      nd ← get_irn_node x;
      if next_edge nd <? num_edges then
        irn ← get_irn x;
        edge ← deref (irn_out irn !! next_edge nd);
        (* check if we have necessary edges *)
        if (idx <? pos edge)%Z then mret tt
        else
          upd_node x (with_next_edge (S (next_edge nd))) ;;
          let succ := use edge in
          e ← gets env;
          sn ← get_irn succ;
          (if commutative e && ((idx =? 0) || (idx =? 1))%Z
              && is_op_commutative (irn_op sn)
           then mret tt                              (* only non-commutative nodes *)
           else if (idx <? end_idx)%Z
                   && negb (bool_decide (irn_pinned sn = op_pin_state_pinned))
           then mret tt                              (* the control input in GCSE mode *)
           else
             y ← get_irn_node succ;
             inp ← get_irn_n_Z sn idx;
             assert (bool_decide (inp = x)) ;;
             if (idx =? -1)%Z && is_follower y
             then mret tt                            (* block edges touching followers *)
             else
               (if is_constant_type (type y)
                   && (is_op iro_Sub sn || is_op iro_Cmp sn)
                then add_to_cprop cfuel succ
                else mret tt) ;;
               (* Partitions of constants should not be split simply because
                  their Nodes have unequal functions or incongruent inputs. *)
               y ← get_irn_node succ;
               if type_is_neither_top_nor_const (type y) then
                 live ← (if negb (is_op iro_Phi sn) then mret true
                         else is_live_input succ idx);
                 if live : bool then add_to_touched succ else mret tt
               else mret tt) ;;
          collect_touched_edges cfuel fuel x idx end_idx num_edges
      else mret tt
  end.

(** Collect nodes to the touched list: the users at input [idx] of the
    nodes of [list]. *)
Definition collect_touched (cfuel : nat) (list : list nat) (idx : Z) : M unit :=
  end_idx ← gets (fun s => end_idx (env s));
  for_each list (fun x =>
    (if (idx =? -1)%Z then
       (* leader edges start AFTER follower edges *)
       nd ← get_irn_node x;
       upd_node x (with_next_edge (n_followers nd))
     else mret tt) ;;
    irn ← get_irn x;
    let num_edges := get_irn_n_outs irn in
    collect_touched_edges cfuel (S num_edges) x idx end_idx num_edges).

(** The walk of [collect_commutative_touched] over the edges of [x]. *)
Fixpoint collect_commutative_touched_edges (cfuel fuel : nat) (x : nat)
    (num_edges : nat) : M unit :=
  match fuel with
  | 0 => out_of_fuel
  | S fuel =>
      nd ← get_irn_node x;
      if next_edge nd <? num_edges then
        irn ← get_irn x;
        edge ← deref (irn_out irn !! next_edge nd);
        (* check if we have necessary edges *)
        if (1 <? pos edge)%Z then mret tt
        else
          upd_node x (with_next_edge (S (next_edge nd))) ;;
          (if (pos edge <? 0)%Z then mret tt
           else
             let succ := use edge in
             sn ← get_irn succ;
             if negb (is_op_commutative (irn_op sn)) then mret tt
             else                                    (* only commutative nodes *)
               y ← get_irn_node succ;
               (if is_constant_type (type y) && is_op iro_Eor sn
                then add_to_cprop cfuel succ
                else mret tt) ;;
               y ← get_irn_node succ;
               if type_is_neither_top_nor_const (type y)
               then add_to_touched succ
               else mret tt) ;;
          collect_commutative_touched_edges cfuel fuel x num_edges
      else mret tt
  end.

(** Collect commutative nodes to the touched list. *)
Definition collect_commutative_touched (cfuel : nat) (list : list nat) : M unit :=
  for_each list (fun x =>
    irn ← get_irn x;
    let num_edges := get_irn_n_outs irn in
    nd ← get_irn_node x;
    upd_node x (with_next_edge (n_followers nd)) ;;
    collect_commutative_touched_edges cfuel (S num_edges) x num_edges).

(** [if (0 < n && n < Z->n_leader) split(&Z, touched, env);
     else assert(n <= Z->n_leader);] *)
Definition split_if_proper (fuel : nat) (Z : nat) (touched : list nat) (n : nat) : M unit :=
  z ← get_part Z;
  if (0 <? n) && (n <? n_leader z) then
    split fuel Z touched ;; mret tt
  else assert (n <=? n_leader z).

(** The walk over the touched list of a commutative round: op(a, a) is not
    congruent to op(a, b), so the list is split in two. *)
Fixpoint split_touched_aa_ab (l aa ab : list nat) : M (list nat * list nat) :=
  match l with
  | [] => mret (aa, ab)
  | e :: n =>
      irn ← get_irn e;
      l0 ← get_irn_n irn 0;
      left ← get_irn_node l0;
      r0 ← get_irn_n irn 1;
      right ← get_irn_node r0;
      nd ← get_irn_node e;
      assert (negb (is_follower nd)) ;;
      upd_node e (with_on_touched false) ;;
      if bool_decide (part left = part right)
      then split_touched_aa_ab n (e :: aa) ab
      else split_touched_aa_ab n aa (e :: ab)
  end.

(** One round of the loop over [env->touched] for the commutative nodes. *)
Definition cause_splits_commutative_round (fuel : nat) (Z : nat) : M unit :=
  z ← get_part Z;
  let touched := touched z in
  assert (negb (bool_decide (touched = []))) ;;
  (* remove it from the touched set *)
  upd_part Z (with_p_on_touched false) ;;
  (* Empty local Z.touched. *)
  '(touched_aa, touched_ab) ← split_touched_aa_ab touched [] [];
  z ← get_part Z;
  assert (length touched_aa + length touched_ab =? n_touched z) ;;
  upd_part Z (with_touched []) ;;
  upd_part Z (with_n_touched 0) ;;
  split_if_proper fuel Z touched_aa (length touched_aa) ;;
  split_if_proper fuel Z touched_ab (length touched_ab).

(** One round of the loop over [env->touched] for an input position. *)
Definition cause_splits_round (fuel : nat) (Z : nat) : M unit :=
  z ← get_part Z;
  let touched := touched z in
  let n_touched := n_touched z in
  assert (negb (bool_decide (touched = []))) ;;
  (* remove it from the touched set *)
  upd_part Z (with_p_on_touched false) ;;
  (* Empty local Z.touched. *)
  for_each touched (fun e =>
    nd ← get_irn_node e;
    assert (negb (is_follower nd)) ;;
    upd_node e (with_on_touched false)) ;;
  upd_part Z (with_touched []) ;;
  upd_part Z (with_n_touched 0) ;;
  split_if_proper fuel Z touched n_touched.

(** [for (idx = ...; idx <= X->max_user_inputs; ++idx)]: the bound is read
    anew before every round, [rounds] bounds their number. *)
Fixpoint cause_splits_inputs (cfuel fuel rounds : nat) (X : nat) (idx : Z) : M unit :=
  match rounds with
  | 0 => out_of_fuel
  | S rounds =>
      x ← get_part X;
      if (idx <=? max_user_inputs x)%Z then
        (* empty the touched set: already done, just clear the list *)
        modify (set_env (with_env_touched [])) ;;
        x ← get_part X;
        collect_touched cfuel (Leader x) idx ;;
        x ← get_part X;
        collect_touched cfuel (Follower x) idx ;;
        zs ← gets (fun s => env_touched (env s));
        for_each zs (cause_splits_round fuel) ;;
        cause_splits_inputs cfuel fuel rounds X (idx + 1)
      else mret tt
  end.

(** Split the partitions if caused by the first entry on the worklist. *)
Definition cause_splits (cfuel fuel rounds : nat) : M unit :=
  (* remove the first partition from the worklist *)
  wl ← gets (fun s => worklist (env s));
  X ← deref (head wl);
  modify (set_env (with_worklist (tail wl))) ;;
  upd_part X (with_on_worklist false) ;;
  commutative ← gets (fun s => commutative (env s));
  (if commutative : bool then
     (* handle commutative nodes first *)
     modify (set_env (with_env_touched [])) ;;
     x ← get_part X;
     collect_commutative_touched cfuel (Leader x) ;;
     x ← get_part X;
     collect_commutative_touched cfuel (Follower x) ;;
     zs ← gets (fun s => env_touched (env s));
     for_each zs (cause_splits_commutative_round fuel)
   else mret tt) ;;
  (* combine temporary leader and follower list *)
  cause_splits_inputs cfuel fuel rounds X (-1).

End Touched.

(** ** Splitting by what *)

Section Listmap.

(** The ids a [what_func] returns are compared as pointers; [K] is what
    they point to. *)
Context {K : Type} `{EqDecision K}.

(** A listmap: its entries in the order of [map->values], each with its id
    and its local list of nodes (the hash set only finds the entry of an
    id). *)
Definition listmap_t : Type := list (K * list nat).

(** Return the associated listmap entry for a given id: a new entry, with
    an empty list, is put in front of the values. *)
Definition listmap_find (map : listmap_t) (id : K) : listmap_t :=
  if bool_decide (id ∈ map.*1) then map else (id, []) :: map.

(** [x->next = entry->list; entry->list = x;] for the entry of [id]. *)
Definition listmap_push (map : listmap_t) (id : K) (x : nat) : listmap_t :=
  (fun e : K * list nat => if bool_decide (e.1 = id) then (e.1, x :: e.2) else e) <$> map.

(** The first loop of [split_by_what]: add every leader to [map[What(x)]],
    ignoring those for which [What] is NULL. *)
Fixpoint split_by_what_collect (What : nat -> M (option K)) (leaders : list nat)
    (map : listmap_t) : M listmap_t :=
  match leaders with
  | [] => mret map
  | x :: rest =>
      id ← What x;
      match id with
      | None => split_by_what_collect What rest map       (* input not allowed, ignore *)
      | Some id =>
          (* Add x to map[What(x)]. *)
          split_by_what_collect What rest (listmap_push (listmap_find map id) id x)
      end
  end.

(** The second loop: for all sets S' except the last in the values, add
    SPLIT(X, S') to P. *)
Fixpoint split_by_what_values (fuel : nat) (X : nat) (values : listmap_t) (P : list nat)
    : M (nat * list nat) :=
  match values with
  | [] => mret (X, P)
  | [_] => mret (X, P)                     (* this is the last entry, ignore *)
  | (_, S') :: rest =>
      '(R, X) ← split fuel X S';
      split_by_what_values fuel X rest (R :: P)
  end.

(** Split a partition by characteristics given by the what function; the
    result is the list [*P] of the partitions made. *)
Definition split_by_what (fuel : nat) (X : nat) (What : nat -> M (option K))
    (P : list nat) : M (list nat) :=
  x ← get_part X;
  map ← split_by_what_collect What (Leader x) [];
  '(X, P) ← split_by_what_values fuel X map P;
  (* Add X to P. *)
  mret (X :: P).

End Listmap.

(** lambda n.(n.type) *)
Definition lambda_type (node : nat) : M (option lattice_elem_t) :=
  nd ← get_irn_node node;
  mret (Some (type nd)).

(** lambda n.(n[i].partition); NULL if the input is outside the allowed
    range or is the block input of a node that is not pinned in GCSE
    mode. *)
Definition lambda_partition (node : nat) : M (option nat) :=
  skipped ← skip_Proj node;
  e ← gets env;
  let i := lambda_input e in
  n ← get_irn node;
  if (Z.of_nat (get_irn_arity n) <=? i)%Z then mret None
  else
    sk ← get_irn skipped;
    if (i <? end_idx e)%Z && negb (bool_decide (irn_pinned sk = op_pin_state_pinned))
    then mret None
    else
      pred ← (if (i =? -1)%Z then get_irn_n_Z sk i else get_irn_n_Z n i);
      p ← get_irn_node pred;
      mret (Some (part p)).

Section Analysis.

Variable computed_value : state -> nat -> ir_tarval.
Variable tarval_add : ir_tarval -> ir_tarval -> ir_tarval.
Variable tarval_sub : ir_tarval -> ir_tarval -> ir_mode -> ir_tarval.
Variable tarval_eor : ir_tarval -> ir_tarval -> ir_tarval.
Variable node_cmp_attr : ir_opcode -> option (ir_node -> ir_node -> bool).
Variable is_op_commutative : ir_opcode -> bool.

(** lambda n.(n[i].partition) for commutative nodes: the partitions of the
    two operands are put in order, the smaller for input 0 and the bigger
    for input 1.  (Partitions are compared by address; the model compares
    their slots.) *)
Definition lambda_commutative_partition (node : nat) : M (option nat) :=
  skipped ← skip_Proj node;
  e ← gets env;
  let i := lambda_input e in
  irn ← get_irn node;
  if (Z.of_nat (get_irn_arity irn) <=? i)%Z then mret None
  else
    sk ← get_irn skipped;
    if (i <? end_idx e)%Z && negb (bool_decide (irn_pinned sk = op_pin_state_pinned))
    then mret None
    else if (i =? -1)%Z then
      pred ← get_irn_n_Z sk i;
      p ← get_irn_node pred;
      mret (Some (part p))
    else if is_op_commutative (irn_op irn) then
      (* normalize partition order by returning the "smaller" on input 0,
         the "bigger" on input 1. *)
      left ← get_binop_left irn;
      ln ← get_irn_node left;
      let pl := part ln in
      right ← get_binop_right irn;
      rn ← get_irn_node right;
      let pr := part rn in
      if (i =? 0)%Z
      then mret (Some (if pl <? pr then pl else pr))
      else mret (Some (if pr <? pl then pl else pr))
    else
      (* a not split out Follower *)
      pred ← get_irn_n_Z irn i;
      p ← get_irn_node pred;
      mret (Some (part p)).

(** [I->type_is_T_or_C = x->type.tv == tarval_top || is_con(x->type)] for
    the first node [x] of [I]. *)
Definition set_type_tag (I : nat) : M unit :=
  x ← get_first_node I;
  xn ← get_irn_node x;
  upd_part I (with_type_is_T_or_C (tv_is (type xn) tarval_top || is_con (type xn))).

(** [do { x = l; l = l->split_next; body(x); } while (l != NULL);] over a
    list that the body does not relink. *)
Definition do_while_split_next {A} (l : list nat) (body : nat -> A -> M A) (a : A) : M A :=
  match l with
  | [] => abort
  | _ => foldl (fun m x => a ← m; body x a) (mret a) l
  end.

Definition with_lambda_input (i : Z) (e : environment_t) : environment_t :=
  mk_env (worklist e) (env_cprop e) (env_touched e) (env_initial e) (end_idx e) i
         (modified e) (unopt_cf e) (commutative e) (opt_unknown e) (opcode2id_map e).

(** The loop of [split_by] over the inputs, from the last down to the block
    input: the partitions [R] made so far are split by the input, which may
    make partitions that differ by an input handled before. *)
Fixpoint split_by_inputs (fuel : nat) (what : nat -> M (option nat)) (inputs : list Z)
    (R : list nat) : M unit :=
  match inputs with
  | [] => mret tt
  | input :: rest =>
      S' ← do_while_split_next R (fun Z_prime S' =>
              z ← get_part Z_prime;
              if 1 <? n_leader z then
                modify (set_env (with_lambda_input input)) ;;
                split_by_what fuel Z_prime what S'
              else mret (Z_prime :: S')) [];
      split_by_inputs fuel what rest S'
  end.

(** Implements split_by(): split a partition by type, the parts that are
    neither Top nor constant by opcode, and those by the partitions of
    their inputs. *)
Definition split_by (fuel : nat) (X : nat) : M unit :=
  x ← get_part X;
  if n_leader x =? 1 then
    (* we have only one leader, no need to split, just check its type *)
    set_type_tag X
  else
    P ← split_by_what fuel X lambda_type [];
    (* adjust the type tags, we have split partitions by type *)
    for_each P set_type_tag ;;
    do_while_split_next P (fun Y _ =>
      y ← get_part Y;
      if (1 <? n_leader y) && negb (type_is_T_or_C y) then
        (* we do not want split the TOP or constant partitions *)
        Q ← split_by_what fuel Y
               (fun n => id ← lambda_opcode node_cmp_attr n; mret (Some id)) [];
        do_while_split_next Q (fun Z _ =>
          z ← get_part Z;
          if 1 <? n_leader z then
            first ← get_first_node Z;
            fi ← get_irn first;
            let arity := get_irn_arity fi in
            e ← gets env;
            let what := if commutative e && is_op_commutative (irn_op fi)
                        then lambda_commutative_partition
                        else lambda_partition in
            split_by_inputs fuel what
              ((fun k => Z.of_nat k - 1)%Z <$> down_from (S arity)) [Z]
          else mret tt) tt
      else mret tt) tt.

(** ** Constant propagation *)

(** [if (y->type.tv != tarval_top && ! is_con(y->type))] check whether the
    leader [y] of [Y] makes the leader -> follower transition. *)
Definition leader_to_follower (Y : nat) (y : nat) : M unit :=
  ynd ← get_irn_node y;
  if negb (tv_is (type ynd) tarval_top) && negb (is_con (type ynd)) then
    eq_node ← identity y;
    if bool_decide (eq_node = y) then mret tt
    else
      eqn ← get_irn_node eq_node;
      ynd ← get_irn_node y;
      if bool_decide (part eqn = part ynd) then
        (* move to Follower *)
        upd_node y (with_is_follower true) ;;
        list_del_node_list y ;;
        add_tail_Follower y Y ;;
        upd_part Y (fun P => with_n_leader (unsigned_sub (n_leader P) 1) P) ;;
        segregate_def_use_chain y
      else mret tt
  else mret tt.

(** One round of the [while (env->cprop != NULL)] of [propagate], for the
    first partition [X] on the cprop list [cp]. *)
Definition propagate_round (iters fuel : nat) (X : nat) (cp : list nat) : M unit :=
  (* remove the first partition X from cprop *)
  upd_part X (with_p_on_cprop false) ;;
  modify (set_env (with_env_cprop (tail cp))) ;;
  x ← get_part X;
  let old_type_was_T_or_C := type_is_T_or_C x in
  l ← propagate_drain computed_value tarval_add tarval_sub tarval_eor node_cmp_attr
        iters fuel X (mk_locals None [] 0);
  x ← get_part X;
  Y ← (if (0 <? n_fallen l) && negb (n_fallen l =? n_leader x) then
         '(Y, _) ← split fuel X (fallen l);
         (* We have split out fallen node. The type of the result
            partition is NOT set yet. *)
         upd_part Y (with_type_is_T_or_C false) ;;
         mret Y
       else mret X);
  (* remove the flags from the fallen list *)
  for_each (fallen l) (fun x => upd_node x (with_on_fallen false)) ;;
  (if old_type_was_T_or_C then
     (* check if some nodes will make the leader -> follower transition *)
     y ← get_part Y;
     for_each (Leader y) (leader_to_follower Y)
   else mret tt) ;;
  split_by fuel Y.

(** Propagate constant evaluation; [rounds] bounds the rounds of the
    loop. *)
Fixpoint propagate (rounds iters fuel : nat) : M unit :=
  match rounds with
  | 0 => out_of_fuel
  | S rounds =>
      cp ← gets (fun s => env_cprop (env s));
      match cp with
      | [] => mret tt
      | X :: _ =>
          propagate_round iters fuel X cp ;;
          propagate rounds iters fuel
      end
  end.

(** [do { propagate(&env); if (env.worklist != NULL) cause_splits(&env); }
     while (env.cprop != NULL || env.worklist != NULL);]: the analysis of
    [combo], at most [n] rounds. *)
Fixpoint combo_analysis (n rounds iters cfuel fuel : nat) : M unit :=
  match n with
  | 0 => out_of_fuel
  | S n =>
      propagate rounds iters fuel ;;
      wl ← gets (fun s => worklist (env s));
      (if negb (bool_decide (wl = []))
       then cause_splits is_op_commutative cfuel fuel rounds
       else mret tt) ;;
      e ← gets env;
      if negb (bool_decide (env_cprop e = [])) || negb (bool_decide (worklist e = []))
      then combo_analysis n rounds iters cfuel fuel
      else mret tt
  end.

End Analysis.
(** ** Reading the outcome of a run *)

(** The state after [node->type = t]. *)
Definition retype (node : nat) (t : lattice_elem_t) (s : state) : state :=
  match link s !! node with
  | Some nd => set_link (<[node := with_type t nd]>) s
  | None => s
  end.

(** The current type of a node, when it has a record. *)
Definition type_of (s : state) (node : nat) : option lattice_elem_t :=
  type <$> link s !! node.

(** The state a run ends in; the initial state when it does not return. *)
Definition final_state {A} (m : M A) (s : state) : state :=
  match m s with Ok (_, s') => s' | _ => s end.

(** ** The meet a Phi computes, in the words of the specification *)

(** The types of the [i]-th operand of a Phi and of the [i]-th control-flow
    predecessor of its block. *)
Definition Phi_input (s : state) (phi blk : ir_node) (i : nat)
    : option (lattice_elem_t * lattice_elem_t) :=
  p ← irn_in phi !! i;
  pred ← link s !! p;
  px ← irn_in blk !! i;
  pred_X ← link s !! px;
  Some (type pred, type pred_X).

Definition Phi_inputs (s : state) (phi blk : ir_node)
    : option (list (lattice_elem_t * lattice_elem_t)) :=
  mapM (Phi_input s phi blk) (seq 0 (get_irn_arity phi)).

(** The meet of the specification: Top is neutral, Bottom absorbs, equal
    constants or symbols meet to themselves, different ones to Bottom. *)
Definition spec_meet (a b : lattice_elem_t) : lattice_elem_t :=
  if tv_is a tarval_top then b
  else if tv_is b tarval_top then a
  else if tv_is a tarval_bottom || tv_is b tarval_bottom then ty_Bottom
  else if type_eqb a b then a
  else ty_Bottom.

(** An input contributes when its control-flow predecessor is Reachable and
    its own type is not Top. *)
Definition contributes (i : lattice_elem_t * lattice_elem_t) : bool :=
  tv_is i.2 tarval_reachable && negb (tv_is i.1 tarval_top).

Definition contributions (inputs : list (lattice_elem_t * lattice_elem_t))
    : list lattice_elem_t :=
  (filter (fun i => contributes i = true) inputs).*1.

Definition spec_Phi_type (block_type : lattice_elem_t)
    (inputs : list (lattice_elem_t * lattice_elem_t)) : lattice_elem_t :=
  if tv_is block_type tarval_unreachable then ty_Top
  else foldr spec_meet ty_Top (contributions inputs).

(** Control-flow values are Reachable or Unreachable. *)
Definition cf_type (t : lattice_elem_t) : Prop :=
  t = ty_Reachable \/ t = ty_Unreachable.

(** The transition [old_type -> new_type] passes the monotonicity check. *)
Definition transition_accepted (old_type new_type : lattice_elem_t) : Prop :=
  old_type = new_type \/ old_type = ty_Top
  \/ new_type = ty_Bottom \/ new_type = ty_Reachable.



(** The loop of [compute_Phi] on the types it reads, in the order it reads
    them, from the running type [ty]. *)
Fixpoint Phi_loop_type (ty : lattice_elem_t)
    (ins : list (lattice_elem_t * lattice_elem_t)) : lattice_elem_t :=
  match ins with
  | [] => ty
  | i :: rest =>
      if tv_is i.2 tarval_unreachable || tv_is i.1 tarval_top
      then Phi_loop_type ty rest
      else if tv_is i.1 tarval_bottom then ty_Bottom
      else if tv_is ty tarval_top then Phi_loop_type i.1 rest
      else if negb (type_eqb ty i.1) then ty_Bottom
      else Phi_loop_type ty rest
  end.

(** Meeting one more input into a running type. *)
Definition meet_input (acc : lattice_elem_t) (i : lattice_elem_t * lattice_elem_t)
    : lattice_elem_t :=
  if contributes i then spec_meet acc i.1 else acc.

(** ** Invariants of runs *)

(** [m] does not write the state. *)
Definition pure {A} (m : M A) : Prop :=
  forall s a s', m s = Ok (a, s') -> s' = s.

(** [I] is preserved by every run of [m] that returns. *)
Definition inv {A} (I : state -> Prop) (m : M A) : Prop :=
  forall s a s', I s -> m s = Ok (a, s') -> I s'.

(** The work list and the next free partition slot. *)
Definition worklist_view (s : state) : list nat * nat :=
  (worklist (env s), next_part s).

(** Every run of [m] that returns leaves [view] as it was. *)
Definition keeps {A B} (view : state -> B) (m : M A) : Prop :=
  forall s a s', m s = Ok (a, s') -> view s' = view s.

(** The work list, the next free partition slot, and whether partition [Z]
    is on the work list. *)
Definition on_worklist_view (Z : nat) (s : state) : list nat * nat * option bool :=
  (worklist (env s), next_part s, on_worklist <$> obst s !! Z).

(** The leader count of every partition. *)
Definition n_leader_view (s : state) (p : nat) : option nat :=
  n_leader <$> obst s !! p.

(** ** The order of the cprop lists *)

(** What the routing of [add_to_cprop] reads of the graph: opcode and
    inputs of every node; and what it writes: the two cprop lists of every
    partition. *)
Definition shape_view (s : state) : gmap nat (ir_opcode * list nat) :=
  (fun n => (irn_op n, irn_in n)) <$> irg s.

Definition cprop_view (s : state) : gmap nat (list nat * list nat) :=
  (fun P => (cprop P, cprop_X P)) <$> obst s.

Definition sorted_view (s : state)
    : gmap nat (ir_opcode * list nat) * gmap nat (list nat * list nat) :=
  (shape_view s, cprop_view s).

(** Is [y] a Cond, a Switch, or a Proj of one? *)
Definition cond_like (sh : gmap nat (ir_opcode * list nat)) (y : nat) : option bool :=
  n ← sh !! y;
  sk ← (if bool_decide (n.1 = iro_Proj) then n.2 !! 0 else Some y);
  k ← sh !! sk;
  Some (bool_decide (k.1 = iro_Cond) || bool_decide (k.1 = iro_Switch)).

(** The ordinary cprop lists hold no Cond, Switch or Proj of one, and the
    cprop_X lists hold nothing else. *)
Definition sorted_lists (sh : gmap nat (ir_opcode * list nat))
    (cv : gmap nat (list nat * list nat)) : Prop :=
  forall p c cx, cv !! p = Some (c, cx) ->
    (forall y, y ∈ c -> cond_like sh y = Some false)
    /\ (forall y, y ∈ cx -> cond_like sh y = Some true).

Definition cprop_sorted (s : state) : Prop :=
  sorted_lists (shape_view s) (cprop_view s).

(** The boolean test of [sorted_lists]. *)
Definition sorted_lists_b (sh : gmap nat (ir_opcode * list nat))
    (cv : gmap nat (list nat * list nat)) : bool :=
  forallb (fun e : nat * (list nat * list nat) =>
             forallb (fun y => bool_decide (cond_like sh y = Some false)) e.2.1
             && forallb (fun y => bool_decide (cond_like sh y = Some true)) e.2.2)
          (map_to_list cv).

(** The states the inner loop of [propagate] passes through, at the head of
    an iteration, with the locals there. *)
Inductive drain_reaches (step : propagate_locals -> M (option propagate_locals))
    (ls : propagate_locals * state) : propagate_locals * state -> Prop :=
  | drain_here : drain_reaches step ls ls
  | drain_next l' s' l'' s'' :
      drain_reaches step ls (l', s') ->
      step l' s' = Ok (Some l'', s'') ->
      drain_reaches step ls (l'', s'').

(** Node [y] is on the list of partition [Y] its kind belongs on: cprop_X
    for [b = true], cprop else. *)
Definition enqueued (Y y : nat) (b : bool) (s : state) : Prop :=
  exists P, obst s !! Y = Some P /\ y ∈ (if b then cprop_X P else cprop P).

(** ** What the transfer functions read and write *)

(** Has some node of the list the type [tv]? *)
Definition some_typed (s : state) (tv : ir_tarval) (l : list nat) : bool :=
  existsb (fun p => match link s !! p with
                    | Some nd => tv_is (type nd) tv
                    | None => false
                    end) l.

(** [m] writes nothing but the type of [node]. *)
Definition retypes {A} (node : nat) (m : M A) : Prop :=
  forall s a s', m s = Ok (a, s') -> exists t, s' = retype node t s.

(** Does the selector value [sel] fall into the case range of the entry? *)
Definition entry_matches (sel : ir_tarval) (e : ir_switch_table_entry) : bool :=
  if bool_decide (sw_min e = sw_max e) then bool_decide (sel = sw_min e)
  else (get_tarval_long (sw_min e) <=? get_tarval_long sel)%Z
       && (get_tarval_long sel <=? get_tarval_long (sw_max e))%Z.

(** The Proj number a Switch takes on the selector value [sel]: that of the
    first entry of its table that matches, the default when none does. *)
Definition switch_target (sel : ir_tarval) (table : list ir_switch_table_entry) : Z :=
  match List.find (entry_matches sel) table with
  | Some e => sw_pn e
  | None => pn_Switch_default
  end.

(** ** The cprop queue: flags and lists *)

(** The [on_cprop] flag of node [y] is set. *)
Definition on_cprop_set (s : state) (y : nat) : Prop :=
  exists nd, link s !! y = Some nd /\ on_cprop nd = true.

(** Every node whose [on_cprop] flag is set is on one of the two cprop
    lists of its partition. *)
Definition cprop_flags_sound (s : state) : Prop :=
  forall y nd, link s !! y = Some nd -> on_cprop nd = true ->
    exists P, obst s !! part nd = Some P /\ (y ∈ cprop P \/ y ∈ cprop_X P).

(** Node [y] is queued for recomputation: flagged and on a cprop list of
    its partition. *)
Definition queued (s : state) (y : nat) : Prop :=
  exists nd P, link s !! y = Some nd /\ on_cprop nd = true
    /\ obst s !! part nd = Some P /\ (y ∈ cprop P \/ y ∈ cprop_X P).

(** ** The node lists of the partitions *)

(** The Leader list, the Follower list and the leader count of every
    partition. *)
Definition lists_view (s : state) : gmap nat (list nat * list nat * nat) :=
  (fun P => (Leader P, Follower P, n_leader P)) <$> obst s.

(** The partition and the follower flag of every node. *)
Definition part_view (s : state) : gmap nat (nat * bool) :=
  (fun nd => (part nd, is_follower nd)) <$> link s.

(** ** The Def-Use edges: follower edges first, leader edges sorted *)

(** An edge in front of the first edge of the list at an input position
    that is not smaller. *)
Fixpoint ins_edge (e : ir_def_use_edge) (l : list ir_def_use_edge)
    : list ir_def_use_edge :=
  match l with
  | [] => [e]
  | x :: rest => if (pos e <=? pos x)%Z then e :: x :: rest else x :: ins_edge e rest
  end.

Definition pos_le (a b : ir_def_use_edge) : Prop := (pos a <= pos b)%Z.

(** The leader edges of every node, its Def-Use edges behind the first
    [n_followers], are sorted by input position. *)
Definition leader_edges_sorted (s : state) : Prop :=
  forall p irn nd, irg s !! p = Some irn -> link s !! p = Some nd ->
    Sorted pos_le (drop (n_followers nd) (irn_out irn)).

(** [s'] has the nodes of [s], with their Def-Use edges permuted. *)
Definition same_edges (s s' : state) : Prop :=
  forall p irn, irg s !! p = Some irn ->
    exists irn', irg s' !! p = Some irn' /\ irn_out irn' ≡ₚ irn_out irn
                 /\ with_irn_out (irn_out irn) irn' = irn.

(** The Def-Use edges are kept from [s] to [s']: every node has its edges
    permuted, and sorted leader edges stay sorted. *)
Definition edges_kept (s s' : state) : Prop :=
  same_edges s s' /\ (leader_edges_sorted s -> leader_edges_sorted s').

(** Every run of [m] that returns relates the state it started in to the
    state it ends in. *)
Definition relates {A} (R : state -> state -> Prop) (m : M A) : Prop :=
  forall s a s', m s = Ok (a, s') -> R s s'.

(** ** Liveness as the apply phase reads it *)

(** The block [b] is Unreachable. *)
Definition block_unreachable (s : state) (b : nat) : bool :=
  match link s !! b with
  | Some nd => tv_is (type nd) tarval_unreachable
  | None => false
  end.

(** A keep-alive is live: it is no Bad, and the block it is or is in is
    neither a Bad nor Unreachable. *)
Definition keepalive_live (s : state) (ka : nat) : bool :=
  match irg s !! ka with
  | Some k =>
      negb (is_op iro_Bad k)
      && (if is_op iro_Block k then negb (block_unreachable s ka)
          else match irg s !! irn_block k with
               | Some b => negb (is_op iro_Bad b) && negb (block_unreachable s (irn_block k))
               | None => false
               end)
  | None => false
  end.

(** A user is dead: its block is Unreachable or its type is Top. *)
Definition user_dead (s : state) (u : nat) : bool :=
  match irg s !! u with
  | Some succ =>
      block_unreachable s (irn_block succ)
      || match link s !! u with
         | Some nd => tv_is (type nd) tarval_top
         | None => false
         end
  | None => false
  end.

(** The control-flow users of a node that are Reachable. *)
Definition reachable_X_user (s : state) (u : nat) : bool :=
  bool_decide (irn_mode <$> irg s !! u = Some mode_X)
  && bool_decide (type_of s u = Some ty_Reachable).

(** ** What the apply phase reports *)

(** A run of [apply_result] from [s] to [s'] reports faithfully: without a
    replacement the graph, the records and the partitions are as before and
    the modified flag is untouched; with one the graph is marked
    modified. *)
Definition reports_faithfully (s : state) (r : option replacement) (s' : state) : Prop :=
  match r with
  | None =>
      irg s' = irg s /\ link s' = link s /\ obst s' = obst s
      /\ modified (env s') = modified (env s)
  | Some _ => modified (env s') = true
  end.

(** No node lives at or behind the next free node index. *)
Definition irn_fresh (s : state) : Prop :=
  forall i, next_irn s <= i -> irg s !! i = None.

(** The graph and the number of follower edges of every node: what the
    order of the Def-Use edges is read from. *)
Definition edges_view (s : state) : gmap nat ir_node * gmap nat nat :=
  (irg s, n_followers <$> link s).

(** ** The touched sets *)

(** What is read of the touched list of a partition: the list, its counter
    and the flag of the partition.  A free slot reads as an empty list. *)
Definition touched_of (o : option partition_t) : list nat * nat * bool :=
  match o with
  | Some P => (touched P, n_touched P, p_on_touched P)
  | None => ([], 0, false)
  end.

Definition touched_at (s : state) (p : nat) : list nat * nat * bool :=
  touched_of (obst s !! p).

(** The touched flag of a node, if it has a record. *)
Definition flag_at (s : state) (y : nat) : option bool := on_touched <$> link s !! y.

(** The slots from [next_part] on are free. *)
Definition parts_fresh (s : state) : Prop :=
  forall p, next_part s <= p -> obst s !! p = None.

(** Every flagged node is on the touched list of a partition of [zs], and
    the partitions outside [zs] have an empty list, a zero counter and no
    flag. *)
Definition touched_listed (zs : list nat) (s : state) : Prop :=
  (forall y, flag_at s y = Some true -> exists p, p ∈ zs /\ y ∈ (touched_at s p).1.1)
  /\ (forall p, p ∉ zs -> touched_at s p = ([], 0, false)).

(** No node and no partition is marked touched. *)
Definition touched_clean (s : state) : Prop :=
  (forall y nd, link s !! y = Some nd -> on_touched nd = false)
  /\ (forall p P, obst s !! p = Some P ->
        touched P = [] /\ n_touched P = 0 /\ p_on_touched P = false).

(** The touched flags, the touched lists and the free slots. *)
Definition touched_view (s : state)
    : gmap nat bool * gmap nat (list nat * nat * bool) * list nat * nat :=
  (on_touched <$> link s,
   (fun P => (touched P, n_touched P, p_on_touched P)) <$> obst s,
   env_touched (env s), next_part s).

(** [s'] has the touched flags and lists of [s], up to partitions made in
    free slots. *)
Definition touched_kept (s s' : state) : Prop :=
  (forall y, flag_at s' y = flag_at s y)
  /\ env_touched (env s') = env_touched (env s)
  /\ (parts_fresh s ->
        parts_fresh s' /\ forall p, touched_at s' p = touched_at s p).

(** The counter of every touched list is its length, no node is listed
    twice, the listed nodes are flagged nodes of the partition, and every
    flagged node is listed by its partition. *)
Definition touched_counted (s : state) : Prop :=
  (forall p P, obst s !! p = Some P ->
     n_touched P = length (touched P) /\ NoDup (touched P)
     /\ forall y, y ∈ touched P ->
          exists nd, link s !! y = Some nd /\ on_touched nd = true /\ part nd = p)
  /\ (forall y nd, link s !! y = Some nd -> on_touched nd = true ->
        exists P, obst s !! part nd = Some P /\ y ∈ touched P).

(** Input [i] of a node, the block being input [-1]. *)
Definition input_Z (n : ir_node) (i : Z) : option nat :=
  if (i =? -1)%Z then Some (irn_block n)
  else if (i <? 0)%Z then None
  else irn_in n !! Z.to_nat i.

(** [y] has a node of [l] as its input [idx]; and if [y] is a Phi and
    [idx] is no block input, predecessor [idx] of its block is not
    Unreachable. *)
Definition uses_live (s : state) (l : list nat) (idx : Z) (y : nat) : Prop :=
  exists x yn, x ∈ l /\ irg s !! y = Some yn /\ input_Z yn idx = Some x
    /\ (irn_op yn = iro_Phi -> (0 <= idx)%Z ->
        exists bn pred t, irg s !! irn_block yn = Some bn
          /\ input_Z bn idx = Some pred
          /\ type <$> link s !! pred = Some t /\ t <> ty_Unreachable).

(** The nodes flagged in [s'] and not in [s] use a node of [l] at a live
    input [idx] and have a type that is neither Top nor a constant; the
    graph and the types are those of [s]. *)
Definition touched_grows (l : list nat) (idx : Z) (s s' : state) : Prop :=
  irg s' = irg s
  /\ (forall y, type <$> link s' !! y = type <$> link s !! y)
  /\ forall y, flag_at s' y = Some true ->
       flag_at s y = Some true
       \/ (uses_live s l idx y
           /\ exists t, type <$> link s !! y = Some t
                        /\ type_is_neither_top_nor_const t = true).

(** The graph, the types and the touched flags. *)
Definition grows_view (s : state)
    : gmap nat ir_node * gmap nat lattice_elem_t * gmap nat bool :=
  (irg s, type <$> link s, on_touched <$> link s).

(** The flagged nodes are listed by the partitions of the touched set, and
    the slots from [next_part] on are free. *)
Definition touched_set_listed (s : state) : Prop :=
  parts_fresh s /\ touched_listed (env_touched (env s)) s.


(** ** What the analysis keeps *)

(** Every node of [s'] has a record in [s], and its type went from there
    to [s'] by a transition the monotonicity check accepts. *)
Definition types_lowered (s s' : state) : Prop :=
  forall y nd', link s' !! y = Some nd' ->
    exists nd, link s !! y = Some nd /\ transition_accepted (type nd) (type nd').

(** The types of the nodes. *)
Definition types_view (s : state) : gmap nat lattice_elem_t := type <$> link s.

(** The graph, the number of follower edges and the types. *)
Definition analysis_view (s : state)
    : gmap nat ir_node * gmap nat nat * gmap nat lattice_elem_t :=
  (irg s, n_followers <$> link s, type <$> link s).

(** The Def-Use edges are kept and the types are lowered. *)
Definition analysis_kept (s s' : state) : Prop :=
  edges_kept s s' /\ types_lowered s s'.

(** ** Grouping by what *)

(** The leaders of a partition grouped by their id: one group for every id,
    the id met last first, each with the leaders of that id, the one met
    last first.  Leaders without an id are in no group. *)
Definition what_groups {K} `{EqDecision K} (what : nat -> option K) (leaders : list nat)
    : list (K * list nat) :=
  (fun k => (k, reverse (filter (fun x => what x = Some k) leaders)))
    <$> remove_dups (reverse (omap what leaders)).
(** ** Small graphs the properties are exercised on *)

Module Ex.

Definition irn (op : ir_opcode) (m : ir_mode) (block : nat) (ins : list nat) : ir_node :=
  mk_irn op m block ins op_pin_state_floats [] no_attr.

Definition pinned_irn (op : ir_opcode) (m : ir_mode) (block : nat) (ins : list nat)
    : ir_node :=
  mk_irn op m block ins op_pin_state_pinned [] no_attr.

Definition proj (pn : Z) (m : ir_mode) (block pred : nat) : ir_node :=
  mk_irn iro_Proj m block [pred] op_pin_state_floats []
    (mk_attr pn 0 tarval_bad symconst_other 0 None [] []).

Definition with_out (outs : list ir_def_use_edge) (n : ir_node) : ir_node :=
  mk_irn (irn_op n) (irn_mode n) (irn_block n) (irn_in n) (irn_pinned n) outs (irn_attr n).

(** The leader record of IR node [i], in partition [p] with type [t]. *)
Definition nd (i p : nat) (t : lattice_elem_t) : node_t :=
  mk_node i p t 0 0 0 false false false false 0.

Definition Is : ir_mode := mode_int 32 true.
Definition F : ir_mode := mode_float 32.

Definition st (irns : list (nat * ir_node)) (nds : list (nat * node_t))
    (parts : list (nat * partition_t)) (unk : ir_tarval) : state :=
  mk_state (list_to_map irns) (list_to_map nds) (list_to_map parts)
           (combo_env false) unk 0 false (length parts) (length irns).

(** [if (sel) ... else ...]: block 0, selector 1, Cond 2, its false Proj 3
    and true Proj 4.  All types are still Top. *)
Definition cond_graph : list (nat * ir_node) :=
  [ (0, irn iro_Block mode_BB 0 []);
    (1, irn iro_Cmp mode_b 0 [5; 5]);
    (2, pinned_irn iro_Cond mode_T 0 [1]);
    (3, proj pn_Cond_false mode_X 0 2);
    (4, proj pn_Cond_true mode_X 0 2);
    (5, irn iro_Unknown Is 0 []) ].

Definition cond_state (sel_type : lattice_elem_t) (unk : ir_tarval) : state :=
  st cond_graph
     [ (0, nd 0 0 ty_Reachable); (1, nd 1 0 sel_type); (2, nd 2 0 ty_Top);
       (3, nd 3 0 ty_Top); (4, nd 4 0 ty_Top); (5, nd 5 0 ty_Top) ]
     [] unk.


(** Reference tarval arithmetic on integer values, to run the examples. *)
Definition tarval_binop (f : Z -> Z -> Z) (a b : ir_tarval) : ir_tarval :=
  match a, b with
  | tarval_value m x, tarval_value _ y => tarval_value m (f x y)
  | _, _ => tarval_bad
  end.
Definition tarval_sub (a b : ir_tarval) (m : ir_mode) : ir_tarval :=
  tarval_binop Z.sub a b.
Definition tarval_eor : ir_tarval -> ir_tarval -> ir_tarval := tarval_binop Z.lxor.
Definition tarval_add : ir_tarval -> ir_tarval -> ir_tarval := tarval_binop Z.add.
Definition computed_value (s : state) (irn : nat) : ir_tarval := tarval_bad.

(** [Phi(5, 7)] at node [5], in the join block [0] whose first predecessor
    (the Jmp [3]) is Reachable and whose second (the Jmp [4]) is not. *)
Definition phi_state : state :=
  st [ (0, irn iro_Block mode_BB 0 [3; 4]);
          (1, irn iro_Const Is 9 []); (2, irn iro_Const Is 9 []);
          (3, irn iro_Jmp mode_X 7 []); (4, irn iro_Jmp mode_X 8 []);
          (5, pinned_irn iro_Phi Is 0 [1; 2]) ]
        [ (0, nd 0 0 ty_Reachable);
          (1, nd 1 0 (L_tv (tarval_value Is 5)));
          (2, nd 2 0 (L_tv (tarval_value Is 7)));
          (3, nd 3 0 ty_Reachable); (4, nd 4 0 ty_Unreachable);
          (5, nd 5 0 ty_Top) ]
        [] tarval_top.

(** A Load at node [2] from the address [3] with memory [1], and its memory
    Proj [4]; the address is Top, so the Load and its Proj are Top, in the
    Reachable block [0]. *)
Definition load_state : state :=
  st [ (0, irn iro_Block mode_BB 0 []);
          (1, irn (iro_other 0) mode_M 0 []);
          (2, pinned_irn iro_Load mode_T 0 [1; 3]);
          (3, irn iro_Unknown mode_P 0 []);
          (4, proj 0 mode_M 0 2);
          (5, irn iro_Add Is 0 [3; 3]) ]
        [ (0, nd 0 0 ty_Reachable); (1, nd 1 0 ty_Bottom);
          (2, nd 2 0 ty_Top); (3, nd 3 0 ty_Top); (4, nd 4 0 ty_Top);
          (5, nd 5 0 ty_Top) ]
        [] tarval_top.

(** [Phi(Unknown, x)] at node [3], a follower of [x] (node [2]) in
    partition [0]; both predecessors of the block are Reachable. *)
Definition follower_phi_state : state :=
  st [ (0, irn iro_Block mode_BB 0 [6; 7]);
          (1, irn iro_Unknown Is 0 []);
          (2, irn (iro_other 0) Is 0 []);
          (3, pinned_irn iro_Phi Is 0 [1; 2]);
          (6, irn iro_Jmp mode_X 8 []); (7, irn iro_Jmp mode_X 9 []) ]
        [ (0, nd 0 1 ty_Reachable); (1, nd 1 2 ty_Top);
          (2, nd 2 0 ty_Bottom);
          (3, with_is_follower true (nd 3 0 ty_Bottom));
          (6, nd 6 1 ty_Reachable); (7, nd 7 1 ty_Reachable) ]
        [ (0, with_n_leader 1 (with_node_list [2] [3] empty_partition)) ]
        tarval_top.

(** A partition [0] without followers, already on the work list, with the
    three leaders [0], [1] and [2]. *)
Definition split_state : state :=
  set_env (with_worklist [0])
    (st [ (0, irn (iro_other 0) Is 9 []); (1, irn (iro_other 0) Is 9 []);
             (2, irn (iro_other 0) Is 9 []) ]
           [ (0, nd 0 0 ty_Bottom); (1, nd 1 0 ty_Bottom); (2, nd 2 0 ty_Bottom) ]
           [ (0, with_on_worklist true
                   (with_n_leader 3 (with_node_list [0; 1; 2] [] empty_partition))) ]
           tarval_top).

(** A partition [0], not on the work list, with the leaders [0], [1] and
    [2] and the followers [3], [4] and [5], which are Confirms of [2]. *)
Definition race_state : state :=
  st [ (0, irn (iro_other 0) Is 9 []); (1, irn (iro_other 0) Is 9 []);
          (2, with_out [mk_edge 3 0; mk_edge 4 0; mk_edge 5 0]
                (irn (iro_other 0) Is 9 []));
          (3, irn iro_Confirm Is 9 [2; 6]); (4, irn iro_Confirm Is 9 [2; 6]);
          (5, irn iro_Confirm Is 9 [2; 6]);
          (6, irn iro_Const Is 9 []) ]
        [ (0, nd 0 0 ty_Bottom); (1, nd 1 0 ty_Bottom);
          (2, with_n_followers 3 (nd 2 0 ty_Bottom));
          (3, with_is_follower true (nd 3 0 ty_Bottom));
          (4, with_is_follower true (nd 4 0 ty_Bottom));
          (5, with_is_follower true (nd 5 0 ty_Bottom));
          (6, nd 6 7 (L_tv (tarval_value Is 1))) ]
        [ (0, with_n_leader 3 (with_node_list [0; 1; 2] [3; 4; 5] empty_partition)) ]
        tarval_top.

(** The graph of [cond_graph] with its Def-Use edges, all nodes in
    partition [0], nothing queued. *)
Definition cprop_base : state :=
  st [ (0, irn iro_Block mode_BB 0 []);
          (1, with_out [mk_edge 2 0] (irn iro_Cmp mode_b 0 [5; 5]));
          (2, with_out [mk_edge 3 0; mk_edge 4 0] (pinned_irn iro_Cond mode_T 0 [1]));
          (3, proj pn_Cond_false mode_X 0 2);
          (4, proj pn_Cond_true mode_X 0 2);
          (5, with_out [mk_edge 1 0; mk_edge 1 1] (irn iro_Unknown Is 0 [])) ]
        [ (0, nd 0 0 ty_Reachable); (1, nd 1 0 ty_Top); (2, nd 2 0 ty_Top);
          (3, nd 3 0 ty_Top); (4, nd 4 0 ty_Top); (5, nd 5 0 ty_Top) ]
        [ (0, with_n_leader 6 (with_node_list [0; 1; 2; 3; 4; 5] [] empty_partition)) ]
        tarval_top.

(** The Cond (with its Projs) and then its selector are placed on the
    cprop queue. *)
Definition cprop_state : state :=
  final_state (add_to_cprop 5 2 ;; add_to_cprop 5 1) cprop_base.

Definition no_cmp_attr (op : ir_opcode) : option (ir_node -> ir_node -> bool) := None.

(** The iterations of the inner loop of [propagate] on partition [0]. *)
Definition drain_step : propagate_locals -> M (option propagate_locals) :=
  propagate_step computed_value tarval_add tarval_sub tarval_eor no_cmp_attr 5 0.

(** The join block [1] behind the Jmps [3], which is Reachable, and [4],
    which is not; block [0] is the start block. *)
Definition join_state : state :=
  st [ (0, irn iro_Block mode_BB 0 []); (1, irn iro_Block mode_BB 1 [3; 4]);
       (3, irn iro_Jmp mode_X 0 []); (4, irn iro_Jmp mode_X 0 []) ]
     [ (0, nd 0 0 ty_Reachable); (1, nd 1 0 ty_Top);
       (3, nd 3 0 ty_Reachable); (4, nd 4 0 ty_Unreachable) ]
     [] tarval_top.

(** A Switch at node [2] on the selector [1] with the cases [1 -> Proj 1],
    [2..5 -> Proj 2] and [1 -> Proj 3], and its Projs [3] (default), [4]
    (number 1), [5] (number 2) and [6] (number 3). *)
Definition switch_state (sel_type : lattice_elem_t) : state :=
  st [ (0, irn iro_Block mode_BB 0 []);
       (1, irn (iro_other 0) Is 0 []);
       (2, mk_irn iro_Switch mode_T 0 [1] op_pin_state_pinned []
             (mk_attr 0 0 tarval_bad symconst_other 0 None []
                [ mk_switch_entry (tarval_value Is 1) (tarval_value Is 1) 1;
                  mk_switch_entry (tarval_value Is 2) (tarval_value Is 5) 2;
                  mk_switch_entry (tarval_value Is 1) (tarval_value Is 1) 3 ]));
       (3, proj 0 mode_X 0 2); (4, proj 1 mode_X 0 2);
       (5, proj 2 mode_X 0 2); (6, proj 3 mode_X 0 2) ]
     [ (0, nd 0 0 ty_Reachable); (1, nd 1 0 sel_type); (2, nd 2 0 ty_Bottom);
       (3, nd 3 0 ty_Top); (4, nd 4 0 ty_Top); (5, nd 5 0 ty_Top); (6, nd 6 0 ty_Top) ]
     [] tarval_top.

(** The block [1] with the Phis [5] and [6], all nodes in partition [0],
    nothing queued. *)
Definition block_phis_state : state :=
  st [ (0, irn iro_Block mode_BB 0 []);
       (1, mk_irn iro_Block mode_BB 1 [3; 4] op_pin_state_pinned []
             (mk_attr 0 0 tarval_bad symconst_other 0 None [5; 6] []));
       (3, irn iro_Jmp mode_X 0 []); (4, irn iro_Jmp mode_X 0 []);
       (5, pinned_irn iro_Phi Is 1 [7; 8]); (6, pinned_irn iro_Phi Is 1 [8; 7]);
       (7, irn iro_Const Is 0 []); (8, irn iro_Const Is 0 []) ]
     [ (0, nd 0 0 ty_Top); (1, nd 1 0 ty_Top); (3, nd 3 0 ty_Top); (4, nd 4 0 ty_Top);
       (5, nd 5 0 ty_Top); (6, nd 6 0 ty_Top); (7, nd 7 0 ty_Top); (8, nd 8 0 ty_Top) ]
     [ (0, with_n_leader 8 (with_node_list [0; 1; 3; 4; 5; 6; 7; 8] [] empty_partition)) ]
     tarval_top.

(** Three leaders [0], [1], [2] in partition [0] and the Confirms [3], [4]
    and [5] of [2] with the bound [6], all leaders still; the Def-Use edges
    of [2] and [6] are leader edges. *)
Definition leaders_state : state :=
  st [ (0, irn (iro_other 0) Is 9 []); (1, irn (iro_other 0) Is 9 []);
       (2, with_out [mk_edge 3 0; mk_edge 4 0; mk_edge 5 0]
             (irn (iro_other 0) Is 9 []));
       (3, irn iro_Confirm Is 9 [2; 6]); (4, irn iro_Confirm Is 9 [2; 6]);
       (5, irn iro_Confirm Is 9 [2; 6]);
       (6, with_out [mk_edge 3 1; mk_edge 4 1; mk_edge 5 1] (irn iro_Const Is 9 [])) ]
     [ (0, nd 0 0 ty_Bottom); (1, nd 1 0 ty_Bottom); (2, nd 2 0 ty_Bottom);
       (3, nd 3 0 ty_Bottom); (4, nd 4 0 ty_Bottom); (5, nd 5 0 ty_Bottom);
       (6, nd 6 7 (L_tv (tarval_value Is 1))) ]
     [ (0, with_n_leader 6 (with_node_list [0; 1; 2; 3; 4; 5] [] empty_partition)) ]
     tarval_top.

(** The graph of [cprop_base] after the analysis found the selector to be
    the constant false: the true Proj [4] is Unreachable, the false Proj
    [3] is Reachable. *)
Definition cond_done_state : state :=
  st [ (0, irn iro_Block mode_BB 0 []);
       (1, with_out [mk_edge 2 0] (irn iro_Cmp mode_b 0 [5; 5]));
       (2, with_out [mk_edge 3 0; mk_edge 4 0] (pinned_irn iro_Cond mode_T 0 [1]));
       (3, proj pn_Cond_false mode_X 0 2);
       (4, proj pn_Cond_true mode_X 0 2);
       (5, with_out [mk_edge 1 0; mk_edge 1 1] (irn iro_Unknown Is 0 [])) ]
     [ (0, nd 0 0 ty_Reachable); (1, nd 1 0 (L_tv tarval_b_false)); (2, nd 2 0 ty_Bottom);
       (3, nd 3 0 ty_Reachable); (4, nd 4 0 ty_Unreachable); (5, nd 5 0 ty_Top) ]
     [] tarval_top.

(** An End node [9] that keeps the block [1] and the Phi [5] alive, which
    are in an Unreachable block, and the block [0], which is Reachable. *)
Definition end_state : state :=
  st [ (0, irn iro_Block mode_BB 0 []);
       (1, irn iro_Block mode_BB 1 [3]);
       (3, irn iro_Jmp mode_X 1 []);
       (5, pinned_irn iro_Phi mode_M 1 [5]);
       (9, irn iro_End mode_X 0 [1; 0; 5]) ]
     [ (0, nd 0 0 ty_Reachable); (1, nd 1 0 ty_Unreachable); (3, nd 3 0 ty_Unreachable);
       (5, nd 5 0 ty_Top); (9, nd 9 0 ty_Reachable) ]
     [] tarval_top.

(** The graph of [load_state] with its Def-Use edges and an End node [9]
    that keeps the block [0] alive: the memory [1] is live and its only
    user, the Load [2], is Top. *)
Definition kept_state : state :=
  st [ (0, irn iro_Block mode_BB 0 []);
       (1, with_out [mk_edge 2 0] (irn (iro_other 0) mode_M 0 []));
       (2, with_out [mk_edge 4 0] (pinned_irn iro_Load mode_T 0 [1; 3]));
       (3, with_out [mk_edge 2 1] (irn iro_Unknown mode_P 0 []));
       (4, proj 0 mode_M 0 2);
       (9, irn iro_End mode_X 0 [0]) ]
     [ (0, nd 0 0 ty_Reachable); (1, nd 1 0 ty_Bottom);
       (2, nd 2 0 ty_Top); (3, nd 3 0 ty_Top); (4, nd 4 0 ty_Top);
       (9, nd 9 0 ty_Reachable) ]
     [] tarval_top.

(** The opcodes that are commutative, for running examples. *)
Definition is_op_commutative (op : ir_opcode) : bool :=
  match op with
  | iro_Add | iro_Mul | iro_And | iro_Or | iro_Eor => true
  | _ => false
  end.

(** The partition [0] of the node [0] is on the work list; of the three
    leaders [1], [2] and [3] of partition [1] only [1] uses [0], the others
    use [4] of partition [2]. *)
Definition touch_state : state :=
  set_env (with_worklist [0])
    (st [ (0, with_out [mk_edge 1 0] (irn (iro_other 0) Is 9 []));
          (1, irn (iro_other 1) Is 9 [0]);
          (2, irn (iro_other 1) Is 9 [4]);
          (3, irn (iro_other 1) Is 9 [4]);
          (4, with_out [mk_edge 2 0; mk_edge 3 0] (irn (iro_other 0) Is 9 [])) ]
        [ (0, nd 0 0 ty_Bottom); (1, nd 1 1 ty_Bottom); (2, nd 2 1 ty_Bottom);
          (3, nd 3 1 ty_Bottom); (4, nd 4 2 ty_Bottom) ]
        [ (0, with_on_worklist true
                (with_n_leader 1 (with_node_list [0] [] empty_partition)));
          (1, with_n_leader 3 (with_node_list [1; 2; 3] [] empty_partition));
          (2, with_n_leader 1 (with_node_list [4] [] empty_partition)) ]
        tarval_top).

(** [Add(a, b)] at node [2] and [Add(b, a)] at node [3], with [a] (node
    [0]) in partition [5] and [b] (node [1]) in partition [4]. *)
Definition swapped_state : state :=
  st [ (0, irn iro_Unknown Is 9 []); (1, irn iro_Unknown Is 9 []);
       (2, irn iro_Add Is 9 [0; 1]); (3, irn iro_Add Is 9 [1; 0]) ]
     [ (0, nd 0 5 ty_Bottom); (1, nd 1 4 ty_Bottom);
       (2, nd 2 0 ty_Bottom); (3, nd 3 0 ty_Bottom) ]
     [] tarval_top.

End Ex.

(** * Properties *)

(** ** Running the monad *)

Lemma bind_Ok {A B} (m : M A) (f : A -> M B) s a s' :
  m s = Ok (a, s') -> (m ≫= f) s = f a s'.
Proof. intros H. unfold mbind, M_bind. by rewrite H. Qed.

Lemma get_irn_Ok s irn n : irg s !! irn = Some n -> get_irn irn s = Ok (n, s).
Proof. intros H. unfold get_irn. by rewrite H. Qed.

Lemma get_irn_node_Ok s irn nd :
  link s !! irn = Some nd -> get_irn_node irn s = Ok (nd, s).
Proof. intros H. unfold get_irn_node. by rewrite H. Qed.

Lemma get_part_Ok s p P : obst s !! p = Some P -> get_part p s = Ok (P, s).
Proof. intros H. unfold get_part. by rewrite H. Qed.

Lemma get_irn_n_Ok s n i p : irn_in n !! i = Some p -> get_irn_n n i s = Ok (p, s).
Proof. intros H. unfold get_irn_n. by rewrite H. Qed.

Lemma set_type_Ok s node nd t :
  link s !! node = Some nd -> set_type node t s = Ok (tt, retype node t s).
Proof.
  intros H. unfold set_type, retype.
  rewrite (bind_Ok _ _ _ _ _ (get_irn_node_Ok _ _ _ H)). by rewrite H.
Qed.

Lemma type_of_retype s node nd t :
  link s !! node = Some nd -> type_of (retype node t s) node = Some t.
Proof.
  intros H. unfold type_of, retype. rewrite H. cbn.
  by rewrite lookup_insert_eq.
Qed.

Lemma type_of_retype_ne s node t other :
  node <> other -> type_of (retype node t s) other = type_of s other.
Proof.
  intros H. unfold type_of, retype. destruct (link s !! node); [|done].
  cbn. by rewrite lookup_insert_ne.
Qed.

Lemma tv_is_true t tv : tv_is t tv = true <-> t = L_tv tv.
Proof. unfold tv_is. apply bool_decide_eq_true. Qed.

Lemma tv_is_false t tv : tv_is t tv = false <-> t <> L_tv tv.
Proof. unfold tv_is. apply bool_decide_eq_false. Qed.

(** Rewrites the successful reads at the head of a monadic program. *)
Ltac mstep :=
  first
    [ erewrite (bind_Ok (get_irn _)) by (apply get_irn_Ok; eassumption)
    | erewrite (bind_Ok (get_irn_node _)) by (apply get_irn_node_Ok; eassumption)
    | erewrite (bind_Ok (get_irn_n _ _)) by (apply get_irn_n_Ok; eassumption)
    | erewrite (bind_Ok (gets _)) by reflexivity
    | erewrite (bind_Ok (mret _)) by reflexivity ].

Lemma upd_irn_Ok s i n f :
  irg s !! i = Some n -> upd_irn i f s = Ok (tt, set_irg (<[i := f n]>) s).
Proof. intros H. unfold upd_irn. by mstep. Qed.

Lemma upd_node_Ok s i n f :
  link s !! i = Some n -> upd_node i f s = Ok (tt, set_link (<[i := f n]>) s).
Proof. intros H. unfold upd_node. by mstep. Qed.

Lemma upd_part_Ok s i P f :
  obst s !! i = Some P -> upd_part i f s = Ok (tt, set_obst (<[i := f P]>) s).
Proof.
  intros H. unfold upd_part. by rewrite (bind_Ok _ _ _ _ _ (get_part_Ok _ _ _ H)).
Qed.

(** ** C3: the monotonicity check *)

(** C3 (as amended): [verify_type] returns for the transition x -> y iff
    x = y, or x = Top, or y = Bottom, or y = Reachable (the bottom of the
    control-flow values); every other transition panics. *)
Theorem verify_type_accepts s node nd old_type :
  link s !! node = Some nd ->
  (verify_type old_type node s = Ok (tt, s) <-> transition_accepted old_type (type nd))
  /\ (verify_type old_type node s = Abort <-> ~ transition_accepted old_type (type nd)).
Proof.
  intros Hn. unfold verify_type, transition_accepted. mstep.
  unfold type_eqb.
  destruct (bool_decide_reflect (old_type = type nd)) as [->|Hne].
  { split; [split; [auto | done] | split; [done | tauto]]. }
  destruct (tv_is old_type tarval_top) eqn:Ht.
  { apply tv_is_true in Ht. split; [split; [auto | done] | split; [done | tauto]]. }
  apply tv_is_false in Ht.
  destruct (tv_is (type nd) tarval_bottom) eqn:Hb; cbn.
  { apply tv_is_true in Hb. split; [split; [auto | done] | split; [done | tauto]]. }
  apply tv_is_false in Hb.
  destruct (tv_is (type nd) tarval_reachable) eqn:Hr; cbn.
  { apply tv_is_true in Hr. split; [split; [auto | done] | split; [done | tauto]]. }
  apply tv_is_false in Hr.
  split; [split; [done | tauto] | split; [tauto | done]].
Qed.

(** The claim as stated also wants x = Top, y = Bottom or x = y for every
    accepted transition; Bottom -> Reachable is accepted and is none of them. *)
Lemma verify_type_accepts_Reachable :
  let s := retype 3 ty_Reachable (Ex.cond_state ty_Top tarval_top) in
  type_of s 3 = Some ty_Reachable
  /\ verify_type ty_Bottom 3 s = Ok (tt, s)
  /\ ~ (ty_Bottom = ty_Top \/ ty_Reachable = ty_Bottom \/ ty_Bottom = ty_Reachable).
Proof.
  split; [reflexivity|]. split; [reflexivity|].
  intros [H|[H|H]]; discriminate H.
Qed.

Lemma verify_type_accepts_witness :
  let s := Ex.cond_state ty_Top tarval_top in
  (verify_type ty_Bottom 3 s = Ok (tt, s) <-> transition_accepted ty_Bottom ty_Top)
  /\ (verify_type ty_Bottom 3 s = Abort <-> ~ transition_accepted ty_Bottom ty_Top).
Proof.
  exact (verify_type_accepts (Ex.cond_state ty_Top tarval_top) 3
           (Ex.nd 3 0 ty_Top) ty_Bottom eq_refl).
Defined.

(** ** C2: the type of Unknown nodes under [combo]'s configuration *)

(** C2 (as amended): [combo] sets [opt_unknown], so [tarval_UNKNOWN] is Top
    and the transfer function of an Unknown node assigns Top; Bottom is what
    it assigns when [opt_unknown] is cleared, which [combo] never does. *)
Theorem compute_Unknown_combo_Top g start strict global_cse :
  opt_unknown (env (combo_setup g start strict global_cse)) = true
  /\ (forall s node nd,
        tarval_UNKNOWN s = tarval_UNKNOWN (combo_setup g start strict global_cse) ->
        link s !! node = Some nd ->
        compute_Unknown node s = Ok (tt, retype node ty_Top s))
  /\ (forall e s node nd,
        opt_unknown e = false ->
        tarval_UNKNOWN s = select_tarval_UNKNOWN e ->
        link s !! node = Some nd ->
        compute_Unknown node s = Ok (tt, retype node ty_Bottom s)).
Proof.
  split; [reflexivity|]. split.
  - intros s node nd Hu Hn. unfold compute_Unknown. mstep.
    rewrite Hu. cbn. by apply set_type_Ok with nd.
  - intros e s node nd He Hu Hn. unfold compute_Unknown. mstep.
    rewrite Hu. unfold select_tarval_UNKNOWN. rewrite He.
    by apply set_type_Ok with nd.
Qed.

(** Under the configuration [combo] sets up, an Unknown node gets Top, not
    Bottom. *)
Lemma compute_Unknown_default_not_Bottom :
  let s := set_link (fun _ => link (Ex.cond_state ty_Top tarval_top))
             (combo_setup (list_to_map Ex.cond_graph) 0 false false) in
  opt_unknown (env s) = opt_unknown (combo_env false)
  /\ compute_Unknown 5 s = Ok (tt, retype 5 ty_Top s)
  /\ type_of (retype 5 ty_Top s) 5 = Some ty_Top
  /\ ty_Top <> ty_Bottom.
Proof.
  split; [reflexivity|]. split; [vm_compute; reflexivity|].
  split; [reflexivity|]. discriminate.
Qed.

Lemma compute_Unknown_combo_Top_witness :
  let s := set_link (fun _ => link (Ex.cond_state ty_Top tarval_top))
             (combo_setup (list_to_map Ex.cond_graph) 0 false false) in
  compute_Unknown 5 s = Ok (tt, retype 5 ty_Top s).
Proof.
  exact (proj1 (proj2 (compute_Unknown_combo_Top (list_to_map Ex.cond_graph) 0 false false))
           (set_link (fun _ => link (Ex.cond_state ty_Top tarval_top))
              (combo_setup (list_to_map Ex.cond_graph) 0 false false))
           5 (Ex.nd 5 0 ty_Top) eq_refl eq_refl).
Defined.

(** ** C1: the Projs of a Cond *)

(** C1 (as amended): a Proj of a Cond that is already Reachable keeps its
    type.  Otherwise a boolean selector makes the Proj of that truth value
    Reachable and the other one Unreachable, a Bottom selector makes both
    Reachable, and a Top selector makes the true Proj Unreachable and the
    false Proj Reachable when [tarval_UNKNOWN] is Top (as [combo] sets it),
    Unreachable when it is not. *)
Theorem compute_Proj_Cond_types s node cond proj c sel selector nd :
  irg s !! node = Some proj ->
  irg s !! cond = Some c ->
  irn_in c !! 0 = Some sel ->
  link s !! sel = Some selector ->
  link s !! node = Some nd ->
  let run := compute_Proj_Cond node cond s in
  let sets t := run = Ok (tt, retype node t s) in
  (type nd = ty_Reachable -> run = Ok (tt, s))
  /\ (type nd <> ty_Reachable ->
      (get_Proj_proj proj = pn_Cond_true ->
         (type selector = ty_Top -> sets ty_Unreachable)
         /\ (type selector = ty_Bottom -> sets ty_Reachable)
         /\ (type selector = L_tv tarval_b_true -> sets ty_Reachable)
         /\ (type selector = L_tv tarval_b_false -> sets ty_Unreachable))
      /\ (get_Proj_proj proj = pn_Cond_false ->
         (type selector = ty_Top ->
            sets (if bool_decide (tarval_UNKNOWN s = tarval_top)
                  then ty_Reachable else ty_Unreachable))
         /\ (type selector = ty_Bottom -> sets ty_Reachable)
         /\ (type selector = L_tv tarval_b_true -> sets ty_Unreachable)
         /\ (type selector = L_tv tarval_b_false -> sets ty_Reachable))).
Proof.
  intros Hp Hc Hs Hsel Hn run sets. subst run sets.
  unfold compute_Proj_Cond, get_Cond_selector. do 6 mstep.
  split.
  - intros Ht. apply tv_is_true in Ht. by rewrite Ht.
  - intros Ht. apply tv_is_false in Ht. rewrite Ht. split.
    + intros ->. cbn [Z.eqb pn_Cond_true Pos.eqb].
      repeat split; intros ->; cbn;
        try (by apply set_type_Ok with nd);
        destruct (bool_decide (tarval_UNKNOWN s = tarval_top));
        by apply set_type_Ok with nd.
    + intros ->. cbn [Z.eqb pn_Cond_true pn_Cond_false Pos.eqb].
      repeat split; intros ->; cbn;
        try (by apply set_type_Ok with nd);
        destruct (bool_decide (tarval_UNKNOWN s = tarval_top));
        by apply set_type_Ok with nd.
Qed.

Lemma compute_Proj_Cond_types_witness :
  let s := Ex.cond_state ty_Top tarval_top in
  compute_Proj_Cond 3 2 s = Ok (tt, retype 3 ty_Reachable s).
Proof.
  exact (proj1 (proj2 (proj2 (compute_Proj_Cond_types
           (Ex.cond_state ty_Top tarval_top) 3 2 _ _ 1 _ _
           eq_refl eq_refl eq_refl eq_refl eq_refl)
           ltac:(discriminate)) eq_refl) eq_refl).
Defined.

(** With the selector at Top and [tarval_UNKNOWN] as [combo] sets it, the
    false Proj becomes Reachable and only the true Proj Unreachable. *)
Lemma compute_Proj_Cond_Top_selector_false_Proj :
  let s := Ex.cond_state ty_Top
             (tarval_UNKNOWN (combo_setup (list_to_map Ex.cond_graph) 0 false false)) in
  type_of s 1 = Some ty_Top
  /\ type_of s 3 <> Some ty_Reachable
  /\ (get_Proj_proj <$> irg s !! 3) = Some pn_Cond_false
  /\ compute_Proj_Cond 3 2 s = Ok (tt, retype 3 ty_Reachable s)
  /\ type_of (retype 3 ty_Reachable s) 3 = Some ty_Reachable
  /\ ty_Reachable <> ty_Unreachable.
Proof.
  split; [reflexivity|]. split; [discriminate|]. split; [reflexivity|].
  split; [vm_compute; reflexivity|]. split; [reflexivity|]. discriminate.
Qed.

(** ** C9: pinned nodes in unreachable blocks *)

(** C9: for a node that is not a Block and whose operation ([skip_Proj] of
    the node, the node itself unless it is a Proj) is pinned, [compute] sets
    the type to Top when the node's block is Unreachable, whatever transfer
    function the opcode has: the function table is not consulted. *)
Theorem compute_pinned_in_unreachable_block generic s node irn skipped sk block nd :
  irg s !! node = Some irn ->
  irn_op irn <> iro_Block ->
  skip_Proj node s = Ok (skipped, s) ->
  irg s !! skipped = Some sk ->
  irn_pinned sk = op_pin_state_pinned ->
  link s !! irn_block irn = Some block ->
  type block = ty_Unreachable ->
  link s !! node = Some nd ->
  compute_with generic node s = Ok (tt, retype node ty_Top s).
Proof.
  intros Hn Hop Hskip Hsk Hpin Hb Hty Hnd.
  unfold compute_with. mstep.
  unfold is_op. rewrite (bool_decide_eq_false_2 _ Hop).
  rewrite (bind_Ok _ _ s true s).
  - by apply set_type_Ok with nd.
  - rewrite (bind_Ok _ _ _ _ _ Hskip). mstep.
    rewrite (bool_decide_eq_true_2 _ Hpin). mstep.
    rewrite Hty. reflexivity.
Qed.

Lemma compute_pinned_in_unreachable_block_witness :
  let s := retype 0 ty_Unreachable (Ex.cond_state ty_Top tarval_top) in
  compute_with (fun _ => None) 2 s = Ok (tt, retype 2 ty_Top s).
Proof.
  exact (compute_pinned_in_unreachable_block (fun _ => None)
           (retype 0 ty_Unreachable (Ex.cond_state ty_Top tarval_top))
           2 _ 2 _ _ (Ex.nd 2 0 ty_Top)
           eq_refl ltac:(discriminate) eq_refl eq_refl eq_refl eq_refl eq_refl eq_refl).
Defined.

(** ** C4: x - x, x ^ x and Cmp(x, x) *)



(** ** C5: the meet computed by a Phi *)

Lemma spec_meet_comm a b : spec_meet a b = spec_meet b a.
Proof.
  unfold spec_meet, tv_is, type_eqb.
  repeat case_bool_decide; cbn; congruence.
Qed.

Lemma spec_meet_Bottom_l b : spec_meet ty_Bottom b = ty_Bottom.
Proof.
  unfold spec_meet, tv_is, tarval_top, tarval_bottom.
  repeat case_bool_decide; cbn; congruence.
Qed.

Lemma spec_meet_Bottom_r a : spec_meet a ty_Bottom = ty_Bottom.
Proof. rewrite spec_meet_comm. apply spec_meet_Bottom_l. Qed.

Lemma foldl_meet_input_Bottom ins : foldl meet_input ty_Bottom ins = ty_Bottom.
Proof.
  induction ins as [|i ins IH]; [done|]. cbn. unfold meet_input at 2.
  destruct (contributes i); [by rewrite spec_meet_Bottom_l | done].
Qed.

(** The loop, with its early exits, is the left fold of the meet over the
    inputs it reads. *)
Lemma Phi_loop_type_foldl ins ty :
  ty <> ty_Bottom ->
  Forall (fun i => cf_type i.2) ins ->
  Phi_loop_type ty ins = foldl meet_input ty ins.
Proof.
  intros Hty Hcf. revert ty Hty.
  induction Hcf as [|[t x] ins Hx _ IH]; intros ty Hty; [done|].
  cbn [Phi_loop_type foldl fst snd]. unfold meet_input at 2, contributes.
  cbn [fst snd] in *.
  destruct Hx as [-> | ->].
  - (* the predecessor is Reachable *)
    replace (tv_is ty_Reachable tarval_unreachable) with false by done.
    replace (tv_is ty_Reachable tarval_reachable) with true by done.
    cbn [orb andb].
    destruct (tv_is t tarval_top) eqn:Htop; cbn [negb]; [by apply IH|].
    apply tv_is_false in Htop.
    unfold spec_meet.
    destruct (tv_is t tarval_bottom) eqn:Hbot.
    { apply tv_is_true in Hbot. subst t.
      destruct (tv_is ty tarval_top); [by rewrite foldl_meet_input_Bottom|].
      rewrite orb_true_r. by rewrite foldl_meet_input_Bottom. }
    apply tv_is_false in Hbot.
    destruct (tv_is ty tarval_top) eqn:Hty'; [by apply IH|].
    rewrite (proj2 (tv_is_false t tarval_top) Htop).
    rewrite (proj2 (tv_is_false ty tarval_bottom) Hty). cbn [orb].
    destruct (type_eqb ty t); cbn [negb]; [by apply IH|].
    by rewrite foldl_meet_input_Bottom.
  - (* the predecessor is Unreachable *)
    replace (tv_is ty_Unreachable tarval_unreachable) with true by done.
    replace (tv_is ty_Unreachable tarval_reachable) with false by done.
    cbn [orb andb]. by apply IH.
Qed.

Lemma foldl_reverse_foldr {A B} (f : A -> B -> A) (a : A) (l : list B) :
  foldl f a (reverse l) = foldr (fun x acc => f acc x) a l.
Proof.
  induction l as [|x l IH]; [done|].
  rewrite reverse_cons, foldl_app. cbn. by rewrite IH.
Qed.

Lemma foldr_meet_input_contributions ins :
  foldr (fun i acc => meet_input acc i) ty_Top ins
  = foldr spec_meet ty_Top (contributions ins).
Proof.
  unfold contributions.
  induction ins as [|i ins IH]; [done|].
  cbn [foldr]. rewrite IH. unfold meet_input.
  rewrite filter_cons. destruct (contributes i) eqn:Hc.
  - rewrite decide_True by done. cbn. apply spec_meet_comm.
  - rewrite decide_False by (by intros ?). done.
Qed.

Lemma compute_Phi_loop_Ok s node phi blk nd idx ins ty :
  link s !! node = Some nd ->
  mapM (Phi_input s phi blk) idx = Some ins ->
  compute_Phi_loop node phi blk idx ty s
  = Ok (tt, retype node (Phi_loop_type ty ins) s).
Proof.
  intros Hnd Hins. apply mapM_Some in Hins. revert ty.
  induction Hins as [|i [t x] idx ins Hi _ IH]; intros ty.
  { by apply set_type_Ok with nd. }
  unfold Phi_input in Hi.
  destruct (irn_in phi !! i) as [p|] eqn:Hp; [|done]. cbn in Hi.
  destruct (link s !! p) as [pred|] eqn:Hpred; [|done]. cbn in Hi.
  destruct (irn_in blk !! i) as [px|] eqn:Hpx; [|done]. cbn in Hi.
  destruct (link s !! px) as [pred_X|] eqn:HpX; [|done]. cbn in Hi.
  injection Hi as <- <-.
  cbn [compute_Phi_loop Phi_loop_type fst snd]. do 4 mstep.
  destruct (tv_is (type pred_X) tarval_unreachable || tv_is (type pred) tarval_top);
    [apply IH|].
  destruct (tv_is (type pred) tarval_bottom); [by apply set_type_Ok with nd|].
  destruct (tv_is ty tarval_top); [apply IH|].
  destruct (negb (type_eqb ty (type pred))); [by apply set_type_Ok with nd|].
  apply IH.
Qed.

Lemma contributions_not_Top ins x : x ∈ contributions ins -> x <> ty_Top.
Proof.
  unfold contributions. intros Hx.
  apply list_elem_of_fmap in Hx as ([t c] & -> & Hi).
  apply list_elem_of_filter in Hi as [Hc _].
  unfold contributes in Hc. cbn in *.
  apply andb_true_iff in Hc as [_ Hc]. apply negb_true_iff in Hc.
  by apply tv_is_false in Hc.
Qed.

Lemma spec_meet_idemp c : spec_meet c c = c.
Proof.
  unfold spec_meet, tv_is, type_eqb.
  repeat case_bool_decide; cbn; congruence.
Qed.

Lemma spec_meet_Top_r a : spec_meet a ty_Top = a.
Proof.
  unfold spec_meet, tv_is. repeat case_bool_decide; cbn; congruence.
Qed.

Lemma foldr_meet_all_equal (C : list lattice_elem_t) c :
  C <> [] -> (forall x, x ∈ C -> x = c) -> foldr spec_meet ty_Top C = c.
Proof.
  induction C as [|x C IH]; [done|]. intros _ Hall.
  assert (x = c) as -> by (apply Hall; left).
  destruct C as [|y C].
  - cbn. apply spec_meet_Top_r.
  - cbn [foldr] in *. rewrite IH; [apply spec_meet_idemp | done |].
    intros z Hz. apply Hall. by right.
Qed.

Lemma foldr_meet_Bottom_in (C : list lattice_elem_t) :
  ty_Bottom ∈ C -> foldr spec_meet ty_Top C = ty_Bottom.
Proof.
  induction C as [|x C IH]; intros Hin.
  - by apply elem_of_nil in Hin.
  - cbn. apply elem_of_cons in Hin as [<- | Hin].
    + apply spec_meet_Bottom_l.
    + rewrite IH by done. apply spec_meet_Bottom_r.
Qed.

(** A meet that is not Bottom is the common value of what was met. *)
Lemma foldr_meet_not_Bottom (C : list lattice_elem_t) :
  (forall x, x ∈ C -> x <> ty_Top) ->
  foldr spec_meet ty_Top C <> ty_Bottom ->
  (C = [] /\ foldr spec_meet ty_Top C = ty_Top)
  \/ (foldr spec_meet ty_Top C <> ty_Top
      /\ forall x, x ∈ C -> x = foldr spec_meet ty_Top C).
Proof.
  induction C as [|x C IH]; intros Hnt Hnb; [by left|].
  right. cbn [foldr] in *.
  assert (x <> ty_Top) as Hx by (apply Hnt; left).
  set (R := foldr spec_meet ty_Top C) in *.
  assert (R <> ty_Bottom) as HR.
  { intros HR. apply Hnb. rewrite HR. apply spec_meet_Bottom_r. }
  destruct IH as [[-> HT] | [HRt Hall]]; [by intros; apply Hnt; right | done | |].
  - rewrite HT. rewrite spec_meet_Top_r. split; [done|].
    intros y Hy. apply elem_of_cons in Hy as [->|Hy]; [done|].
    by apply elem_of_nil in Hy.
  - revert Hnb. unfold spec_meet.
    rewrite (proj2 (tv_is_false x tarval_top) Hx).
    rewrite (proj2 (tv_is_false R tarval_top) HRt).
    destruct (tv_is x tarval_bottom || tv_is R tarval_bottom); [done|].
    unfold type_eqb. case_bool_decide as Heq; [|done]. intros _.
    split; [done|]. intros y Hy.
    apply elem_of_cons in Hy as [->|Hy]; [done|].
    rewrite Heq. by apply Hall.
Qed.

Lemma foldr_meet_two_different (C : list lattice_elem_t) a b :
  (forall x, x ∈ C -> x <> ty_Top) ->
  a ∈ C -> b ∈ C -> a <> b -> foldr spec_meet ty_Top C = ty_Bottom.
Proof.
  intros Hnt Ha Hb Hab.
  destruct (decide (foldr spec_meet ty_Top C = ty_Bottom)) as [|Hnb]; [done|].
  destruct (foldr_meet_not_Bottom C Hnt Hnb) as [[-> _] | [_ Hall]].
  - by apply elem_of_nil in Ha.
  - exfalso. apply Hab. by rewrite (Hall a Ha), (Hall b Hb).
Qed.

(** C5: a Phi in an Unreachable block gets Top.  Otherwise it gets the meet
    of the types of those operands whose control-flow predecessor is
    Reachable and whose type is not Top: Top when there is none, their
    common type when they all agree, and Bottom when one of them is Bottom
    or two of them differ. *)
Theorem compute_Phi_meet s node phi block blk nd inputs :
  irg s !! node = Some phi ->
  link s !! irn_block phi = Some block ->
  irg s !! irn_block phi = Some blk ->
  link s !! node = Some nd ->
  Phi_inputs s phi blk = Some inputs ->
  Forall (fun i => cf_type i.2) inputs ->
  let C := contributions inputs in
  let result := spec_Phi_type (type block) inputs in
  compute_Phi node s = Ok (tt, retype node result s)
  /\ (type block = ty_Unreachable -> result = ty_Top)
  /\ (type block <> ty_Unreachable ->
      (C = [] -> result = ty_Top)
      /\ (forall c, C <> [] -> (forall x, x ∈ C -> x = c) -> result = c)
      /\ (ty_Bottom ∈ C \/ (exists a b, a ∈ C /\ b ∈ C /\ a <> b) ->
          result = ty_Bottom)).
Proof.
  intros Hn Hb Hblk Hnd Hins Hcf C result. subst C result.
  unfold spec_Phi_type. split; [|split].
  - unfold compute_Phi. do 2 mstep.
    destruct (tv_is (type block) tarval_unreachable); [by apply set_type_Ok with nd|].
    mstep. unfold Phi_inputs in Hins. unfold down_from.
    apply mapM_Some, Forall2_reverse, mapM_Some in Hins.
    rewrite (compute_Phi_loop_Ok s node phi blk nd _ _ ty_Top Hnd Hins).
    rewrite Phi_loop_type_foldl; [|discriminate|by apply Forall_reverse].
    by rewrite foldl_reverse_foldr, foldr_meet_input_contributions.
  - intros Hu. by rewrite (proj2 (tv_is_true _ _) Hu).
  - intros Hu. rewrite (proj2 (tv_is_false _ _) Hu). split; [|split].
    + by intros ->.
    + intros c Hne Hall. by apply foldr_meet_all_equal.
    + intros [Hbot | (a & b & Ha & Hb' & Hab)].
      * by apply foldr_meet_Bottom_in.
      * apply (foldr_meet_two_different _ a b); [|done..].
        intros x. apply contributions_not_Top.
Qed.

Lemma compute_Phi_meet_witness :
  compute_Phi 5 Ex.phi_state
  = Ok (tt, retype 5 (L_tv (tarval_value Ex.Is 5)) Ex.phi_state).
Proof.
  refine (proj1 (compute_Phi_meet Ex.phi_state 5 _ (Ex.nd 0 0 ty_Reachable) _
                   (Ex.nd 5 0 ty_Top)
                   [ (L_tv (tarval_value Ex.Is 5), ty_Reachable);
                     (L_tv (tarval_value Ex.Is 7), ty_Unreachable) ]
                   eq_refl eq_refl eq_refl eq_refl eq_refl _)).
  constructor; [by left | constructor; [by right | constructor]].
Defined.

(** ** C7: Top-typed nodes in the apply phase *)

(** Unfolds the monad on a state, up to the next read. *)
Ltac mrun :=
  unfold mbind, M_bind, mret, M_ret, gets, modify, get_irn_node, get_irn, get_part,
    get_irn_n, deref, assert, abort; cbn.

(** C7 (as amended): a node that is no Block, End or Bad, whose type is Top
    and whose block is not Unreachable, is exchanged for a fresh Unknown of
    its mode, unless its mode is memory or tuple or it is an Unknown itself:
    the Unknown takes the next free node index, every use of the node is a
    use of the Unknown afterwards, both share the record of the node, and
    the graph is marked modified.  A tuple node and an Unknown are left
    alone.  A memory node is left alone except a memory Proj whose
    predecessor is Top too: that is exchanged for the memory input of its
    predecessor, so that every use of the Proj is a use of that memory
    afterwards.  Control-flow nodes are asserted not to get here. *)
Theorem apply_result_Top s irn n node block :
  irg s !! irn = Some n ->
  link s !! irn = Some node ->
  link s !! irn_block n = Some block ->
  is_op iro_Block n || is_op iro_End n || is_op iro_Bad n = false ->
  type block <> ty_Unreachable ->
  type node = ty_Top ->
  (irn_mode n = mode_M ->
     (irn_op n <> iro_Proj -> apply_result irn s = Ok (None, s))
     /\ (forall pred pnode, irn_op n = iro_Proj ->
           irn_in n !! 0 = Some pred -> link s !! pred = Some pnode ->
           (type pnode <> ty_Top -> apply_result irn s = Ok (None, s))
           /\ (forall p mem, type pnode = ty_Top ->
                 irg s !! pred = Some p -> irn_in p !! 0 = Some mem ->
                 exists s', apply_result irn s = Ok (Some (by_mem mem), s')
                            /\ modified (env s') = true
                            /\ irg s' = reroute irn mem <$> irg s
                            /\ (forall u un, irg s !! u = Some un ->
                                  irg s' !! u = Some (reroute irn mem un))
                            /\ link s' = <[irn := with_node_irn mem node]> (link s))))
  /\ (irn_mode n = mode_T -> apply_result irn s = Ok (None, s))
  /\ (irn_mode n <> mode_M -> irn_mode n <> mode_T ->
      (irn_op n = iro_Unknown -> apply_result irn s = Ok (None, s))
      /\ (irn_op n <> iro_Unknown ->
          (irn_mode n = mode_X -> apply_result irn s = Abort)
          /\ (irn_mode n <> mode_X ->
              exists s', apply_result irn s = Ok (Some (by_Unknown (next_irn s)), s')
                         /\ irn_op <$> irg s' !! next_irn s = Some iro_Unknown
                         /\ irn_mode <$> irg s' !! next_irn s = Some (irn_mode n)
                         /\ modified (env s') = true
                         /\ irg s'
                            = reroute irn (next_irn s)
                                <$> <[next_irn s :=
                                        mk_irn iro_Unknown (irn_mode n) (start_block s) []
                                          op_pin_state_floats [] no_attr]> (irg s)
                         /\ (irn_fresh s -> forall u un, irg s !! u = Some un ->
                               irg s' !! u = Some (reroute irn (next_irn s) un))
                         /\ link s'
                            = <[next_irn s := with_node_irn (next_irn s) node]>
                                (<[irn := with_node_irn (next_irn s) node]> (link s))))).
Proof.
  intros Hn Hnode Hb Hop Hbt Ht.
  assert (apply_result irn s =
    (if bool_decide (irn_mode n = mode_M) then
       if is_op iro_Proj n then
         (get_Proj_pred n ≫= fun pred => get_irn_node pred ≫= fun pnode =>
          if tv_is (type pnode) tarval_top then
            get_irn pred ≫= fun p => get_memop_mem p ≫= fun mem =>
            retarget irn mem false ;; exchange irn mem ;; set_modified ;;
            mret (Some (by_mem mem))
          else mret None) s
       else Ok (None, s)
     else if bool_decide (irn_mode n = mode_T) then Ok (None, s)
     else if negb (is_op iro_Unknown n) then
       (new_r_node iro_Unknown (irn_mode n) None [] no_attr ≫= fun unk =>
        assert (negb (bool_decide (irn_mode n = mode_X))) ;;
        retarget irn unk true ;; exchange irn unk ;; set_modified ;;
        mret (Some (by_Unknown unk))) s
     else Ok (None, s))) as ->.
  { unfold apply_result. do 2 mstep. rewrite Hop. mstep.
    rewrite (proj2 (tv_is_false _ _) Hbt), (proj2 (tv_is_true _ _) Ht).
    destruct (bool_decide (irn_mode n = mode_M));
      [destruct (is_op iro_Proj n); reflexivity|].
    destruct (bool_decide (irn_mode n = mode_T)); [reflexivity|].
    destruct (negb (is_op iro_Unknown n)); reflexivity. }
  split; [|split].
  - intros HM. rewrite (bool_decide_eq_true_2 _ HM). split.
    + intros HP. unfold is_op. by rewrite (bool_decide_eq_false_2 _ HP).
    + intros pred pnode HP Hpred Hpnode. unfold is_op, get_Proj_pred.
      rewrite (bool_decide_eq_true_2 _ HP). do 2 mstep. split.
      * intros Hpt. by rewrite (proj2 (tv_is_false _ _) Hpt).
      * intros p mem Hpt Hp Hmem. rewrite (proj2 (tv_is_true _ _) Hpt).
        unfold get_memop_mem. do 2 mstep.
        unfold retarget, exchange, set_modified, upd_node. mrun.
        rewrite Hnode. cbn. rewrite lookup_insert_eq. cbn.
        eexists. split; [reflexivity|]. cbn.
        split; [done|]. split; [done|]. split; [|done].
        intros u un Hu. by rewrite lookup_fmap, Hu.
  - intros HT. rewrite bool_decide_eq_false_2 by congruence.
    by rewrite (bool_decide_eq_true_2 _ HT).
  - intros HM HT.
    rewrite (bool_decide_eq_false_2 _ HM), (bool_decide_eq_false_2 _ HT).
    unfold is_op. split.
    + intros HU. by rewrite (bool_decide_eq_true_2 _ HU).
    + intros HU. rewrite (bool_decide_eq_false_2 _ HU). cbn [negb].
      unfold new_r_node, new_ir_node, retarget, exchange, set_modified, upd_node,
        set_irn_node.
      split.
      * intros HX. rewrite (bool_decide_eq_true_2 _ HX). by mrun.
      * intros HX. rewrite (bool_decide_eq_false_2 _ HX). mrun.
        rewrite Hnode. cbn. rewrite lookup_insert_eq. cbn.
        eexists. split; [reflexivity|]. cbn.
        rewrite !lookup_fmap, !lookup_insert_eq.
        split; [done|]. split; [done|]. split; [done|]. split; [done|].
        split; [|done].
        intros Hfresh u un Hu. rewrite lookup_fmap, lookup_insert_ne, Hu; [done|].
        intros <-. rewrite Hfresh in Hu; [done | lia].
Qed.

Lemma apply_result_Top_witness :
  exists s', apply_result 5 Ex.load_state = Ok (Some (by_Unknown 6), s')
             /\ irn_op <$> irg s' !! 6 = Some iro_Unknown
             /\ irn_mode <$> irg s' !! 6 = Some Ex.Is
             /\ modified (env s') = true
             /\ irg s'
                = reroute 5 6
                    <$> <[6 := mk_irn iro_Unknown Ex.Is 0 [] op_pin_state_floats []
                                no_attr]> (irg Ex.load_state)
             /\ (irn_fresh Ex.load_state -> forall u un,
                   irg Ex.load_state !! u = Some un ->
                   irg s' !! u = Some (reroute 5 6 un))
             /\ link s'
                = <[6 := with_node_irn 6 (Ex.nd 5 0 ty_Top)]>
                    (<[5 := with_node_irn 6 (Ex.nd 5 0 ty_Top)]> (link Ex.load_state)).
Proof.
  refine (proj2 (proj2 (proj2 (proj2 (apply_result_Top Ex.load_state 5 _
            (Ex.nd 5 0 ty_Top) (Ex.nd 0 0 ty_Reachable)
            eq_refl eq_refl eq_refl eq_refl _ eq_refl)) _ _) _) _); discriminate.
Defined.

(** A Top-typed memory Proj of a Top-typed Load, in a Reachable block, is
    rewritten: it is exchanged for the memory input of the Load. *)
Lemma apply_result_rewrites_Top_memory_Proj :
  irn_mode <$> irg Ex.load_state !! 4 = Some mode_M
  /\ type_of Ex.load_state 4 = Some ty_Top
  /\ type_of Ex.load_state 0 = Some ty_Reachable
  /\ match apply_result 4 Ex.load_state with
     | Ok (r, s') =>
         r = Some (by_mem 1)
         /\ modified (env s') = true
         /\ node_irn <$> link s' !! 4 = Some 1
     | _ => False
     end.
Proof. repeat match goal with |- _ /\ _ => split end; vm_compute;
    repeat match goal with |- _ /\ _ => split end; reflexivity. Qed.

(** ** C10: follower Phis with an Unknown operand *)

Lemma bind_Ok_inv {A B} (m : M A) (f : A -> M B) s b s' :
  (m ≫= f) s = Ok (b, s') -> exists a s1, m s = Ok (a, s1) /\ f a s1 = Ok (b, s').
Proof.
  unfold mbind, M_bind. destruct (m s) as [[a s1]| |]; [|done..].
  intros H. by exists a, s1.
Qed.

Lemma mret_Ok_inv {A} (a b : A) (s s' : state) :
  mret (M := M) a s = Ok (b, s') -> a = b /\ s = s'.
Proof. unfold mret, M_ret. by intros [= -> ->]. Qed.

Lemma has_Unknown_pred_true s preds :
  Forall (fun p => is_Some (irg s !! p)) preds ->
  (exists p pred, p ∈ preds /\ irg s !! p = Some pred /\ irn_op pred = iro_Unknown) ->
  has_Unknown_pred preds s = Ok (true, s).
Proof.
  induction 1 as [|q preds [qn Hq] _ IH]; intros (p & pred & Hin & Hp & Hop).
  { by apply elem_of_nil in Hin. }
  cbn [has_Unknown_pred]. mstep. unfold is_op.
  case_bool_decide as Hu; [done|].
  apply IH. apply elem_of_cons in Hin as [-> | Hin].
  - rewrite Hq in Hp. injection Hp as ->. done.
  - by exists p, pred.
Qed.

(** Peels the binds off a run that returned. *)
Ltac inv_run H :=
  repeat (let a := fresh "a" in let s1 := fresh "s" in
          apply bind_Ok_inv in H as (a & s1 & _ & H));
  apply mret_Ok_inv in H as [H _].

(** C10: in the apply phase a follower Phi that has an Unknown operand, and
    whose partition leader is not an Unknown, is never exchanged for its
    leader; with the type Bottom in a block that is not Unreachable, as the
    analysis leaves a follower, it is left in the graph untouched. *)
Theorem follower_Phi_with_Unknown_kept s irn n node leader l :
  irg s !! irn = Some n ->
  irn_op n = iro_Phi ->
  link s !! irn = Some node ->
  is_follower node = true ->
  get_leader node s = Ok (leader, s) ->
  irg s !! leader = Some l ->
  irn_op l <> iro_Unknown ->
  Forall (fun p => is_Some (irg s !! p)) (irn_in n) ->
  (exists p pred, p ∈ irn_in n /\ irg s !! p = Some pred /\ irn_op pred = iro_Unknown) ->
  (forall r s', apply_result irn s = Ok (r, s') -> forall x, r <> Some (by_leader x))
  /\ (forall block, link s !! irn_block n = Some block ->
        type block <> ty_Unreachable -> type node = ty_Bottom ->
        apply_result irn s = Ok (None, s)).
Proof.
  intros Hn Hphi Hnode Hfol Hlead Hl Hlu Hall Hex.
  assert (has_Unknown_pred (reverse (irn_in n)) s = Ok (true, s)) as Hunk.
  { apply has_Unknown_pred_true; [by apply Forall_reverse|].
    destruct Hex as (p & pred & Hin & Hp & Hop).
    exists p, pred. by rewrite elem_of_reverse. }
  assert (forall t, t = type node ->
            (leader0 ← get_leader node;
             if negb (bool_decide (leader0 = irn)) then
               l0 ← get_irn leader0;
               non_strict_phi ←
                 (if is_follower node && is_op iro_Phi n && negb (is_op iro_Unknown l0)
                  then has_Unknown_pred (reverse (irn_in n)) else mret false);
               if negb non_strict_phi then
                 r ← exchange_leader irn leader0;
                 set_modified ;;
                 mret (Some (by_leader r))
               else mret None
             else mret None) s = Ok (None, s)) as Hkeep.
  { intros t _. rewrite (bind_Ok _ _ _ _ _ Hlead).
    case_bool_decide; [done|]. cbn [negb]. mstep.
    rewrite Hfol. unfold is_op.
    rewrite (bool_decide_eq_true_2 _ Hphi), (bool_decide_eq_false_2 _ Hlu). cbn [andb negb].
    by rewrite (bind_Ok _ _ _ _ _ Hunk). }
  assert (is_op iro_Block n || is_op iro_End n || is_op iro_Bad n = false) as Hop.
  { unfold is_op. by rewrite !bool_decide_eq_false_2 by congruence. }
  assert (is_op iro_Proj n = false) as Hproj.
  { unfold is_op. by rewrite bool_decide_eq_false_2 by congruence. }
  assert (is_op iro_Confirm n = false) as Hconf.
  { unfold is_op. by rewrite bool_decide_eq_false_2 by congruence. }
  split.
  - intros r s'. unfold apply_result. do 2 mstep. rewrite Hop, Hproj, Hconf.
    destruct (link s !! irn_block n) as [block|] eqn:Hb.
    2:{ unfold mbind, M_bind, get_irn_node. by rewrite Hb. }
    mstep.
    destruct (tv_is (type block) tarval_unreachable).
    { intros H x. inv_run H. congruence. }
    destruct (tv_is (type node) tarval_top).
    { destruct (bool_decide (irn_mode n = mode_M)).
      { intros H x. apply mret_Ok_inv in H as [H _]. congruence. }
      destruct (bool_decide (irn_mode n = mode_T)).
      { intros H x. apply mret_Ok_inv in H as [H _]. congruence. }
      destruct (negb (is_op iro_Unknown n)).
      - intros H x. inv_run H. congruence.
      - intros H x. apply mret_Ok_inv in H as [H _]. congruence. }
    destruct (bool_decide (irn_mode n = mode_X)).
    { intros H x. apply mret_Ok_inv in H as [H _]. congruence. }
    destruct (type node) as [tv|sym] eqn:Hty.
    + destruct (tarval_is_constant tv).
      * destruct (negb (is_op iro_Const n) && negb (bool_decide (irn_mode n = mode_T))).
        -- intros H x. inv_run H. congruence.
        -- intros H x. apply mret_Ok_inv in H as [H _]. congruence.
      * rewrite (Hkeep _ eq_refl). intros [= <- _] x. done.
    + destruct (negb (is_op iro_SymConst n)).
      * intros H x. inv_run H. congruence.
      * intros H x. apply mret_Ok_inv in H as [H _]. congruence.
  - intros block Hb Hbt Hty. unfold apply_result. do 2 mstep.
    rewrite Hop, Hproj, Hconf. mstep.
    rewrite (proj2 (tv_is_false _ _) Hbt). rewrite Hty.
    replace (tv_is ty_Bottom tarval_top) with false by done.
    destruct (bool_decide (irn_mode n = mode_X)); [done|].
    cbn [tarval_is_constant tarval_bottom]. by apply (Hkeep ty_Bottom).
Qed.

Lemma follower_Phi_with_Unknown_kept_witness :
  apply_result 3 Ex.follower_phi_state = Ok (None, Ex.follower_phi_state).
Proof.
  refine (proj2 (follower_Phi_with_Unknown_kept Ex.follower_phi_state 3 _
            (with_is_follower true (Ex.nd 3 0 ty_Bottom)) 2 _
            eq_refl eq_refl eq_refl eq_refl eq_refl eq_refl _ _ _)
            (Ex.nd 0 1 ty_Reachable) eq_refl _ eq_refl).
  - discriminate.
  - repeat constructor; eexists; reflexivity.
  - exists 1, (Ex.irn iro_Unknown Ex.Is 0 []).
    split; [by left | split; reflexivity].
  - discriminate.
Defined.

(** ** Reasoning about runs: read-only programs and invariants *)

Lemma pure_bind {A B} (m : M A) (f : A -> M B) :
  pure m -> (forall a, pure (f a)) -> pure (m ≫= f).
Proof.
  intros Hm Hf s b s' H. apply bind_Ok_inv in H as (a & s1 & H1 & H2).
  apply Hm in H1 as ->. by apply Hf in H2.
Qed.

Lemma pure_ret {A} (a : A) : pure (mret a).
Proof. intros s b s' H. by apply mret_Ok_inv in H as [_ ->]. Qed.

Lemma pure_gets {A} (f : state -> A) : pure (gets f).
Proof. intros s b s' H. unfold gets in H. by injection H as _ ->. Qed.

Lemma pure_abort {A} : pure (@abort A).
Proof. by intros s b s' H. Qed.

Lemma pure_out_of_fuel {A} : pure (@out_of_fuel A).
Proof. by intros s b s' H. Qed.

Lemma pure_assert b : pure (assert b).
Proof. destruct b; [apply pure_ret | apply pure_abort]. Qed.

Lemma pure_deref {A} (o : option A) : pure (deref o).
Proof. destruct o; [apply pure_ret | apply pure_abort]. Qed.

Lemma pure_get_irn i : pure (get_irn i).
Proof. intros s b s' H. unfold get_irn in H. by apply pure_deref in H. Qed.

Lemma pure_get_irn_node i : pure (get_irn_node i).
Proof. intros s b s' H. unfold get_irn_node in H. by apply pure_deref in H. Qed.

Lemma pure_get_part i : pure (get_part i).
Proof. intros s b s' H. unfold get_part in H. by apply pure_deref in H. Qed.

Lemma pure_get_irn_n n i : pure (get_irn_n n i).
Proof. apply pure_deref. Qed.

Create HintDb pure discriminated.
#[local] Hint Resolve pure_ret pure_gets pure_abort pure_out_of_fuel pure_assert pure_deref
  pure_get_irn pure_get_irn_node pure_get_part pure_get_irn_n : pure.

(** Decomposes a program along its binds and case distinctions. *)
Ltac pure_auto :=
  repeat first
    [ solve [eauto with pure]
    | apply pure_bind; [|intros ?]
    | match goal with
      | |- pure (if ?b then _ else _) => destruct b
      | |- pure (match ?x with _ => _ end) => destruct x
      end ].

Lemma pure_for_each {A} (l : list A) (f : A -> M unit) :
  (forall x, pure (f x)) -> pure (for_each l f).
Proof. intros Hf. induction l as [|x l IH]; cbn; pure_auto. Qed.

Lemma pure_skip_Proj i : pure (skip_Proj i).
Proof. unfold skip_Proj. pure_auto. Qed.
#[local] Hint Resolve pure_skip_Proj : pure.

Lemma pure_get_irn_n_Z n i : pure (get_irn_n_Z n i).
Proof. unfold get_irn_n_Z. pure_auto. Qed.
#[local] Hint Resolve pure_get_irn_n_Z : pure.

Lemma pure_identity_Phi_loop node phi block idx n_part :
  pure (identity_Phi_loop node phi block idx n_part).
Proof. revert n_part. induction idx as [|i idx IH]; intros n_part; cbn; pure_auto. Qed.
#[local] Hint Resolve pure_identity_Phi_loop : pure.

Lemma pure_identity_neutral node tv : pure (identity_neutral node tv).
Proof. unfold identity_neutral, get_binop_left, get_binop_right. pure_auto. Qed.
#[local] Hint Resolve pure_identity_neutral : pure.

Lemma pure_identity node : pure (identity node).
Proof.
  unfold identity, identity_Phi, identity_Mul, identity_comm_zero_binop,
    identity_shift, identity_And, identity_Sub, identity_Confirm, identity_Mux,
    get_binop_left, get_binop_right.
  pure_auto.
Qed.
#[local] Hint Resolve pure_identity : pure.

Lemma pure_is_real_follower irn input : pure (is_real_follower irn input).
Proof. unfold is_real_follower. pure_auto. Qed.
#[local] Hint Resolve pure_is_real_follower : pure.

Lemma pure_is_Cond_or_Switch y : pure (is_Cond_or_Switch y).
Proof. unfold is_Cond_or_Switch. pure_auto. Qed.
#[local] Hint Resolve pure_is_Cond_or_Switch : pure.

Lemma pure_check_partition T : pure (check_partition T).
Proof. unfold check_partition. pure_auto; apply pure_for_each; intros; pure_auto. Qed.
#[local] Hint Resolve pure_check_partition : pure.

Lemma pure_max_input_of g m : pure (max_input_of g m).
Proof. revert m. induction g as [|n g IH]; intros m; cbn; pure_auto. Qed.
#[local] Hint Resolve pure_max_input_of : pure.

Lemma pure_get_first_node X : pure (get_first_node X).
Proof. unfold get_first_node. pure_auto. Qed.
#[local] Hint Resolve pure_get_first_node : pure.

Lemma pure_inv {A} (I : state -> Prop) (m : M A) : pure m -> inv I m.
Proof. intros Hm s a s' HI H. by apply Hm in H as ->. Qed.

Lemma inv_bind {A B} (I : state -> Prop) (m : M A) (f : A -> M B) :
  inv I m -> (forall a, inv I (f a)) -> inv I (m ≫= f).
Proof.
  intros Hm Hf s b s' HI H. apply bind_Ok_inv in H as (a & s1 & H1 & H2).
  eapply Hf; [|done]. by eapply Hm.
Qed.

Lemma inv_modify (I : state -> Prop) (g : state -> state) :
  (forall s, I s -> I (g s)) -> inv I (modify g).
Proof. intros Hg s a s' HI H. unfold modify in H. injection H as _ <-. auto. Qed.

Lemma inv_upd_node (I : state -> Prop) n f :
  (forall s nd, I s -> link s !! n = Some nd -> I (set_link (<[n := f nd]>) s)) ->
  inv I (upd_node n f).
Proof.
  intros Hf s a s' HI H.
  unfold upd_node, mbind, M_bind, get_irn_node, deref, modify, mret, M_ret in H.
  destruct (link s !! n) as [x|] eqn:Hx; cbn in H; [|done].
  simplify_eq. eauto.
Qed.

Lemma inv_upd_part (I : state -> Prop) p f :
  (forall s P, I s -> obst s !! p = Some P -> I (set_obst (<[p := f P]>) s)) ->
  inv I (upd_part p f).
Proof.
  intros Hf s a s' HI H.
  unfold upd_part, mbind, M_bind, get_part, deref, modify, mret, M_ret in H.
  destruct (obst s !! p) as [x|] eqn:Hx; cbn in H; [|done].
  simplify_eq. eauto.
Qed.

Lemma inv_upd_irn (I : state -> Prop) i f :
  (forall s n, I s -> irg s !! i = Some n -> I (set_irg (<[i := f n]>) s)) ->
  inv I (upd_irn i f).
Proof.
  intros Hf s a s' HI H.
  unfold upd_irn, mbind, M_bind, get_irn, deref, modify, mret, M_ret in H.
  destruct (irg s !! i) as [x|] eqn:Hx; cbn in H; [|done].
  simplify_eq. eauto.
Qed.

Lemma inv_for_each {A} (I : state -> Prop) (l : list A) (f : A -> M unit) :
  (forall x, inv I (f x)) -> inv I (for_each l f).
Proof.
  intros Hf. induction l as [|x l IH]; cbn.
  - apply pure_inv, pure_ret.
  - apply inv_bind; [apply Hf | by intros].
Qed.

Section Keeps.
Context {B : Type} (view : state -> B).

Lemma keeps_pure {A} (m : M A) : pure m -> keeps view m.
Proof. intros Hm s a s' H. by apply Hm in H as ->. Qed.

Lemma keeps_bind {A C} (m : M A) (f : A -> M C) :
  keeps view m -> (forall a, keeps view (f a)) -> keeps view (m ≫= f).
Proof.
  intros Hm Hf s b s' H. apply bind_Ok_inv in H as (a & s1 & H1 & H2).
  apply Hm in H1. apply Hf in H2. congruence.
Qed.

Lemma keeps_modify (g : state -> state) :
  (forall s, view (g s) = view s) -> keeps view (modify g).
Proof. intros Hg s a s' H. unfold modify in H. simplify_eq. apply Hg. Qed.

Lemma keeps_upd_node n f :
  (forall s g, view (set_link g s) = view s) -> keeps view (upd_node n f).
Proof.
  intros Hv. unfold upd_node. apply keeps_bind.
  - apply keeps_pure, pure_get_irn_node.
  - intros nd. apply keeps_modify. intros s. apply Hv.
Qed.

Lemma keeps_upd_part p f :
  (forall s g, view (set_obst g s) = view s) -> keeps view (upd_part p f).
Proof.
  intros Hv. unfold upd_part. apply keeps_bind.
  - apply keeps_pure, pure_get_part.
  - intros nd. apply keeps_modify. intros s. apply Hv.
Qed.

Lemma keeps_upd_irn i f :
  (forall s g, view (set_irg g s) = view s) -> keeps view (upd_irn i f).
Proof.
  intros Hv. unfold upd_irn. apply keeps_bind.
  - apply keeps_pure, pure_get_irn.
  - intros nd. apply keeps_modify. intros s. apply Hv.
Qed.

Lemma keeps_for_each {A} (l : list A) (f : A -> M unit) :
  (forall x, keeps view (f x)) -> keeps view (for_each l f).
Proof.
  intros Hf. induction l as [|x l IH]; cbn.
  - apply keeps_pure, pure_ret.
  - apply keeps_bind; [apply Hf | by intros].
Qed.

End Keeps.

Create HintDb keeps discriminated.

(** Decomposes a program that only updates records a view does not read. *)
Ltac keeps_auto :=
  repeat first
    [ solve [eauto with keeps]
    | apply keeps_pure; solve [eauto with pure]
    | apply keeps_bind; [|intros ?]
    | apply keeps_upd_node; reflexivity
    | apply keeps_upd_part; reflexivity
    | apply keeps_upd_irn; reflexivity
    | apply keeps_modify; reflexivity
    | apply keeps_for_each; intros ?
    | match goal with
      | |- keeps _ (if ?b then _ else _) => destruct b
      | |- keeps _ (match ?x with _ => _ end) => destruct x
      | |- keeps _ ((match ?x with _ => _ end) _) => destruct x
      end ].

(** *** The splitter leaves the work list alone until it enqueues *)

Lemma keeps_wl_list_del_node_list n : keeps worklist_view (list_del_node_list n).
Proof. unfold list_del_node_list. keeps_auto. Qed.
#[local] Hint Resolve keeps_wl_list_del_node_list : keeps.

Lemma keeps_wl_move_edge_search irn i pred js :
  keeps worklist_view (move_edge_search irn i pred js).
Proof. induction js as [|j js IH]; cbn; keeps_auto. Qed.
#[local] Hint Resolve keeps_wl_move_edge_search : keeps.

Lemma keeps_wl_follower_to_leader n : keeps worklist_view (follower_to_leader n).
Proof.
  unfold follower_to_leader, move_edges_to_leader, add_tail_Leader. keeps_auto.
Qed.
#[local] Hint Resolve keeps_wl_follower_to_leader : keeps.

Lemma keeps_wl_step_edges n_part side edges index :
  keeps worklist_view (step_edges n_part side edges index).
Proof. revert index. induction edges as [|e edges IH]; intros index; cbn; keeps_auto. Qed.
#[local] Hint Resolve keeps_wl_step_edges : keeps.

Lemma keeps_wl_step_unwalked env unw : keeps worklist_view (step_unwalked env unw).
Proof. revert env. induction unw as [|n unw IH]; intros env; cbn; keeps_auto. Qed.
#[local] Hint Resolve keeps_wl_step_unwalked : keeps.

Lemma keeps_wl_step env : keeps worklist_view (step env).
Proof. unfold step. keeps_auto. Qed.
#[local] Hint Resolve keeps_wl_step : keeps.

Lemma keeps_wl_race fuel senv0 senv1 : keeps worklist_view (race fuel senv0 senv1).
Proof.
  revert senv0 senv1. induction fuel as [|fuel IH]; intros senv0 senv1; cbn; keeps_auto.
Qed.
#[local] Hint Resolve keeps_wl_race : keeps.

Lemma keeps_wl_clear_flags l res : keeps worklist_view (clear_flags l res).
Proof. revert res. induction l as [|n l IH]; intros res; cbn; keeps_auto. Qed.
#[local] Hint Resolve keeps_wl_clear_flags : keeps.

Lemma keeps_wl_move_walked X_prime l n : keeps worklist_view (move_walked X_prime l n).
Proof.
  revert n. induction l as [|x l IH]; intros n; cbn;
    unfold add_tail_Follower, add_tail_Leader; keeps_auto.
Qed.
#[local] Hint Resolve keeps_wl_move_walked : keeps.

Lemma keeps_wl_promote_lost_followers l res :
  keeps worklist_view (promote_lost_followers l res).
Proof. revert res. induction l as [|f l IH]; intros res; cbn; keeps_auto. Qed.
#[local] Hint Resolve keeps_wl_promote_lost_followers : keeps.

Lemma keeps_wl_place_on_cprop X : keeps worklist_view (place_on_cprop X).
Proof. unfold place_on_cprop. keeps_auto. Qed.
#[local] Hint Resolve keeps_wl_place_on_cprop : keeps.

Lemma keeps_onwl_upd_part Z p f :
  (forall P, on_worklist (f P) = on_worklist P) ->
  keeps (on_worklist_view Z) (upd_part p f).
Proof.
  intros Hf s a s' H.
  unfold upd_part, mbind, M_bind, get_part, deref, modify, mret, M_ret in H.
  destruct (obst s !! p) as [P|] eqn:HP; cbn in H; [|done]. simplify_eq.
  unfold on_worklist_view. cbn. f_equal.
  destruct (decide (p = Z)) as [->|Hne].
  - rewrite lookup_insert_eq, HP. cbn. by rewrite Hf.
  - by rewrite lookup_insert_ne.
Qed.

Lemma keeps_onwl_list_del_node_list Z n : keeps (on_worklist_view Z) (list_del_node_list n).
Proof.
  unfold list_del_node_list. apply keeps_bind; [apply keeps_pure, pure_get_irn_node|].
  intros nd. by apply keeps_onwl_upd_part.
Qed.

Lemma new_partition_Ok s p s' :
  new_partition s = Ok (p, s') ->
  p = next_part s /\ worklist (env s') = worklist (env s)
  /\ next_part s' = S (next_part s)
  /\ forall Z, Z <> next_part s -> obst s' !! Z = obst s !! Z.
Proof.
  unfold new_partition, mbind, M_bind, gets, modify, mret, M_ret. cbn.
  intros H. simplify_eq. split; [done|]. split; [done|]. split; [done|].
  intros Z HZ. cbn. by rewrite lookup_insert_ne.
Qed.

Lemma add_to_worklist_Ok X s s' :
  add_to_worklist X s = Ok (tt, s') ->
  worklist (env s') = X :: worklist (env s)
  /\ next_part s' = next_part s
  /\ (forall p, n_leader_view s' p = n_leader_view s p)
  /\ is_Some (obst s' !! X).
Proof.
  unfold add_to_worklist, upd_part, mbind, M_bind, get_part, deref, modify, mret, M_ret.
  destruct (obst s !! X) as [P|] eqn:HP; cbn; [|done].
  destruct (on_worklist P); cbn; [done|]. rewrite HP. cbn.
  intros H. simplify_eq. cbn. split; [done|]. split; [done|]. split.
  - intros p. unfold n_leader_view. cbn.
    destruct (decide (X = p)) as [->|Hne].
    + by rewrite lookup_insert_eq, HP.
    + by rewrite lookup_insert_ne.
  - rewrite lookup_insert_eq. by eexists.
Qed.

(** [update_worklist]: Z' is enqueued when Z is on the work list or Z' has
    fewer leaders than Z, and Z otherwise. *)
Lemma update_worklist_Ok Z Z_prime s s' :
  update_worklist Z Z_prime s = Ok (tt, s') ->
  exists z z',
    obst s !! Z = Some z /\ obst s !! Z_prime = Some z'
    /\ worklist (env s')
       = (if on_worklist z || (n_leader z' <? n_leader z) then Z_prime else Z)
           :: worklist (env s)
    /\ (forall p, n_leader_view s' p = n_leader_view s p)
    /\ is_Some (obst s' !! Z) /\ is_Some (obst s' !! Z_prime).
Proof.
  intros H. unfold update_worklist in H.
  apply bind_Ok_inv in H as (z & s1 & H1 & H).
  pose proof (pure_get_part _ _ _ _ H1) as ->.
  apply bind_Ok_inv in H as (z' & s1 & H2 & H).
  pose proof (pure_get_part _ _ _ _ H2) as ->.
  unfold get_part, deref, mret, M_ret, abort in H1, H2.
  destruct (obst s !! Z) as [z0|] eqn:HZ; [|done].
  destruct (obst s !! Z_prime) as [z0'|] eqn:HZ'; [|done].
  simplify_eq.
  exists z, z'. split; [done|]. split; [done|].
  assert (forall Y, add_to_worklist Y s = Ok ((), s') ->
            is_Some (obst s' !! Z) /\ is_Some (obst s' !! Z_prime)) as Hsome.
  { intros Y HY. apply add_to_worklist_Ok in HY as (_ & _ & Hn & _).
    pose proof (Hn Z) as Hz. pose proof (Hn Z_prime) as Hz'.
    unfold n_leader_view in Hz, Hz'. rewrite HZ in Hz. rewrite HZ' in Hz'.
    split.
    - destruct (obst s' !! Z); [by eexists | done].
    - destruct (obst s' !! Z_prime); [by eexists | done]. }
  destruct (on_worklist z || (n_leader z' <? n_leader z)).
  - pose proof (Hsome _ H). apply add_to_worklist_Ok in H as (? & _ & ? & _). done.
  - pose proof (Hsome _ H). apply add_to_worklist_Ok in H as (? & _ & ? & _). done.
Qed.

#[local] Hint Extern 1 (keeps (on_worklist_view _) (upd_part _ _)) =>
  apply keeps_onwl_upd_part; reflexivity : keeps.
#[local] Hint Resolve keeps_onwl_list_del_node_list : keeps.

(** Inverts the first bind of a run that returned and carries the equation
    [Hv] on a view the first program keeps over it. *)
Ltac peel_keeps view H Hv :=
  let a := fresh "a" in
  let s1 := fresh "s" in
  let H1 := fresh "H" in
  apply bind_Ok_inv in H as (a & s1 & H1 & H);
  match type of H1 with
  | ?m _ = _ =>
      let K := fresh "K" in
      assert (keeps view m) as K
        by (try unfold add_tail_Leader, add_tail_Follower; keeps_auto);
      apply K in H1; rewrite <- H1 in Hv; clear K H1
  end.

Ltac peel_all view H Hv :=
  repeat lazymatch type of H with
         | (mbind _ new_partition) _ = _ => fail
         | (mbind _ (add_to_worklist _)) _ = _ => fail
         | (mbind _ (update_worklist _ _)) _ = _ => fail
         | (mbind _ _) _ = _ => peel_keeps view H Hv
         end.

(** ** C6: which part of a split is enqueued *)

(** C6 (as amended): a split of partition [X] creates the partition [X']
    and enqueues exactly one of the two parts.  On the no-follower fast path
    that is [X'] when [X] was on the work list already, whatever the sizes,
    and otherwise the part with fewer leaders ([X] on a tie).  The race
    splitter always enqueues [X'], the walked set of the side that finished
    first, without comparing leader counts. *)
Theorem split_enqueues fuel X gg s x r pX s' :
  obst s !! X = Some x ->
  X <> next_part s ->
  split fuel X gg s = Ok ((r, pX), s') ->
  let X' := next_part s in
  (Follower x = [] ->
     exists z z',
       obst s' !! X = Some z /\ obst s' !! X' = Some z'
       /\ worklist (env s')
          = (if on_worklist x || (n_leader z' <? n_leader z) then X' else X)
              :: worklist (env s))
  /\ (Follower x <> [] -> worklist (env s') = X' :: worklist (env s)).
Proof.
  intros Hx Hfresh H X'. subst X'. unfold split in H.
  rewrite (bind_Ok _ _ _ _ _ (get_part_Ok _ _ _ Hx)) in H. split.
  - intros Hnf. rewrite (bool_decide_eq_true_2 _ Hnf) in H.
    apply bind_Ok_inv in H as (Z' & s1 & H & Hret).
    apply mret_Ok_inv in Hret as [_ <-].
    unfold split_no_followers in H.
    assert (on_worklist_view X s
            = (worklist (env s), next_part s, Some (on_worklist x))) as Hv.
    { unfold on_worklist_view. by rewrite Hx. }
    remember s as s0 eqn:Hs0 in H, Hv at 1.
    peel_all (on_worklist_view X) H Hv.
    apply bind_Ok_inv in H as (Z0 & sn & Hnew & H).
    apply new_partition_Ok in Hnew as (-> & Hwl & Hnp & Hobst).
    unfold on_worklist_view in Hv. injection Hv as Hv1 Hv2 Hv3.
    assert (on_worklist_view X sn
            = (worklist (env s), S (next_part s), Some (on_worklist x))) as Hv.
    { unfold on_worklist_view. rewrite Hwl, Hnp, Hobst by congruence. congruence. }
    rewrite Hv2 in H.
    peel_all (on_worklist_view X) H Hv.
    apply bind_Ok_inv in H as ([] & sk & Hupd & H).
    apply mret_Ok_inv in H as [_ <-].
    apply update_worklist_Ok in Hupd as (z & z' & Hz & Hz' & Hw & Hn & [zf Hzf] & [zf' Hzf']).
    unfold on_worklist_view in Hv. injection Hv as Hw1 _ Hw3.
    rewrite Hz in Hw3. injection Hw3 as Hw3.
    exists zf, zf'. split; [done|]. split; [done|].
    pose proof (Hn X) as HnX. pose proof (Hn (next_part s)) as HnX'.
    unfold n_leader_view in HnX, HnX'. rewrite Hzf, Hz in HnX. rewrite Hzf', Hz' in HnX'.
    injection HnX as ->. injection HnX' as ->.
    by rewrite Hw, Hw3, Hw1.
  - intros Hnf. rewrite (bool_decide_eq_false_2 _ Hnf) in H.
    assert (worklist_view s = (worklist (env s), next_part s)) as Hv by done.
    remember s as s0 eqn:Hs0 in H, Hv at 1.
    peel_all worklist_view H Hv.
    destruct a2 as [[winner senv0] senv1]. cbv beta iota in H.
    peel_all worklist_view H Hv.
    apply bind_Ok_inv in H as (X_prime & sn & Hnew & H).
    apply new_partition_Ok in Hnew as (-> & Hwl & Hnp & _).
    unfold worklist_view in Hv. injection Hv as Hv1 Hv2.
    assert (worklist_view sn = (worklist (env s), S (next_part s))) as Hv.
    { unfold worklist_view. congruence. }
    rewrite Hv2 in H.
    peel_all worklist_view H Hv.
    apply bind_Ok_inv in H as ([] & sk & Hadd & H).
    apply add_to_worklist_Ok in Hadd as (Hw & Hnp' & _).
    unfold worklist_view in Hv. injection Hv as Hw1 Hw2.
    assert (worklist_view sk
            = (next_part s :: worklist (env s), S (next_part s))) as Hv.
    { unfold worklist_view. congruence. }
    peel_all worklist_view H Hv.
    unfold worklist_view in Hv. injection Hv as Hv _.
    destruct (negb (winner =? 0)); apply mret_Ok_inv in H as [_ <-]; done.
Qed.

Lemma split_enqueues_witness :
  worklist (env (final_state (split 10 0 [0; 1]) Ex.race_state))
  = 1 :: worklist (env Ex.race_state).
Proof.
  refine (proj2 (split_enqueues 10 0 [0; 1] Ex.race_state _ 1 0
                   (final_state (split 10 0 [0; 1]) Ex.race_state) eq_refl _ _) _).
  - discriminate.
  - vm_compute. reflexivity.
  - discriminate.
Defined.

(** Both splitters can enqueue the part with more leaders: the fast path
    when the split partition is on the work list already, the race when the
    side that finishes first has more leaders and fewer followers. *)
Lemma split_enqueues_larger_part :
  (let s' := final_state (split 10 0 [0; 1]) Ex.split_state in
   Follower <$> obst Ex.split_state !! 0 = Some []
   /\ split 10 0 [0; 1] Ex.split_state = Ok ((1, 0), s')
   /\ worklist (env s') = 1 :: worklist (env Ex.split_state)
   /\ n_leader_view s' 1 = Some 2 /\ n_leader_view s' 0 = Some 1)
  /\ (let s' := final_state (split 10 0 [0; 1]) Ex.race_state in
      Follower <$> obst Ex.race_state !! 0 = Some [3; 4; 5]
      /\ split 10 0 [0; 1] Ex.race_state = Ok ((1, 0), s')
      /\ worklist (env s') = [1]
      /\ n_leader_view s' 1 = Some 2 /\ n_leader_view s' 0 = Some 1).
Proof.
  split; cbv zeta; repeat match goal with |- _ /\ _ => split end;
    vm_compute; reflexivity.
Qed.

(** ** C8: Conds, Switches and their Projs are recomputed last *)

Lemma is_Cond_or_Switch_Ok y s b s' :
  is_Cond_or_Switch y s = Ok (b, s') ->
  cond_like (shape_view s) y = Some b /\ s' = s.
Proof.
  intros H. split; [|by apply pure_is_Cond_or_Switch in H].
  unfold is_Cond_or_Switch, skip_Proj in H.
  apply bind_Ok_inv in H as (skipped & s1 & H1 & H).
  apply bind_Ok_inv in H1 as (n & s2 & Hn & H1).
  pose proof (pure_get_irn _ _ _ _ Hn) as ->.
  assert (s1 = s) as ->.
  { destruct (bool_decide (irn_op n = iro_Proj)).
    - by apply pure_get_irn_n in H1.
    - by apply pure_ret in H1. }
  apply bind_Ok_inv in H as (sk & s2 & Hsk & H).
  pose proof (pure_get_irn _ _ _ _ Hsk) as ->.
  apply mret_Ok_inv in H as [<- _].
  unfold get_irn, deref in Hn, Hsk.
  destruct (irg s !! y) as [n'|] eqn:Hy; [|done].
  destruct (irg s !! skipped) as [sk'|] eqn:Hs; [|done].
  unfold mret, M_ret in Hn, Hsk. simplify_eq.
  unfold cond_like, shape_view. rewrite lookup_fmap, Hy. cbn.
  destruct (bool_decide (irn_op n = iro_Proj)).
  - unfold get_irn_n, deref in H1. destruct (irn_in n !! 0) as [q|]; [|done].
    unfold mret, M_ret in H1. simplify_eq. cbn. by rewrite lookup_fmap, Hs.
  - apply mret_Ok_inv in H1 as [<- _]. cbn. by rewrite lookup_fmap, Hs.
Qed.

Lemma keeps_sv_upd_part p f :
  (forall P, cprop (f P) = cprop P) ->
  (forall P, cprop_X (f P) = cprop_X P) ->
  keeps sorted_view (upd_part p f).
Proof.
  intros Hc Hcx s a s' H.
  unfold upd_part, mbind, M_bind, get_part, deref, modify, mret, M_ret in H.
  destruct (obst s !! p) as [P|] eqn:HP; cbn in H; [|done]. simplify_eq.
  unfold sorted_view, shape_view, cprop_view. cbn. f_equal.
  rewrite fmap_insert, Hc, Hcx. apply insert_id.
  by rewrite lookup_fmap, HP.
Qed.

Lemma keeps_sv_upd_irn i f :
  (forall n, irn_op (f n) = irn_op n) ->
  (forall n, irn_in (f n) = irn_in n) ->
  keeps sorted_view (upd_irn i f).
Proof.
  intros Ho Hi s a s' H.
  unfold upd_irn, mbind, M_bind, get_irn, deref, modify, mret, M_ret in H.
  destruct (irg s !! i) as [n|] eqn:Hn; cbn in H; [|done]. simplify_eq.
  unfold sorted_view, shape_view, cprop_view. cbn. f_equal.
  rewrite fmap_insert, Ho, Hi. apply insert_id.
  by rewrite lookup_fmap, Hn.
Qed.

#[local] Hint Extern 1 (keeps sorted_view (upd_part _ _)) =>
  apply keeps_sv_upd_part; reflexivity : keeps.
#[local] Hint Extern 1 (keeps sorted_view (upd_irn _ _)) =>
  apply keeps_sv_upd_irn; reflexivity : keeps.

Lemma keeps_sv_set_type node t : keeps sorted_view (set_type node t).
Proof. unfold set_type. keeps_auto. Qed.
#[local] Hint Resolve keeps_sv_set_type : keeps.

Lemma keeps_sv_default_compute_loop node preds :
  keeps sorted_view (default_compute_loop node preds).
Proof. induction preds as [|p preds IH]; cbn; keeps_auto. Qed.
#[local] Hint Resolve keeps_sv_default_compute_loop : keeps.

Lemma keeps_sv_compute_Block_loop node preds :
  keeps sorted_view (compute_Block_loop node preds).
Proof. induction preds as [|p preds IH]; cbn; keeps_auto. Qed.
#[local] Hint Resolve keeps_sv_compute_Block_loop : keeps.

Lemma keeps_sv_compute_Phi_loop node phi block idx ty :
  keeps sorted_view (compute_Phi_loop node phi block idx ty).
Proof. revert ty. induction idx as [|i idx IH]; intros ty; cbn; keeps_auto. Qed.
#[local] Hint Resolve keeps_sv_compute_Phi_loop : keeps.

Lemma keeps_sv_compute_Proj_Switch_loop node pnc sel value table :
  keeps sorted_view (compute_Proj_Switch_loop node pnc sel value table).
Proof. induction table as [|e table IH]; cbn; keeps_auto. Qed.
#[local] Hint Resolve keeps_sv_compute_Proj_Switch_loop : keeps.

Lemma keeps_sv_default_compute cv node : keeps sorted_view (default_compute cv node).
Proof. unfold default_compute. keeps_auto. Qed.
#[local] Hint Resolve keeps_sv_default_compute : keeps.

Lemma keeps_sv_compute cv tadd tsub teor node :
  keeps sorted_view (compute cv tadd tsub teor node).
Proof.
  unfold compute, compute_with, set_compute_functions.
  unfold compute_Block, compute_Unknown, compute_Bad, compute_Jmp, compute_Phi,
    compute_Add, compute_Sub, compute_Eor, compute_SymConst, compute_Cmp,
    compute_Proj, compute_Proj_Cond, compute_Proj_Switch, compute_Confirm,
    compute_Return, compute_End, compute_Call,
    get_binop_left, get_binop_right, get_Cond_selector, get_Switch_selector,
    get_Proj_pred.
  keeps_auto.
Qed.
#[local] Hint Resolve keeps_sv_compute : keeps.

Lemma keeps_sv_list_del_node_list n : keeps sorted_view (list_del_node_list n).
Proof. unfold list_del_node_list. keeps_auto. Qed.
#[local] Hint Resolve keeps_sv_list_del_node_list : keeps.

Lemma keeps_sv_move_edge_search irn i pred js :
  keeps sorted_view (move_edge_search irn i pred js).
Proof. induction js as [|j js IH]; cbn; keeps_auto. Qed.
#[local] Hint Resolve keeps_sv_move_edge_search : keeps.

Lemma keeps_sv_follower_to_leader n : keeps sorted_view (follower_to_leader n).
Proof.
  unfold follower_to_leader, move_edges_to_leader, add_tail_Leader. keeps_auto.
Qed.
#[local] Hint Resolve keeps_sv_follower_to_leader : keeps.

Lemma keeps_sv_add_to_worklist X : keeps sorted_view (add_to_worklist X).
Proof. unfold add_to_worklist. keeps_auto. Qed.
#[local] Hint Resolve keeps_sv_add_to_worklist : keeps.

Lemma keeps_sv_place_on_cprop X : keeps sorted_view (place_on_cprop X).
Proof. unfold place_on_cprop. keeps_auto. Qed.
#[local] Hint Resolve keeps_sv_place_on_cprop : keeps.

Lemma pure_find_opcode cmp map key : pure (find_opcode cmp map key).
Proof. induction map as [|e map IH]; cbn; pure_auto. Qed.
#[local] Hint Resolve pure_find_opcode : pure.

Lemma keeps_sv_lambda_opcode cmp node : keeps sorted_view (lambda_opcode cmp node).
Proof. unfold lambda_opcode. keeps_auto. Qed.
#[local] Hint Resolve keeps_sv_lambda_opcode : keeps.

Lemma keeps_sv_add_to_fallen x l : keeps sorted_view (add_to_fallen x l).
Proof. unfold add_to_fallen. keeps_auto. Qed.
#[local] Hint Resolve keeps_sv_add_to_fallen : keeps.

Lemma pure_verify_type old node : pure (verify_type old node).
Proof. unfold verify_type. pure_auto. Qed.
#[local] Hint Resolve pure_verify_type : pure.

Lemma inv_sorted_keeps {A} (m : M A) : keeps sorted_view m -> inv cprop_sorted m.
Proof.
  intros Hm s a s' HI H. apply Hm in H. unfold cprop_sorted.
  unfold sorted_view in H. injection H as -> ->. done.
Qed.

(** Appending a node to the list its kind belongs on keeps the lists
    sorted. *)
Lemma cprop_sorted_enqueue s Y P y cx :
  cprop_sorted s ->
  obst s !! Y = Some P ->
  cond_like (shape_view s) y = Some cx ->
  cprop_sorted
    (set_obst (<[Y := if cx then with_cprop_lists (cprop P) (cprop_X P ++ [y]) P
                      else with_cprop_lists (cprop P ++ [y]) (cprop_X P) P]>) s).
Proof.
  intros Hs HY Hy p c c' Hp.
  unfold cprop_view in Hp. cbn in Hp. rewrite lookup_fmap in Hp.
  change (shape_view (set_obst _ s)) with (shape_view s).
  destruct (decide (Y = p)) as [->|Hne].
  - rewrite lookup_insert_eq in Hp. cbn in Hp.
    destruct (Hs p (cprop P) (cprop_X P)) as [Hc Hx].
    { unfold cprop_view. by rewrite lookup_fmap, HY. }
    destruct cx; cbn in Hp; simplify_eq; (split; [|]); intros z Hz;
      try (apply elem_of_app in Hz as [Hz | Hz%list_elem_of_singleton]); subst; auto.
  - rewrite lookup_insert_ne in Hp by done. apply (Hs p).
    unfold cprop_view. by rewrite lookup_fmap.
Qed.

(** [add_to_cprop] keeps the lists sorted: it puts a Cond, a Switch or a
    Proj of one on cprop_X and anything else on cprop. *)
Lemma inv_sorted_add_to_cprop fuel y : inv cprop_sorted (add_to_cprop fuel y).
Proof.
  revert y. induction fuel as [|fuel IH]; intros y; cbn [add_to_cprop].
  { apply pure_inv, pure_out_of_fuel. }
  apply inv_bind; [apply pure_inv, pure_get_irn_node|]. intros nd.
  apply inv_bind.
  - destruct (negb (on_cprop nd)); [|apply pure_inv, pure_ret].
    intros s a s' Hs H.
    apply bind_Ok_inv in H as (cx & s1 & Hcx & H).
    apply is_Cond_or_Switch_Ok in Hcx as [Hcx ->].
    apply bind_Ok_inv in H as ([] & s1 & Hupd & H).
    assert (cprop_sorted s1) as Hs1.
    { destruct cx;
        unfold upd_part, mbind, M_bind, get_part, deref, modify, mret, M_ret in Hupd;
        destruct (obst s !! part nd) as [P|] eqn:HP; cbn in Hupd; [|done| |done];
        simplify_eq.
      - by apply (cprop_sorted_enqueue s (part nd) P y true).
      - by apply (cprop_sorted_enqueue s (part nd) P y false). }
    revert H. apply inv_sorted_keeps; [|done]. keeps_auto.
  - intros []. apply inv_bind; [apply pure_inv, pure_get_irn|]. intros irn.
    destruct (bool_decide (irn_mode irn = mode_T)).
    + apply inv_for_each. intros e. apply IH.
    + destruct (is_op iro_Block irn); [|apply pure_inv, pure_ret].
      apply inv_for_each. intros phi. apply IH.
Qed.

(** Decomposes a program into parts that do not touch the cprop lists and
    calls of [add_to_cprop]. *)
Ltac sorted_auto :=
  repeat first
    [ apply inv_sorted_add_to_cprop
    | apply inv_sorted_keeps; solve [keeps_auto]
    | apply inv_bind; [|intros ?]
    | apply inv_for_each; intros ?
    | match goal with
      | |- inv _ (if ?b then _ else _) => destruct b
      | |- inv _ (match ?x with _ => _ end) => destruct x
      end ].

(** Taking the head off either list keeps the lists sorted. *)
Lemma inv_sorted_take X :
  inv cprop_sorted
    (upd_part X (fun P =>
       if bool_decide (cprop P = [])
       then with_cprop_lists (cprop P) (tail (cprop_X P)) P
       else with_cprop_lists (tail (cprop P)) (cprop_X P) P)).
Proof.
  apply inv_upd_part. intros s P Hs HP p c cx Hp.
  unfold cprop_view in Hp. cbn in Hp. rewrite lookup_fmap in Hp.
  change (shape_view (set_obst _ s)) with (shape_view s).
  destruct (decide (X = p)) as [->|Hne].
  - rewrite lookup_insert_eq in Hp. cbn in Hp.
    destruct (Hs p (cprop P) (cprop_X P)) as [Hc Hx].
    { unfold cprop_view. by rewrite lookup_fmap, HP. }
    destruct (bool_decide (cprop P = [])); cbn in Hp; simplify_eq; split;
      intros z Hz; auto.
    + apply Hx. destruct (cprop_X P); [done | by right].
    + apply Hc. destruct (cprop P); [done | by right].
  - rewrite lookup_insert_ne in Hp by done. apply (Hs p).
    unfold cprop_view. by rewrite lookup_fmap.
Qed.

(** One iteration of the inner loop of [propagate] keeps the lists sorted. *)
Lemma inv_sorted_propagate_step cv tadd tsub teor cmp fuel X l :
  inv cprop_sorted (propagate_step cv tadd tsub teor cmp fuel X l).
Proof.
  unfold propagate_step.
  apply inv_bind; [apply pure_inv, pure_get_part|]. intros P.
  destruct (propagate_pick P) as [x|]; [|apply pure_inv, pure_ret].
  apply inv_bind; [apply inv_sorted_take|]. intros [].
  unfold propagate_visit. sorted_auto.
Qed.

Lemma sorted_lists_b_correct sh cv : sorted_lists_b sh cv = true -> sorted_lists sh cv.
Proof.
  unfold sorted_lists_b. intros H p c cx Hp.
  rewrite forallb_forall in H.
  apply elem_of_map_to_list, list_elem_of_In, H in Hp. cbn in Hp.
  apply andb_true_iff in Hp as [Hc Hx].
  rewrite forallb_forall in Hc, Hx.
  split; intros y Hy%list_elem_of_In.
  - by apply Hc, bool_decide_eq_true in Hy.
  - by apply Hx, bool_decide_eq_true in Hy.
Qed.

Lemma drain_reaches_sorted step ls ls' :
  (forall l, inv cprop_sorted (step l)) ->
  drain_reaches step ls ls' -> cprop_sorted ls.2 -> cprop_sorted ls'.2.
Proof.
  intros Hstep Hd Hs. induction Hd as [|l' s' l'' s'' _ IH Hnext]; [done|].
  cbn in *. by apply (Hstep l' s' (Some l'') s'').
Qed.

Lemma inv_enqueued_upd_part Y y b p f :
  (forall P z, z ∈ cprop P -> z ∈ cprop (f P)) ->
  (forall P z, z ∈ cprop_X P -> z ∈ cprop_X (f P)) ->
  inv (enqueued Y y b) (upd_part p f).
Proof.
  intros Hc Hx. apply inv_upd_part. intros s P (Q & HQ & Hin) HP.
  unfold enqueued. cbn.
  destruct (decide (p = Y)) as [->|Hne].
  - rewrite lookup_insert_eq. exists (f P). split; [done|].
    rewrite HQ in HP. injection HP as <-. destruct b; auto.
  - rewrite lookup_insert_ne by done. by exists Q.
Qed.

Lemma inv_enqueued_upd_node Y y b n f : inv (enqueued Y y b) (upd_node n f).
Proof. apply inv_upd_node. by intros s nd H _. Qed.

Lemma inv_enqueued_place_on_cprop Y y b X : inv (enqueued Y y b) (place_on_cprop X).
Proof.
  unfold place_on_cprop.
  apply inv_bind; [apply pure_inv, pure_get_part|]. intros P.
  destruct (negb (p_on_cprop P)); [|apply pure_inv, pure_ret].
  apply inv_bind; [by apply inv_modify|]. intros [].
  by apply inv_enqueued_upd_part.
Qed.

(** What is on a cprop list stays there while nodes are added. *)
Lemma inv_enqueued_add_to_cprop Y y b fuel z :
  inv (enqueued Y y b) (add_to_cprop fuel z).
Proof.
  revert z. induction fuel as [|fuel IH]; intros z; cbn [add_to_cprop].
  { apply pure_inv, pure_out_of_fuel. }
  apply inv_bind; [apply pure_inv, pure_get_irn_node|]. intros nd.
  apply inv_bind.
  - destruct (negb (on_cprop nd)); [|apply pure_inv, pure_ret].
    apply inv_bind; [apply pure_inv, pure_is_Cond_or_Switch|]. intros cx.
    apply inv_bind.
    + destruct cx; apply inv_enqueued_upd_part; cbn; intros P w Hw;
        try done; apply elem_of_app; by left.
    + intros []. apply inv_bind; [apply inv_enqueued_upd_node|]. intros [].
      apply inv_enqueued_place_on_cprop.
  - intros []. apply inv_bind; [apply pure_inv, pure_get_irn|]. intros irn.
    destruct (bool_decide (irn_mode irn = mode_T)).
    + apply inv_for_each. intros e. apply IH.
    + destruct (is_op iro_Block irn); [|apply pure_inv, pure_ret].
      apply inv_for_each. intros phi. apply IH.
Qed.

(** A node that is not queued yet is put on the list of its partition that
    its kind belongs on. *)
Lemma add_to_cprop_enqueues fuel y s s' nd b :
  link s !! y = Some nd ->
  on_cprop nd = false ->
  cond_like (shape_view s) y = Some b ->
  add_to_cprop fuel y s = Ok (tt, s') ->
  enqueued (part nd) y b s'.
Proof.
  intros Hnd Hon Hb H. destruct fuel as [|fuel]; [done|]. cbn [add_to_cprop] in H.
  rewrite (bind_Ok _ _ _ _ _ (get_irn_node_Ok _ _ _ Hnd)) in H. rewrite Hon in H.
  cbn [negb] in H.
  apply bind_Ok_inv in H as ([] & s1 & H1 & H).
  assert (enqueued (part nd) y b s1) as Henq.
  { apply bind_Ok_inv in H1 as (cx & s2 & Hcx & H1).
    apply is_Cond_or_Switch_Ok in Hcx as [Hcx ->].
    rewrite Hb in Hcx. injection Hcx as <-.
    apply bind_Ok_inv in H1 as ([] & s2 & Hupd & H1).
    assert (enqueued (part nd) y b s2) as Henq.
    { destruct b;
        unfold upd_part, mbind, M_bind, get_part, deref, modify, mret, M_ret in Hupd;
        destruct (obst s !! part nd) as [P|] eqn:HP; cbn in Hupd; [|done| |done];
        simplify_eq; unfold enqueued; cbn; rewrite lookup_insert_eq;
        eexists; (split; [done|]); cbn; apply elem_of_app; right; by left. }
    revert H1.
    apply (inv_bind (enqueued (part nd) y b));
      [apply inv_enqueued_upd_node | intros []; apply inv_enqueued_place_on_cprop | done]. }
  revert H.
  apply (inv_bind (enqueued (part nd) y b)); [apply pure_inv, pure_get_irn| |done].
  intros irn. destruct (bool_decide (irn_mode irn = mode_T)).
  - apply inv_for_each. intros e. apply inv_enqueued_add_to_cprop.
  - destruct (is_op iro_Block irn); [|apply pure_inv, pure_ret].
    apply inv_for_each. intros phi. apply inv_enqueued_add_to_cprop.
Qed.

(** C8: the cprop lists stay sorted by kind, cprop_X holding exactly the
    Conds, the Switches and their Projs: [add_to_cprop] puts a node that is
    not queued yet on the list of its kind, and at every state the inner
    loop of [propagate] passes through its next iteration is pinned: as
    long as the ordinary list is not empty, the iteration unlinks the head
    of that list, which is no Cond, Switch or Proj of one, leaves cprop_X
    as it is, and recomputes that node; it unlinks and recomputes the head
    of cprop_X, a Cond, a Switch or a Proj of one, only when the ordinary
    list is empty; and it leaves the loop when both are empty. *)
Theorem cprop_X_taken_last cv tadd tsub teor cmp fuel X l s l' s' :
  cprop_sorted s ->
  drain_reaches (propagate_step cv tadd tsub teor cmp fuel X) (l, s) (l', s') ->
  (forall P, obst s' !! X = Some P ->
     (forall x c, cprop P = x :: c ->
        cond_like (shape_view s') x = Some false
        /\ propagate_step cv tadd tsub teor cmp fuel X l' s'
           = (upd_node x (with_on_cprop false) ;;
              propagate_visit cv tadd tsub teor cmp fuel X x l')
               (set_obst (<[X := with_cprop_lists c (cprop_X P) P]>) s'))
     /\ (forall x cx, cprop P = [] -> cprop_X P = x :: cx ->
        cond_like (shape_view s') x = Some true
        /\ propagate_step cv tadd tsub teor cmp fuel X l' s'
           = (upd_node x (with_on_cprop false) ;;
              propagate_visit cv tadd tsub teor cmp fuel X x l')
               (set_obst (<[X := with_cprop_lists [] cx P]>) s'))
     /\ (cprop P = [] -> cprop_X P = [] ->
        propagate_step cv tadd tsub teor cmp fuel X l' s' = Ok (None, s')))
  /\ (forall k y nd b s'',
        link s' !! y = Some nd -> on_cprop nd = false ->
        cond_like (shape_view s') y = Some b ->
        add_to_cprop k y s' = Ok (tt, s'') ->
        enqueued (part nd) y b s'' /\ cprop_sorted s'').
Proof.
  intros Hs Hd.
  assert (cprop_sorted s') as Hs'.
  { apply (drain_reaches_sorted _ _ _ (inv_sorted_propagate_step _ _ _ _ _ _ _) Hd Hs). }
  split.
  - intros P HP.
    destruct (Hs' X (cprop P) (cprop_X P)) as [Hc Hx].
    { unfold cprop_view. by rewrite lookup_fmap, HP. }
    unfold propagate_step. rewrite (bind_Ok _ _ _ _ _ (get_part_Ok _ _ _ HP)).
    unfold propagate_pick. split; [|split].
    + intros x c Hcp. split; [apply Hc; rewrite Hcp; left|].
      rewrite Hcp. rewrite bool_decide_eq_false_2 by done. cbn [andb head].
      rewrite (bind_Ok _ _ _ _ _ (upd_part_Ok _ _ _ _ HP)).
      rewrite Hcp. by rewrite bool_decide_eq_false_2 by done.
    + intros x cx Hcp Hcx. split; [apply Hx; rewrite Hcx; left|].
      rewrite Hcp, Hcx. rewrite bool_decide_eq_true_2 by done.
      rewrite bool_decide_eq_false_2 by done. cbn [andb head].
      rewrite (bind_Ok _ _ _ _ _ (upd_part_Ok _ _ _ _ HP)).
      rewrite Hcp, Hcx. by rewrite bool_decide_eq_true_2 by done.
    + intros Hcp Hcx. rewrite Hcp, Hcx. by rewrite !bool_decide_eq_true_2 by done.
  - intros k y nd b s'' Hnd Hon Hb Hadd. split.
    + by apply (add_to_cprop_enqueues k y s' s'' nd b).
    + by apply (inv_sorted_add_to_cprop k y s' tt s'').
Qed.

Lemma cprop_X_taken_last_witness :
  let step := propagate_step Ex.computed_value Ex.tarval_add Ex.tarval_sub Ex.tarval_eor
                Ex.no_cmp_attr 5 0 in
  let visit := propagate_visit Ex.computed_value Ex.tarval_add Ex.tarval_sub
                 Ex.tarval_eor Ex.no_cmp_attr 5 0 in
  let l' := mk_locals None [] 0 in
  let s' := final_state (Ex.drain_step (mk_locals None [] 0)) Ex.cprop_state in
  (forall P, obst s' !! 0 = Some P ->
     (forall x c, cprop P = x :: c ->
        cond_like (shape_view s') x = Some false
        /\ step l' s'
           = (upd_node x (with_on_cprop false) ;; visit x l')
               (set_obst (<[0 := with_cprop_lists c (cprop_X P) P]>) s'))
     /\ (forall x cx, cprop P = [] -> cprop_X P = x :: cx ->
        cond_like (shape_view s') x = Some true
        /\ step l' s'
           = (upd_node x (with_on_cprop false) ;; visit x l')
               (set_obst (<[0 := with_cprop_lists [] cx P]>) s'))
     /\ (cprop P = [] -> cprop_X P = [] -> step l' s' = Ok (None, s')))
  /\ (forall k y nd b s'',
        link s' !! y = Some nd -> on_cprop nd = false ->
        cond_like (shape_view s') y = Some b ->
        add_to_cprop k y s' = Ok (tt, s'') ->
        enqueued (part nd) y b s'' /\ cprop_sorted s'').
Proof.
  apply (cprop_X_taken_last Ex.computed_value Ex.tarval_add Ex.tarval_sub Ex.tarval_eor
           Ex.no_cmp_attr 5 0 (mk_locals None [] 0) Ex.cprop_state
           (mk_locals None [] 0)).
  - apply sorted_lists_b_correct. vm_compute. reflexivity.
  - eapply drain_next; [apply drain_here|]. vm_compute. reflexivity.
Defined.

(** In the example the Cond was queued before its selector, yet the selector
    is recomputed first and the Cond is taken only from the emptied list. *)
Lemma selector_before_Cond :
  let s := Ex.cprop_state in
  let s' := final_state (Ex.drain_step (mk_locals None [] 0)) s in
  (cprop <$> obst s !! 0) = Some [1]
  /\ (cprop_X <$> obst s !! 0) = Some [2; 4; 3]
  /\ (propagate_pick <$> obst s !! 0) = Some (Some 1)
  /\ (cprop <$> obst s' !! 0) = Some []
  /\ (propagate_pick <$> obst s' !! 0) = Some (Some 2).
Proof.
  cbv zeta. repeat match goal with |- _ /\ _ => split end; vm_compute; reflexivity.
Qed.

(** ** Transfer functions: reachability of blocks, strictness in Top *)

Lemma some_typed_reverse s tv l : some_typed s tv (reverse l) = some_typed s tv l.
Proof.
  unfold some_typed. induction l as [|p l IH]; [done|].
  rewrite reverse_cons, existsb_app. cbn. rewrite IH, orb_false_r. apply orb_comm.
Qed.

Lemma compute_Block_loop_Ok s node nd preds :
  link s !! node = Some nd ->
  Forall (fun p => is_Some (link s !! p)) preds ->
  compute_Block_loop node preds s
  = Ok (tt, retype node (if some_typed s tarval_reachable preds
                         then ty_Reachable else ty_Top) s).
Proof.
  intros Hn. induction 1 as [|p preds [pn Hp] _ IH]; cbn [compute_Block_loop some_typed existsb].
  - by eapply set_type_Ok.
  - mstep. rewrite Hp. destruct (tv_is (type pn) tarval_reachable); cbn.
    + by eapply set_type_Ok.
    + apply IH.
Qed.

(** A block is Reachable when it is the start block, when it is labelled
    (has an entity), or when at least one of its control-flow predecessors
    is Reachable; every other block is Unreachable (Top), among them the
    block without predecessors. *)
Theorem compute_Block_reachable s node block nd :
  irg s !! node = Some block ->
  link s !! node = Some nd ->
  Forall (fun p => is_Some (link s !! p)) (irn_in block) ->
  compute_Block node s
  = Ok (tt, retype node
              (if bool_decide (node = start_block s)
                  || bool_decide (attr_entity (irn_attr block) <> None)
                  || some_typed s tarval_reachable (irn_in block)
               then ty_Reachable else ty_Unreachable) s).
Proof.
  intros Hb Hn Hall. unfold compute_Block. do 2 mstep.
  destruct (bool_decide (node = start_block s)
            || bool_decide (attr_entity (irn_attr block) <> None)); cbn.
  - by eapply set_type_Ok.
  - rewrite <- (some_typed_reverse s _ (irn_in block)).
    eapply compute_Block_loop_Ok; [done|]. by apply Forall_reverse.
Qed.

Lemma compute_Block_reachable_witness :
  compute_Block 1 Ex.join_state = Ok (tt, retype 1 ty_Reachable Ex.join_state).
Proof.
  refine (compute_Block_reachable Ex.join_state 1 _ _ eq_refl eq_refl _).
  repeat constructor; by eexists.
Defined.

Lemma default_compute_loop_Ok s node nd preds :
  link s !! node = Some nd ->
  Forall (fun p => is_Some (link s !! p)) preds ->
  default_compute_loop node preds s
  = if some_typed s tarval_top preds
    then Ok (true, retype node ty_Top s) else Ok (false, s).
Proof.
  intros Hn. induction 1 as [|p preds [pn Hp] _ IH]; cbn [default_compute_loop some_typed existsb].
  - done.
  - mstep. rewrite Hp. destruct (tv_is (type pn) tarval_top); cbn.
    + erewrite bind_Ok by (by eapply set_type_Ok). done.
    + apply IH.
Qed.

(** The default transfer function is strict in Top: a node with a Top
    operand is Top, whatever its mode.  Without a Top operand a control-flow
    node is Reachable and any other node gets what the folding oracle
    computes for it. *)
Theorem default_compute_strict computed_value s node irn nd :
  irg s !! node = Some irn ->
  link s !! node = Some nd ->
  Forall (fun p => is_Some (link s !! p)) (irn_in irn) ->
  default_compute computed_value node s
  = Ok (tt, retype node
              (if some_typed s tarval_top (irn_in irn) then ty_Top
               else if bool_decide (irn_mode irn = mode_X) then ty_Reachable
               else L_tv (computed_value s node)) s).
Proof.
  intros Hi Hn Hall. unfold default_compute. mstep.
  pose proof (default_compute_loop_Ok s node nd (reverse (irn_in irn)) Hn
                (proj2 (Forall_reverse _ _) Hall)) as Hloop.
  rewrite some_typed_reverse in Hloop.
  destruct (some_typed s tarval_top (irn_in irn)).
  { by rewrite (bind_Ok _ _ _ _ _ Hloop). }
  rewrite (bind_Ok _ _ _ _ _ Hloop). case_bool_decide.
  - by eapply set_type_Ok.
  - mstep. by eapply set_type_Ok.
Qed.

Lemma default_compute_strict_witness :
  default_compute Ex.computed_value 5 Ex.load_state
  = Ok (tt, retype 5 ty_Top Ex.load_state).
Proof.
  refine (default_compute_strict Ex.computed_value Ex.load_state 5 _ _ eq_refl eq_refl _).
  repeat constructor; by eexists.
Defined.

(** ** Transfer functions: the Projs of a Switch *)

Lemma compute_Proj_Switch_loop_Ok s node nd pnc tv table :
  link s !! node = Some nd ->
  compute_Proj_Switch_loop node pnc (L_tv tv) (get_tarval_long tv) table s
  = Ok (tt, retype node (if (pnc =? switch_target tv table)%Z
                         then ty_Reachable else ty_Unreachable) s).
Proof.
  intros Hn. unfold switch_target.
  induction table as [|e table IH]; cbn [compute_Proj_Switch_loop List.find].
  - by eapply set_type_Ok.
  - unfold entry_matches, tv_is. rewrite (Z.eqb_sym (sw_pn e) pnc).
    case_bool_decide as Hmm.
    + destruct (decide (tv = sw_min e)) as [->|Hne].
      * rewrite !bool_decide_eq_true_2 by done. by eapply set_type_Ok.
      * rewrite !bool_decide_eq_false_2 by congruence. apply IH.
    + destruct ((get_tarval_long (sw_min e) <=? get_tarval_long tv)%Z
                && (get_tarval_long tv <=? get_tarval_long (sw_max e))%Z).
      * by eapply set_type_Ok.
      * apply IH.
Qed.

(** A control-flow Proj of a Switch that is Reachable stays so.  Otherwise:
    with a Bottom selector it is Reachable; with a Top selector only the
    default Proj is Reachable, and only when Unknowns are Top; with a
    constant selector it is Reachable exactly when its number is the one of
    the first table entry the selector matches, or the default number when
    no entry matches. *)
Theorem compute_Proj_Switch_types s node switchn proj sw sel selector nd :
  irg s !! node = Some proj ->
  irg s !! switchn = Some sw ->
  irn_in sw !! 0 = Some sel ->
  link s !! sel = Some selector ->
  link s !! node = Some nd ->
  (type nd = ty_Reachable -> compute_Proj_Switch node switchn s = Ok (tt, s))
  /\ (type nd <> ty_Reachable ->
      (type selector = ty_Bottom ->
       compute_Proj_Switch node switchn s = Ok (tt, retype node ty_Reachable s))
      /\ (type selector = ty_Top ->
          compute_Proj_Switch node switchn s
          = Ok (tt, retype node
                      (if bool_decide (tarval_UNKNOWN s = tarval_top)
                          && (get_Proj_proj proj =? pn_Switch_default)%Z
                       then ty_Reachable else ty_Unreachable) s))
      /\ (forall tv, type selector = L_tv tv ->
                     tv <> tarval_top -> tv <> tarval_bottom ->
          compute_Proj_Switch node switchn s
          = Ok (tt, retype node
                      (if (get_Proj_proj proj =? switch_target tv (attr_table (irn_attr sw)))%Z
                       then ty_Reachable else ty_Unreachable) s))).
Proof.
  intros Hp Hs Hsel Hselector Hn. set (pnc := get_Proj_proj proj).
  assert (compute_Proj_Switch node switchn s
          = (if tv_is (type nd) tarval_reachable then mret tt
             else if tv_is (type selector) tarval_bottom then set_type node ty_Reachable
             else if tv_is (type selector) tarval_top then
               if bool_decide (tarval_UNKNOWN s = tarval_top) && (pnc =? pn_Switch_default)%Z
               then set_type node ty_Reachable
               else set_type node ty_Unreachable
             else match type selector with
                  | L_tv tv =>
                      compute_Proj_Switch_loop node pnc (type selector) (get_tarval_long tv)
                        (attr_table (irn_attr sw))
                  | L_sym _ => abort
                  end) s) as ->.
  { unfold compute_Proj_Switch, get_Switch_selector. by repeat mstep. }
  split.
  - intros ->. done.
  - intros Hnr. apply tv_is_false in Hnr. rewrite Hnr.
    split; [|split].
    + intros ->. cbn. by eapply set_type_Ok.
    + intros ->. cbn.
      destruct (bool_decide (tarval_UNKNOWN s = tarval_top) && (pnc =? pn_Switch_default)%Z);
        by eapply set_type_Ok.
    + intros tv -> Ht Hb.
      rewrite (proj2 (tv_is_false _ _)) by (unfold tarval_bottom in *; congruence).
      rewrite (proj2 (tv_is_false _ _)) by (unfold tarval_top in *; congruence).
      by eapply compute_Proj_Switch_loop_Ok.
Qed.

Lemma compute_Proj_Switch_types_witness :
  let s := Ex.switch_state (L_tv (tarval_value Ex.Is 1)) in
  compute_Proj_Switch 4 2 s = Ok (tt, retype 4 ty_Reachable s)
  /\ compute_Proj_Switch 6 2 s = Ok (tt, retype 6 ty_Unreachable s)
  /\ compute_Proj_Switch 3 2 (Ex.switch_state (L_tv (tarval_value Ex.Is 7)))
     = Ok (tt, retype 3 ty_Reachable (Ex.switch_state (L_tv (tarval_value Ex.Is 7)))).
Proof.
  cbv zeta. repeat match goal with |- _ /\ _ => split end.
  - refine (proj2 (proj2 (proj2 (compute_Proj_Switch_types
      (Ex.switch_state (L_tv (tarval_value Ex.Is 1))) 4 2 _ _ 1 _ _
      eq_refl eq_refl eq_refl eq_refl eq_refl) _)) _ eq_refl _ _); discriminate.
  - refine (proj2 (proj2 (proj2 (compute_Proj_Switch_types
      (Ex.switch_state (L_tv (tarval_value Ex.Is 1))) 6 2 _ _ 1 _ _
      eq_refl eq_refl eq_refl eq_refl eq_refl) _)) _ eq_refl _ _); discriminate.
  - refine (proj2 (proj2 (proj2 (compute_Proj_Switch_types
      (Ex.switch_state (L_tv (tarval_value Ex.Is 7))) 3 2 _ _ 1 _ _
      eq_refl eq_refl eq_refl eq_refl eq_refl) _)) _ eq_refl _ _); discriminate.
Defined.

(** ** Transfer functions: what they leave alone *)

Lemma retype_id s node : exists t, s = retype node t s.
Proof.
  unfold retype. destruct (link s !! node) as [nd|] eqn:Hn; [|by exists ty_Top].
  exists (type nd). destruct s as [g l o e u sb fp np ni], nd; cbn in *.
  unfold set_link, with_type. cbn. by rewrite insert_id.
Qed.

Lemma retype_retype s node t1 t2 :
  retype node t2 (retype node t1 s) = retype node t2 s.
Proof.
  unfold retype. destruct (link s !! node) as [nd|] eqn:Hn; cbn; [|by rewrite Hn].
  rewrite lookup_insert_eq. unfold set_link. cbn. by rewrite insert_insert_eq.
Qed.

Lemma retypes_pure {A} node (m : M A) : pure m -> retypes node m.
Proof. intros Hm s a s' H. apply Hm in H as ->. apply retype_id. Qed.

Lemma retypes_bind {A B} node (m : M A) (f : A -> M B) :
  retypes node m -> (forall a, retypes node (f a)) -> retypes node (m ≫= f).
Proof.
  intros Hm Hf s b s' H. apply bind_Ok_inv in H as (a & s1 & H1 & H2).
  apply Hm in H1 as [t1 ->]. apply Hf in H2 as [t2 ->].
  exists t2. apply retype_retype.
Qed.

Lemma retypes_set_type node t : retypes node (set_type node t).
Proof.
  intros s a s' H. exists t. unfold set_type in H.
  apply bind_Ok_inv in H as (nd & s1 & H1 & H2).
  pose proof (pure_get_irn_node _ _ _ _ H1) as ->.
  unfold get_irn_node, deref in H1. unfold retype.
  destruct (link s !! node) as [x|]; [|done].
  unfold mret, M_ret in H1. unfold modify in H2. by simplify_eq.
Qed.

Create HintDb retypes discriminated.
#[local] Hint Resolve retypes_set_type : retypes.

(** Decomposes a transfer function into its reads and its one write. *)
Ltac retypes_auto :=
  repeat first
    [ solve [eauto with retypes]
    | progress cbv zeta
    | apply retypes_pure; solve [eauto with pure]
    | match goal with
      | |- retypes _ (if ?b then _ else _) => destruct b
      | |- retypes _ (match ?x with _ => _ end) => destruct x
      end
    | apply retypes_bind; [|intros ?] ].

Lemma retypes_default_compute_loop node preds :
  retypes node (default_compute_loop node preds).
Proof. induction preds as [|p preds IH]; cbn; retypes_auto. Qed.
#[local] Hint Resolve retypes_default_compute_loop : retypes.

Lemma retypes_default_compute cv node : retypes node (default_compute cv node).
Proof. unfold default_compute. retypes_auto. Qed.
#[local] Hint Resolve retypes_default_compute : retypes.

Lemma retypes_compute_Block_loop node preds :
  retypes node (compute_Block_loop node preds).
Proof. induction preds as [|p preds IH]; cbn; retypes_auto. Qed.
#[local] Hint Resolve retypes_compute_Block_loop : retypes.

Lemma retypes_compute_Phi_loop node phi block idx ty :
  retypes node (compute_Phi_loop node phi block idx ty).
Proof. revert ty. induction idx as [|i idx IH]; intros ty; cbn; retypes_auto. Qed.
#[local] Hint Resolve retypes_compute_Phi_loop : retypes.

Lemma retypes_compute_Proj_Switch_loop node pnc sel value table :
  retypes node (compute_Proj_Switch_loop node pnc sel value table).
Proof. induction table as [|e table IH]; cbn; retypes_auto. Qed.
#[local] Hint Resolve retypes_compute_Proj_Switch_loop : retypes.

Lemma retypes_compute_Proj cv node : retypes node (compute_Proj cv node).
Proof.
  unfold compute_Proj, compute_Proj_Cond, compute_Proj_Switch, get_Proj_pred,
    get_Cond_selector, get_Switch_selector.
  retypes_auto.
Qed.
#[local] Hint Resolve retypes_compute_Proj : retypes.

(** Recomputing the type of a node writes nothing but that type: the types
    of all other nodes, the graph, the partitions with their lists and
    flags, the work list and the cprop queue are as before, whatever the
    opcode of the node and whatever the folding oracle answers. *)
Theorem compute_writes_one_type computed_value tarval_add tarval_sub tarval_eor
    node s s' :
  compute computed_value tarval_add tarval_sub tarval_eor node s = Ok (tt, s') ->
  exists t, s' = retype node t s.
Proof.
  revert s s'.
  assert (retypes node (compute computed_value tarval_add tarval_sub tarval_eor node))
    as H; [|intros s s' Hrun; by apply H in Hrun].
  unfold compute, compute_with, set_compute_functions.
  apply retypes_bind; [retypes_auto|]. intros irn.
  apply retypes_bind; [retypes_auto|]. intros [|]; [retypes_auto|].
  unfold compute_Block, compute_Unknown, compute_Bad, compute_Jmp, compute_Phi,
    compute_Add, compute_Sub, compute_Eor, compute_SymConst, compute_Cmp,
    compute_Confirm, compute_Return, compute_End, compute_Call,
    get_binop_left, get_binop_right.
  destruct (irn_op irn); retypes_auto.
Qed.

Lemma compute_writes_one_type_witness :
  exists t, retype 5 (L_tv (tarval_value Ex.Is 5)) Ex.phi_state = retype 5 t Ex.phi_state.
Proof.
  apply (compute_writes_one_type Ex.computed_value Ex.tarval_add Ex.tarval_sub
           Ex.tarval_eor 5 Ex.phi_state).
  vm_compute. reflexivity.
Defined.

(** ** Identity: the node a follower is a copy of *)

Lemma get_irn_inv i s n s' : get_irn i s = Ok (n, s') -> s' = s /\ irg s !! i = Some n.
Proof.
  unfold get_irn, deref. destruct (irg s !! i); [|done].
  intros H. apply mret_Ok_inv in H as [-> ->]. done.
Qed.

Lemma get_irn_node_inv i s n s' :
  get_irn_node i s = Ok (n, s') -> s' = s /\ link s !! i = Some n.
Proof.
  unfold get_irn_node, deref. destruct (link s !! i); [|done].
  intros H. apply mret_Ok_inv in H as [-> ->]. done.
Qed.

Lemma get_part_inv i s n s' :
  get_part i s = Ok (n, s') -> s' = s /\ obst s !! i = Some n.
Proof.
  unfold get_part, deref. destruct (obst s !! i); [|done].
  intros H. apply mret_Ok_inv in H as [-> ->]. done.
Qed.

Lemma get_irn_n_inv n i s p s' :
  get_irn_n n i s = Ok (p, s') -> s' = s /\ irn_in n !! i = Some p.
Proof.
  unfold get_irn_n, deref. destruct (irn_in n !! i); [|done].
  intros H. apply mret_Ok_inv in H as [-> ->]. done.
Qed.

Lemma gets_inv {A} (f : state -> A) s a s' : gets f s = Ok (a, s') -> s' = s /\ a = f s.
Proof. unfold gets. by intros [= <- <-]. Qed.

Lemma assert_inv b s u s' : assert b s = Ok (u, s') -> s' = s /\ b = true.
Proof. destruct b; [|done]. intros H. by apply mret_Ok_inv in H as [_ ->]. Qed.

(** Identifies the results of two reads of the same slot. *)
Ltac same_lookups :=
  repeat match goal with
         | H1 : ?l = Some ?x, H2 : ?l = Some ?y |- _ =>
             rewrite H1 in H2; injection H2 as <-
         end.

(** Inverts the read at the head of a run that returned. *)
Lemma deref_inv {A} (o : option A) s a s' : deref o s = Ok (a, s') -> s' = s /\ o = Some a.
Proof. destruct o; cbn; [|done]. by intros [= -> ->]. Qed.

Ltac inv_read H :=
  let a := fresh "a" in
  let s1 := fresh "s" in
  let H1 := fresh "H" in
  apply bind_Ok_inv in H as (a & s1 & H1 & H);
  first
    [ apply get_irn_inv in H1 as [-> H1]
    | apply get_irn_node_inv in H1 as [-> H1]
    | apply get_part_inv in H1 as [-> H1]
    | apply get_irn_n_inv in H1 as [-> H1]
    | apply gets_inv in H1 as [-> H1]
    | apply assert_inv in H1 as [-> H1]
    | apply deref_inv in H1 as [-> H1] ].

Lemma identity_Phi_loop_inputs node phi block idx n_part s r s' :
  (forall q, n_part = Some q -> q ∈ irn_in phi) ->
  identity_Phi_loop node phi block idx n_part s = Ok (r, s') ->
  r = node \/ r ∈ irn_in phi.
Proof.
  revert n_part. induction idx as [|i idx IH]; intros n_part Hq H; cbn in H.
  - destruct n_part as [q|]; [|done]. apply mret_Ok_inv in H as [<- _]. right. auto.
  - do 2 inv_read H. destruct (tv_is (type a0) tarval_reachable); [|by eapply IH].
    do 2 inv_read H. destruct n_part as [q|].
    + inv_read H. destruct (negb (bool_decide (part a3 = part a2))).
      * apply mret_Ok_inv in H as [<- _]. by left.
      * by eapply IH.
    + eapply IH; [|done]. intros q [= <-]. by eapply list_elem_of_lookup_2.
Qed.

(** Inverts a run of one of the identity functions down to its result;
    [Hsame] identifies every read of the node with the one in hand. *)
Ltac identity_run H Hsame :=
  repeat first
    [ inv_read H;
      try match goal with
          | Hx : irg _ !! _ = Some _ |- _ => apply Hsame in Hx as ->
          end
    | match type of H with
      | (if ?b then _ else _) _ = _ => destruct b
      end ];
  first
    [ apply mret_Ok_inv in H as [<- _]; by left
    | apply mret_Ok_inv in H as [<- _]; right; by eapply list_elem_of_lookup_2
    | apply get_irn_n_inv in H as [_ H]; right; by eapply list_elem_of_lookup_2 ].

(** [identity] only reads, and what it yields is the node itself or one of
    the operands of the node. *)
Theorem identity_is_operand_or_self s node irn r s' :
  irg s !! node = Some irn ->
  identity node s = Ok (r, s') ->
  s' = s /\ (r = node \/ r ∈ irn_in irn).
Proof.
  intros Hn H. split; [by eapply pure_identity|].
  assert (forall x, irg s !! node = Some x -> x = irn) as Hsame
    by (intros x Hx; congruence).
  clear Hn. unfold identity in H. inv_read H. apply Hsame in H0 as ->.
  unfold identity_Phi, identity_Mul, identity_comm_zero_binop, identity_shift,
    identity_And, identity_Sub, identity_Confirm, identity_Mux, identity_neutral,
    get_binop_left, get_binop_right in H.
  destruct (irn_op irn); try (identity_run H Hsame).
  do 2 inv_read H. apply Hsame in H0 as ->.
  eapply identity_Phi_loop_inputs; [|done]. done.
Qed.

Lemma identity_is_operand_or_self_witness :
  Ex.phi_state = Ex.phi_state /\ (1 = 5 \/ 1 ∈ [1; 2]).
Proof.
  refine (identity_is_operand_or_self Ex.phi_state 5 _ 1 Ex.phi_state eq_refl _).
  vm_compute. reflexivity.
Defined.

Lemma identity_Phi_loop_congruent s node phi block idx n_part r s' :
  (forall q, n_part = Some q -> is_Some (link s !! q)) ->
  identity_Phi_loop node phi block idx n_part s = Ok (r, s') ->
  r <> node ->
  exists rn, link s !! r = Some rn
    /\ (forall q, n_part = Some q -> r = q)
    /\ forall i p px pn pxn,
         i ∈ idx -> irn_in phi !! i = Some p -> irn_in block !! i = Some px ->
         link s !! p = Some pn -> link s !! px = Some pxn ->
         type pxn = ty_Reachable -> part pn = part rn.
Proof.
  revert n_part. induction idx as [|i idx IH]; intros n_part Hq H Hr; cbn in H.
  - destruct n_part as [q|]; [|done]. apply mret_Ok_inv in H as [<- _].
    destruct (Hq q eq_refl) as [rn Hrn]. exists rn.
    split; [done|]. split; [by intros ? [= <-]|].
    intros i p px pn pxn Hi. by apply elem_of_nil in Hi.
  - do 2 inv_read H. destruct (tv_is (type a0) tarval_reachable) eqn:Hreach.
    + do 2 inv_read H. destruct n_part as [q|].
      * inv_read H. destruct (bool_decide_reflect (part a3 = part a2)) as [Hpart|Hpart];
          cbn in H; [|by apply mret_Ok_inv in H as [<- _]].
        destruct (IH _ Hq H Hr) as (rn & Hrn & Hsame & Hall).
        exists rn. split; [done|]. split; [done|].
        intros j p px pn pxn Hj Hp Hpx Hpn Hpxn Ht.
        apply elem_of_cons in Hj as [->|Hj]; [|by eapply Hall].
        pose proof (Hsame q eq_refl) as ->. congruence.
      * assert (forall q, Some a1 = Some q -> is_Some (link s !! q)) as Hq'
          by (intros q [= <-]; by eexists).
        destruct (IH _ Hq' H Hr) as (rn & Hrn & Hsame & Hall).
        exists rn. split; [done|]. split; [done|].
        intros j p px pn pxn Hj Hp Hpx Hpn Hpxn Ht.
        apply elem_of_cons in Hj as [->|Hj]; [|by eapply Hall].
        pose proof (Hsame a1 eq_refl) as ->. congruence.
    + destruct (IH _ Hq H Hr) as (rn & Hrn & Hsame & Hall).
      exists rn. split; [done|]. split; [done|].
      intros j p px pn pxn Hj Hp Hpx Hpn Hpxn Ht.
      apply elem_of_cons in Hj as [->|Hj]; [|by eapply Hall].
      apply tv_is_false in Hreach. assert (pxn = a0) as -> by congruence. done.
Qed.

(** When [identity] names another node for a Phi, every operand of the Phi
    that comes in over a Reachable control-flow edge is in the partition of
    that node: the Phi is a copy only if all its live operands are
    congruent. *)
Theorem identity_Phi_live_operands_congruent s node phi blk r s' :
  irg s !! node = Some phi ->
  irg s !! irn_block phi = Some blk ->
  identity_Phi node s = Ok (r, s') ->
  r <> node ->
  exists rn, link s !! r = Some rn
    /\ forall i p px pn pxn,
         irn_in phi !! i = Some p -> irn_in blk !! i = Some px ->
         link s !! p = Some pn -> link s !! px = Some pxn ->
         type pxn = ty_Reachable -> part pn = part rn.
Proof.
  intros Hphi Hblk H Hr. unfold identity_Phi in H. do 2 inv_read H.
  simplify_eq.
  assert (forall q, @None nat = Some q -> is_Some (link s !! q)) as Hq by done.
  destruct (identity_Phi_loop_congruent _ _ _ _ _ _ _ _ Hq H Hr)
    as (rn & Hrn & _ & Hall).
  exists rn. split; [done|].
  intros i p px pn pxn Hp. eapply Hall; [|done].
  unfold down_from. apply elem_of_reverse, elem_of_seq.
  apply lookup_lt_Some in Hp. unfold get_irn_arity. lia.
Qed.

Lemma identity_Phi_live_operands_congruent_witness :
  exists rn, link Ex.phi_state !! 1 = Some rn
    /\ forall i p px pn pxn,
         [1; 2] !! i = Some p -> [3; 4] !! i = Some px ->
         link Ex.phi_state !! p = Some pn -> link Ex.phi_state !! px = Some pxn ->
         type pxn = ty_Reachable -> part pn = part rn.
Proof.
  refine (identity_Phi_live_operands_congruent Ex.phi_state 5 _ _ 1 Ex.phi_state
            eq_refl eq_refl _ _).
  - vm_compute. reflexivity.
  - lia.
Defined.

(** ** The cprop queue: placing a node places what depends on its kind *)

Lemma inv_sound_upd_part p f :
  (forall P z, z ∈ cprop P -> z ∈ cprop (f P)) ->
  (forall P z, z ∈ cprop_X P -> z ∈ cprop_X (f P)) ->
  inv cprop_flags_sound (upd_part p f).
Proof.
  intros Hc Hx. apply inv_upd_part. intros s P Hs HP y nd Hy Hon.
  destruct (Hs y nd Hy Hon) as (Q & HQ & Hin). cbn.
  destruct (decide (p = part nd)) as [->|Hne].
  - rewrite lookup_insert_eq. exists (f P). split; [done|].
    rewrite HQ in HP. injection HP as <-. destruct Hin; auto.
  - rewrite lookup_insert_ne by done. by exists Q.
Qed.

Lemma inv_sound_place_on_cprop X : inv cprop_flags_sound (place_on_cprop X).
Proof.
  unfold place_on_cprop.
  apply inv_bind; [apply pure_inv, pure_get_part|]. intros P.
  destruct (negb (p_on_cprop P)); [|apply pure_inv, pure_ret].
  apply inv_bind; [by apply inv_modify|]. intros [].
  by apply inv_sound_upd_part.
Qed.

(** Appending a node to a cprop list of its partition and setting its flag
    keeps the flags sound. *)
Lemma sound_enqueue (cx : bool) z nd s s' :
  cprop_flags_sound s ->
  link s !! z = Some nd ->
  ((if cx
    then upd_part (part nd) (fun P => with_cprop_lists (cprop P) (cprop_X P ++ [z]) P)
    else upd_part (part nd) (fun P => with_cprop_lists (cprop P ++ [z]) (cprop_X P) P)) ;;
   upd_node z (with_on_cprop true)) s = Ok (tt, s') ->
  cprop_flags_sound s' /\ on_cprop_set s' z.
Proof.
  intros Hs Hz H.
  assert (exists P f, obst s !! part nd = Some P
            /\ (z ∈ cprop (f P) \/ z ∈ cprop_X (f P))
            /\ (forall w, w ∈ cprop P -> w ∈ cprop (f P))
            /\ (forall w, w ∈ cprop_X P -> w ∈ cprop_X (f P))
            /\ s' = set_link (<[z := with_on_cprop true nd]>)
                      (set_obst (<[part nd := f P]>) s))
    as (P & f & HP & Hz' & Hc & Hx & ->).
  { destruct cx;
      unfold upd_part, upd_node, mbind, M_bind, get_part, get_irn_node, deref,
        modify, mret, M_ret in H;
      destruct (obst s !! part nd) as [P|] eqn:HP; cbn in H; try done;
      rewrite Hz in H; cbn in H; simplify_eq; eexists P, _;
      (split; [done|]); (split; [|split; [|split; [|reflexivity]]]); cbn.
    - right. apply elem_of_app. right. by left.
    - done.
    - intros w Hw. apply elem_of_app. by left.
    - left. apply elem_of_app. right. by left.
    - intros w Hw. apply elem_of_app. by left.
    - done. }
  split.
  - intros y nd' Hy Hon. cbn in Hy |- *.
    destruct (decide (z = y)) as [->|Hne].
    + rewrite lookup_insert_eq in Hy. injection Hy as <-. cbn.
      rewrite lookup_insert_eq. by exists (f P).
    + rewrite lookup_insert_ne in Hy by done.
      destruct (Hs y nd' Hy Hon) as (Q & HQ & Hin).
      destruct (decide (part nd = part nd')) as [Heq|Hnp].
      * rewrite <- Heq in *. rewrite lookup_insert_eq. exists (f P). split; [done|].
        rewrite HQ in HP. injection HP as <-. destruct Hin; auto.
      * rewrite lookup_insert_ne by done. by exists Q.
  - exists (with_on_cprop true nd). cbn. by rewrite lookup_insert_eq.
Qed.

Lemma inv_on_cprop_set_upd_node y z :
  inv (fun s => on_cprop_set s y) (upd_node z (with_on_cprop true)).
Proof.
  apply inv_upd_node. intros s nd (n & Hn & Hon) Hz. unfold on_cprop_set. cbn.
  destruct (decide (z = y)) as [->|Hne].
  - rewrite lookup_insert_eq. by eexists.
  - rewrite lookup_insert_ne by done. by exists n.
Qed.

Lemma inv_on_cprop_set_place_on_cprop y X :
  inv (fun s => on_cprop_set s y) (place_on_cprop X).
Proof.
  unfold place_on_cprop.
  apply inv_bind; [apply pure_inv, pure_get_part|]. intros P.
  destruct (negb (p_on_cprop P)); [|apply pure_inv, pure_ret].
  apply inv_bind; [by apply inv_modify|]. intros [].
  apply inv_upd_part. by intros s Q H _.
Qed.

(** Flags are only ever set while nodes are placed. *)
Lemma inv_on_cprop_set_add_to_cprop y fuel z :
  inv (fun s => on_cprop_set s y) (add_to_cprop fuel z).
Proof.
  revert z. induction fuel as [|fuel IH]; intros z; cbn [add_to_cprop].
  { apply pure_inv, pure_out_of_fuel. }
  apply inv_bind; [apply pure_inv, pure_get_irn_node|]. intros nd.
  apply inv_bind.
  - destruct (negb (on_cprop nd)); [|apply pure_inv, pure_ret].
    apply inv_bind; [apply pure_inv, pure_is_Cond_or_Switch|]. intros cx.
    apply inv_bind.
    + destruct cx; apply inv_upd_part; by intros s Q H _.
    + intros []. apply inv_bind; [apply inv_on_cprop_set_upd_node|]. intros [].
      apply inv_on_cprop_set_place_on_cprop.
  - intros []. apply inv_bind; [apply pure_inv, pure_get_irn|]. intros irn.
    destruct (bool_decide (irn_mode irn = mode_T)).
    + apply inv_for_each. intros e. apply IH.
    + destruct (is_op iro_Block irn); [|apply pure_inv, pure_ret].
      apply inv_for_each. intros phi. apply IH.
Qed.

(** Placing a node keeps the flags sound and leaves the node flagged. *)
Lemma add_to_cprop_sound fuel z :
  inv cprop_flags_sound (add_to_cprop fuel z)
  /\ forall s s', add_to_cprop fuel z s = Ok (tt, s') -> on_cprop_set s' z.
Proof.
  revert z. induction fuel as [|fuel IH]; intros z; cbn [add_to_cprop].
  { split; [apply pure_inv, pure_out_of_fuel | done]. }
  assert (forall s s1 nd, cprop_flags_sound s ->
            link s !! z = Some nd ->
            (if negb (on_cprop nd)
             then
               cx ← is_Cond_or_Switch z;
               (if cx : bool
                then upd_part (part nd)
                       (fun P => with_cprop_lists (cprop P) (cprop_X P ++ [z]) P)
                else upd_part (part nd)
                       (fun P => with_cprop_lists (cprop P ++ [z]) (cprop_X P) P)) ;;
               upd_node z (with_on_cprop true) ;; place_on_cprop (part nd)
             else mret tt) s = Ok (tt, s1) ->
            cprop_flags_sound s1 /\ on_cprop_set s1 z) as Hhead.
  { intros s s1 nd Hs Hz H. destruct (on_cprop nd) eqn:Hon; cbn [negb] in H.
    { apply mret_Ok_inv in H as [_ <-]. split; [done|]. by exists nd. }
    apply bind_Ok_inv in H as (cx & s2 & Hcx & H).
    apply pure_is_Cond_or_Switch in Hcx as ->.
    apply bind_Ok_inv in H as ([] & s2 & H2 & H).
    apply bind_Ok_inv in H as ([] & s3 & H3 & H).
    assert (((if cx
              then upd_part (part nd)
                     (fun P => with_cprop_lists (cprop P) (cprop_X P ++ [z]) P)
              else upd_part (part nd)
                     (fun P => with_cprop_lists (cprop P ++ [z]) (cprop_X P) P)) ;;
             upd_node z (with_on_cprop true)) s = Ok (tt, s3)) as Hrun.
    { by rewrite (bind_Ok _ _ _ _ _ H2). }
    clear H2 H3. rename Hrun into H3.
    apply (sound_enqueue cx z nd s s3 Hs Hz) in H3 as [Hs3 Hz3].
    split.
    - by eapply inv_sound_place_on_cprop.
    - by eapply (inv_on_cprop_set_place_on_cprop z). }
  assert (forall irn : ir_node,
            inv cprop_flags_sound
              (if bool_decide (irn_mode irn = mode_T)
               then for_each (reverse (irn_out irn)) (fun edge => add_to_cprop fuel (use edge))
               else if is_op iro_Block irn
                    then for_each (attr_phis (irn_attr irn)) (fun phi => add_to_cprop fuel phi)
                    else mret tt)) as Htail.
  { intros irn. destruct (bool_decide (irn_mode irn = mode_T)).
    - apply inv_for_each. intros e. apply IH.
    - destruct (is_op iro_Block irn); [|apply pure_inv, pure_ret].
      apply inv_for_each. intros phi. apply IH. }
  split.
  - intros s [] s' Hs H. inv_read H.
    apply bind_Ok_inv in H as ([] & s1 & H1 & H).
    apply (Hhead _ _ _ Hs H0) in H1 as [Hs1 _].
    inv_read H. by eapply Htail.
  - intros s s' H. inv_read H.
    apply bind_Ok_inv in H as ([] & s1 & H1 & H).
    destruct (on_cprop a) eqn:Hon.
    + cbn [negb] in H1. apply mret_Ok_inv in H1 as [_ <-].
      revert H. apply (inv_bind (fun s => on_cprop_set s z));
        [apply pure_inv, pure_get_irn| |by exists a].
      intros irn. destruct (bool_decide (irn_mode irn = mode_T)).
      * apply inv_for_each. intros e. apply inv_on_cprop_set_add_to_cprop.
      * destruct (is_op iro_Block irn); [|apply pure_inv, pure_ret].
        apply inv_for_each. intros phi. apply inv_on_cprop_set_add_to_cprop.
    + assert (on_cprop_set s1 z) as Hz1.
      { cbn [negb] in H1.
        apply bind_Ok_inv in H1 as (cx & s2 & Hcx & H1).
        apply pure_is_Cond_or_Switch in Hcx as ->.
        apply bind_Ok_inv in H1 as ([] & s3 & H3 & H1).
        apply bind_Ok_inv in H1 as ([] & s4 & H4 & H1).
        eapply (inv_on_cprop_set_place_on_cprop z); [|done].
        unfold upd_node, mbind, M_bind, get_irn_node, deref, modify, mret, M_ret in H4.
        destruct (link s3 !! z) as [n|]; cbn in H4; [|done]. simplify_eq.
        eexists. cbn. by rewrite lookup_insert_eq. }
      revert H. apply (inv_bind (fun s => on_cprop_set s z));
        [apply pure_inv, pure_get_irn| |done].
      intros irn. destruct (bool_decide (irn_mode irn = mode_T)).
      * apply inv_for_each. intros e. apply inv_on_cprop_set_add_to_cprop.
      * destruct (is_op iro_Block irn); [|apply pure_inv, pure_ret].
        apply inv_for_each. intros phi. apply inv_on_cprop_set_add_to_cprop.
Qed.

Lemma for_each_all {A} (l : list A) (f : A -> M unit) (Q : A -> state -> Prop) s s' :
  (forall x s s', f x s = Ok (tt, s') -> Q x s') ->
  (forall x z, inv (Q z) (f x)) ->
  for_each l f s = Ok (tt, s') ->
  forall x, x ∈ l -> Q x s'.
Proof.
  intros Hpost Hinv. revert s. induction l as [|a l IH]; intros s H x Hx; cbn in H.
  { by apply elem_of_nil in Hx. }
  apply bind_Ok_inv in H as ([] & s1 & H1 & H).
  apply elem_of_cons in Hx as [->|Hx]; [|by eapply IH].
  apply Hpost in H1.
  eapply (inv_for_each (Q a) l f); [intros y; apply Hinv | exact H1 | exact H].
Qed.

Lemma sound_queued s y : cprop_flags_sound s -> on_cprop_set s y -> queued s y.
Proof.
  intros Hs (nd & Hy & Hon). destruct (Hs y nd Hy Hon) as (P & HP & Hin).
  by exists nd, P.
Qed.

(** Placing a node on the cprop queue leaves it queued: flagged and on a
    cprop list of its partition.  Placing a Block queues every Phi of the
    block, and placing a tuple node queues every user of it (its Projs), so
    that they are recomputed as well. *)
Theorem add_to_cprop_queues_dependents fuel y s s' irn :
  cprop_flags_sound s ->
  irg s !! y = Some irn ->
  add_to_cprop fuel y s = Ok (tt, s') ->
  cprop_flags_sound s'
  /\ queued s' y
  /\ (irn_mode irn = mode_T -> forall e, e ∈ irn_out irn -> queued s' (use e))
  /\ (irn_mode irn <> mode_T -> irn_op irn = iro_Block ->
      forall phi, phi ∈ attr_phis (irn_attr irn) -> queued s' phi).
Proof.
  intros Hs Hy H.
  assert (cprop_flags_sound s') as Hs'
    by (by eapply (proj1 (add_to_cprop_sound fuel y))).
  split; [done|]. split.
  { apply sound_queued; [done|]. by eapply (proj2 (add_to_cprop_sound fuel y)). }
  destruct fuel as [|fuel]; [done|]. cbn [add_to_cprop] in H.
  inv_read H. apply bind_Ok_inv in H as ([] & s1 & H1 & H).
  assert (irg s1 = irg s) as Hirg.
  { match type of H1 with
    | ?m _ = _ =>
        assert (keeps irg m) as K by (unfold place_on_cprop; keeps_auto)
    end.
    by apply K in H1. }
  inv_read H. rewrite Hirg, Hy in H2. injection H2 as <-.
  split.
  - intros Hmode e He. rewrite bool_decide_eq_true_2 in H by done.
    apply sound_queued; [done|].
    apply (for_each_all _ _ (fun e s => on_cprop_set s (use e)) _ _
             (fun e => proj2 (add_to_cprop_sound fuel (use e)))
             (fun e z => inv_on_cprop_set_add_to_cprop (use z) fuel (use e)) H).
    by apply elem_of_reverse.
  - intros Hmode Hop phi Hphi. rewrite bool_decide_eq_false_2 in H by done.
    unfold is_op in H. rewrite bool_decide_eq_true_2 in H by done.
    apply sound_queued; [done|].
    by apply (for_each_all _ _ (fun phi s => on_cprop_set s phi) _ _
                (fun phi => proj2 (add_to_cprop_sound fuel phi))
                (fun phi z => inv_on_cprop_set_add_to_cprop z fuel phi) H).
Qed.

Lemma add_to_cprop_queues_dependents_witness :
  let s' := final_state (add_to_cprop 3 1) Ex.block_phis_state in
  cprop_flags_sound s'
  /\ queued s' 1
  /\ (mode_BB = mode_T -> forall e, e ∈ [] -> queued s' (use e))
  /\ (mode_BB <> mode_T -> iro_Block = iro_Block ->
      forall phi, phi ∈ [5; 6] -> queued s' phi).
Proof.
  refine (add_to_cprop_queues_dependents 3 1 Ex.block_phis_state _ _ _ eq_refl _).
  - intros y nd Hy Hon. exfalso.
    assert (Forall (fun e : nat * node_t => on_cprop e.2 = false)
              (map_to_list (link Ex.block_phis_state))) as Hall
      by (vm_compute; repeat constructor).
    rewrite Forall_forall in Hall.
    apply (elem_of_map_to_list (link Ex.block_phis_state)) in Hy.
    apply Hall in Hy. cbn in Hy. congruence.
  - vm_compute. reflexivity.
Defined.

(** ** Splitting a partition without followers *)

Lemma with_node_list_id P : with_node_list (Leader P) (Follower P) P = P.
Proof. by destruct P. Qed.

Lemma filter_not_in_cons (n : nat) g (l : list nat) :
  filter (fun x => x ∉ g) (filter (fun x => x <> n) l) = filter (fun x => x ∉ n :: g) l.
Proof.
  rewrite list_filter_filter. apply list_filter_iff. intros x.
  rewrite not_elem_of_cons. tauto.
Qed.

Lemma filter_not_in_nil (l : list nat) : filter (fun x => x ∉ []) l = l.
Proof.
  induction l as [|a l IH]; [done|]. rewrite filter_cons_True; [by rewrite IH|].
  apply not_elem_of_nil.
Qed.

(** Removing the nodes of [g] from the lists of [Z]. *)
Lemma remove_from_Z Z g s s1 z :
  obst s !! Z = Some z ->
  for_each g (fun n =>
    nd ← get_irn_node n;
    assert (bool_decide (part nd = Z)) ;;
    list_del_node_list n) s = Ok (tt, s1) ->
  s1 = set_obst (<[Z := with_node_list (filter (fun x => x ∉ g) (Leader z))
                                       (filter (fun x => x ∉ g) (Follower z)) z]>) s.
Proof.
  revert s z. induction g as [|n g IH]; intros s z Hz H; cbn in H.
  - apply mret_Ok_inv in H as [_ <-]. rewrite !filter_not_in_nil, with_node_list_id.
    destruct s. unfold set_obst. cbn in *. by rewrite insert_id.
  - apply bind_Ok_inv in H as ([] & s2 & H2 & H).
    do 2 inv_read H2. apply bool_decide_eq_true in H1.
    unfold list_del_node_list in H2. inv_read H2.
    same_lookups.
    unfold upd_part, mbind, M_bind, get_part, deref, modify, mret, M_ret in H2.
    rewrite H1, Hz in H2. cbn in H2. simplify_eq.
    eapply IH in H; [|cbn; by rewrite lookup_insert_eq]. subst s1.
    unfold set_obst. cbn. rewrite insert_insert_eq, !filter_not_in_cons. done.
Qed.

(** Appending the nodes of [g] to the Leader list of [Z'] and making [Z']
    their partition. *)
Lemma move_to_Z_prime Z' g s s1 P :
  obst s !! Z' = Some P ->
  for_each g (fun n =>
    add_tail_Leader n Z' ;; upd_node n (with_part Z')) s = Ok (tt, s1) ->
  exists lk,
    s1 = set_link (fun _ => lk)
           (set_obst (<[Z' := with_node_list (Leader P ++ g) (Follower P) P]>) s)
    /\ (forall n, n ∈ g -> part <$> lk !! n = Some Z')
    /\ (forall n nd, n ∈ g -> lk !! n = Some nd -> exists nd0,
          link s !! n = Some nd0 /\ nd = with_part Z' nd0)
    /\ (forall n, n ∉ g -> lk !! n = link s !! n).
Proof.
  revert s P. induction g as [|n g IH]; intros s P HP H; cbn in H.
  - apply mret_Ok_inv in H as [_ <-]. exists (link s).
    rewrite app_nil_r, with_node_list_id. split; [|split; [|split]].
    + destruct s. unfold set_obst, set_link. cbn in *. by rewrite insert_id.
    + intros n Hn. by apply elem_of_nil in Hn.
    + intros n nd Hn. by apply elem_of_nil in Hn.
    + done.
  - apply bind_Ok_inv in H as ([] & s2 & H2 & H).
    unfold add_tail_Leader, upd_part, upd_node, mbind, M_bind, get_part, get_irn_node,
      deref, modify, mret, M_ret in H2.
    rewrite HP in H2. cbn in H2.
    destruct (link s !! n) as [nd0|] eqn:Hn; cbn in H2; [|done]. simplify_eq.
    eapply IH in H; [|cbn; by rewrite lookup_insert_eq].
    destruct H as (lk & -> & Hparts & Hold & Hother).
    exists lk. split; [|split; [|split]].
    + unfold set_obst, set_link. cbn. rewrite insert_insert_eq.
      by rewrite <- (assoc_L (++)).
    + intros m Hm. destruct (decide (m ∈ g)) as [Hin|Hnin]; [by apply Hparts|].
      apply elem_of_cons in Hm as [->|Hm]; [|done].
      rewrite (Hother _ Hnin). cbn. by rewrite lookup_insert_eq.
    + intros m nd Hm Hlk. destruct (decide (m ∈ g)) as [Hin|Hnin].
      * destruct (Hold _ _ Hin Hlk) as (nd1 & Hnd1 & ->). cbn in Hnd1.
        destruct (decide (n = m)) as [->|Hne].
        -- rewrite lookup_insert_eq in Hnd1. injection Hnd1 as <-.
           exists nd0. split; [done|]. by destruct nd0.
        -- rewrite lookup_insert_ne in Hnd1 by done. by exists nd1.
      * apply elem_of_cons in Hm as [->|Hm]; [|done].
        rewrite (Hother _ Hnin) in Hlk. cbn in Hlk.
        rewrite lookup_insert_eq in Hlk. injection Hlk as <-. by exists nd0.
    + intros m Hm. apply not_elem_of_cons in Hm as [Hne Hm].
      rewrite (Hother _ Hm). cbn. by rewrite lookup_insert_ne.
Qed.

Lemma keeps_lists_upd_part p f :
  (forall P, (Leader (f P), Follower (f P), n_leader (f P))
             = (Leader P, Follower P, n_leader P)) ->
  keeps lists_view (upd_part p f).
Proof.
  intros Hf s a s' H.
  unfold upd_part, mbind, M_bind, get_part, deref, modify, mret, M_ret in H.
  destruct (obst s !! p) as [P|] eqn:HP; cbn in H; [|done]. simplify_eq.
  unfold lists_view. cbn. rewrite fmap_insert, Hf. apply insert_id.
  by rewrite lookup_fmap, HP.
Qed.

Lemma keeps_lists_add_to_worklist X : keeps lists_view (add_to_worklist X).
Proof.
  unfold add_to_worklist.
  apply keeps_bind; [apply keeps_pure, pure_get_part|]. intros P.
  apply keeps_bind; [apply keeps_pure, pure_assert|]. intros [].
  apply keeps_bind; [by apply keeps_lists_upd_part|]. intros [].
  by apply keeps_modify.
Qed.

Lemma keeps_lists_update_worklist Z Z' : keeps lists_view (update_worklist Z Z').
Proof.
  unfold update_worklist.
  apply keeps_bind; [apply keeps_pure, pure_get_part|]. intros z.
  apply keeps_bind; [apply keeps_pure, pure_get_part|]. intros z'.
  destruct (on_worklist z || (n_leader z' <? n_leader z));
    apply keeps_lists_add_to_worklist.
Qed.

Lemma keeps_link_update_worklist Z Z' : keeps link (update_worklist Z Z').
Proof. unfold update_worklist, add_to_worklist. keeps_auto. Qed.

(** What a partition that passes [check_partition] looks like. *)
Lemma check_partition_Ok T s s' :
  check_partition T s = Ok (tt, s') ->
  exists P, obst s !! T = Some P /\ length (Leader P) = n_leader P.
Proof.
  intros H. unfold check_partition in H. inv_read H. exists a. split; [done|].
  apply bind_Ok_inv in H as ([] & s1 & H1 & H).
  inv_read H. by apply Nat.eqb_eq in H2.
Qed.

(** Splitting the list [g] off a partition [Z]: the new partition is the
    next free slot, its leaders are the nodes of [g] in the order of [g],
    and it has no followers; [Z] keeps the nodes that are not in [g], in
    their order; the leader counts of both are updated, and their sum is the
    count [Z] had.  The list [g] is not empty and shorter than the leader
    count of [Z].  Every node of [g] has the new partition as its partition,
    all other node records and all other partitions are as before. *)
Theorem split_no_followers_moves Z g s Z' s' z :
  obst s !! Z = Some z ->
  Z <> next_part s ->
  split_no_followers Z g s = Ok (Z', s') ->
  Z' = next_part s
  /\ g <> [] /\ length g < n_leader z
  /\ lists_view s' !! Z
     = Some (filter (fun x => x ∉ g) (Leader z), filter (fun x => x ∉ g) (Follower z),
             n_leader z - length g)
  /\ lists_view s' !! Z' = Some (g, [], length g)
  /\ (forall p, p <> Z -> p <> Z' -> lists_view s' !! p = lists_view s !! p)
  /\ (forall n, n ∈ g -> part <$> link s' !! n = Some Z')
  /\ (forall n, n ∉ g -> link s' !! n = link s !! n)
  /\ length (filter (fun x => x ∉ g) (Leader z)) = n_leader z - length g.
Proof.
  intros Hz Hfresh H. unfold split_no_followers in H.
  inv_read H. apply negb_true_iff, bool_decide_eq_false in H0.
  apply bind_Ok_inv in H as ([] & s1 & H1 & H).
  apply (remove_from_Z _ _ _ _ _ Hz) in H1. subst s1.
  inv_read H. cbn in H1. rewrite lookup_insert_eq in H1. injection H1 as <-.
  inv_read H. apply Nat.ltb_lt in H1. cbn in H1.
  apply bind_Ok_inv in H as ([] & s2 & H2 & H).
  unfold upd_part, mbind, M_bind, get_part, deref, modify, mret, M_ret in H2.
  cbn in H2. rewrite lookup_insert_eq in H2. cbn in H2. simplify_eq.
  apply bind_Ok_inv in H as (p & s3 & H3 & H).
  unfold new_partition, mbind, M_bind, gets, modify, mret, M_ret in H3.
  cbn in H3. simplify_eq.
  apply bind_Ok_inv in H as ([] & s4 & H4 & H).
  eapply move_to_Z_prime in H4; [|cbn; by rewrite lookup_insert_eq].
  destruct H4 as (lk & -> & Hparts & _ & Hother).
  apply bind_Ok_inv in H as (m & s5 & H5 & H).
  apply pure_max_input_of in H5 as ->.
  apply bind_Ok_inv in H as ([] & s6 & H6 & H).
  unfold upd_part, mbind, M_bind, get_part, deref, modify, mret, M_ret in H6.
  cbn in H6. rewrite lookup_insert_eq in H6. cbn in H6. simplify_eq.
  apply bind_Ok_inv in H as ([] & s7 & H7 & H).
  unfold upd_part, mbind, M_bind, get_part, deref, modify, mret, M_ret in H7.
  cbn in H7. rewrite lookup_insert_eq in H7. cbn in H7. simplify_eq.
  apply bind_Ok_inv in H as ([] & s8 & H8 & H).
  pose proof (pure_check_partition _ _ _ _ H8) as ->.
  apply check_partition_Ok in H8 as (Pz & HPz & Hlen).
  cbn in HPz. rewrite !lookup_insert_ne, lookup_insert_eq in HPz by done.
  injection HPz as <-. cbn in Hlen.
  apply bind_Ok_inv in H as ([] & s9 & H9 & H).
  apply pure_check_partition in H9 as ->.
  inv_read H.
  apply bind_Ok_inv in H as ([] & s10 & H10 & H).
  apply bind_Ok_inv in H as ([] & s11 & H11 & H).
  apply mret_Ok_inv in H as [<- <-].
  pose proof (keeps_lists_update_worklist _ _ _ _ _ H11) as Hlv.
  pose proof (keeps_link_update_worklist _ _ _ _ _ H11) as Hlk.
  match type of H10 with
  | ?m _ = _ =>
      assert (keeps lists_view m) as K by (by apply keeps_lists_upd_part);
      assert (keeps link m) as K' by keeps_auto
  end.
  pose proof (K _ _ _ H10) as Hlv'. pose proof (K' _ _ _ H10) as Hlk'.
  rewrite Hlv, Hlv', Hlk, Hlk'. clear Hlv Hlv' Hlk Hlk' K K' H10 H11.
  unfold lists_view. cbn.
  split; [done|]. split; [done|]. split; [done|].
  rewrite !insert_insert_eq.
  split; [|split; [|split; [|split; [|split]]]].
  - rewrite lookup_fmap, lookup_insert_ne, lookup_insert_eq by done. done.
  - rewrite lookup_fmap, lookup_insert_eq. done.
  - intros q Hq1 Hq2. rewrite !lookup_fmap, !lookup_insert_ne by done. done.
  - done.
  - done.
  - done.
Qed.

Lemma split_no_followers_moves_witness :
  let s' := final_state (split_no_followers 0 [1]) Ex.split_state in
  1 = next_part Ex.split_state
  /\ [1] <> [] /\ length [1] < 3
  /\ lists_view s' !! 0
     = Some (filter (fun x => x ∉ [1]) [0; 1; 2], filter (fun x => x ∉ [1]) [], 3 - length [1])
  /\ lists_view s' !! 1 = Some ([1], [], length [1])
  /\ (forall p, p <> 0 -> p <> 1 -> lists_view s' !! p = lists_view Ex.split_state !! p)
  /\ (forall n, n ∈ [1] -> part <$> link s' !! n = Some 1)
  /\ (forall n, n ∉ [1] -> link s' !! n = link Ex.split_state !! n)
  /\ length (filter (fun x => x ∉ [1]) [0; 1; 2]) = 3 - length [1].
Proof.
  refine (split_no_followers_moves 0 [1] Ex.split_state 1 _ _ eq_refl _ _).
  - cbn. lia.
  - vm_compute. reflexivity.
Defined.

(** ** The follower to leader transition *)

Lemma keeps_parts_upd_node z f :
  (forall nd, (part (f nd), is_follower (f nd)) = (part nd, is_follower nd)) ->
  keeps part_view (upd_node z f).
Proof.
  intros Hf s a s' H.
  unfold upd_node, mbind, M_bind, get_irn_node, deref, modify, mret, M_ret in H.
  destruct (link s !! z) as [nd|] eqn:Hz; cbn in H; [|done]. simplify_eq.
  unfold part_view. cbn. rewrite fmap_insert, Hf. apply insert_id.
  by rewrite lookup_fmap, Hz.
Qed.

Lemma keeps_parts_move_edge_search irn i pred js :
  keeps part_view (move_edge_search irn i pred js).
Proof.
  induction js as [|j js IH]; cbn [move_edge_search].
  - apply keeps_pure, pure_ret.
  - apply keeps_bind; [apply keeps_pure, pure_get_irn|]. intros p.
    apply keeps_bind; [apply keeps_pure, pure_get_irn_node|]. intros pn.
    apply keeps_bind; [apply keeps_pure, pure_deref|]. intros edge.
    destruct ((pos edge =? i)%Z && bool_decide (use edge = irn)); [|done].
    apply keeps_bind; [by apply keeps_parts_upd_node|]. intros [].
    apply keeps_bind; [apply keeps_pure, pure_deref|]. intros last.
    by apply keeps_upd_irn.
Qed.

Lemma keeps_parts_move_edges_to_leader x : keeps part_view (move_edges_to_leader x).
Proof.
  unfold move_edges_to_leader.
  apply keeps_bind; [apply keeps_pure, pure_get_irn|]. intros irn.
  apply keeps_for_each. intros i.
  apply keeps_bind; [apply keeps_pure, pure_get_irn_n|]. intros pred.
  apply keeps_bind; [apply keeps_pure, pure_get_irn_node|]. intros pn.
  apply keeps_parts_move_edge_search.
Qed.

Lemma keeps_obst_move_edge_search irn i pred js :
  keeps obst (move_edge_search irn i pred js).
Proof. induction js as [|j js IH]; cbn; keeps_auto. Qed.

Lemma keeps_obst_move_edges_to_leader x : keeps obst (move_edges_to_leader x).
Proof.
  unfold move_edges_to_leader.
  apply keeps_bind; [apply keeps_pure, pure_get_irn|]. intros irn.
  apply keeps_for_each. intros i.
  apply keeps_bind; [apply keeps_pure, pure_get_irn_n|]. intros pred.
  apply keeps_bind; [apply keeps_pure, pure_get_irn_node|]. intros pn.
  apply keeps_obst_move_edge_search.
Qed.

(** The follower to leader transition of a node: the node must be a
    follower; it leaves the Follower list of its partition and is appended
    to the Leader list, the leader count goes up by one, and its follower
    flag is cleared.  Its partition stays the same, and nothing else changes
    in the lists of any partition or in the partition and follower flag of
    any node. *)
Theorem follower_to_leader_promotes n s s' nd P :
  link s !! n = Some nd ->
  obst s !! part nd = Some P ->
  follower_to_leader n s = Ok (tt, s') ->
  is_follower nd = true
  /\ lists_view s' !! part nd
     = Some (filter (fun x => x <> n) (Leader P) ++ [n],
             filter (fun x => x <> n) (Follower P), S (n_leader P))
  /\ (forall p, p <> part nd -> lists_view s' !! p = lists_view s !! p)
  /\ part_view s' = <[n := (part nd, false)]> (part_view s).
Proof.
  intros Hn HP H. unfold follower_to_leader in H.
  inv_read H. same_lookups. inv_read H. split; [done|].
  apply bind_Ok_inv in H as ([] & s1 & H1 & H).
  unfold upd_node, mbind, M_bind, get_irn_node, deref, modify, mret, M_ret in H1.
  rewrite Hn in H1. cbn in H1. simplify_eq.
  apply bind_Ok_inv in H as ([] & s2 & H2 & H).
  pose proof (keeps_parts_move_edges_to_leader _ _ _ _ H2) as Hpv.
  pose proof (keeps_obst_move_edges_to_leader _ _ _ _ H2) as Hob. clear H2.
  cbn in Hob.
  assert (exists nd2, link s2 !! n = Some nd2 /\ part nd2 = part nd) as (nd2 & Hn2 & Hp2).
  { assert (part_view s2 !! n = Some (part nd, false)) as Hl.
    { rewrite Hpv. unfold part_view. cbn. by rewrite lookup_fmap, lookup_insert_eq. }
    unfold part_view in Hl. rewrite lookup_fmap in Hl.
    destruct (link s2 !! n) as [nd2|]; [|done]. exists nd2. split; [done|].
    cbn in Hl. congruence. }
  apply bind_Ok_inv in H as ([] & s3 & H3 & H).
  unfold list_del_node_list, upd_part, mbind, M_bind, get_part, get_irn_node, deref,
    modify, mret, M_ret in H3.
  rewrite Hn2 in H3. cbn in H3. rewrite Hp2, Hob, HP in H3. cbn in H3. simplify_eq.
  apply bind_Ok_inv in H as ([] & s4 & H4 & H).
  unfold add_tail_Leader, upd_part, mbind, M_bind, get_part, deref,
    modify, mret, M_ret in H4.
  cbn in H4. rewrite lookup_insert_eq in H4. cbn in H4. simplify_eq.
  inv_read H. cbn in H1. rewrite lookup_insert_eq in H1. injection H1 as <-.
  unfold upd_part, mbind, M_bind, get_part, deref, modify, mret, M_ret in H.
  cbn in H. rewrite lookup_insert_eq in H. cbn in H. simplify_eq.
  unfold lists_view, part_view in *. cbn in *.
  rewrite !insert_insert_eq. split; [|split].
  - rewrite lookup_fmap, lookup_insert_eq. done.
  - intros p Hp. rewrite !lookup_fmap, lookup_insert_ne, Hob by done. done.
  - rewrite Hpv, fmap_insert. done.
Qed.

Lemma follower_to_leader_promotes_witness :
  let s' := final_state (follower_to_leader 3) Ex.race_state in
  true = true
  /\ lists_view s' !! 0
     = Some (filter (fun x => x <> 3) [0; 1; 2] ++ [3],
             filter (fun x => x <> 3) [3; 4; 5], 4)
  /\ (forall p, p <> 0 -> lists_view s' !! p = lists_view Ex.race_state !! p)
  /\ part_view s' = <[3 := (0, false)]> (part_view Ex.race_state).
Proof.
  refine (follower_to_leader_promotes 3 Ex.race_state _ _ _ eq_refl eq_refl _).
  vm_compute. reflexivity.
Defined.

(** ** Def-Use edges under the follower and leader transitions *)

Lemma ins_edge_perm e l : ins_edge e l ≡ₚ e :: l.
Proof.
  induction l as [|x l IH]; cbn; [done|].
  destruct (pos e <=? pos x)%Z; [done|]. rewrite IH. apply Permutation_swap.
Qed.

Lemma ins_edge_sorted e l : Sorted pos_le l -> Sorted pos_le (ins_edge e l).
Proof.
  induction 1 as [|x l Hs IH Hhd]; cbn.
  - by repeat constructor.
  - destruct (Z.leb_spec (pos e) (pos x)) as [Hle|Hgt].
    + constructor; [by constructor|]. by constructor.
    + constructor; [done|].
      destruct Hhd as [|y l Hxy]; cbn.
      * constructor. unfold pos_le. lia.
      * destruct (pos e <=? pos y)%Z; constructor; [unfold pos_le; lia | done].
Qed.

Lemma take_S_insert {A} (l : list A) h x :
  h < length l -> take (S h) (<[h := x]> l) = take h l ++ [x].
Proof.
  intros Hh. rewrite insert_take_drop by done.
  replace (S h) with (length (take h l) + 1) by (rewrite length_take; lia).
  by rewrite take_app_add.
Qed.

(** The loop that sorts an edge into the leader edges, from the hole at
    index [h]: the edges in front of the hole stay, the edge is inserted
    into those behind it. *)
Lemma sort_into_leader_spec m edges edge h :
  length edges = h + 1 + m ->
  sort_into_leader edges edge (seq (S h) m) (S h)
  = take h edges ++ ins_edge edge (drop (S h) edges).
Proof.
  revert edges h. induction m as [|m IH]; intros edges h Hlen; cbn [seq sort_into_leader].
  - replace (S h - 1) with h by lia. rewrite insert_take_drop by lia.
    rewrite drop_ge by lia. done.
  - destruct (edges !! S h) as [ek|] eqn:Hk.
    2: { apply lookup_ge_None in Hk. lia. }
    rewrite (drop_S _ _ _ Hk). cbn [ins_edge].
    replace (S h - 1) with h by lia.
    destruct (pos edge <=? pos ek)%Z.
    + rewrite insert_take_drop by lia. by rewrite (drop_S _ _ _ Hk).
    + rewrite IH by (rewrite length_insert; lia).
      rewrite take_S_insert by lia. rewrite drop_insert_lt by lia.
      by rewrite <- (assoc_L (++)).
Qed.

Lemma swap_in_perm {A} (l : list A) j y a :
  l !! j = Some y -> y :: <[j := a]> l ≡ₚ a :: l.
Proof.
  revert j. induction l as [|b l IH]; intros [|j] Hj; cbn in *; try done.
  - injection Hj as ->. apply Permutation_swap.
  - rewrite Permutation_swap. rewrite (IH _ Hj). apply Permutation_swap.
Qed.

(** Moving the follower edge at index [j] into the leader edges permutes
    the edges, and inserts the edge into the leader edges, which start one
    index earlier. *)
Lemma move_edge_spec (out : list ir_def_use_edge) j nf edge last :
  out !! j = Some edge -> out !! nf = Some last -> j <= nf ->
  let out' := sort_into_leader (<[j := last]> out) edge
                (seq (nf + 1) (length out - (nf + 1))) (nf + 1) in
  out' ≡ₚ out /\ drop nf out' = ins_edge edge (drop (nf + 1) out).
Proof.
  intros Hj Hnf Hle out'.
  pose proof (lookup_lt_Some _ _ _ Hnf) as Hlt.
  assert (out' = take nf (<[j := last]> out) ++ ins_edge edge (drop (S nf) out)) as Hout.
  { unfold out'. rewrite Nat.add_1_r.
    rewrite sort_into_leader_spec by (rewrite length_insert; lia).
    by rewrite drop_insert_lt by lia. }
  split.
  - rewrite Hout, ins_edge_perm.
    rewrite <- (take_drop nf out) at 3. rewrite (drop_S _ _ _ Hnf).
    rewrite <- !Permutation_middle. 
    destruct (decide (j = nf)) as [->|Hne].
    + rewrite take_insert_ge by done. by simplify_eq.
    + rewrite take_insert_lt by lia. rewrite (app_comm_cons _ _ last).
      rewrite (app_comm_cons _ _ edge). apply Permutation_app_tail.
      apply swap_in_perm. rewrite lookup_take_lt by lia. done.
  - rewrite Hout, Nat.add_1_r. rewrite drop_app_length'; [done|].
    rewrite length_take, length_insert. lia.
Qed.

Lemma with_irn_out_id irn : with_irn_out (irn_out irn) irn = irn.
Proof. by destruct irn. Qed.

#[local] Instance edges_kept_refl : Reflexive edges_kept.
Proof.
  intros s. split; [|done]. intros p irn Hp. exists irn.
  split; [done|]. split; [done|]. apply with_irn_out_id.
Qed.

#[local] Instance edges_kept_trans : Transitive edges_kept.
Proof.
  intros s1 s2 s3 [H12 S12] [H23 S23]. split; [|auto].
  intros p irn Hp. destruct (H12 p irn Hp) as (irn2 & Hp2 & Hperm2 & Heq2).
  destruct (H23 p irn2 Hp2) as (irn3 & Hp3 & Hperm3 & Heq3).
  exists irn3. split; [done|]. split; [by rewrite Hperm3|].
  rewrite <- Heq2 at 2. rewrite <- Heq3. by destruct irn3.
Qed.

Lemma relates_pure {A} (R : state -> state -> Prop) `{!Reflexive R} (m : M A) :
  pure m -> relates R m.
Proof. intros Hm s a s' H. by apply Hm in H as ->. Qed.

Lemma relates_bind {A B} (R : state -> state -> Prop) `{!Transitive R}
    (m : M A) (f : A -> M B) :
  relates R m -> (forall a, relates R (f a)) -> relates R (m ≫= f).
Proof.
  intros Hm Hf s b s' H. apply bind_Ok_inv in H as (a & s1 & H1 & H2).
  etrans; [by eapply Hm | by eapply Hf].
Qed.

Lemma relates_for_each {A} (R : state -> state -> Prop)
    `{!Reflexive R} `{!Transitive R} (l : list A) (f : A -> M unit) :
  (forall x, relates R (f x)) -> relates R (for_each l f).
Proof.
  intros Hf. induction l as [|x l IH]; cbn.
  - apply relates_pure; [done | apply pure_ret].
  - apply relates_bind; [done | apply Hf | by intros].
Qed.

(** Writing back permuted edges of one node, with the leader edges sorted
    behind the new number of follower edges. *)
Lemma edges_kept_write s pred p pn out' nf :
  irg s !! pred = Some p ->
  link s !! pred = Some pn ->
  out' ≡ₚ irn_out p ->
  (Sorted pos_le (drop (n_followers pn) (irn_out p)) -> Sorted pos_le (drop nf out')) ->
  edges_kept s (set_irg (<[pred := with_irn_out out' p]>)
                  (set_link (<[pred := with_n_followers nf pn]>) s)).
Proof.
  intros Hp Hpn Hperm Hsorted. split.
  - intros q irn Hq. cbn. destruct (decide (pred = q)) as [->|Hne].
    + rewrite lookup_insert_eq. eexists. split; [done|]. cbn.
      rewrite Hp in Hq. injection Hq as <-. split; [done|]. by destruct p.
    + rewrite lookup_insert_ne by done. exists irn.
      split; [done|]. split; [done|]. apply with_irn_out_id.
  - intros Hs q irn nd Hq Hnd. unfold set_irg, set_link in Hq, Hnd. cbn in Hq, Hnd.
    destruct (decide (pred = q)) as [->|Hne].
    + rewrite lookup_insert_eq in Hq. rewrite lookup_insert_eq in Hnd.
      simplify_eq. cbn. apply Hsorted. by eapply Hs.
    + rewrite lookup_insert_ne in Hq by done. rewrite lookup_insert_ne in Hnd by done.
      by eapply Hs.
Qed.

Lemma move_edge_search_edges x i pred js s s' :
  (forall pn, link s !! pred = Some pn -> Forall (fun j => j < n_followers pn) js) ->
  move_edge_search x i pred js s = Ok (tt, s') ->
  edges_kept s s'.
Proof.
  induction js as [|j js IH]; intros Hjs H; cbn [move_edge_search] in H.
  { apply mret_Ok_inv in H as [_ <-]. reflexivity. }
  do 2 inv_read H. apply bind_Ok_inv in H as (edge & s1 & H2 & H).
  pose proof (pure_deref _ _ _ _ H2) as ->.
  unfold deref in H2. destruct (irn_out a !! j) as [e|] eqn:Hj; [|done].
  apply mret_Ok_inv in H2 as [-> _].
  pose proof (Hjs _ H1) as Hall. apply Forall_cons in Hall as [Hjlt Hall].
  destruct ((pos edge =? i)%Z && bool_decide (use edge = x)).
  2: { apply IH; [|done]. intros pn Hpn. same_lookups. done. }
  apply bind_Ok_inv in H as ([] & s2 & H2 & H).
  unfold upd_node, mbind, M_bind, get_irn_node, deref, modify, mret, M_ret in H2.
  rewrite H1 in H2. cbn in H2. simplify_eq.
  apply bind_Ok_inv in H as (last & s3 & H3 & H).
  pose proof (pure_deref _ _ _ _ H3) as ->.
  unfold deref in H3. destruct (irn_out a !! (n_followers a0 - 1)) as [l|] eqn:Hl; [|done].
  apply mret_Ok_inv in H3 as [-> _].
  unfold upd_irn, mbind, M_bind, get_irn, deref, modify, mret, M_ret in H.
  cbn in H. rewrite H0 in H. cbn in H. simplify_eq.
  destruct (move_edge_spec (irn_out a) j (n_followers a0 - 1) edge last Hj Hl
              ltac:(lia)) as [Hperm Hdrop].
  apply edges_kept_write; [done | done | exact Hperm |].
  intros Hs. unfold get_irn_n_outs. rewrite Hdrop. apply ins_edge_sorted.
  by replace (n_followers a0 - 1 + 1) with (n_followers a0) by lia.
Qed.

(** Making the inputs of a node leader edges again only permutes the
    Def-Use edges of its operands, and the leader edges of every node stay
    sorted by input position. *)
Theorem move_edges_to_leader_keeps_edges x s s' :
  move_edges_to_leader x s = Ok (tt, s') ->
  same_edges s s' /\ (leader_edges_sorted s -> leader_edges_sorted s').
Proof.
  revert s s'.
  assert (relates edges_kept (move_edges_to_leader x)) as H
    by (unfold move_edges_to_leader;
        apply relates_bind; [apply _ | apply relates_pure; [apply _ | apply pure_get_irn] |];
        intros irn; apply relates_for_each; [apply _ | apply _ |]; intros i;
        apply relates_bind; [apply _ | apply relates_pure; [apply _ | apply pure_get_irn_n] |];
        intros pred s a s' H; inv_read H; destruct a;
        eapply move_edge_search_edges; [|done];
        intros pn Hpn; same_lookups; apply Forall_forall; intros j Hj;
        apply elem_of_seq in Hj; lia).
  intros s s' Hrun. by apply H in Hrun.
Qed.

Lemma move_edges_to_leader_keeps_edges_witness :
  let s' := final_state (move_edges_to_leader 3) Ex.race_state in
  same_edges Ex.race_state s' /\ (leader_edges_sorted Ex.race_state -> leader_edges_sorted s').
Proof.
  apply (move_edges_to_leader_keeps_edges 3 Ex.race_state).
  vm_compute. reflexivity.
Defined.

Lemma set_irg_insert_insert s k (a b : ir_node) :
  set_irg (<[k := b]>) (set_irg (<[k := a]>) s) = set_irg (<[k := b]>) s.
Proof. unfold set_irg. cbn. by rewrite insert_insert_eq. Qed.

Lemma set_irg_insert_id s k (a : ir_node) :
  irg s !! k = Some a -> set_irg (<[k := a]>) s = s.
Proof. intros H. destruct s. unfold set_irg. cbn in *. by rewrite insert_id. Qed.

(** The loop that shifts the leader edges in front of the edge found at
    index [nf + m] up by one. *)
Lemma segregate_shift_Ok m s leader l nf :
  irg s !! leader = Some l ->
  nf + m < length (irn_out l) ->
  segregate_shift leader (reverse (seq nf m)) s
  = Ok (tt, set_irg (<[leader := with_irn_out
                         (take (S nf) (irn_out l) ++ take m (drop nf (irn_out l))
                          ++ drop (nf + m + 1) (irn_out l)) l]>) s).
Proof.
  revert s l. induction m as [|m IH]; intros s l Hl Hlen.
  - assert (take (S nf) (irn_out l) ++ take 0 (drop nf (irn_out l))
            ++ drop (nf + 0 + 1) (irn_out l) = irn_out l) as ->.
    { replace (nf + 0 + 1) with (S nf) by lia. rewrite take_0. cbn [app].
      apply take_drop. }
    rewrite with_irn_out_id. by rewrite set_irg_insert_id.
  - rewrite seq_S, reverse_snoc. cbn [segregate_shift].
    mstep. destruct (irn_out l !! (nf + m)) as [e|] eqn:He.
    2: { apply lookup_ge_None in He. lia. }
    unfold deref. mstep.
    rewrite (bind_Ok _ _ _ _ _ (upd_irn_Ok _ _ _ _ Hl)).
    erewrite IH; [|cbn; by rewrite lookup_insert_eq | cbn; rewrite length_insert; lia].
    f_equal. f_equal. rewrite set_irg_insert_insert. f_equal. f_equal. cbn.
    set (out := irn_out l).
    rewrite take_insert_ge by lia.
    rewrite (drop_insert_ge _ nf) by lia.
    rewrite take_insert_ge by lia.
    rewrite (drop_insert_ge _ (nf + m + 1)) by lia.
    replace (S (nf + m) - (nf + m + 1)) with 0 by lia.
    assert (drop nf out !! m = Some e) as Hm by (by rewrite lookup_drop).
    rewrite (take_S_r _ _ _ Hm).
    destruct (out !! (nf + m + 1)) as [x|] eqn:Hx.
    2: { apply lookup_ge_None in Hx. unfold out in Hx. lia. }
    rewrite (drop_S _ _ _ Hx). cbn.
    replace (nf + S m + 1) with (S (nf + m + 1)) by lia.
    rewrite <- (assoc_L (++) (take m (drop nf out))). cbn [app].
    unfold with_irn_out. by cbn.
Qed.

#[local] Instance pos_le_trans : Transitive pos_le.
Proof. unfold pos_le. intros a b c. lia. Qed.

Lemma sorted_remove_middle (B C : list ir_def_use_edge) t :
  Sorted pos_le (B ++ t :: C) -> Sorted pos_le (B ++ C).
Proof.
  intros H. apply (Sorted_StronglySorted _ _) in H.
  apply StronglySorted_Sorted. apply StronglySorted_app in H as (Hbc & HB & HC).
  apply StronglySorted_app. split; [|split; [done|]].
  - intros x1 x2 H1 H2. apply Hbc; [done|]. by right.
  - by inversion HC.
Qed.

(** Moving the leader edge at index [nf + m] behind the follower edges
    permutes the edges and takes the edge out of the leader edges, which
    start one index later. *)
Lemma segregate_spec (out : list ir_def_use_edge) nf m t :
  out !! (nf + m) = Some t ->
  let out' := <[nf := t]> (take (S nf) out ++ take m (drop nf out)
                           ++ drop (nf + m + 1) out) in
  out' ≡ₚ out
  /\ (Sorted pos_le (drop nf out) -> Sorted pos_le (drop (S nf) out')).
Proof.
  intros Ht. cbv zeta.
  pose proof (lookup_lt_Some _ _ _ Ht) as Hlt.
  destruct (out !! nf) as [x|] eqn:Hx.
  2: { apply lookup_ge_None in Hx. lia. }
  assert (drop nf out = take m (drop nf out) ++ t :: drop (nf + m + 1) out) as Hdrop.
  { rewrite <- (take_drop m (drop nf out)) at 1. rewrite drop_drop.
    rewrite (drop_S _ _ _ Ht). by rewrite Nat.add_1_r. }
  assert (<[nf := t]> (take (S nf) out ++ take m (drop nf out) ++ drop (nf + m + 1) out)
          = take nf out ++ t :: take m (drop nf out) ++ drop (nf + m + 1) out) as ->.
  { rewrite (take_S_r _ _ _ Hx), <- (assoc_L (++)).
    rewrite insert_app_r_alt by (rewrite length_take; lia).
    rewrite length_take. by replace (nf - nf `min` length out) with 0 by lia. }
  assert (length (take nf out) = nf) as HlenF by (rewrite length_take; lia).
  pose proof (take_drop nf out) as Hsplit.
  remember (take nf out) as F eqn:HF.
  remember (take m (drop nf out)) as B eqn:HB.
  remember (drop (nf + m + 1) out) as C eqn:HC.
  clear HF HB HC. split.
  - rewrite <- Hsplit, Hdrop. apply Permutation_app_head.
    apply Permutation_middle.
  - intros Hs. rewrite Hdrop in Hs.
    rewrite (cons_middle t), (assoc_L (++)).
    rewrite drop_app_length' by (rewrite length_app; cbn; lia).
    by eapply sorted_remove_middle.
Qed.

Lemma segregate_search_edges follower leader idx s s' :
  (forall ln, link s !! leader = Some ln -> Forall (fun i => n_followers ln <= i) idx) ->
  segregate_search follower leader idx s = Ok (tt, s') ->
  edges_kept s s'.
Proof.
  induction idx as [|i idx IH]; intros Hidx H; cbn [segregate_search] in H.
  { apply mret_Ok_inv in H as [_ <-]. reflexivity. }
  do 2 inv_read H. apply bind_Ok_inv in H as (t & s1 & H2 & H).
  pose proof (pure_deref _ _ _ _ H2) as ->.
  unfold deref in H2. destruct (irn_out a !! i) as [e|] eqn:Hi; [|done].
  apply mret_Ok_inv in H2 as [-> _].
  pose proof (Hidx _ H1) as Hall. apply Forall_cons in Hall as [Hile Hall].
  destruct (bool_decide (use t = follower)).
  2: { apply IH; [|done]. intros ln Hln. same_lookups. done. }
  pose proof (lookup_lt_Some _ _ _ Hi) as Hlt.
  assert (n_followers a0 + (i - n_followers a0) = i) as Hsum by lia.
  rewrite (bind_Ok _ _ _ _ _
             (segregate_shift_Ok (i - n_followers a0) s leader a (n_followers a0) H0
                ltac:(lia))) in H.
  apply bind_Ok_inv in H as ([] & s2 & H2 & H).
  unfold upd_irn, mbind, M_bind, get_irn, deref, modify, mret, M_ret in H2.
  cbn in H2. rewrite lookup_insert_eq in H2. cbn in H2. simplify_eq.
  unfold upd_node, mbind, M_bind, get_irn_node, deref, modify, mret, M_ret in H.
  cbn in H. rewrite H1 in H. cbn in H. simplify_eq.
  rewrite set_irg_insert_insert.
  rewrite <- Hsum in Hi.
  destruct (segregate_spec (irn_out a) (n_followers a0) (i - n_followers a0) t Hi)
    as [Hperm Hsorted].
  exact (edges_kept_write s leader a a0 _ (S (n_followers a0)) H0 H1 Hperm Hsorted).
Qed.

(** Segregating the Def-Use edges for a new follower only permutes the
    edges of its operands, and the leader edges of every node stay sorted
    by input position. *)
Theorem segregate_def_use_chain_keeps_edges follower s s' :
  segregate_def_use_chain follower s = Ok (tt, s') ->
  same_edges s s' /\ (leader_edges_sorted s -> leader_edges_sorted s').
Proof.
  revert s s'.
  assert (relates edges_kept (segregate_def_use_chain follower)) as H
    by (unfold segregate_def_use_chain, segregate_def_use_chain_1;
        apply relates_bind; [apply _ | apply relates_pure; [apply _ | apply pure_get_irn] |];
        intros irn; apply relates_for_each; [apply _ | apply _ |]; intros i;
        apply relates_bind; [apply _ | apply relates_pure; [apply _ | apply pure_get_irn_n] |];
        intros pred s a s' H; do 2 inv_read H; destruct a;
        eapply segregate_search_edges; [|done];
        intros ln Hln; same_lookups; apply Forall_forall; intros j Hj;
        apply elem_of_seq in Hj; lia).
  intros s s' Hrun. by apply H in Hrun.
Qed.

Lemma segregate_def_use_chain_keeps_edges_witness :
  let s' := final_state (segregate_def_use_chain 4) Ex.leaders_state in
  same_edges Ex.leaders_state s'
  /\ (leader_edges_sorted Ex.leaders_state -> leader_edges_sorted s').
Proof.
  apply (segregate_def_use_chain_keeps_edges 4 Ex.leaders_state).
  vm_compute. reflexivity.
Defined.

(** ** The apply phase: control-flow exits *)

Lemma length_filter_reverse {A} (f : A -> bool) l :
  length (List.filter f (reverse l)) = length (List.filter f l).
Proof.
  induction l as [|a l IH]; [done|].
  rewrite reverse_cons, List.filter_app, length_app, IH. cbn.
  destruct (f a); cbn; lia.
Qed.

Lemma only_one_reachable_proj_loop_Ok s outs k :
  k <= 1 ->
  Forall (fun e => exists proj, irg s !! use e = Some proj
                     /\ (irn_mode proj = mode_X -> is_Some (link s !! use e))) outs ->
  only_one_reachable_proj_loop outs k s
  = Ok (bool_decide
          (k + length (List.filter (fun e => reachable_X_user s (use e)) outs) <= 1), s).
Proof.
  intros Hk Hall. revert k Hk.
  induction Hall as [|e outs (proj & Hproj & Hnd) _ IH]; intros k Hk;
    cbn [only_one_reachable_proj_loop List.filter].
  { rewrite bool_decide_eq_true_2; [done | cbn; lia]. }
  mstep.
  assert (reachable_X_user s (use e)
          = bool_decide (irn_mode proj = mode_X)
            && match link s !! use e with
               | Some nd => tv_is (type nd) tarval_reachable
               | None => false
               end) as Hspec.
  { unfold reachable_X_user, type_of, tv_is. rewrite Hproj. cbn.
    f_equal; [apply bool_decide_ext; split; congruence|].
    destruct (link s !! use e); cbn; [apply bool_decide_ext; split; congruence|].
    by apply bool_decide_eq_false_2. }
  destruct (reachable_X_user s (use e)) eqn:Hr; symmetry in Hspec.
  - apply andb_true_iff in Hspec as [HX Ht]. apply bool_decide_eq_true in HX.
    rewrite (bool_decide_eq_true_2 _ HX). cbn [negb].
    destruct (link s !! use e) as [nd|] eqn:Hn; [|done]. mstep. rewrite Ht.
    cbn [length]. destruct k as [|k].
    + cbn [Nat.ltb Nat.leb]. rewrite IH by lia. reflexivity.
    + replace (1 <? S (S k)) with true by (symmetry; apply Nat.ltb_lt; lia).
      rewrite bool_decide_eq_false_2; [done | lia].
  - destruct (decide (irn_mode proj = mode_X)) as [HX|HX].
    + rewrite (bool_decide_eq_true_2 _ HX) in Hspec |- *. cbn [negb andb] in Hspec |- *.
      destruct (Hnd HX) as [nd Hn]. rewrite Hn in Hspec. mstep. rewrite Hspec.
      by apply IH.
    + rewrite (bool_decide_eq_false_2 _ HX). cbn [negb]. by apply IH.
Qed.

(** A tuple node has "only one reachable output" exactly when at most one
    of its control-flow users is Reachable; users of other modes do not
    count, and a node without users qualifies. *)
Theorem only_one_reachable_proj_counts s n irn :
  irg s !! n = Some irn ->
  Forall (fun e => exists proj, irg s !! use e = Some proj
                     /\ (irn_mode proj = mode_X -> is_Some (link s !! use e)))
         (irn_out irn) ->
  only_one_reachable_proj n s
  = Ok (bool_decide
          (length (List.filter (fun e => reachable_X_user s (use e)) (irn_out irn)) <= 1),
        s).
Proof.
  intros Hn Hall. unfold only_one_reachable_proj. mstep.
  rewrite only_one_reachable_proj_loop_Ok; [|lia|by apply Forall_reverse].
  f_equal. f_equal. apply bool_decide_ext.
  rewrite length_filter_reverse. lia.
Qed.

Lemma only_one_reachable_proj_counts_witness :
  only_one_reachable_proj 2 Ex.cond_done_state = Ok (true, Ex.cond_done_state)
  /\ only_one_reachable_proj 2 Ex.cprop_base = Ok (true, Ex.cprop_base).
Proof.
  split.
  - refine (only_one_reachable_proj_counts Ex.cond_done_state 2 _ eq_refl _).
    repeat constructor; eexists; (split; [reflexivity|]); intros _; by eexists.
  - refine (only_one_reachable_proj_counts Ex.cprop_base 2 _ eq_refl _).
    repeat constructor; eexists; (split; [reflexivity|]); intros _; by eexists.
Defined.

(** ** The apply phase: keep-alives and kept memory *)

Lemma apply_end_loop_filter s kas in_ r s' :
  apply_end_loop kas in_ s = Ok (r, s') ->
  s' = s /\ r = in_ ++ List.filter (keepalive_live s) kas.
Proof.
  revert in_. induction kas as [|ka kas IH]; intros in_ H; cbn [apply_end_loop] in H.
  { apply mret_Ok_inv in H as [<- <-]. by rewrite app_nil_r. }
  inv_read H. cbn [List.filter]. unfold keepalive_live at 1. rewrite H0.
  destruct (is_op iro_Bad a) eqn:Hbad; cbn [negb andb]; [by apply IH|].
  destruct (is_op iro_Block a) eqn:Hblock; cbn [negb] in H |- *.
  - apply bind_Ok_inv in H as (blk & s1 & H1 & H).
    apply mret_Ok_inv in H1 as [<- <-].
    inv_read H. unfold block_unreachable. rewrite H1.
    destruct (tv_is (type a0) tarval_unreachable); cbn [negb] in H |- *; [by apply IH|].
    apply IH in H as [-> ->]. by rewrite <- (assoc_L (++)).
  - apply bind_Ok_inv in H as (blk & s1 & H1 & H). inv_read H1. rewrite H2.
    apply mret_Ok_inv in H1 as [<- <-].
    destruct (is_op iro_Bad a0); cbn [negb andb]; [by apply IH|].
    inv_read H. unfold block_unreachable. rewrite H1.
    destruct (tv_is (type a1) tarval_unreachable); cbn [negb] in H |- *; [by apply IH|].
    apply IH in H as [-> ->]. by rewrite <- (assoc_L (++)).
Qed.

(** [apply_end] keeps exactly the keep-alives of the End node that are
    live -- no Bad, and not in a Bad or Unreachable block -- in their
    order.  When none is dropped nothing is written at all; otherwise the
    graph is marked modified. *)
Theorem apply_end_filters end_node e s s' :
  irg s !! end_node = Some e ->
  apply_end end_node s = Ok (tt, s') ->
  s' = if length (List.filter (keepalive_live s) (irn_in e)) =? length (irn_in e)
       then s
       else set_env (with_modified true)
              (set_irg (<[end_node := with_irn_in (List.filter (keepalive_live s) (irn_in e))
                                        e]>) s).
Proof.
  intros He H. unfold apply_end in H. inv_read H. same_lookups.
  apply bind_Ok_inv in H as (in_ & s1 & H1 & H).
  apply apply_end_loop_filter in H1 as [-> ->]. cbn [app] in H.
  unfold get_irn_arity in H.
  destruct (length (List.filter (keepalive_live s) (irn_in e)) =? length (irn_in e));
    cbn [negb] in H.
  - by apply mret_Ok_inv in H as [_ <-].
  - unfold set_irn_in in H. rewrite (bind_Ok _ _ _ _ _ (upd_irn_Ok _ _ _ _ He)) in H.
    unfold set_modified, modify in H. by injection H as <-.
Qed.

Lemma apply_end_filters_witness :
  final_state (apply_end 9) Ex.end_state
  = set_env (with_modified true)
      (set_irg (<[9 := Ex.irn iro_End mode_X 0 [0]]>) Ex.end_state).
Proof.
  refine (apply_end_filters 9 _ Ex.end_state _ eq_refl _).
  vm_compute. reflexivity.
Defined.

Lemma all_users_are_dead_loop_spec s outs r s' :
  all_users_are_dead_loop outs s = Ok (r, s') ->
  s' = s /\ r = forallb (fun e => user_dead s (use e)) outs.
Proof.
  induction outs as [|e outs IH]; intros H; cbn [all_users_are_dead_loop forallb] in H |- *.
  { by apply mret_Ok_inv in H as [<- <-]. }
  do 2 inv_read H. unfold user_dead at 1, block_unreachable. rewrite H0, H1.
  destruct (tv_is (type a0) tarval_unreachable); cbn [orb andb]; [by apply IH|].
  inv_read H. rewrite H2.
  destruct (tv_is (type a1) tarval_top); cbn [negb andb] in H |- *; [by apply IH|].
  by apply mret_Ok_inv in H as [<- <-].
Qed.

(** [find_kept_memory] only reads.  It appends the node to the kept memory
    exactly when the node is a memory node, its block is not Unreachable,
    its type is not Top, and every user of it is dead: in an Unreachable
    block or of type Top; a node without users counts.  Otherwise the kept
    memory is returned as it is. *)
Theorem find_kept_memory_keeps_live_memory irn kept s n block node kept' s' :
  irg s !! irn = Some n ->
  link s !! irn_block n = Some block ->
  link s !! irn = Some node ->
  find_kept_memory irn kept s = Ok (kept', s') ->
  s' = s
  /\ kept' = if bool_decide (irn_mode n = mode_M)
                && negb (tv_is (type block) tarval_unreachable)
                && negb (tv_is (type node) tarval_top)
                && forallb (fun e => user_dead s (use e)) (irn_out n)
             then kept ++ [irn] else kept.
Proof.
  intros Hn Hb Hnode H. unfold find_kept_memory in H. inv_read H. same_lookups.
  destruct (bool_decide (irn_mode n = mode_M)); cbn [negb andb] in H |- *.
  2: { by apply mret_Ok_inv in H as [<- <-]. }
  inv_read H. same_lookups.
  destruct (tv_is (type block) tarval_unreachable); cbn [negb andb] in H |- *.
  { by apply mret_Ok_inv in H as [<- <-]. }
  inv_read H. same_lookups.
  destruct (tv_is (type node) tarval_top); cbn [negb andb] in H |- *.
  { by apply mret_Ok_inv in H as [<- <-]. }
  apply bind_Ok_inv in H as (dead & s1 & H1 & H).
  unfold all_users_are_dead in H1. inv_read H1. same_lookups.
  apply all_users_are_dead_loop_spec in H1 as [-> ->].
  destruct (forallb _ _); by apply mret_Ok_inv in H as [<- <-].
Qed.

Lemma find_kept_memory_keeps_live_memory_witness :
  Ex.kept_state = Ex.kept_state /\ [1] = [] ++ [1].
Proof.
  refine (find_kept_memory_keeps_live_memory 1 [] Ex.kept_state _ _ _ [1] Ex.kept_state
            eq_refl eq_refl eq_refl _).
  vm_compute. reflexivity.
Defined.

Lemma set_irg_with_irn_in_id s k e :
  irg s !! k = Some e -> set_irg (<[k := with_irn_in (irn_in e) e]>) s = s.
Proof.
  intros H. replace (with_irn_in (irn_in e) e) with e by (by destruct e).
  by apply set_irg_insert_id.
Qed.

Lemma add_memory_keeps_loop (set : gset nat) end_node kept s e s' :
  irg s !! end_node = Some e ->
  for_each kept (fun ka =>
    if negb (bool_decide (ka ∈ set)) then add_End_keepalive end_node ka else mret tt) s
  = Ok (tt, s') ->
  s' = set_irg (<[end_node := with_irn_in (irn_in e ++ filter (fun ka => ka ∉ set) kept)
                                e]>) s.
Proof.
  revert s e. induction kept as [|ka kept IH]; intros s e He H; cbn [for_each] in H.
  { apply mret_Ok_inv in H as [_ <-]. rewrite filter_nil, app_nil_r.
    by rewrite set_irg_with_irn_in_id. }
  apply bind_Ok_inv in H as ([] & s1 & H1 & H).
  rewrite filter_cons. destruct (decide (ka ∈ set)) as [Hin|Hnin].
  - rewrite bool_decide_eq_true_2 in H1 by done. cbn [negb] in H1.
    apply mret_Ok_inv in H1 as [_ <-]. rewrite decide_False by tauto. by apply IH.
  - rewrite bool_decide_eq_false_2 in H1 by done. cbn [negb] in H1.
    unfold add_End_keepalive in H1. rewrite (upd_irn_Ok _ _ _ _ He) in H1.
    injection H1 as <-. rewrite decide_True by done.
    eapply IH in H; [|cbn; by rewrite lookup_insert_eq]. rewrite H.
    rewrite set_irg_insert_insert. cbn. by rewrite <- (assoc_L (++)).
Qed.

(** [add_memory_keeps] appends to the keep-alives of the End node, in
    their order, the kept memory nodes that were not keep-alives before;
    the keep-alives there were stay in place, and nothing else is
    written. *)
Theorem add_memory_keeps_appends_new end_node e kept s s' :
  irg s !! end_node = Some e ->
  add_memory_keeps end_node kept s = Ok (tt, s') ->
  s' = set_irg (<[end_node := with_irn_in
                    (irn_in e ++ filter (fun ka => ka ∉ irn_in e) kept) e]>) s.
Proof.
  intros He H. unfold add_memory_keeps in H. inv_read H. same_lookups.
  apply (add_memory_keeps_loop _ _ _ _ _ _ He) in H. rewrite H.
  do 4 f_equal. apply list_filter_iff. intros ka.
  by rewrite elem_of_list_to_set.
Qed.

Lemma add_memory_keeps_appends_new_witness :
  final_state (add_memory_keeps 9 [0; 1]) Ex.kept_state
  = set_irg (<[9 := with_irn_in ([0] ++ filter (fun ka => ka ∉ [0]) [0; 1])
                      (Ex.irn iro_End mode_X 0 [0])]>) Ex.kept_state.
Proof.
  refine (add_memory_keeps_appends_new 9 _ [0; 1] Ex.kept_state _ eq_refl _).
  vm_compute. reflexivity.
Defined.

(** ** The apply phase: what is replaced, and by what *)

Lemma pure_only_one_reachable_proj_loop outs k : pure (only_one_reachable_proj_loop outs k).
Proof. revert k. induction outs as [|e outs IH]; intros k; cbn; pure_auto. Qed.
#[local] Hint Resolve pure_only_one_reachable_proj_loop : pure.

Lemma pure_only_one_reachable_proj n : pure (only_one_reachable_proj n).
Proof. unfold only_one_reachable_proj. pure_auto. Qed.
#[local] Hint Resolve pure_only_one_reachable_proj : pure.

Lemma pure_has_Unknown_pred preds : pure (has_Unknown_pred preds).
Proof. induction preds as [|p preds IH]; cbn; pure_auto. Qed.
#[local] Hint Resolve pure_has_Unknown_pred : pure.

Lemma pure_get_leader nd : pure (get_leader nd).
Proof. unfold get_leader. pure_auto. Qed.
#[local] Hint Resolve pure_get_leader : pure.

(** Inverts the bind at the head of a run that returned; a read leaves the
    state as it was. *)
Ltac peel_pure H :=
  let a := fresh "a" in
  let s1 := fresh "s" in
  let H1 := fresh "H" in
  apply bind_Ok_inv in H as (a & s1 & H1 & H);
  try match type of H1 with
      | ?m _ = _ =>
          let K := fresh "K" in
          assert (pure m) as K
            by (unfold get_Proj_pred, get_Switch_selector, get_memop_mem;
                pure_auto);
          apply K in H1 as ->; clear K
      end.

(** [apply_result] reports what it did: when it names no replacement it
    has changed neither the graph nor any record, partition or the modified
    flag; when it names one it has marked the graph modified. *)
Theorem apply_result_reports irn s r s' :
  apply_result irn s = Ok (r, s') -> reports_faithfully s r s'.
Proof.
  intros H. unfold apply_result in H.
  repeat first
    [ match type of H with
      | (if ?b then _ else _) _ = _ => destruct b
      | (match ?x with _ => _ end) _ = _ => destruct x
      end
    | peel_pure H ];
    apply mret_Ok_inv in H as [<- <-]; cbn;
    try done;
    try match goal with
        | Hm : set_modified _ = Ok (_, _) |- _ =>
            unfold set_modified, modify in Hm; by simplify_eq
        end.
  all: match goal with
       | Hm : (if ?c then _ else _) _ = Ok (_, _) |- _ =>
           destruct c; cbv [modify mret M_ret] in Hm; simplify_eq;
           repeat split; reflexivity
       end.
Qed.

Lemma apply_result_reports_witness :
  reports_faithfully Ex.load_state (Some (by_mem 1)) (final_state (apply_result 4) Ex.load_state)
  /\ reports_faithfully Ex.load_state None (final_state (apply_result 2) Ex.load_state).
Proof.
  split.
  - apply (apply_result_reports 4). vm_compute. reflexivity.
  - apply (apply_result_reports 2). vm_compute. reflexivity.
Defined.

(** A node in an Unreachable block, whatever its type, is exchanged for a
    fresh Bad of its mode (Blocks, the End node and Bads are not touched):
    the Bad takes the next free node index, every node that used the old
    node uses the Bad instead, the Bad shares the record of the old node,
    and the graph is marked modified. *)
Theorem apply_result_dead_block s irn n node block cur :
  irg s !! irn = Some n ->
  link s !! irn = Some node ->
  link s !! irn_block n = Some block ->
  irg s !! node_irn node = Some cur ->
  is_op iro_Block n || is_op iro_End n || is_op iro_Bad n = false ->
  type block = ty_Unreachable ->
  irn_fresh s ->
  exists s',
    apply_result irn s = Ok (Some (by_Bad (next_irn s)), s')
    /\ irn_op <$> irg s' !! next_irn s = Some iro_Bad
    /\ irn_mode <$> irg s' !! next_irn s = Some (irn_mode cur)
    /\ (forall u un, irg s !! u = Some un ->
          irg s' !! u = Some (reroute irn (next_irn s) un))
    /\ link s' !! next_irn s = Some (with_node_irn (next_irn s) node)
    /\ modified (env s') = true.
Proof.
  intros Hn Hnode Hb Hcur Hop Hbt Hfresh.
  unfold apply_result. do 2 mstep. rewrite Hop. mstep.
  rewrite (proj2 (tv_is_true _ _) Hbt). mstep.
  unfold new_r_node, new_ir_node, retarget, exchange, set_modified, upd_node,
    set_irn_node.
  mrun. rewrite Hnode. cbn. rewrite lookup_insert_eq. cbn.
  eexists. split; [reflexivity|]. cbn.
  rewrite !lookup_fmap, !lookup_insert_eq. cbn.
  split; [done|]. split; [done|]. split; [|split; [|done]].
  - intros u un Hu. rewrite lookup_fmap, lookup_insert_ne, Hu; [done|].
    intros <-. rewrite Hfresh in Hu; [done | lia].
  - done.
Qed.

Lemma retype_fresh k t s : irn_fresh s -> irn_fresh (retype k t s).
Proof. unfold irn_fresh, retype. by destruct (link s !! k). Qed.

(** The example graph numbers its nodes from [0] without a gap. *)
Lemma load_state_fresh : irn_fresh Ex.load_state.
Proof.
  intros i Hi.
  destruct (irg Ex.load_state !! i) as [x|] eqn:Hx; [|done].
  apply elem_of_list_to_map_2 in Hx.
  assert (6 <= i) as Hi' by exact Hi. clear Hi.
  repeat (apply elem_of_cons in Hx as [[= -> _]|Hx]; [lia|]).
  by apply elem_of_nil in Hx.
Qed.

Lemma apply_result_dead_block_witness :
  let s := retype 0 ty_Unreachable Ex.load_state in
  exists s',
    apply_result 5 s = Ok (Some (by_Bad 6), s')
    /\ irn_op <$> irg s' !! 6 = Some iro_Bad
    /\ irn_mode <$> irg s' !! 6 = Some Ex.Is
    /\ (forall u un, irg s !! u = Some un -> irg s' !! u = Some (reroute 5 6 un))
    /\ link s' !! 6 = Some (with_node_irn 6 (Ex.nd 5 0 ty_Top))
    /\ modified (env s') = true.
Proof.
  refine (apply_result_dead_block (retype 0 ty_Unreachable Ex.load_state) 5 _ _ _ _
            eq_refl eq_refl eq_refl eq_refl eq_refl eq_refl _).
  apply retype_fresh, load_state_fresh.
Defined.

(** A data node whose type is a constant tarval is exchanged for a Const of
    that tarval, unless it is a Const already: the Const takes the next
    free node index and has the mode of the tarval.  When the node has
    another mode, a Conv of the Const to the mode of the node is what the
    users get.  Every node that used the old node uses the replacement
    instead, and the graph is marked modified. *)
Theorem apply_result_constant s irn n node block tv :
  irg s !! irn = Some n ->
  link s !! irn = Some node ->
  link s !! irn_block n = Some block ->
  is_op iro_Block n || is_op iro_End n || is_op iro_Bad n = false ->
  type block <> ty_Unreachable ->
  type node = L_tv tv ->
  tarval_is_constant tv = true ->
  irn_mode n <> mode_X ->
  irn_mode n <> mode_T ->
  irn_op n <> iro_Const ->
  irn_fresh s ->
  exists s',
    apply_result irn s
    = Ok (Some (by_Const (if bool_decide (irn_mode n = get_tarval_mode tv)
                          then next_irn s else S (next_irn s))), s')
    /\ irn_op <$> irg s' !! next_irn s = Some iro_Const
    /\ (fun c => attr_tarval (irn_attr c)) <$> irg s' !! next_irn s = Some tv
    /\ irn_mode <$> irg s' !! next_irn s = Some (get_tarval_mode tv)
    /\ (irn_mode n <> get_tarval_mode tv ->
        (fun c => (irn_op c, irn_mode c, irn_in c)) <$> irg s' !! S (next_irn s)
        = Some (iro_Conv, irn_mode n, [next_irn s]))
    /\ (forall u un, irg s !! u = Some un ->
          irg s' !! u
          = Some (reroute irn (if bool_decide (irn_mode n = get_tarval_mode tv)
                               then next_irn s else S (next_irn s)) un))
    /\ modified (env s') = true.
Proof.
  intros Hn Hnode Hb Hop Hbt Ht Hc HX HT Hconst Hfresh.
  assert (irn <> next_irn s) as Hne.
  { intros ->. rewrite Hfresh in Hn; [done | lia]. }
  assert (forall u un, irg s !! u = Some un -> u <> next_irn s /\ u <> S (next_irn s))
    as Hold.
  { intros u un Hu. split; intros ->; (rewrite Hfresh in Hu; [done | lia]). }
  unfold apply_result. do 2 mstep. rewrite Hop. mstep.
  rewrite (proj2 (tv_is_false _ _) Hbt).
  rewrite Ht. rewrite (proj2 (tv_is_false _ _)) by (intros [= ->]; done).
  rewrite (bool_decide_eq_false_2 _ HX). rewrite Hc.
  unfold is_op. rewrite (bool_decide_eq_false_2 _ Hconst), (bool_decide_eq_false_2 _ HT).
  cbn [negb andb].
  unfold new_r_node, new_ir_node, retarget, exchange_leader, exchange, set_modified,
    upd_node, set_irn_node.
  mrun. rewrite Hnode. cbn. rewrite lookup_insert_eq. cbn.
  rewrite lookup_insert_ne, Hn by done. cbn. rewrite lookup_insert_eq. cbn.
  destruct (bool_decide_reflect (irn_mode n = get_tarval_mode tv)) as [Hm|Hm]; cbn.
  - eexists. split; [reflexivity|]. cbn.
    rewrite !lookup_fmap, !lookup_insert_eq. cbn.
    split; [done|]. split; [done|]. split; [done|]. split; [done|].
    split; [|done].
    intros u un Hu. destruct (Hold u un Hu) as [Hu1 Hu2].
    by rewrite lookup_fmap, lookup_insert_ne, Hu.
  - eexists. split; [reflexivity|]. cbn.
    rewrite !lookup_fmap, lookup_insert_eq.
    rewrite lookup_insert_ne, lookup_insert_eq by lia. cbn.
    split; [done|]. split; [done|]. split; [done|]. split.
    + intros _. rewrite (bool_decide_eq_false_2 (next_irn s = irn)) by done. done.
    + split; [|done].
      intros u un Hu. destruct (Hold u un Hu) as [Hu1 Hu2].
      by rewrite lookup_fmap, !lookup_insert_ne, Hu.
Qed.

Lemma apply_result_constant_witness :
  let s := retype 5 (L_tv (tarval_value Ex.Is 3)) Ex.load_state in
  exists s',
    apply_result 5 s = Ok (Some (by_Const 6), s')
    /\ irn_op <$> irg s' !! 6 = Some iro_Const
    /\ (fun c => attr_tarval (irn_attr c)) <$> irg s' !! 6 = Some (tarval_value Ex.Is 3)
    /\ irn_mode <$> irg s' !! 6 = Some Ex.Is
    /\ (Ex.Is <> Ex.Is ->
        (fun c => (irn_op c, irn_mode c, irn_in c)) <$> irg s' !! 7
        = Some (iro_Conv, Ex.Is, [6]))
    /\ (forall u un, irg s !! u = Some un -> irg s' !! u = Some (reroute 5 6 un))
    /\ modified (env s') = true.
Proof.
  refine (apply_result_constant (retype 5 (L_tv (tarval_value Ex.Is 3)) Ex.load_state)
            5 _ _ _ (tarval_value Ex.Is 3)
            eq_refl eq_refl eq_refl eq_refl _ eq_refl eq_refl _ _ _ _);
    try discriminate.
  apply retype_fresh, load_state_fresh.
Defined.

(** ** The splitter keeps the Def-Use edges in order *)

Lemma edges_view_kept s s' : edges_view s' = edges_view s -> edges_kept s s'.
Proof.
  unfold edges_view. intros [= Hirg Hnf]. split.
  - intros p irn Hp. exists irn. rewrite Hirg. split; [done|]. split; [done|].
    apply with_irn_out_id.
  - intros Hs p irn nd Hp Hnd. rewrite Hirg in Hp.
    assert (exists nd0, link s !! p = Some nd0 /\ n_followers nd0 = n_followers nd)
      as (nd0 & Hnd0 & <-).
    { pose proof (f_equal (fun m => m !! p) Hnf) as Hl. cbn in Hl.
      rewrite !lookup_fmap, Hnd in Hl. cbn in Hl.
      destruct (link s !! p) as [nd0|]; [|done]. exists nd0. split; [done|].
      cbn in Hl. congruence. }
    by eapply Hs.
Qed.

Lemma relates_keeps_edges {A} (m : M A) : keeps edges_view m -> relates edges_kept m.
Proof. intros Hm s a s' H. apply edges_view_kept. by eapply Hm. Qed.

Lemma keeps_ev_upd_node z f :
  (forall nd, n_followers (f nd) = n_followers nd) ->
  keeps edges_view (upd_node z f).
Proof.
  intros Hf s a s' H.
  unfold upd_node, mbind, M_bind, get_irn_node, deref, modify, mret, M_ret in H.
  destruct (link s !! z) as [nd|] eqn:Hz; cbn in H; [|done]. simplify_eq.
  unfold edges_view. cbn. f_equal. rewrite fmap_insert, Hf. apply insert_id.
  by rewrite lookup_fmap, Hz.
Qed.

#[local] Hint Extern 1 (keeps edges_view (upd_node _ _)) =>
  apply keeps_ev_upd_node; reflexivity : keeps.

Lemma relates_move_edges_to_leader x : relates edges_kept (move_edges_to_leader x).
Proof.
  unfold move_edges_to_leader.
  apply relates_bind; [apply _ | apply relates_pure; [apply _ | apply pure_get_irn] |].
  intros irn. apply relates_for_each; [apply _ | apply _ |]. intros i.
  apply relates_bind; [apply _ | apply relates_pure; [apply _ | apply pure_get_irn_n] |].
  intros pred s a s' H. inv_read H. destruct a.
  eapply move_edge_search_edges; [|done].
  intros pn Hpn. same_lookups. apply Forall_forall. intros j Hj.
  apply elem_of_seq in Hj. lia.
Qed.

(** Decomposes a program into parts that keep the graph and the follower
    counts, and transitions of followers to leaders. *)
Create HintDb relates discriminated.
#[local] Hint Resolve relates_move_edges_to_leader : relates.

Ltac relates_auto leaf :=
  repeat first
    [ solve [eauto 2 with relates]
    | match goal with
      | |- relates _ (_ ≫= _) => apply relates_bind; [apply _ | | intros ?]
      | |- relates _ (for_each _ _) => apply relates_for_each; [apply _ | apply _ | intros ?]
      | |- relates _ (if ?b then _ else _) => destruct b
      | |- relates _ (match ?x with _ => _ end) => destruct x
      end
    | apply relates_pure; [apply _ | solve [eauto with pure]]
    | apply leaf;
      solve [unfold add_tail_Leader, add_tail_Follower, list_del_node_list,
               place_on_cprop, add_to_worklist, update_worklist, new_partition,
               add_to_fallen, lambda_opcode;
             keeps_auto] ].

Ltac edges_auto := relates_auto @relates_keeps_edges.

Lemma relates_follower_to_leader n : relates edges_kept (follower_to_leader n).
Proof. unfold follower_to_leader. edges_auto. Qed.
#[local] Hint Resolve relates_follower_to_leader : relates.

Lemma relates_clear_flags l res : relates edges_kept (clear_flags l res).
Proof. revert res. induction l as [|n l IH]; intros res; cbn; edges_auto. Qed.
#[local] Hint Resolve relates_clear_flags : relates.

Lemma relates_promote_lost_followers l res :
  relates edges_kept (promote_lost_followers l res).
Proof. revert res. induction l as [|n l IH]; intros res; cbn; edges_auto. Qed.
#[local] Hint Resolve relates_promote_lost_followers : relates.

Lemma keeps_ev_step_edges n_part side edges index :
  keeps edges_view (step_edges n_part side edges index).
Proof. revert index. induction edges as [|e edges IH]; intros index; cbn; keeps_auto. Qed.
#[local] Hint Resolve keeps_ev_step_edges : keeps.

Lemma keeps_ev_step_unwalked env unw : keeps edges_view (step_unwalked env unw).
Proof. revert env. induction unw as [|n unw IH]; intros env; cbn; keeps_auto. Qed.
#[local] Hint Resolve keeps_ev_step_unwalked : keeps.

Lemma keeps_ev_race fuel senv0 senv1 : keeps edges_view (race fuel senv0 senv1).
Proof.
  revert senv0 senv1. induction fuel as [|fuel IH]; intros senv0 senv1; cbn;
    unfold step; keeps_auto.
Qed.
#[local] Hint Resolve keeps_ev_race : keeps.

Lemma keeps_ev_move_walked X_prime l n : keeps edges_view (move_walked X_prime l n).
Proof.
  revert n. induction l as [|x l IH]; intros n; cbn;
    unfold add_tail_Follower, add_tail_Leader, list_del_node_list; keeps_auto.
Qed.
#[local] Hint Resolve keeps_ev_move_walked : keeps.

Lemma keeps_ev_split_no_followers Z g : keeps edges_view (split_no_followers Z g).
Proof.
  unfold split_no_followers, update_worklist, add_to_worklist, new_partition,
    add_tail_Leader, list_del_node_list.
  keeps_auto.
Qed.
#[local] Hint Resolve keeps_ev_split_no_followers : keeps.

(** Splitting a partition, by the fast path or by the race with its
    follower to leader transitions, only permutes the Def-Use edges of the
    nodes, and leader edges that were sorted by input position stay
    sorted. *)
Theorem split_keeps_edges fuel X gg s r s' :
  split fuel X gg s = Ok (r, s') ->
  same_edges s s' /\ (leader_edges_sorted s -> leader_edges_sorted s').
Proof.
  revert s r s'.
  assert (relates edges_kept (split fuel X gg)) as H
    by (unfold split; edges_auto).
  intros s r s' Hrun. by apply H in Hrun.
Qed.

Lemma split_keeps_edges_witness :
  let s' := final_state (split 40 0 [0]) Ex.race_state in
  same_edges Ex.race_state s'
  /\ (leader_edges_sorted Ex.race_state -> leader_edges_sorted s').
Proof.
  refine (split_keeps_edges 40 0 [0] Ex.race_state (1, 0) _ _).
  vm_compute. reflexivity.
Defined.

(** ** The touched sets *)

Lemma upd_node_inv n f s u s' :
  upd_node n f s = Ok (u, s') ->
  exists nd, link s !! n = Some nd /\ s' = set_link (<[n := f nd]>) s.
Proof.
  unfold upd_node. intros H. inv_read H. unfold modify in H. simplify_eq. eauto.
Qed.

Lemma upd_part_inv p f s u s' :
  upd_part p f s = Ok (u, s') ->
  exists P, obst s !! p = Some P /\ s' = set_obst (<[p := f P]>) s.
Proof.
  unfold upd_part. intros H. inv_read H. unfold modify in H. simplify_eq. eauto.
Qed.

Lemma modify_inv g s u s' : modify g s = Ok (u, s') -> s' = g s.
Proof. unfold modify. by intros [= <-]. Qed.

(** Peels a write off the head of a run that returned. *)
Ltac inv_write H :=
  let a := fresh "a" in let s1 := fresh "s" in let H1 := fresh "H" in
  let x := fresh "x" in let Hx := fresh "Hx" in
  apply bind_Ok_inv in H as (a & s1 & H1 & H);
  first [ apply upd_node_inv in H1 as (x & Hx & ->)
        | apply upd_part_inv in H1 as (x & Hx & ->)
        | apply modify_inv in H1 as -> ].

Lemma keeps_tv_upd_node z f :
  (forall nd, on_touched (f nd) = on_touched nd) -> keeps touched_view (upd_node z f).
Proof.
  intros Hf s a s' H. apply upd_node_inv in H as (nd & Hz & ->).
  unfold touched_view. cbn. do 3 f_equal. rewrite fmap_insert, Hf. apply insert_id.
  by rewrite lookup_fmap, Hz.
Qed.

Lemma keeps_tv_upd_part p f :
  (forall P, (touched (f P), n_touched (f P), p_on_touched (f P))
             = (touched P, n_touched P, p_on_touched P)) ->
  keeps touched_view (upd_part p f).
Proof.
  intros Hf s a s' H. apply upd_part_inv in H as (P & Hp & ->).
  unfold touched_view. cbn. do 2 f_equal. f_equal. rewrite fmap_insert, Hf.
  apply insert_id. by rewrite lookup_fmap, Hp.
Qed.

#[local] Hint Extern 1 (keeps touched_view (upd_node _ _)) =>
  apply keeps_tv_upd_node; reflexivity : keeps.
#[local] Hint Extern 1 (keeps touched_view (upd_part _ _)) =>
  apply keeps_tv_upd_part; reflexivity : keeps.

Lemma touched_view_at s s' :
  touched_view s' = touched_view s ->
  (forall y, flag_at s' y = flag_at s y)
  /\ (forall p, touched_at s' p = touched_at s p)
  /\ (forall p, obst s' !! p = None <-> obst s !! p = None)
  /\ env_touched (env s') = env_touched (env s)
  /\ next_part s' = next_part s.
Proof.
  unfold touched_view. intros [= Hl Ho He Hn]. repeat split; try done.
  - intros y. unfold flag_at. rewrite <- !lookup_fmap. by rewrite Hl.
  - intros p. unfold touched_at.
    pose proof (f_equal (fun m => m !! p) Ho) as Hp. cbn in Hp.
    rewrite !lookup_fmap in Hp.
    destruct (obst s' !! p), (obst s !! p); cbn in *; congruence.
  - intros Hp. pose proof (f_equal (fun m => m !! p) Ho) as Hq. cbn in Hq.
    rewrite !lookup_fmap, Hp in Hq. by destruct (obst s !! p).
  - intros Hp. pose proof (f_equal (fun m => m !! p) Ho) as Hq. cbn in Hq.
    rewrite !lookup_fmap, Hp in Hq. by destruct (obst s' !! p).
Qed.

Global Instance touched_kept_refl : Reflexive touched_kept.
Proof. intros s. by repeat split. Qed.

Global Instance touched_kept_trans : Transitive touched_kept.
Proof.
  intros s1 s2 s3 (Hf1 & He1 & Hp1) (Hf2 & He2 & Hp2). split; [|split].
  - intros y. by rewrite Hf2.
  - congruence.
  - intros Hfr. destruct (Hp1 Hfr) as [Hfr2 Ht1]. destruct (Hp2 Hfr2) as [Hfr3 Ht2].
    split; [done|]. intros p. by rewrite Ht2.
Qed.

Lemma relates_keeps_touched {A} (m : M A) :
  keeps touched_view m -> relates touched_kept m.
Proof.
  intros Hm s a s' H. apply Hm in H.
  apply touched_view_at in H as (Hf & Ht & Hd & He & Hn).
  split; [done|]. split; [done|]. intros Hfr. split; [|done].
  intros p Hp. apply Hd, Hfr. lia.
Qed.

Lemma relates_touched_new_partition : relates touched_kept new_partition.
Proof.
  intros s a s' H. unfold new_partition in H. inv_read H. inv_write H.
  apply mret_Ok_inv in H as [_ <-]. split; [done|]. split; [done|].
  intros Hfr. subst. split.
  - intros p Hp. cbn in Hp |- *. rewrite lookup_insert_ne by lia. apply Hfr. lia.
  - intros p. unfold touched_at. cbn.
    destruct (decide (p = next_part s)) as [->|Hne].
    + rewrite lookup_insert_eq, Hfr by lia. done.
    + by rewrite lookup_insert_ne.
Qed.
#[local] Hint Resolve relates_touched_new_partition : relates.

(** Decomposes a program into parts that keep the touched flags and lists,
    and the making of partitions. *)
Ltac touched_auto := relates_auto @relates_keeps_touched.

Lemma keeps_tv_move_edge_search irn i pred js :
  keeps touched_view (move_edge_search irn i pred js).
Proof. induction js as [|j js IH]; cbn; keeps_auto. Qed.
#[local] Hint Resolve keeps_tv_move_edge_search : keeps.

Lemma keeps_tv_follower_to_leader n : keeps touched_view (follower_to_leader n).
Proof.
  unfold follower_to_leader, move_edges_to_leader, add_tail_Leader, list_del_node_list.
  keeps_auto.
Qed.
#[local] Hint Resolve keeps_tv_follower_to_leader : keeps.

Lemma keeps_tv_step_edges n_part side edges index :
  keeps touched_view (step_edges n_part side edges index).
Proof. revert index. induction edges as [|e edges IH]; intros index; cbn; keeps_auto. Qed.
#[local] Hint Resolve keeps_tv_step_edges : keeps.

Lemma keeps_tv_step_unwalked env unw : keeps touched_view (step_unwalked env unw).
Proof. revert env. induction unw as [|n unw IH]; intros env; cbn; keeps_auto. Qed.
#[local] Hint Resolve keeps_tv_step_unwalked : keeps.

Lemma keeps_tv_race fuel senv0 senv1 : keeps touched_view (race fuel senv0 senv1).
Proof.
  revert senv0 senv1. induction fuel as [|fuel IH]; intros senv0 senv1; cbn;
    unfold step; keeps_auto.
Qed.
#[local] Hint Resolve keeps_tv_race : keeps.

Lemma keeps_tv_clear_flags l res : keeps touched_view (clear_flags l res).
Proof. revert res. induction l as [|n l IH]; intros res; cbn; keeps_auto. Qed.
#[local] Hint Resolve keeps_tv_clear_flags : keeps.

Lemma keeps_tv_promote_lost_followers l res :
  keeps touched_view (promote_lost_followers l res).
Proof. revert res. induction l as [|n l IH]; intros res; cbn; keeps_auto. Qed.
#[local] Hint Resolve keeps_tv_promote_lost_followers : keeps.

Lemma keeps_tv_move_walked X_prime l n : keeps touched_view (move_walked X_prime l n).
Proof.
  revert n. induction l as [|x l IH]; intros n; cbn;
    unfold add_tail_Follower, add_tail_Leader, list_del_node_list; keeps_auto.
Qed.
#[local] Hint Resolve keeps_tv_move_walked : keeps.

Lemma keeps_tv_check_partition T : keeps touched_view (check_partition T).
Proof. apply keeps_pure. eauto with pure. Qed.
#[local] Hint Resolve keeps_tv_check_partition : keeps.

Lemma relates_touched_split_no_followers Z g :
  relates touched_kept (split_no_followers Z g).
Proof. unfold split_no_followers. touched_auto. Qed.
#[local] Hint Resolve relates_touched_split_no_followers : relates.

Lemma relates_touched_split fuel X gg : relates touched_kept (split fuel X gg).
Proof. unfold split. touched_auto. Qed.

Lemma check_list_inv l Z s u s' :
  check_list l Z s = Ok (u, s') ->
  s' = s /\ forall e, e ∈ l -> exists nd, link s !! e = Some nd /\ part nd = Z.
Proof.
  unfold check_list. revert s'. induction l as [|e l IH]; intros s' H; cbn in H.
  - apply mret_Ok_inv in H as [_ <-]. split; [done|]. intros e He. by apply elem_of_nil in He.
  - apply bind_Ok_inv in H as ([] & s1 & H1 & H). inv_read H1.
    apply assert_inv in H1 as [-> Hp]. apply bool_decide_eq_true in Hp.
    apply IH in H as [-> Hl]. split; [done|]. intros e' He'.
    apply elem_of_cons in He' as [->|He']; eauto.
Qed.

Lemma check_list_Ok l Z s :
  (forall e, e ∈ l -> exists nd, link s !! e = Some nd /\ part nd = Z) ->
  check_list l Z s = Ok (tt, s).
Proof.
  unfold check_list. induction l as [|e l IH]; intros Hl; cbn [for_each]; [done|].
  destruct (Hl e) as (nd & Hnd & Hp); [left|].
  assert ((nd ← get_irn_node e; assert (bool_decide (part nd = Z))) s = Ok (tt, s))
    as Hhd.
  { rewrite (bind_Ok _ _ _ _ _ (get_irn_node_Ok _ _ _ Hnd)).
    by rewrite bool_decide_true. }
  rewrite (bind_Ok _ _ _ _ _ Hhd). apply IH. intros e' He'. apply Hl. by right.
Qed.

Lemma add_to_touched_inv y s u s' :
  add_to_touched y s = Ok (u, s') ->
  exists nd, link s !! y = Some nd
    /\ if on_touched nd then s' = s
       else exists P P', obst s !! part nd = Some P
         /\ link s' = <[y := with_on_touched true nd]> (link s)
         /\ obst s' = <[part nd := P']> (obst s)
         /\ touched P' = y :: touched P /\ n_touched P' = S (n_touched P)
         /\ p_on_touched P' = true
         /\ env_touched (env s')
            = (if p_on_touched P then env_touched (env s)
               else part nd :: env_touched (env s))
         /\ irg s' = irg s /\ next_part s' = next_part s.
Proof.
  unfold add_to_touched. intros H. inv_read H. exists a. split; [done|].
  destruct (on_touched a); cbn in H.
  { by apply mret_Ok_inv in H as [_ <-]. }
  inv_read H. rename a0 into P. exists P.
  inv_write H. inv_write H. inv_write H. inv_read H.
  cbn in Hx0, Hx1, H2. same_lookups.
  rewrite lookup_insert_eq in Hx1. injection Hx1 as <-.
  rewrite lookup_insert_eq in H2. injection H2 as <-.
  apply bind_Ok_inv in H as ([] & s1 & Hhd & H).
  inv_read H. apply check_list_inv in H as [-> _].
  cbn in Hhd. destruct (p_on_touched P) eqn:Hon; cbn in Hhd.
  - apply mret_Ok_inv in Hhd as [_ <-]. eexists. cbn.
    rewrite !insert_insert_eq. repeat split; done.
  - inv_write Hhd. apply upd_part_inv in Hhd as (P1 & HP1 & ->).
    cbn in HP1. rewrite lookup_insert_eq in HP1. injection HP1 as <-.
    eexists. cbn. rewrite !insert_insert_eq. repeat split; done.
Qed.

Lemma touched_listed_view s s' zs :
  touched_view s' = touched_view s -> touched_listed zs s -> touched_listed zs s'.
Proof.
  intros Hv [H1 H2]. apply touched_view_at in Hv as (Hf & Ht & _).
  split.
  - intros y Hy. rewrite Hf in Hy. destruct (H1 y Hy) as (p & Hp & Hin).
    exists p. by rewrite Ht.
  - intros p Hp. rewrite Ht. by apply H2.
Qed.

Lemma inv_listed_keeps {A} (m : M A) :
  keeps touched_view m -> inv touched_set_listed m.
Proof.
  intros Hm s a s' [Hfr HJ] H. apply Hm in H. unfold touched_set_listed.
  pose proof (touched_view_at _ _ H) as (_ & _ & Hd & -> & Hn).
  split; [|by eapply touched_listed_view].
  intros p Hp. apply Hd, Hfr. lia.
Qed.

Lemma flag_at_insert s y nd y' :
  flag_at (set_link (<[y := nd]>) s) y'
  = if decide (y' = y) then Some (on_touched nd) else flag_at s y'.
Proof.
  unfold flag_at. cbn. destruct (decide (y' = y)) as [->|Hne].
  - by rewrite lookup_insert_eq.
  - by rewrite lookup_insert_ne.
Qed.

Lemma inv_listed_add_to_touched y : inv touched_set_listed (add_to_touched y).
Proof.
  intros s [] s' [Hfr [H1 H2]] H.
  apply add_to_touched_inv in H as (nd & Hnd & H).
  destruct (on_touched nd) eqn:Hon; [by subst|].
  destruct H as (P & P' & HP & Hl & Ho & Ht & Hn & Hpt & He & _ & Hnp).
  split.
  { intros p Hp. rewrite Ho. rewrite Hnp in Hp.
    rewrite lookup_insert_ne; [by apply Hfr|].
    intros <-. rewrite Hfr in HP; done. }
  assert (part nd ∈ env_touched (env s')) as Hin.
  { rewrite He. destruct (p_on_touched P) eqn:HonP; [|left].
    destruct (decide (part nd ∈ env_touched (env s))) as [|Hnot]; [done|].
    apply H2 in Hnot. unfold touched_at in Hnot. rewrite HP in Hnot. cbn in Hnot.
    congruence. }
  assert (forall p, (touched_at s p).1.1 ⊆ (touched_at s' p).1.1) as Hsub.
  { intros p z Hz. unfold touched_at in *. rewrite Ho.
    destruct (decide (p = part nd)) as [->|Hne].
    - rewrite lookup_insert_eq. cbn. rewrite Ht. right. by rewrite HP in Hz.
    - by rewrite lookup_insert_ne. }
  split.
  - intros y' Hy'. unfold flag_at in Hy'. rewrite Hl in Hy'.
    destruct (decide (y' = y)) as [->|Hne].
    + exists (part nd). split; [done|]. unfold touched_at. rewrite Ho, lookup_insert_eq.
      cbn. rewrite Ht. left.
    + rewrite lookup_insert_ne in Hy' by done.
      destruct (H1 y' Hy') as (p & Hp & Hz). exists p. split; [|by apply Hsub].
      rewrite He. destruct (p_on_touched P); [done|by right].
  - intros p Hp. assert (p <> part nd) as Hne by (by intros ->).
    unfold touched_at. rewrite Ho, lookup_insert_ne by done. apply H2.
    intros Hq. apply Hp. rewrite He. destruct (p_on_touched P); [done|by right].
Qed.

Lemma keeps_tv_add_to_cprop fuel y : keeps touched_view (add_to_cprop fuel y).
Proof.
  revert y. induction fuel as [|fuel IH]; intros y; cbn; [by intros ? ? ? ?|].
  unfold place_on_cprop. keeps_auto.
Qed.
#[local] Hint Resolve keeps_tv_add_to_cprop : keeps.

Create HintDb listed discriminated.
#[local] Hint Resolve inv_listed_add_to_touched : listed.

(** Decomposes a program into parts that keep the touched flags and lists,
    and additions to the touched set. *)
Ltac listed_auto :=
  repeat first
    [ match goal with
      | |- inv _ (_ ≫= _) => apply inv_bind; [|intros ?]
      | |- inv _ (for_each _ _) => apply inv_for_each; intros ?
      | |- inv _ (if ?b then _ else _) => destruct b
      | |- inv _ (match ?x with _ => _ end) => destruct x
      end
    | solve [eauto 2 with listed]
    | apply inv_listed_keeps; solve [keeps_auto] ].

Lemma inv_listed_collect_touched_edges comm cfuel fuel x idx end_idx num_edges :
  inv touched_set_listed (collect_touched_edges comm cfuel fuel x idx end_idx num_edges).
Proof.
  induction fuel as [|fuel IH]; cbn; [by intros ? ? ? ? ?|].
  unfold is_live_input. listed_auto.
Qed.
#[local] Hint Resolve inv_listed_collect_touched_edges : listed.

Lemma inv_listed_collect_touched comm cfuel l idx :
  inv touched_set_listed (collect_touched comm cfuel l idx).
Proof. unfold collect_touched. listed_auto. Qed.
#[local] Hint Resolve inv_listed_collect_touched : listed.

Lemma inv_listed_collect_commutative_touched_edges comm cfuel fuel x num_edges :
  inv touched_set_listed
    (collect_commutative_touched_edges comm cfuel fuel x num_edges).
Proof.
  induction fuel as [|fuel IH]; cbn; [by intros ? ? ? ? ?|].
  listed_auto.
Qed.
#[local] Hint Resolve inv_listed_collect_commutative_touched_edges : listed.

Lemma inv_listed_collect_commutative_touched comm cfuel l :
  inv touched_set_listed (collect_commutative_touched comm cfuel l).
Proof. unfold collect_commutative_touched. listed_auto. Qed.
#[local] Hint Resolve inv_listed_collect_commutative_touched : listed.

Lemma touched_listed_kept zs s s' :
  touched_kept s s' -> parts_fresh s -> touched_listed zs s ->
  parts_fresh s' /\ touched_listed zs s'.
Proof.
  intros (Hf & _ & Hp) Hfr [H1 H2]. destruct (Hp Hfr) as [Hfr' Ht].
  split; [done|]. split.
  - intros y Hy. rewrite Hf in Hy. destruct (H1 y Hy) as (p & Hin & Hz).
    exists p. by rewrite Ht.
  - intros p Hnot. rewrite Ht. by apply H2.
Qed.

Lemma relates_touched_split_if_proper fuel Z t n :
  relates touched_kept (split_if_proper fuel Z t n).
Proof.
  unfold split_if_proper.
  apply relates_bind; [apply _ | apply relates_pure; [apply _ | apply pure_get_part] |].
  intros z. destruct (_ && _).
  - apply relates_bind; [apply _ | apply relates_touched_split |].
    intros ?. apply relates_pure; [apply _ | apply pure_ret].
  - apply relates_pure; [apply _ | eauto with pure].
Qed.

(** The walk of a round over the touched list of a partition clears the
    flags of the listed nodes and writes nothing else. *)
Lemma clear_touched_flags l s s' :
  for_each l (fun e =>
    nd ← get_irn_node e;
    assert (negb (is_follower nd)) ;;
    upd_node e (with_on_touched false)) s = Ok (tt, s') ->
  obst s' = obst s /\ next_part s' = next_part s
  /\ forall y, flag_at s' y = Some true -> flag_at s y = Some true /\ y ∉ l.
Proof.
  revert s. induction l as [|e l IH]; intros s H; cbn [for_each] in H.
  - apply mret_Ok_inv in H as [_ <-]. repeat split; try done. apply not_elem_of_nil.
  - apply bind_Ok_inv in H as ([] & s1 & H1 & H). inv_read H1. inv_read H1.
    apply upd_node_inv in H1 as (nd & Hnd & ->).
    apply IH in H as (Ho & Hn & Hf). split; [done|]. split; [done|].
    intros y Hy. apply Hf in Hy as [Hy Hnot]. rewrite flag_at_insert in Hy.
    destruct (decide (y = e)); [done|]. split; [done|]. by apply not_elem_of_cons.
Qed.

Lemma split_touched_aa_ab_flags l aa ab s r s' :
  split_touched_aa_ab l aa ab s = Ok (r, s') ->
  obst s' = obst s /\ next_part s' = next_part s
  /\ forall y, flag_at s' y = Some true -> flag_at s y = Some true /\ y ∉ l.
Proof.
  revert aa ab s. induction l as [|e l IH]; intros aa ab s H; cbn in H.
  - apply mret_Ok_inv in H as [_ <-]. repeat split; try done. apply not_elem_of_nil.
  - do 6 inv_read H. inv_read H. inv_write H.
    assert (exists aa' ab', split_touched_aa_ab l aa' ab'
              (set_link (<[e := with_on_touched false x]>) s) = Ok (r, s'))
      as (aa' & ab' & H') by (destruct (bool_decide _); eauto).
    apply IH in H' as (Ho & Hn & Hf). split; [done|]. split; [done|].
    intros y Hy. apply Hf in Hy as [Hy Hnot]. rewrite flag_at_insert in Hy.
    destruct (decide (y = e)); [done|]. split; [done|]. by apply not_elem_of_cons.
Qed.

Lemma touched_listed_emptied Z rest s s2 z z' :
  touched_listed (Z :: rest) s -> obst s !! Z = Some z ->
  (forall y, flag_at s2 y = Some true -> flag_at s y = Some true /\ y ∉ touched z) ->
  obst s2 = <[Z := z']> (obst s) ->
  touched z' = [] -> n_touched z' = 0 -> p_on_touched z' = false ->
  touched_listed rest s2.
Proof.
  intros [H1 H2] Hz Hf Ho Ht Hn Hp. split.
  - intros y Hy. apply Hf in Hy as [Hy Hnot].
    destruct (H1 y Hy) as (p & Hin & Hl).
    destruct (decide (p = Z)) as [->|Hne].
    { unfold touched_at in Hl. by rewrite Hz in Hl. }
    exists p. apply elem_of_cons in Hin as [->|Hin]; [done|]. split; [done|].
    unfold touched_at in *. by rewrite Ho, lookup_insert_ne.
  - intros p Hnot. unfold touched_at. rewrite Ho.
    destruct (decide (p = Z)) as [->|Hne].
    + rewrite lookup_insert_eq. cbn. by rewrite Ht, Hn, Hp.
    + rewrite lookup_insert_ne by done. apply H2. by intros [->|Hin]%elem_of_cons.
Qed.

Lemma parts_fresh_insert Z s s2 z z' :
  parts_fresh s -> obst s !! Z = Some z -> obst s2 = <[Z := z']> (obst s) ->
  next_part s2 = next_part s -> parts_fresh s2.
Proof.
  intros Hfr Hz Ho Hn p Hp. rewrite Ho. rewrite Hn in Hp.
  rewrite lookup_insert_ne; [by apply Hfr|]. intros <-. rewrite Hfr in Hz; done.
Qed.

Lemma cause_splits_round_listed fuel Z rest s s' :
  parts_fresh s -> touched_listed (Z :: rest) s ->
  cause_splits_round fuel Z s = Ok (tt, s') ->
  parts_fresh s' /\ touched_listed rest s'.
Proof.
  intros Hfr HL H. unfold cause_splits_round in H.
  inv_read H. rename a into z. inv_read H. inv_write H.
  apply bind_Ok_inv in H as ([] & sb & Hclear & H).
  apply clear_touched_flags in Hclear as (Hob & Hnb & Hfb).
  inv_write H. inv_write H. same_lookups. cbn in Hob, Hnb, Hfb, Hx1.
  rewrite Hob, lookup_insert_eq in Hx0. injection Hx0 as <-.
  rewrite lookup_insert_eq in Hx1. injection Hx1 as <-.
  apply relates_touched_split_if_proper in H.
  eapply touched_listed_kept; [exact H| |].
  - eapply parts_fresh_insert; [exact Hfr | exact H0 | | exact Hnb].
    cbn. rewrite Hob. by rewrite !insert_insert_eq.
  - eapply touched_listed_emptied; [exact HL | exact H0 | exact Hfb | ..];
      [cbn; rewrite Hob; by rewrite !insert_insert_eq | done..].
Qed.

Lemma cause_splits_commutative_round_listed fuel Z rest s s' :
  parts_fresh s -> touched_listed (Z :: rest) s ->
  cause_splits_commutative_round fuel Z s = Ok (tt, s') ->
  parts_fresh s' /\ touched_listed rest s'.
Proof.
  intros Hfr HL H. unfold cause_splits_commutative_round in H.
  inv_read H. rename a into z. inv_read H. inv_write H.
  apply bind_Ok_inv in H as ([aa ab] & sb & Hclear & H).
  apply split_touched_aa_ab_flags in Hclear as (Hob & Hnb & Hfb).
  inv_read H. inv_read H.
  inv_write H. inv_write H. same_lookups. cbn in Hob, Hnb, Hfb, Hx1.
  rewrite Hob, lookup_insert_eq in H2. injection H2 as <-.
  rewrite lookup_insert_eq in Hx1. injection Hx1 as <-.
  assert (relates touched_kept
            (split_if_proper fuel Z aa (length aa) ;;
             split_if_proper fuel Z ab (length ab))) as Hrel.
  { apply relates_bind; [apply _ | apply relates_touched_split_if_proper |].
    intros ?. apply relates_touched_split_if_proper. }
  apply Hrel in H.
  eapply touched_listed_kept; [exact H| |].
  - eapply parts_fresh_insert; [exact Hfr | exact H0 | | exact Hnb].
    cbn. rewrite Hob. by rewrite !insert_insert_eq.
  - eapply touched_listed_emptied; [exact HL | exact H0 | exact Hfb | ..];
      [cbn; rewrite Hob; by rewrite !insert_insert_eq | done..].
Qed.

Lemma for_each_rounds (f : nat -> M unit) zs s s' :
  (forall Z rest s s', parts_fresh s -> touched_listed (Z :: rest) s ->
     f Z s = Ok (tt, s') -> parts_fresh s' /\ touched_listed rest s') ->
  parts_fresh s -> touched_listed zs s ->
  for_each zs f s = Ok (tt, s') ->
  parts_fresh s' /\ touched_listed [] s'.
Proof.
  intros Hf. revert s. induction zs as [|Z zs IH]; intros s Hfr HL H; cbn in H.
  - by apply mret_Ok_inv in H as [_ <-].
  - apply bind_Ok_inv in H as ([] & s1 & H1 & H).
    destruct (Hf _ _ _ _ Hfr HL H1) as [Hfr1 HL1]. by eapply IH.
Qed.

Lemma touched_listed_set_env zs f s :
  touched_listed zs s -> touched_listed zs (set_env f s).
Proof. done. Qed.

(** With no partition on the touched set left, nothing is marked. *)
Lemma touched_listed_nil s : touched_listed [] s <-> touched_clean s.
Proof.
  split.
  - intros [H1 H2]. split.
    + intros y nd Hy. destruct (on_touched nd) eqn:Hon; [|done].
      destruct (H1 y) as (p & Hp & _); [|by apply elem_of_nil in Hp].
      unfold flag_at. by rewrite Hy, <- Hon.
    + intros p P Hp. specialize (H2 p (not_elem_of_nil p)).
      unfold touched_at in H2. rewrite Hp in H2. by injection H2.
  - intros [H1 H2]. split.
    + intros y Hy. unfold flag_at in Hy.
      destruct (link s !! y) as [nd|] eqn:Hnd; [|done].
      apply H1 in Hnd. cbn in Hy. congruence.
    + intros p _. unfold touched_at. destruct (obst s !! p) as [P|] eqn:Hp; [|done].
      destruct (H2 _ _ Hp) as (Ht & Hn & Hf). cbn. by rewrite Ht, Hn, Hf.
Qed.

Lemma cause_splits_inputs_listed comm cfuel fuel rounds X idx s s' :
  parts_fresh s -> touched_listed [] s ->
  cause_splits_inputs comm cfuel fuel rounds X idx s = Ok (tt, s') ->
  parts_fresh s' /\ touched_listed [] s'.
Proof.
  revert idx s. induction rounds as [|rounds IH]; intros idx s Hfr HL H; cbn in H;
    [done|].
  inv_read H. destruct (_ <=? _)%Z.
  2:{ by apply mret_Ok_inv in H as [_ <-]. }
  inv_write H.
  match type of H with
  | (get_part X ≫= ?k) ?s0 = _ => assert (touched_set_listed s0) as HJ by done
  end.
  inv_read H. apply bind_Ok_inv in H as ([] & s1 & H2 & H).
  eapply inv_listed_collect_touched in H2; [|exact HJ].
  inv_read H. apply bind_Ok_inv in H as ([] & s2 & H4 & H).
  eapply inv_listed_collect_touched in H4; [|exact H2].
  inv_read H. apply bind_Ok_inv in H as ([] & s3 & H6 & H).
  destruct H4 as [Hfr2 HL2].
  eapply for_each_rounds in H6 as [Hfr3 HL3];
    [|apply cause_splits_round_listed | done | subst; exact HL2].
  by eapply IH.
Qed.


(** If no node and no partition is marked touched when [cause_splits]
    starts, with the slots from the next free one on unused, then none is
    when it returns: every round empties the touched lists it filled, so
    that clearing the head of the touched set is enough to empty it. *)
Theorem cause_splits_clears_touched comm cfuel fuel rounds s s' :
  parts_fresh s -> touched_clean s ->
  cause_splits comm cfuel fuel rounds s = Ok (tt, s') ->
  touched_clean s' /\ parts_fresh s'.
Proof.
  intros Hfr Hc H. apply touched_listed_nil in Hc. unfold cause_splits in H.
  inv_read H. inv_read H. inv_write H. inv_write H. inv_read H.
  apply bind_Ok_inv in H as ([] & s1 & Hcomm & H).
  match type of Hcomm with
  | _ ?s0 = _ =>
      assert (parts_fresh s0 /\ touched_listed [] s0) as [Hfr0 HL0]
  end.
  { split.
    - eapply parts_fresh_insert; [exact Hfr | exact Hx | reflexivity | reflexivity].
    - destruct Hc as [Hc1 Hc2]. split.
      { intros y Hy. destruct (Hc1 y Hy) as (p & Hp & _). by apply elem_of_nil in Hp. }
      intros p Hp. unfold touched_at. cbn.
      destruct (decide (p = a0)) as [->|Hne].
      + rewrite lookup_insert_eq. specialize (Hc2 a0 Hp). unfold touched_at in Hc2.
        cbn in Hx. by rewrite Hx in Hc2.
      + rewrite lookup_insert_ne by done. by apply Hc2. }
  assert (parts_fresh s1 /\ touched_listed [] s1) as [Hfr1 HL1].
  { match type of Hcomm with (if ?b then _ else _) _ = _ => destruct b end;
      [|by apply mret_Ok_inv in Hcomm as [_ <-]].
    inv_write Hcomm.
    match type of Hcomm with
    | (get_part _ ≫= ?k) ?s0 = _ => assert (touched_set_listed s0) as HJ by done
    end.
    inv_read Hcomm. apply bind_Ok_inv in Hcomm as ([] & s2 & H5 & Hcomm).
    eapply inv_listed_collect_commutative_touched in H5; [|exact HJ].
    inv_read Hcomm. apply bind_Ok_inv in Hcomm as ([] & s3 & H7 & Hcomm).
    eapply inv_listed_collect_commutative_touched in H7; [|exact H5].
    inv_read Hcomm. destruct H7 as [Hfr3 HL3].
    eapply for_each_rounds in Hcomm;
      [done | apply cause_splits_commutative_round_listed | done | subst; exact HL3]. }
  eapply cause_splits_inputs_listed in H as [Hfr' HL']; [|done..].
  split; [by apply touched_listed_nil | done].
Qed.

Lemma cause_splits_clears_touched_witness :
  let s' := final_state (cause_splits Ex.is_op_commutative 5 40 5) Ex.touch_state in
  (part <$> link s' !! 1, part <$> link s' !! 2) = (Some 3, Some 1)
  /\ touched_clean s' /\ parts_fresh s'.
Proof.
  cbv zeta. split; [vm_compute; reflexivity|].
  refine (cause_splits_clears_touched Ex.is_op_commutative 5 40 5 Ex.touch_state _ _ _ _).
  - intros p Hp. apply not_elem_of_list_to_map_1. cbn in Hp |- *.
    rewrite !elem_of_cons, elem_of_nil. lia.
  - split.
    + intros y nd Hy. apply elem_of_list_to_map_2 in Hy.
      repeat (apply elem_of_cons in Hy as [[= -> ->]|Hy]; [done|]).
      by apply elem_of_nil in Hy.
    + intros p P Hp. apply elem_of_list_to_map_2 in Hp.
      repeat (apply elem_of_cons in Hp as [[= -> ->]|Hp]; [done|]).
      by apply elem_of_nil in Hp.
  - vm_compute. reflexivity.
Defined.

Lemma add_to_touched_Ok y nd P s :
  link s !! y = Some nd -> obst s !! part nd = Some P ->
  (forall e, e ∈ touched P -> exists nde, link s !! e = Some nde /\ part nde = part nd) ->
  exists s', add_to_touched y s = Ok (tt, s').
Proof.
  intros Hnd HP Hl. unfold add_to_touched.
  rewrite (bind_Ok _ _ _ _ _ (get_irn_node_Ok _ _ _ Hnd)).
  destruct (on_touched nd) eqn:Hon; cbn [negb]; [by eexists|].
  rewrite (bind_Ok _ _ _ _ _ (get_part_Ok _ _ _ HP)).
  rewrite (bind_Ok _ _ _ _ _ (upd_part_Ok _ _ _ _ HP)).
  erewrite (bind_Ok (upd_node _ _)) by (apply upd_node_Ok; exact Hnd).
  erewrite (bind_Ok (upd_part _ _))
    by (apply upd_part_Ok; cbn; apply lookup_insert_eq).
  erewrite (bind_Ok (get_part _)) by (apply get_part_Ok; cbn; apply lookup_insert_eq).
  match goal with
  | |- exists s', (?m ≫= _) ?s0 = _ =>
      assert (exists s2 P2, m s0 = Ok (tt, s2)
                /\ link s2 = <[y := with_on_touched true nd]> (link s)
                /\ obst s2 !! part nd = Some P2 /\ touched P2 = y :: touched P)
        as (s2 & P2 & Hm & Hl2 & HP2 & Ht2)
  end.
  { cbn [p_on_touched with_n_touched with_touched]. destruct (p_on_touched P); cbn [negb].
    - eexists _, _. split; [reflexivity|]. split; [reflexivity|]. cbn.
      split; [apply lookup_insert_eq | reflexivity].
    - unfold modify at 1. unfold mbind at 1, M_bind at 1.
      erewrite upd_part_Ok by (cbn; apply lookup_insert_eq).
      eexists _, _. split; [reflexivity|]. split; [reflexivity|]. cbn.
      split; [apply lookup_insert_eq | reflexivity]. }
  rewrite (bind_Ok _ _ _ _ _ Hm).
  rewrite (bind_Ok _ _ _ _ _ (get_part_Ok _ _ _ HP2)).
  eexists. apply check_list_Ok. rewrite Ht2, Hl2. intros e He.
  destruct (decide (e = y)) as [->|Hne].
  - rewrite lookup_insert_eq. eauto.
  - rewrite lookup_insert_ne by done. apply elem_of_cons in He as [->|He]; [done|].
    by apply Hl.
Qed.

Lemma touched_counted_add_to_touched y s s' :
  touched_counted s -> add_to_touched y s = Ok (tt, s') -> touched_counted s'.
Proof.
  intros [Hc1 Hc2] H. apply add_to_touched_inv in H as (nd & Hnd & H).
  destruct (on_touched nd) eqn:Hon; [by subst|].
  destruct H as (P & P' & HP & Hl & Ho & Ht & Hn & Hpt & _).
  destruct (Hc1 _ _ HP) as (Hlen & Hnodup & Hlisted).
  assert (y ∉ touched P) as Hnot.
  { intros Hin. destruct (Hlisted y Hin) as (nd' & Hnd' & Hon' & _). congruence. }
  split.
  - intros p Q HQ. rewrite Ho in HQ.
    destruct (decide (p = part nd)) as [->|Hne].
    + rewrite lookup_insert_eq in HQ. injection HQ as <-. rewrite Ht, Hn, Hlen.
      split; [done|]. split; [by apply NoDup_cons|].
      intros z Hz. rewrite Hl. destruct (decide (z = y)) as [->|Hzy].
      * rewrite lookup_insert_eq. eauto.
      * rewrite lookup_insert_ne by done.
        apply elem_of_cons in Hz as [->|Hz]; [done|]. by apply Hlisted.
    + rewrite lookup_insert_ne in HQ by done.
      destruct (Hc1 _ _ HQ) as (HlenQ & HnodupQ & HlistedQ).
      split; [done|]. split; [done|]. intros z Hz. rewrite Hl.
      destruct (decide (z = y)) as [->|Hzy].
      * destruct (HlistedQ y Hz) as (nd' & Hnd' & Hon' & _). congruence.
      * rewrite lookup_insert_ne by done. by apply HlistedQ.
  - intros z ndz Hz Honz. rewrite Hl in Hz. rewrite Ho.
    destruct (decide (z = y)) as [->|Hzy].
    + rewrite lookup_insert_eq in Hz. injection Hz as <-. cbn.
      rewrite lookup_insert_eq. eexists. split; [done|]. rewrite Ht. left.
    + rewrite lookup_insert_ne in Hz by done.
      destruct (Hc2 _ _ Hz Honz) as (Q & HQ & Hin).
      destruct (decide (part ndz = part nd)) as [Heq|Hne].
      * rewrite Heq, lookup_insert_eq. eexists. split; [done|]. rewrite Ht. right.
        rewrite Heq in HQ. congruence.
      * rewrite lookup_insert_ne by done. eauto.
Qed.

(** [add_to_touched] keeps the touched lists counted: the counter of a
    partition is the length of its touched list, a node is listed at most
    once, exactly the flagged nodes are listed, each by its own partition.
    On such lists it never fails: its list check passes, the node is
    listed afterwards, and a node that was listed already changes nothing. *)
Theorem add_to_touched_counts y nd P s :
  touched_counted s -> link s !! y = Some nd -> obst s !! part nd = Some P ->
  exists s', add_to_touched y s = Ok (tt, s') /\ touched_counted s'
    /\ (exists P', obst s' !! part nd = Some P' /\ y ∈ touched P')
    /\ (on_touched nd = true -> s' = s).
Proof.
  intros Hc Hnd HP.
  destruct (add_to_touched_Ok y nd P s Hnd HP) as [s' Hrun].
  { intros e He. destruct Hc as [Hc1 _]. destruct (Hc1 _ _ HP) as (_ & _ & Hl).
    destruct (Hl e He) as (nde & Hnde & _ & Hp). eauto. }
  exists s'. split; [done|]. split; [by eapply touched_counted_add_to_touched|].
  pose proof Hrun as Hinv. apply add_to_touched_inv in Hinv as (nd' & Hnd' & Hinv).
  same_lookups. destruct (on_touched nd) eqn:Hon.
  - subst s'. split; [|done]. destruct Hc as [_ Hc2]. by apply Hc2.
  - destruct Hinv as (P0 & P' & HP0 & Hl & Ho & Ht & _). split; [|done].
    exists P'. rewrite Ho, lookup_insert_eq, Ht. split; [done|left].
Qed.

Lemma add_to_touched_counts_witness :
  let s := final_state (add_to_touched 1) Ex.touch_state in
  exists s', add_to_touched 2 s = Ok (tt, s') /\ touched_counted s'
    /\ (exists P', obst s' !! 1 = Some P' /\ 2 ∈ touched P')
    /\ (false = true -> s' = s).
Proof.
  cbv zeta.
  refine (add_to_touched_counts 2 (Ex.nd 2 1 ty_Bottom) _
            (final_state (add_to_touched 1) Ex.touch_state) _ _ _).
  - refine (touched_counted_add_to_touched 1 Ex.touch_state _ _ _);
      [|vm_compute; reflexivity].
    split.
    + intros p Q HQ. apply elem_of_list_to_map_2 in HQ.
      repeat (apply elem_of_cons in HQ as [[= -> ->]|HQ];
              [cbn; split; [done|]; split; [constructor|];
               intros z Hz; by apply elem_of_nil in Hz|]).
      by apply elem_of_nil in HQ.
    + intros z ndz Hz Hon. apply elem_of_list_to_map_2 in Hz.
      repeat (apply elem_of_cons in Hz as [[= -> ->]|Hz]; [done|]).
      by apply elem_of_nil in Hz.
  - vm_compute. reflexivity.
  - vm_compute. reflexivity.
Defined.


(** *** What the collecting walks put on the touched lists *)

Lemma keeps_gv_upd_node z f :
  (forall nd, type (f nd) = type nd /\ on_touched (f nd) = on_touched nd) ->
  keeps grows_view (upd_node z f).
Proof.
  intros Hf s a s' H. apply upd_node_inv in H as (nd & Hz & ->).
  unfold grows_view. cbn. destruct (Hf nd) as [Ht Ho].
  rewrite !fmap_insert, Ht, Ho.
  rewrite !insert_id; [done | by rewrite lookup_fmap, Hz..].
Qed.

#[local] Hint Extern 1 (keeps grows_view (upd_node _ _)) =>
  apply keeps_gv_upd_node; intros ?; split; reflexivity : keeps.

Lemma keeps_gv_add_to_cprop fuel y : keeps grows_view (add_to_cprop fuel y).
Proof.
  revert y. induction fuel as [|fuel IH]; intros y; cbn; [by intros ? ? ? ?|].
  unfold place_on_cprop. keeps_auto.
Qed.

Lemma grows_view_at s s' :
  grows_view s' = grows_view s ->
  irg s' = irg s
  /\ (forall y, type <$> link s' !! y = type <$> link s !! y)
  /\ (forall y, flag_at s' y = flag_at s y).
Proof.
  unfold grows_view. intros [= Hg Ht Hf]. split; [done|]. split.
  - intros y. by rewrite <- !lookup_fmap, Ht.
  - intros y. unfold flag_at. by rewrite <- !lookup_fmap, Hf.
Qed.

Lemma uses_live_transport s s' l idx y :
  irg s' = irg s -> (forall y, type <$> link s' !! y = type <$> link s !! y) ->
  uses_live s' l idx y -> uses_live s l idx y.
Proof.
  intros Hg Ht (x & yn & Hx & Hy & Hin & Hphi). exists x, yn.
  rewrite Hg in Hy. repeat split; try done.
  intros Hop Hidx. destruct (Hphi Hop Hidx) as (bn & pred & t & Hb & Hp & Hty & Hne).
  exists bn, pred, t. rewrite Hg in Hb. by rewrite <- Ht.
Qed.

Global Instance touched_grows_refl l idx : Reflexive (touched_grows l idx).
Proof. intros s. split; [done|]. split; [done|]. intros y Hy. by left. Qed.

Global Instance touched_grows_trans l idx : Transitive (touched_grows l idx).
Proof.
  intros s1 s2 s3 (Hg1 & Ht1 & Hf1) (Hg2 & Ht2 & Hf2).
  split; [congruence|]. split; [intros y; by rewrite Ht2|].
  intros y Hy. destruct (Hf2 y Hy) as [Hy2|[Hu (t & Hty & Htnc)]].
  - by apply Hf1.
  - right. split; [by eapply uses_live_transport|]. exists t. by rewrite <- Ht1.
Qed.

Lemma relates_keeps_grows {A} l idx (m : M A) :
  keeps grows_view m -> relates (touched_grows l idx) m.
Proof.
  intros Hm s a s' H. apply Hm, grows_view_at in H as (Hg & Ht & Hf).
  split; [done|]. split; [done|]. intros y Hy. left. by rewrite <- Hf.
Qed.

Lemma touched_grows_mono l l' idx s s' :
  l ⊆ l' -> touched_grows l idx s s' -> touched_grows l' idx s s'.
Proof.
  intros Hsub (Hg & Ht & Hf). split; [done|]. split; [done|].
  intros y Hy. destruct (Hf y Hy) as [?|[(x & yn & Hx & Hrest) Hty]]; [by left|].
  right. split; [|done]. exists x, yn. split; [by apply Hsub | done].
Qed.

Lemma grows_add_to_touched l idx y s s' :
  uses_live s l idx y ->
  (exists t, type <$> link s !! y = Some t /\ type_is_neither_top_nor_const t = true) ->
  add_to_touched y s = Ok (tt, s') -> touched_grows l idx s s'.
Proof.
  intros Hu Hty H. apply add_to_touched_inv in H as (nd & Hnd & H).
  destruct (on_touched nd) eqn:Hon; [by subst|].
  destruct H as (P & P' & HP & Hl & Ho & Ht & Hn & Hpt & He & Hg & _).
  split; [done|]. split.
  - intros z. rewrite Hl. destruct (decide (z = y)) as [->|Hne].
    + by rewrite lookup_insert_eq, Hnd.
    + by rewrite lookup_insert_ne.
  - intros z Hz. unfold flag_at in Hz. rewrite Hl in Hz.
    destruct (decide (z = y)) as [->|Hne]; [by right|].
    rewrite lookup_insert_ne in Hz by done. by left.
Qed.

Lemma get_irn_n_Z_inv n i s p s' :
  get_irn_n_Z n i s = Ok (p, s') -> s' = s /\ input_Z n i = Some p.
Proof.
  unfold get_irn_n_Z, input_Z. destruct (i =? -1)%Z.
  - by intros [<- <-]%mret_Ok_inv.
  - destruct (i <? 0)%Z; [done|]. apply get_irn_n_inv.
Qed.

Lemma is_live_input_inv phi i s b s' :
  is_live_input phi i s = Ok (b, s') ->
  s' = s
  /\ (b = true -> (0 <= i)%Z ->
      exists n bn pred t, irg s !! phi = Some n /\ irg s !! irn_block n = Some bn
        /\ input_Z bn i = Some pred
        /\ type <$> link s !! pred = Some t /\ t <> ty_Unreachable).
Proof.
  unfold is_live_input. intros H. destruct (0 <=? i)%Z eqn:Hi.
  - inv_read H. inv_read H.
    apply bind_Ok_inv in H as (pred & s1 & Hp & H).
    apply get_irn_n_Z_inv in Hp as [-> Hp]. inv_read H.
    apply mret_Ok_inv in H as [<- <-]. split; [done|]. intros Hb _.
    exists a, a0, pred, (type a1). repeat split; try done.
    + by rewrite H2.
    + apply negb_true_iff, tv_is_false in Hb. done.
  - apply mret_Ok_inv in H as [<- <-]. split; [done|]. lia.
Qed.

Lemma grows_collect_touched_edges comm cfuel fuel x idx end_idx num_edges :
  relates (touched_grows [x] idx)
    (collect_touched_edges comm cfuel fuel x idx end_idx num_edges).
Proof.
  induction fuel as [|fuel IH]; intros s [] s' H; cbn [collect_touched_edges] in H;
    [done|].
  inv_read H. destruct (next_edge _ <? _); [|by apply mret_Ok_inv in H as [_ <-]].
  inv_read H. inv_read H.
  destruct (idx <? pos a1)%Z; [by apply mret_Ok_inv in H as [_ <-]|].
  apply bind_Ok_inv in H as ([] & sa & Hupd & H).
  assert (touched_grows [x] idx s sa) as Hsa.
  { revert Hupd. apply relates_keeps_grows. keeps_auto. }
  etransitivity; [exact Hsa|]. clear Hsa Hupd H0 H1 H2 s.
  inv_read H. inv_read H. rename a3 into sn.
  apply bind_Ok_inv in H as ([] & s1 & Hbody & H). apply IH in H.
  etransitivity; [|exact H]. clear H.
  destruct (_ && _); [by apply mret_Ok_inv in Hbody as [_ <-]|].
  destruct (_ && _); [by apply mret_Ok_inv in Hbody as [_ <-]|].
  inv_read Hbody.
  apply bind_Ok_inv in Hbody as (inp & s2 & Hinp & Hbody).
  apply get_irn_n_Z_inv in Hinp as [-> Hinp].
  inv_read Hbody.
  match goal with
  | Hb : bool_decide (inp = x) = true |- _ => apply bool_decide_eq_true in Hb; subst inp
  end.
  destruct (_ && _); [by apply mret_Ok_inv in Hbody as [_ <-]|].
  apply bind_Ok_inv in Hbody as ([] & sb & Hcprop & Hbody).
  assert (touched_grows [x] idx sa sb) as Hsb.
  { revert Hcprop. apply relates_keeps_grows.
    destruct (_ && _); [apply keeps_gv_add_to_cprop | apply keeps_pure, pure_ret]. }
  etransitivity; [exact Hsb|].
  assert (irg sb !! use a1 = Some sn) as Hsn.
  { destruct Hsb as [-> _]. done. }
  inv_read Hbody.
  match goal with
  | Hy : link sb !! use a1 = Some ?n |- _ => rename Hy into Hy'; rename n into y'
  end.
  destruct (type_is_neither_top_nor_const (type y')) eqn:Htnc;
    [|by apply mret_Ok_inv in Hbody as [_ <-]].
  apply bind_Ok_inv in Hbody as (live & s3 & Hlive & Hbody).
  assert (s3 = sb /\ (live = true -> irn_op sn = iro_Phi -> (0 <= idx)%Z ->
            exists bn pred t, irg sb !! irn_block sn = Some bn
              /\ input_Z bn idx = Some pred
              /\ type <$> link sb !! pred = Some t /\ t <> ty_Unreachable))
    as [-> Hphi].
  { unfold is_op in Hlive. destruct (bool_decide (irn_op sn = iro_Phi)) eqn:Hop; cbn in Hlive.
    - apply is_live_input_inv in Hlive as [-> Hl]. split; [done|].
      intros Hb _ Hidx. destruct (Hl Hb Hidx) as (n & bn & pred & t & Hn & Hrest).
      same_lookups. eauto.
    - apply mret_Ok_inv in Hlive as [_ <-]. split; [done|].
      intros _ Hop'. by apply bool_decide_eq_false in Hop. }
  destruct live; [|by apply mret_Ok_inv in Hbody as [_ <-]].
  revert Hbody. apply grows_add_to_touched.
  - exists x, sn. split; [left|]. split; [done|]. split; [done|]. by apply Hphi.
  - exists (type y'). by rewrite Hy'.
Qed.

Lemma grows_collect_touched comm cfuel l idx :
  relates (touched_grows l idx) (collect_touched comm cfuel l idx).
Proof.
  unfold collect_touched.
  apply relates_bind; [apply _ | apply relates_pure; [apply _ | eauto with pure] |].
  intros end_idx.
  assert (forall l', l' ⊆ l ->
            relates (touched_grows l idx)
              (for_each l' (fun x =>
                 (if (idx =? -1)%Z
                  then nd ← get_irn_node x; upd_node x (with_next_edge (n_followers nd))
                  else mret tt) ;;
                 irn ← get_irn x;
                 collect_touched_edges comm cfuel (S (get_irn_n_outs irn)) x idx end_idx
                   (get_irn_n_outs irn)))) as Hall; [|by apply Hall].
  induction l' as [|x l' IH]; intros Hsub; cbn [for_each].
  { apply relates_pure; [apply _ | apply pure_ret]. }
  apply relates_bind;
    [apply _ | | intros ?; apply IH; intros z Hz; apply Hsub; by right].
  apply relates_bind; [apply _ | |].
  { apply relates_keeps_grows. keeps_auto. }
  intros _.
  apply relates_bind; [apply _ | apply relates_pure; [apply _ | apply pure_get_irn] |].
  intros irn s a s' H. eapply touched_grows_mono; [|by eapply grows_collect_touched_edges].
  intros z Hz. apply Hsub. apply list_elem_of_singleton in Hz as ->. left.
Qed.

(** Every node that [collect_touched] newly flags as touched uses a node
    of the list at the input collected for, still has the type it had,
    which is neither Top nor a constant, and, if it is a Phi that uses the
    node as a data input, does so through a live input. *)
Theorem collect_touched_skips_constants comm cfuel l idx s s' y nd' :
  collect_touched comm cfuel l idx s = Ok (tt, s') ->
  link s' !! y = Some nd' -> on_touched nd' = true ->
  (exists nd, link s !! y = Some nd /\ on_touched nd = true)
  \/ (uses_live s l idx y /\ type_is_neither_top_nor_const (type nd') = true
      /\ type <$> link s !! y = Some (type nd')).
Proof.
  intros H Hy Hon. apply grows_collect_touched in H as (Hg & Ht & Hf).
  destruct (Hf y) as [Hold|[Hu (t & Hty & Htnc)]].
  - unfold flag_at. by rewrite Hy, <- Hon.
  - left. unfold flag_at in Hold. destruct (link s !! y) as [nd|]; [|done].
    exists nd. split; [done|]. cbn in Hold. congruence.
  - right. split; [done|]. specialize (Ht y). rewrite Hy, Hty in Ht. cbn in Ht.
    injection Ht as ->. done.
Qed.

Lemma collect_touched_skips_constants_witness :
  let s' := final_state (collect_touched Ex.is_op_commutative 5 [0] 0) Ex.touch_state in
  (exists nd, link Ex.touch_state !! 1 = Some nd /\ on_touched nd = true)
  \/ (uses_live Ex.touch_state [0] 0 1
      /\ type_is_neither_top_nor_const ty_Bottom = true
      /\ type <$> link Ex.touch_state !! 1 = Some ty_Bottom).
Proof.
  cbv zeta.
  refine (collect_touched_skips_constants Ex.is_op_commutative 5 [0] 0 Ex.touch_state
            (final_state (collect_touched Ex.is_op_commutative 5 [0] 0) Ex.touch_state)
            1 (with_on_touched true (Ex.nd 1 1 ty_Bottom)) _ _ _);
    vm_compute; reflexivity.
Defined.

(** ** What the analysis keeps *)

Lemma transition_accepted_trans a b c :
  transition_accepted a b -> transition_accepted b c -> transition_accepted a c.
Proof.
  unfold transition_accepted. intros [-> | [-> | [-> | ->]]] [<- | [? | [-> | ->]]]; auto;
    discriminate.
Qed.

Global Instance types_lowered_refl : Reflexive types_lowered.
Proof. intros s y nd Hy. exists nd. split; [done|by left]. Qed.

Global Instance types_lowered_trans : Transitive types_lowered.
Proof.
  intros s1 s2 s3 H12 H23 y nd3 Hy. destruct (H23 y nd3 Hy) as (nd2 & Hy2 & Ht2).
  destruct (H12 y nd2 Hy2) as (nd1 & Hy1 & Ht1). exists nd1. split; [done|].
  by eapply transition_accepted_trans.
Qed.

Global Instance analysis_kept_refl : Reflexive analysis_kept.
Proof. intros s. split; reflexivity. Qed.

Global Instance analysis_kept_trans : Transitive analysis_kept.
Proof. intros s1 s2 s3 [He1 Ht1] [He2 Ht2]. split; etransitivity; eauto. Qed.

Lemma types_view_lowered s s' : types_view s' = types_view s -> types_lowered s s'.
Proof.
  unfold types_view. intros Hv y nd' Hy.
  pose proof (f_equal (fun m => m !! y) Hv) as Hl. cbn in Hl.
  rewrite !lookup_fmap, Hy in Hl. cbn in Hl.
  destruct (link s !! y) as [nd|]; [|done]. exists nd. split; [done|].
  left. cbn in Hl. congruence.
Qed.

Lemma relates_keeps_analysis {A} (m : M A) :
  keeps analysis_view m -> relates analysis_kept m.
Proof.
  intros Hm s a s' H. apply Hm in H. unfold analysis_view in H.
  injection H as Hg Hn Ht. split.
  - apply edges_view_kept. unfold edges_view. by rewrite Hg, Hn.
  - by apply types_view_lowered.
Qed.

Lemma relates_analysis_intro {A} (m : M A) :
  relates edges_kept m -> keeps types_view m -> relates analysis_kept m.
Proof.
  intros He Ht s a s' H. split; [by eapply He|].
  apply types_view_lowered. by eapply Ht.
Qed.

Lemma keeps_av_upd_node z f :
  (forall nd, n_followers (f nd) = n_followers nd /\ type (f nd) = type nd) ->
  keeps analysis_view (upd_node z f).
Proof.
  intros Hf s a s' H. apply upd_node_inv in H as (nd & Hz & ->).
  unfold analysis_view. cbn. destruct (Hf nd) as [Hn Ht].
  rewrite !fmap_insert, Hn, Ht.
  rewrite !insert_id; [done | by rewrite lookup_fmap, Hz..].
Qed.

Lemma keeps_ty_upd_node z f :
  (forall nd, type (f nd) = type nd) -> keeps types_view (upd_node z f).
Proof.
  intros Hf s a s' H. apply upd_node_inv in H as (nd & Hz & ->).
  unfold types_view. cbn. rewrite fmap_insert, Hf.
  rewrite insert_id; [done | by rewrite lookup_fmap, Hz].
Qed.

#[local] Hint Extern 1 (keeps analysis_view (upd_node _ _)) =>
  apply keeps_av_upd_node; intros ?; split; reflexivity : keeps.
#[local] Hint Extern 1 (keeps types_view (upd_node _ _)) =>
  apply keeps_ty_upd_node; reflexivity : keeps.

Lemma keeps_ty_move_edge_search irn i pred js :
  keeps types_view (move_edge_search irn i pred js).
Proof. induction js as [|j js IH]; cbn; keeps_auto. Qed.
#[local] Hint Resolve keeps_ty_move_edge_search : keeps.

Lemma relates_analysis_follower_to_leader n :
  relates analysis_kept (follower_to_leader n).
Proof.
  apply relates_analysis_intro; [apply relates_follower_to_leader|].
  unfold follower_to_leader, move_edges_to_leader, add_tail_Leader, list_del_node_list.
  keeps_auto.
Qed.
#[local] Hint Resolve relates_analysis_follower_to_leader : relates.

Lemma relates_segregate_def_use_chain follower :
  relates edges_kept (segregate_def_use_chain follower).
Proof.
  unfold segregate_def_use_chain, segregate_def_use_chain_1.
  apply relates_bind; [apply _ | apply relates_pure; [apply _ | apply pure_get_irn] |].
  intros irn. apply relates_for_each; [apply _ | apply _ |]. intros i.
  apply relates_bind; [apply _ | apply relates_pure; [apply _ | apply pure_get_irn_n] |].
  intros pred s a s' H. do 2 inv_read H. destruct a.
  eapply segregate_search_edges; [|done].
  intros ln Hln. same_lookups. apply Forall_forall. intros j Hj.
  apply elem_of_seq in Hj. lia.
Qed.

Lemma keeps_ty_segregate_shift leader js : keeps types_view (segregate_shift leader js).
Proof. induction js as [|j js IH]; cbn; keeps_auto. Qed.
#[local] Hint Resolve keeps_ty_segregate_shift : keeps.

Lemma keeps_ty_segregate_search follower leader idx :
  keeps types_view (segregate_search follower leader idx).
Proof. induction idx as [|i idx IH]; cbn; keeps_auto. Qed.
#[local] Hint Resolve keeps_ty_segregate_search : keeps.

Lemma relates_analysis_segregate_def_use_chain follower :
  relates analysis_kept (segregate_def_use_chain follower).
Proof.
  apply relates_analysis_intro; [apply relates_segregate_def_use_chain|].
  unfold segregate_def_use_chain, segregate_def_use_chain_1. keeps_auto.
Qed.
#[local] Hint Resolve relates_analysis_segregate_def_use_chain : relates.

(** Decomposes a program into parts that keep the graph, the follower
    counts and the types, and parts known to keep the edges and lower the
    types. *)
Ltac analysis_auto := relates_auto @relates_keeps_analysis.

Lemma keeps_av_step_edges n_part side edges index :
  keeps analysis_view (step_edges n_part side edges index).
Proof. revert index. induction edges as [|e edges IH]; intros index; cbn; keeps_auto. Qed.
#[local] Hint Resolve keeps_av_step_edges : keeps.

Lemma keeps_av_step_unwalked env unw : keeps analysis_view (step_unwalked env unw).
Proof. revert env. induction unw as [|n unw IH]; intros env; cbn; keeps_auto. Qed.
#[local] Hint Resolve keeps_av_step_unwalked : keeps.

Lemma keeps_av_race fuel senv0 senv1 : keeps analysis_view (race fuel senv0 senv1).
Proof.
  revert senv0 senv1. induction fuel as [|fuel IH]; intros senv0 senv1; cbn;
    unfold step; keeps_auto.
Qed.
#[local] Hint Resolve keeps_av_race : keeps.

Lemma keeps_av_move_walked X_prime l n : keeps analysis_view (move_walked X_prime l n).
Proof.
  revert n. induction l as [|x l IH]; intros n; cbn;
    unfold add_tail_Follower, add_tail_Leader, list_del_node_list; keeps_auto.
Qed.
#[local] Hint Resolve keeps_av_move_walked : keeps.

Lemma keeps_av_check_partition T : keeps analysis_view (check_partition T).
Proof. apply keeps_pure. eauto with pure. Qed.
#[local] Hint Resolve keeps_av_check_partition : keeps.

Lemma keeps_av_split_no_followers Z g : keeps analysis_view (split_no_followers Z g).
Proof.
  unfold split_no_followers, update_worklist, add_to_worklist, new_partition,
    add_tail_Leader, list_del_node_list.
  keeps_auto.
Qed.
#[local] Hint Resolve keeps_av_split_no_followers : keeps.

Lemma keeps_av_add_to_cprop fuel y : keeps analysis_view (add_to_cprop fuel y).
Proof.
  revert y. induction fuel as [|fuel IH]; intros y; cbn; [by intros ? ? ? ?|].
  unfold place_on_cprop. keeps_auto.
Qed.
#[local] Hint Resolve keeps_av_add_to_cprop : keeps.

Lemma relates_analysis_clear_flags l res : relates analysis_kept (clear_flags l res).
Proof. revert res. induction l as [|n l IH]; intros res; cbn; analysis_auto. Qed.
#[local] Hint Resolve relates_analysis_clear_flags : relates.

Lemma relates_analysis_promote_lost_followers l res :
  relates analysis_kept (promote_lost_followers l res).
Proof. revert res. induction l as [|n l IH]; intros res; cbn; analysis_auto. Qed.
#[local] Hint Resolve relates_analysis_promote_lost_followers : relates.

Lemma relates_analysis_split fuel X gg : relates analysis_kept (split fuel X gg).
Proof. unfold split. analysis_auto. Qed.
#[local] Hint Resolve relates_analysis_split : relates.

Lemma retypes_compute cv tadd tsub teor node :
  retypes node (compute cv tadd tsub teor node).
Proof.
  unfold compute, compute_with, set_compute_functions.
  apply retypes_bind; [retypes_auto|]. intros irn.
  apply retypes_bind; [retypes_auto|]. intros [|]; [retypes_auto|].
  unfold compute_Block, compute_Unknown, compute_Bad, compute_Jmp, compute_Phi,
    compute_Add, compute_Sub, compute_Eor, compute_SymConst, compute_Cmp,
    compute_Confirm, compute_Return, compute_End, compute_Call,
    get_binop_left, get_binop_right.
  destruct (irn_op irn); retypes_auto.
Qed.

Lemma verify_type_inv old node s u s' :
  verify_type old node s = Ok (u, s') ->
  s' = s /\ exists nd, link s !! node = Some nd /\ transition_accepted old (type nd).
Proof.
  unfold verify_type, transition_accepted. intros H. inv_read H.
  assert (s' = s) as ->.
  { repeat match type of H with (if ?b then _ else _) _ = _ => destruct b end;
      try done; by apply mret_Ok_inv in H as [_ <-]. }
  split; [done|]. exists a. split; [done|].
  unfold type_eqb in H. destruct (bool_decide (old = type a)) eqn:Heq.
  { left. by apply bool_decide_eq_true in Heq. }
  destruct (tv_is old tarval_top) eqn:Htop.
  { right. left. by apply tv_is_true in Htop. }
  destruct (tv_is (type a) tarval_bottom) eqn:Hbot.
  { right. right. left. by apply tv_is_true in Hbot. }
  destruct (tv_is (type a) tarval_reachable) eqn:Hr; [|done].
  right. right. right. by apply tv_is_true in Hr.
Qed.

Lemma edges_kept_retype node t s : edges_kept s (retype node t s).
Proof.
  apply edges_view_kept. unfold retype, edges_view.
  destruct (link s !! node) as [nd|] eqn:Hnd; [|done]. cbn. f_equal.
  rewrite fmap_insert. apply insert_id. by rewrite lookup_fmap, Hnd.
Qed.

(** The tail of an iteration of [propagate]: the type of [x] is computed
    anew and, if it changed, checked for monotonicity. *)
Lemma relates_analysis_recompute cv tadd tsub teor fuel x (l : propagate_locals) :
  relates analysis_kept
    (nd ← get_irn_node x;
     let old_type := type nd in
     compute cv tadd tsub teor x ;;
     nd ← get_irn_node x;
     l ← (if negb (type_eqb (type nd) old_type) then
            verify_type old_type x ;;
            l ← add_to_fallen x l;
            irn ← get_irn x;
            for_each (reverse (irn_out irn)) (fun edge => add_to_cprop fuel (use edge)) ;;
            mret l
          else mret l);
     mret (Some l)).
Proof.
  intros s r s' H. inv_read H. cbv zeta in H.
  apply bind_Ok_inv in H as ([] & s1 & Hc & H).
  apply retypes_compute in Hc as [t ->].
  inv_read H. apply bind_Ok_inv in H as (l' & s2 & Hif & H).
  apply mret_Ok_inv in H as [_ <-].
  assert (analysis_kept s (retype x t s)) as Hstep.
  { split; [apply edges_kept_retype|].
    unfold type_eqb in Hif.
    destruct (bool_decide (type a0 = type a)) eqn:Heq; cbn [negb] in Hif.
    - apply bool_decide_eq_true in Heq. intros y nd' Hy. unfold retype in Hy, H1.
      rewrite H0 in Hy, H1. cbn in Hy, H1.
      destruct (decide (y = x)) as [->|Hne].
      + rewrite lookup_insert_eq in Hy, H1. exists a. split; [done|]. left.
        congruence.
      + rewrite lookup_insert_ne in Hy by done. exists nd'. split; [done|by left].
    - apply bind_Ok_inv in Hif as ([] & s3 & Hv & _).
      apply verify_type_inv in Hv as (-> & ndv & Hndv & Hacc). same_lookups.
      intros y nd' Hy. destruct (decide (y = x)) as [->|Hne].
      + same_lookups. eauto.
      + unfold retype in Hy. rewrite H0 in Hy. cbn in Hy.
        rewrite lookup_insert_ne in Hy by done. exists nd'. split; [done|by left]. }
  etransitivity; [exact Hstep|]. revert Hif. analysis_auto.
Qed.
#[local] Hint Resolve relates_analysis_recompute : relates.

Lemma relates_analysis_propagate_step cv tadd tsub teor cmp fuel X l :
  relates analysis_kept (propagate_step cv tadd tsub teor cmp fuel X l).
Proof. unfold propagate_step, propagate_visit. analysis_auto. Qed.
#[local] Hint Resolve relates_analysis_propagate_step : relates.

Lemma relates_analysis_propagate_drain cv tadd tsub teor cmp iters fuel X l :
  relates analysis_kept (propagate_drain cv tadd tsub teor cmp iters fuel X l).
Proof.
  revert l. induction iters as [|iters IH]; intros l; cbn; [by intros ? ? ? ?|].
  analysis_auto.
Qed.
#[local] Hint Resolve relates_analysis_propagate_drain : relates.

Lemma relates_analysis_leader_to_follower Y y :
  relates analysis_kept (leader_to_follower Y y).
Proof. unfold leader_to_follower. analysis_auto. Qed.
#[local] Hint Resolve relates_analysis_leader_to_follower : relates.

Lemma pure_lambda_type node : pure (lambda_type node).
Proof. unfold lambda_type. pure_auto. Qed.
#[local] Hint Resolve pure_lambda_type : pure.

Lemma pure_lambda_partition node : pure (lambda_partition node).
Proof. unfold lambda_partition. pure_auto. Qed.
#[local] Hint Resolve pure_lambda_partition : pure.

Lemma pure_lambda_commutative_partition comm node :
  pure (lambda_commutative_partition comm node).
Proof. unfold lambda_commutative_partition, get_binop_left, get_binop_right. pure_auto. Qed.
#[local] Hint Resolve pure_lambda_commutative_partition : pure.

Section RelatesSplitBy.
Context (R : state -> state -> Prop) `{!Reflexive R, !Transitive R}.
Context (Hsplit : forall fuel X gg, relates R (split fuel X gg)).

Lemma relates_split_by_what_collect {K} `{EqDecision K} (What : nat -> M (option K))
    leaders map :
  (forall x, relates R (What x)) ->
  relates R (split_by_what_collect What leaders map).
Proof.
  intros HW. revert map. induction leaders as [|x leaders IH]; intros map; cbn.
  - apply relates_pure; [done | apply pure_ret].
  - apply relates_bind; [done | apply HW |]. intros [id|]; apply IH.
Qed.

Lemma relates_split_by_what_values {K} fuel X (values : list (K * list nat)) P :
  relates R (split_by_what_values fuel X values P).
Proof.
  revert X P. induction values as [|[id S'] values IH]; intros X P; cbn.
  - apply relates_pure; [done | apply pure_ret].
  - destruct values as [|v values]; [apply relates_pure; [done | apply pure_ret]|].
    apply relates_bind; [done | apply Hsplit |]. intros [R' X']. apply IH.
Qed.

Lemma relates_split_by_what {K} `{EqDecision K} fuel X (What : nat -> M (option K)) P :
  (forall x, relates R (What x)) ->
  relates R (split_by_what fuel X What P).
Proof.
  intros HW. unfold split_by_what.
  apply relates_bind; [done | apply relates_pure; [done | apply pure_get_part] |].
  intros x. apply relates_bind; [done | by apply relates_split_by_what_collect |].
  intros map. apply relates_bind; [done | apply relates_split_by_what_values |].
  intros [X' P']. apply relates_pure; [done | apply pure_ret].
Qed.

Lemma relates_do_while_split_next {A} l (body : nat -> A -> M A) a :
  (forall x a, relates R (body x a)) ->
  relates R (do_while_split_next l body a).
Proof.
  intros Hb. unfold do_while_split_next. destruct l as [|x0 l0]; [by intros ? ? ? ?|].
  generalize (x0 :: l0). clear x0 l0. intros l.
  assert (forall m : M A, relates R m ->
            relates R (foldl (fun m x => a ← m; body x a) m l)) as Hfold.
  { induction l as [|x l IH]; intros m Hm; cbn; [done|].
    apply IH. apply relates_bind; [done | done | intros ?; apply Hb]. }
  apply Hfold. apply relates_pure; [done | apply pure_ret].
Qed.

End RelatesSplitBy.

Lemma relates_analysis_split_by_inputs fuel what inputs R :
  (forall x, pure (what x)) ->
  relates analysis_kept (split_by_inputs fuel what inputs R).
Proof.
  intros Hw. revert R. induction inputs as [|input inputs IH]; intros R;
    cbn [split_by_inputs].
  - apply relates_pure; [apply _ | apply pure_ret].
  - apply relates_bind; [apply _ | | intros ?; apply IH].
    apply relates_do_while_split_next; [apply _ | apply _ |]. intros Z' S'.
    apply relates_bind; [apply _ | apply relates_pure; [apply _ | apply pure_get_part] |].
    intros z. destruct (_ <? _); [|apply relates_pure; [apply _ | apply pure_ret]].
    apply relates_bind; [apply _ | apply relates_keeps_analysis; keeps_auto |].
    intros _. apply relates_split_by_what; [apply _ | apply _ | apply relates_analysis_split |].
    intros x. apply relates_pure; [apply _ | apply Hw].
Qed.

Lemma relates_analysis_set_type_tag I : relates analysis_kept (set_type_tag I).
Proof. unfold set_type_tag. analysis_auto. Qed.
#[local] Hint Resolve relates_analysis_set_type_tag : relates.

Lemma relates_analysis_split_by cmp comm fuel X :
  relates analysis_kept (split_by cmp comm fuel X).
Proof.
  unfold split_by.
  apply relates_bind; [apply _ | apply relates_pure; [apply _ | apply pure_get_part] |].
  intros x. destruct (_ =? _); [apply relates_analysis_set_type_tag|].
  apply relates_bind; [apply _ | |].
  { apply relates_split_by_what; [apply _ | apply _ | apply relates_analysis_split |].
    intros n. apply relates_pure; [apply _ | apply pure_lambda_type]. }
  intros P. apply relates_bind; [apply _ | analysis_auto |]. intros _.
  apply relates_do_while_split_next; [apply _ | apply _ |]. intros Y _.
  apply relates_bind; [apply _ | apply relates_pure; [apply _ | apply pure_get_part] |].
  intros y. destruct (_ && _); [|apply relates_pure; [apply _ | apply pure_ret]].
  apply relates_bind; [apply _ | |].
  { apply relates_split_by_what; [apply _ | apply _ | apply relates_analysis_split |].
    intros n. analysis_auto. }
  intros Q. apply relates_do_while_split_next; [apply _ | apply _ |]. intros Z _.
  apply relates_bind; [apply _ | apply relates_pure; [apply _ | apply pure_get_part] |].
  intros z. destruct (_ <? _); [|apply relates_pure; [apply _ | apply pure_ret]].
  apply relates_bind; [apply _ | apply relates_pure; [apply _ | apply pure_get_first_node] |].
  intros first.
  apply relates_bind; [apply _ | apply relates_pure; [apply _ | apply pure_get_irn] |].
  intros fi.
  apply relates_bind; [apply _ | apply relates_pure; [apply _ | apply pure_gets] |].
  intros e. apply relates_analysis_split_by_inputs.
  intros n. destruct (_ && _); eauto with pure.
Qed.
#[local] Hint Resolve relates_analysis_split_by : relates.

Lemma relates_analysis_propagate_round cv tadd tsub teor cmp comm iters fuel X cp :
  relates analysis_kept (propagate_round cv tadd tsub teor cmp comm iters fuel X cp).
Proof. unfold propagate_round. analysis_auto. Qed.
#[local] Hint Resolve relates_analysis_propagate_round : relates.

Lemma relates_analysis_propagate cv tadd tsub teor cmp comm rounds iters fuel :
  relates analysis_kept (propagate cv tadd tsub teor cmp comm rounds iters fuel).
Proof.
  induction rounds as [|rounds IH]; cbn; [by intros ? ? ? ?|]. analysis_auto.
Qed.
#[local] Hint Resolve relates_analysis_propagate : relates.

Lemma keeps_av_add_to_touched y : keeps analysis_view (add_to_touched y).
Proof. unfold add_to_touched, check_list. keeps_auto. Qed.
#[local] Hint Resolve keeps_av_add_to_touched : keeps.

Lemma keeps_av_is_live_input phi i : keeps analysis_view (is_live_input phi i).
Proof. unfold is_live_input. keeps_auto. Qed.
#[local] Hint Resolve keeps_av_is_live_input : keeps.

Lemma keeps_av_collect_touched_edges comm cfuel fuel x idx end_idx num_edges :
  keeps analysis_view (collect_touched_edges comm cfuel fuel x idx end_idx num_edges).
Proof.
  induction fuel as [|fuel IH]; cbn [collect_touched_edges]; [by intros ? ? ? ?|].
  keeps_auto.
Qed.
#[local] Hint Resolve keeps_av_collect_touched_edges : keeps.

Lemma keeps_av_collect_commutative_touched_edges comm cfuel fuel x num_edges :
  keeps analysis_view (collect_commutative_touched_edges comm cfuel fuel x num_edges).
Proof.
  induction fuel as [|fuel IH]; cbn [collect_commutative_touched_edges];
    [by intros ? ? ? ?|].
  keeps_auto.
Qed.
#[local] Hint Resolve keeps_av_collect_commutative_touched_edges : keeps.

Lemma keeps_av_split_touched_aa_ab l aa ab :
  keeps analysis_view (split_touched_aa_ab l aa ab).
Proof. revert aa ab. induction l as [|e l IH]; intros aa ab; cbn; keeps_auto. Qed.
#[local] Hint Resolve keeps_av_split_touched_aa_ab : keeps.

Lemma relates_analysis_split_if_proper fuel Z t n :
  relates analysis_kept (split_if_proper fuel Z t n).
Proof. unfold split_if_proper. analysis_auto. Qed.
#[local] Hint Resolve relates_analysis_split_if_proper : relates.

Lemma relates_analysis_cause_splits_inputs comm cfuel fuel rounds X idx :
  relates analysis_kept (cause_splits_inputs comm cfuel fuel rounds X idx).
Proof.
  revert idx. induction rounds as [|rounds IH]; intros idx; cbn [cause_splits_inputs];
    [by intros ? ? ? ?|].
  unfold collect_touched, cause_splits_round. analysis_auto.
Qed.
#[local] Hint Resolve relates_analysis_cause_splits_inputs : relates.

Lemma relates_analysis_cause_splits comm cfuel fuel rounds :
  relates analysis_kept (cause_splits comm cfuel fuel rounds).
Proof.
  unfold cause_splits, collect_commutative_touched, cause_splits_commutative_round.
  analysis_auto.
Qed.
#[local] Hint Resolve relates_analysis_cause_splits : relates.

Lemma relates_analysis_combo_analysis cv tadd tsub teor cmp comm n rounds iters cfuel fuel :
  relates analysis_kept
    (combo_analysis cv tadd tsub teor cmp comm n rounds iters cfuel fuel).
Proof.
  induction n as [|n IH]; cbn [combo_analysis]; [by intros ? ? ? ?|]. analysis_auto.
Qed.

(** The analysis of [combo], rounds of constant propagation and of
    splitting until the cprop list and the work list are empty, never
    changes a node of the graph but for the order of its Def-Use edges,
    and leader edges that were sorted by input position when it started
    are sorted when it returns. *)
Theorem combo_analysis_keeps_edges cv tadd tsub teor cmp comm n rounds iters cfuel fuel
    s s' :
  combo_analysis cv tadd tsub teor cmp comm n rounds iters cfuel fuel s = Ok (tt, s') ->
  same_edges s s' /\ (leader_edges_sorted s -> leader_edges_sorted s').
Proof. intros H. by apply relates_analysis_combo_analysis in H as [He _]. Qed.

Lemma combo_analysis_keeps_edges_witness :
  let s' := final_state
              (combo_analysis Ex.computed_value Ex.tarval_add Ex.tarval_sub Ex.tarval_eor
                 Ex.no_cmp_attr Ex.is_op_commutative 10 10 20 5 40) Ex.cprop_state in
  same_edges Ex.cprop_state s'
  /\ (leader_edges_sorted Ex.cprop_state -> leader_edges_sorted s').
Proof.
  refine (combo_analysis_keeps_edges Ex.computed_value Ex.tarval_add Ex.tarval_sub
            Ex.tarval_eor Ex.no_cmp_attr Ex.is_op_commutative 10 10 20 5 40
            Ex.cprop_state _ _).
  vm_compute. reflexivity.
Defined.



(** ** Grouping by what *)

Lemma remove_dups_snoc {K} `{EqDecision K} (l : list K) (a : K) :
  remove_dups (l ++ [a]) = remove_dups (filter (fun k => k <> a) l) ++ [a].
Proof.
  induction l as [|x l IH]; [done|]. cbn [app remove_dups]. rewrite filter_cons.
  destruct (decide (x <> a)) as [Hne|Heq].
  - cbn [remove_dups]. rewrite IH.
    destruct (decide_rel elem_of x (l ++ [a])) as [Hin|Hnin];
      destruct (decide_rel elem_of x (filter (fun k => k <> a) l)) as [Hin'|Hnin'];
      try done.
    + exfalso. apply Hnin'. apply list_elem_of_filter. split; [done|].
      apply elem_of_app in Hin as [|Hin]; [done|].
      by apply list_elem_of_singleton in Hin.
    + exfalso. apply Hnin. apply elem_of_app. left.
      by apply list_elem_of_filter in Hin' as [_ ?].
  - apply dec_stable in Heq. subst.
    destruct (decide_rel elem_of a (l ++ [a])) as [Hin|Hnin]; [done|].
    exfalso. apply Hnin. apply elem_of_app. right. left.
Qed.

(** The map after the first loop of [split_by_what], started with [map]:
    new groups in front, the groups of [map] extended. *)
Lemma split_by_what_collect_spec {K} `{EqDecision K} (What : nat -> M (option K))
    (what : nat -> option K) leaders (map : list (K * list nat)) s :
  (forall x, x ∈ leaders -> What x s = Ok (what x, s)) ->
  split_by_what_collect What leaders map s
  = Ok (((fun k => (k, reverse (filter (fun x => what x = Some k) leaders)))
           <$> remove_dups (reverse (filter (fun k => k ∉ map.*1) (omap what leaders))))
        ++ ((fun e : K * list nat =>
               (e.1, reverse (filter (fun x => what x = Some e.1) leaders) ++ e.2))
              <$> map), s).
Proof.
  revert map. induction leaders as [|x leaders IH]; intros map HW.
  { cbn. unfold mret, M_ret. do 2 f_equal. induction map as [|[k l] map IHm]; [done|].
    cbn. by rewrite <- IHm. }
  cbn [split_by_what_collect].
  rewrite (bind_Ok _ _ _ _ _ (HW x ltac:(left))).
  assert (forall y, y ∈ leaders -> What y s = Ok (what y, s)) as HW'
    by (intros y Hy; apply HW; by right).
  change (omap what (x :: leaders))
    with (match what x with Some y => y :: omap what leaders | None => omap what leaders end).
  destruct (what x) as [id|] eqn:Hx.
  2:{ rewrite IH by done. f_equal. f_equal. f_equal.
      - apply list_fmap_ext. intros _ k _. by rewrite filter_cons_False by congruence.
      - apply list_fmap_ext. intros _ e _. by rewrite filter_cons_False by congruence. }
  rewrite IH by done. f_equal. f_equal.
  unfold listmap_find.
  assert (forall m : list (K * list nat), (listmap_push m id x).*1 = m.*1) as Hkeys.
  { intros m. unfold listmap_push. rewrite <- list_fmap_compose.
    apply list_fmap_ext. intros _ e _. cbn. by destruct (bool_decide (e.1 = id)). }
  destruct (decide (id ∈ map.*1)) as [Hin|Hnin].
  - rewrite bool_decide_true by done. rewrite Hkeys.
    rewrite filter_cons_False by (by intros ?).
    f_equal.
    + apply list_fmap_ext. intros i k Hk.
      apply list_elem_of_lookup_2 in Hk. rewrite elem_of_remove_dups, elem_of_reverse in Hk.
      apply list_elem_of_filter in Hk as [Hk _].
      rewrite filter_cons_False; [done|]. intros Heq. rewrite Hx in Heq.
      by injection Heq as <-.
    + unfold listmap_push. rewrite <- list_fmap_compose.
      apply list_fmap_ext. intros _ [k l] _. unfold compose. cbn [fst snd].
      destruct (decide (k = id)) as [->|Hne].
      * rewrite bool_decide_true by done. cbn [fst snd].
        rewrite filter_cons_True by done. rewrite reverse_cons.
        by rewrite <- app_assoc.
      * rewrite bool_decide_false by done. cbn [fst snd].
        by rewrite filter_cons_False by congruence.
  - rewrite bool_decide_false by done. rewrite Hkeys. cbn [fmap list_fmap fst].
    rewrite filter_cons_True by done. rewrite reverse_cons, remove_dups_snoc.
    rewrite fmap_app. cbn [fmap list_fmap]. rewrite <- app_assoc. cbn [app].
    rewrite filter_cons_True by done. rewrite reverse_cons.
    rewrite filter_reverse, list_filter_filter.
    rewrite (list_filter_iff (fun k => k <> id /\ k ∉ map.*1) (fun k => k ∉ id :: map.*1))
      by (intros k; rewrite not_elem_of_cons; tauto).
    f_equal.
    + apply list_fmap_ext. intros i k Hk.
      apply list_elem_of_lookup_2 in Hk. rewrite elem_of_remove_dups, elem_of_reverse in Hk.
      apply list_elem_of_filter in Hk as [Hk _]. apply not_elem_of_cons in Hk as [Hk _].
      rewrite filter_cons_False; [done|]. intros Heq. rewrite Hx in Heq.
      by injection Heq as <-.
    + unfold listmap_push. cbn [fmap list_fmap fst snd].
      rewrite bool_decide_true by done. cbn [fst snd]. f_equal.
      rewrite <- list_fmap_compose. apply list_fmap_ext. intros i [k l] He.
      unfold compose. cbn [fst snd].
      assert (k <> id) as Hne.
      { intros ->. apply Hnin. apply list_elem_of_fmap. exists (id, l).
        split; [done|]. by eapply list_elem_of_lookup_2. }
      rewrite bool_decide_false by done. cbn [fst snd].
      rewrite filter_cons_False; [done|]. intros Heq. rewrite Hx in Heq.
      by injection Heq as <-.
Qed.

Lemma filter_all {A} (P : A -> Prop) `{forall x, Decision (P x)} (l : list A) :
  (forall x, P x) -> filter P l = l.
Proof.
  intros HP. induction l as [|x l IH]; [done|].
  rewrite filter_cons_True by done. by rewrite IH.
Qed.

Lemma remove_dups_agree {K} `{EqDecision K} (l : list K) :
  (forall a b, a ∈ l -> b ∈ l -> a = b) -> length (remove_dups l) <= 1.
Proof.
  intros Hall. pose proof (NoDup_remove_dups l) as Hnd.
  destruct (remove_dups l) as [|a [|b r]] eqn:Hr; cbn; [lia..|]. exfalso.
  assert (a = b) as ->.
  { apply Hall; apply elem_of_remove_dups; rewrite Hr; [left | right; left]. }
  apply NoDup_cons in Hnd as [Hnot _]. apply Hnot. left.
Qed.

(** The first loop of [split_by_what] groups the leaders by their id: with
    a what function that only reads, the partition is split once for every
    id but the one met first, from the id met last on, each time by the
    leaders with that id, the one met last first.  A partition whose
    leaders all have the same id, or none, is left as it is. *)
Theorem split_by_what_groups {K} `{EqDecision K} fuel X (What : nat -> M (option K))
    (what : nat -> option K) P s x0 :
  obst s !! X = Some x0 ->
  (forall x, x ∈ Leader x0 -> What x s = Ok (what x, s)) ->
  split_by_what fuel X What P s
  = ('(X', P') ← split_by_what_values fuel X (what_groups what (Leader x0)) P;
     mret (X' :: P')) s
  /\ ((forall x y, x ∈ Leader x0 -> y ∈ Leader x0 -> what x = what y) ->
      split_by_what fuel X What P s = Ok (X :: P, s)).
Proof.
  intros HX HW.
  assert (split_by_what fuel X What P s
          = ('(X', P') ← split_by_what_values fuel X (what_groups what (Leader x0)) P;
             mret (X' :: P')) s) as Heq.
  { unfold split_by_what. rewrite (bind_Ok _ _ _ _ _ (get_part_Ok _ _ _ HX)).
    erewrite bind_Ok by (by apply split_by_what_collect_spec).
    cbn [fmap list_fmap]. rewrite app_nil_r.
    by rewrite filter_all by (intros k; apply not_elem_of_nil). }
  split; [done|]. intros Hall. rewrite Heq. unfold what_groups.
  assert (length (remove_dups (reverse (omap what (Leader x0)))) <= 1) as Hlen.
  { apply remove_dups_agree. intros a b Ha Hb.
    apply elem_of_reverse, list_elem_of_omap in Ha as (x & Hx & Ha).
    apply elem_of_reverse, list_elem_of_omap in Hb as (y & Hy & Hb).
    specialize (Hall x y Hx Hy). congruence. }
  destruct (remove_dups _) as [|a [|b r]]; cbn in Hlen; [done | done | lia].
Qed.

Lemma split_by_what_groups_witness :
  let s := set_env (with_lambda_input 0) Ex.touch_state in
  let what := fun x => if decide (x = 1) then Some 0 else Some 2 in
  split_by_what 40 1 lambda_partition [] s
  = ('(X', P') ← split_by_what_values 40 1 (what_groups what [1; 2; 3]) [];
     mret (X' :: P')) s
  /\ ((forall x y, x ∈ [1; 2; 3] -> y ∈ [1; 2; 3] -> what x = what y) ->
      split_by_what 40 1 lambda_partition [] s = Ok ([1], s)).
Proof.
  cbv zeta.
  refine (split_by_what_groups 40 1 lambda_partition
            (fun x => if decide (x = 1) then Some 0 else Some 2) []
            (set_env (with_lambda_input 0) Ex.touch_state)
            (with_n_leader 3 (with_node_list [1; 2; 3] [] empty_partition)) _ _).
  - vm_compute. reflexivity.
  - intros x Hx. cbn in Hx.
    repeat (apply elem_of_cons in Hx as [->|Hx]; [vm_compute; reflexivity|]).
    by apply elem_of_nil in Hx.
Defined.

(** ** Splitting commutative nodes by their inputs *)

Lemma skip_Proj_other s n irn :
  irg s !! n = Some irn -> irn_op irn <> iro_Proj -> skip_Proj n s = Ok (n, s).
Proof.
  intros Hn Hop. unfold skip_Proj. rewrite (bind_Ok _ _ _ _ _ (get_irn_Ok _ _ _ Hn)).
  by rewrite bool_decide_false.
Qed.

(** For a commutative node the id of input 0 and of input 1 does not depend
    on the order of the two operands: [op(a, b)] and [op(b, a)] get the same
    id for either input, so that a split by input never separates them. *)
Theorem lambda_commutative_partition_symmetric comm s n1 n2 irn1 irn2 a b :
  irg s !! n1 = Some irn1 -> irg s !! n2 = Some irn2 ->
  irn_in irn1 = [a; b] -> irn_in irn2 = [b; a] ->
  irn_op irn1 = irn_op irn2 -> irn_op irn1 <> iro_Proj -> comm (irn_op irn1) = true ->
  irn_pinned irn1 = irn_pinned irn2 ->
  (0 <= lambda_input (env s))%Z ->
  lambda_commutative_partition comm n1 s = lambda_commutative_partition comm n2 s.
Proof.
  intros H1 H2 Hin1 Hin2 Hop Hproj Hcomm Hpin Hi.
  unfold lambda_commutative_partition.
  rewrite (bind_Ok _ _ _ _ _ (skip_Proj_other _ _ _ H1 Hproj)).
  rewrite (bind_Ok (skip_Proj n2) _ _ _ _
             (skip_Proj_other _ _ _ H2 ltac:(congruence))).
  rewrite !(bind_Ok (gets _) _ s _ s eq_refl).
  rewrite (bind_Ok _ _ _ _ _ (get_irn_Ok _ _ _ H1)).
  rewrite (bind_Ok (get_irn n2) _ _ _ _ (get_irn_Ok _ _ _ H2)).
  unfold get_irn_arity. rewrite Hin1, Hin2. cbn [length].
  destruct (_ <=? _)%Z; [done|].
  rewrite (bind_Ok _ _ _ _ _ (get_irn_Ok _ _ _ H1)).
  rewrite (bind_Ok (get_irn n2) _ _ _ _ (get_irn_Ok _ _ _ H2)).
  rewrite <- Hpin. destruct (_ && _); [done|].
  destruct (lambda_input (env s) =? -1)%Z eqn:Hm1; [apply Z.eqb_eq in Hm1; lia|].
  rewrite <- Hop, Hcomm.
  unfold get_binop_left, get_binop_right, get_irn_n. rewrite Hin1, Hin2. cbn [lookup list_lookup].
  cbv [get_irn_node mbind M_bind mret M_ret deref abort].
  destruct (link s !! a) as [na|] eqn:Ha, (link s !! b) as [nb|] eqn:Hb;
    cbv beta iota; rewrite ?Ha, ?Hb; cbv beta iota; rewrite ?Ha, ?Hb; try done.
  destruct (_ =? 0)%Z;
    destruct (part na <? part nb) eqn:E1, (part nb <? part na) eqn:E2; try done;
    (apply Nat.ltb_lt in E1 || apply Nat.ltb_ge in E1);
    (apply Nat.ltb_lt in E2 || apply Nat.ltb_ge in E2);
    first [lia | replace (part na) with (part nb) by lia; done].
Qed.

Lemma lambda_commutative_partition_symmetric_witness :
  let s := set_env (with_lambda_input 1) Ex.swapped_state in
  lambda_commutative_partition Ex.is_op_commutative 2 s
  = lambda_commutative_partition Ex.is_op_commutative 3 s.
Proof.
  cbv zeta.
  refine (lambda_commutative_partition_symmetric Ex.is_op_commutative
            (set_env (with_lambda_input 1) Ex.swapped_state) 2 3
            (Ex.irn iro_Add Ex.Is 9 [0; 1]) (Ex.irn iro_Add Ex.Is 9 [1; 0]) 0 1
            _ _ _ _ _ _ _ _ _); try reflexivity; [done | cbn; lia].
Defined.
